(** * Grid-sheet composition engine: a shallow embedding and its properties

    The development follows the sources it verifies:
    - [Utils] embeds [getRatio], [parseMaskIndices] and [drawAsync];
    - [App] embeds [runGeneration], the batch scheduler that drives
      [drawAsync] once per sheet and hands every finished sheet to the
      canvas encoder.

    Conventions of the embedding.
    - A JavaScript string is the list of its UTF-16 code units.
    - A JavaScript number that is used as a count or an index is a [Z].
      What [parseInt] returns is rounded to the nearest double, an infinity
      being written 2^1024, and so is the [k++] of the loop over a range of
      mask indices; the lengths, positions and batch numbers of the program
      stay below 2^53, where a double holds every integer.
    - A number used in geometry is a [jsnum], a rational or [NaN], and
      [NaN] also stands for the two infinities. Arithmetic on these numbers
      is exact; [double] rounds a result to the nearest double, and is
      applied to the quotients and products that the program cuts to an
      integer afterwards: the height of a cell and the size of the quality
      preview.
    - An array takes a limited number of elements, which the environment
      gives; the [push] that would exceed it throws a [RangeError], and a
      function that can throw returns an [option].
    - The browser is an environment record of oracles: what each image
      decode attempt reports, what the encoder answers for each sheet, and
      at which suspension point the user cancels.
    - Asynchronous code is run sequentially on a state that carries a
      logical clock, advanced by every [await], and the trace of the
      effects performed so far. *)

From Stdlib Require Import String Ascii ZArith NArith QArith Qround List Bool Lia Lqa.
Import ListNotations.

Set Implicit Arguments.

Open Scope string_scope.
Open Scope Z_scope.
Open Scope list_scope.

(** ** JavaScript values *)

Module Js.

(** UTF-16 code units. *)
Definition jsstring := list N.

Definition ofAscii (s : string) : jsstring :=
  List.map N_of_ascii (list_ascii_of_string s).

(** WhiteSpace and LineTerminator code units: what [\s], [trim] and the
    prefix skipped by [parseInt] all agree on. *)
Definition isWhiteSpace (c : N) : bool :=
  ((9 <=? c) && (c <=? 13) || (c =? 32) || (c =? 0xA0) || (c =? 0x1680)
   || (0x2000 <=? c) && (c <=? 0x200A)
   || (c =? 0x2028) || (c =? 0x2029) || (c =? 0x202F) || (c =? 0x205F)
   || (c =? 0x3000) || (c =? 0xFEFF))%N.

Fixpoint trimStart (s : jsstring) : jsstring :=
  match s with
  | c :: s' => if isWhiteSpace c then trimStart s' else s
  | [] => []
  end.

Definition trim (s : jsstring) : jsstring :=
  rev (trimStart (rev (trimStart s))).

(** [s.split(sep)] for a one-unit separator string. *)
Fixpoint splitOn (sep : N) (cur : jsstring) (s : jsstring) : list jsstring :=
  match s with
  | [] => [rev cur]
  | c :: s' =>
      if (c =? sep)%N then rev cur :: splitOn sep [] s'
      else splitOn sep (c :: cur) s'
  end.

(** [s.split(/[...]+/)] for a character class [cls]: a maximal run of
    class members is one separator; a run at either end of the input
    leaves an empty field there, and the empty input gives one empty
    field. *)
Fixpoint splitClass (cls : N -> bool) (inRun : bool) (cur : jsstring)
         (s : jsstring) : list jsstring :=
  match s with
  | [] => [rev cur]
  | c :: s' =>
      if cls c then
        if inRun then splitClass cls true [] s'
        else rev cur :: splitClass cls true [] s'
      else splitClass cls false (c :: cur) s'
  end.

(** Value of a digit in radix 10 or 16. *)
Definition digitValue (radix : Z) (c : N) : option Z :=
  if ((48 <=? c) && (c <=? 57))%N then Some (Z.of_N c - 48)
  else if (radix =? 16) && ((97 <=? c) && (c <=? 102))%N then Some (Z.of_N c - 87)
  else if (radix =? 16) && ((65 <=? c) && (c <=? 70))%N then Some (Z.of_N c - 55)
  else None.

(** The longest prefix of radix digits, accumulated left to right; [seen]
    records whether at least one digit was read. *)
Fixpoint readDigits (radix : Z) (acc : Z) (seen : bool) (s : jsstring)
  : option Z :=
  match s with
  | c :: s' =>
      match digitValue radix c with
      | Some d => readDigits radix (acc * radix + d) true s'
      | None => if seen then Some acc else None
      end
  | [] => if seen then Some acc else None
  end.

(** The integer [parseInt(s)] reads, with no radix argument, before it is
    made a double; [None] when it reads none. *)
Definition mathInt (s : jsstring) : option Z :=
  let s := trimStart s in
  let '(sign, s) :=
    match s with
    | c :: s' =>
        if (c =? 45)%N then (-1, s')
        else if (c =? 43)%N then (1, s')
        else (1, s)
    | [] => (1, s)
    end in
  let '(radix, s) :=
    match s with
    | z :: x :: s' =>
        if ((z =? 48) && ((x =? 120) || (x =? 88)))%N then (16, s') else (10, s)
    | _ => (10, s)
    end in
  match readDigits radix 0 false s with
  | Some n => Some (sign * n)
  | None => None
  end.

(** The double nearest to an integer, a tie going to the even significand:
    a double holds 53 significant bits. An integer beyond the largest double
    becomes an infinity, written here [2^1024] with its sign: as the
    infinity does, it lies beyond every double and is not changed by
    adding 1. *)
Definition toDouble (n : Z) : Z :=
  let a := Z.abs n in
  if a <? 2 ^ 53 then n
  else
    let e := Z.log2 a - 52 in
    let q := a / 2 ^ e in
    let r := a mod 2 ^ e in
    let q :=
      if (2 ^ (e - 1) <? r) || ((r =? 2 ^ (e - 1)) && Z.odd q) then q + 1
      else q in
    Z.sgn n * Z.min (q * 2 ^ e) (2 ^ 1024).

(** [parseInt(s)] with no radix argument; [None] is [NaN]. The digits are
    read exactly and the result rounded once, as the engines do. *)
Definition parseInt (s : jsstring) : option Z :=
  option_map toDouble (mathInt s).

(** Numbers used in geometry. *)
Inductive jsnum : Type :=
| Num (q : Q)
| NaN
| Undef.

Definition truthy (v : jsnum) : bool :=
  match v with
  | Num q => negb (Qeq_bool q 0)
  | _ => false
  end.

(** [a || b] on numbers. *)
Definition orElse (a b : jsnum) : jsnum := if truthy a then a else b.

Definition lift2 (f : Q -> Q -> Q) (a b : jsnum) : jsnum :=
  match a, b with
  | Num x, Num y => Num (f x y)
  | _, _ => NaN
  end.

Definition add := lift2 Qplus.
Definition sub := lift2 Qminus.
Definition mul := lift2 Qmult.

Definition div (a b : jsnum) : jsnum :=
  match a, b with
  | Num x, Num y => if Qeq_bool y 0 then NaN else Num (x / y)
  | _, _ => NaN
  end.

Definition floor (a : jsnum) : jsnum :=
  match a with
  | Num x => Num (inject_Z (Qfloor x))
  | _ => NaN
  end.

(** [a > b]; false as soon as one side is not a number. *)
Definition gt (a b : jsnum) : bool :=
  match a, b with
  | Num x, Num y => negb (Qle_bool x y)
  | _, _ => false
  end.

Definition ofZ (z : Z) : jsnum := Num (inject_Z z).

(** The integer nearest to [n / d], a tie going to the even one, for
    [0 <= n] and [0 < d]. *)
Definition roundEven (n d : Z) : Z :=
  let q := n / d in
  let r := n mod d in
  if (d <? 2 * r) || ((2 * r =? d) && Z.odd q) then q + 1 else q.

(** The double nearest to a rational: 53 significant bits, a tie going to
    the even significand. (The doubles below 2^-1022, which have fewer
    bits, are not met.) *)
Definition nearestDouble (x : Q) : Q :=
  let n := Z.abs (Qnum x) in
  let d := Zpos (Qden x) in
  if n =? 0 then 0%Q
  else
    let l := Z.log2 n - Z.log2 d in
    let t :=
      if (if 0 <=? l then d * 2 ^ l <=? n else d <=? n * 2 ^ (- l)) then l
      else l - 1 in
    let e := t - 52 in
    let m :=
      if 0 <=? e then roundEven n (d * 2 ^ e) else roundEven (n * 2 ^ (- e)) d in
    let v :=
      if 0 <=? e then inject_Z (m * 2 ^ e)
      else Qmake m (Z.to_pos (2 ^ (- e))) in
    (inject_Z (Z.sgn (Qnum x)) * v)%Q.

(** The result of an arithmetic operation on doubles, as it is stored: the
    double nearest to the exact result, and no number beyond the largest
    double. *)
Definition double (a : jsnum) : jsnum :=
  match a with
  | Num x =>
      let v := nearestDouble x in
      if Qle_bool (inject_Z (2 ^ 1024)) (Qmake (Z.abs (Qnum v)) (Qden v))
      then NaN else Num v
  | _ => a
  end.

End Js.

Declare Scope js_scope.
Delimit Scope js_scope with js.
Infix "+" := Js.add : js_scope.
Infix "-" := Js.sub : js_scope.
Infix "*" := Js.mul : js_scope.
Infix "/" := Js.div : js_scope.
Infix ">?" := Js.gt (at level 70) : js_scope.
Infix "||" := Js.orElse : js_scope.

Module JsString.
Import Js.

Fixpoint eqb (a b : jsstring) : bool :=
  match a, b with
  | [], [] => true
  | x :: a', y :: b' => (x =? y)%N && eqb a' b'
  | _, _ => false
  end.

Fixpoint startsWith (p s : jsstring) : bool :=
  match p, s with
  | [], _ => true
  | x :: p', y :: s' => (x =? y)%N && startsWith p' s'
  | _ :: _, [] => false
  end.

(** [s.includes(p)]. *)
Fixpoint includes (p s : jsstring) : bool :=
  startsWith p s ||
  match s with
  | [] => false
  | _ :: s' => includes p s'
  end.

(** A string is truthy when it is not empty. *)
Definition truthy (s : jsstring) : bool :=
  match s with [] => false | _ :: _ => true end.

Definition isDecimalDigit (c : N) : bool := ((48 <=? c) && (c <=? 57))%N.

(** The longest prefix of decimal digits and what follows it. *)
Fixpoint spanDigits (s : jsstring) : jsstring * jsstring :=
  match s with
  | c :: s' =>
      if isDecimalDigit c then let '(d, r) := spanDigits s' in (c :: d, r)
      else ([], s)
  | [] => ([], [])
  end.

Definition decimalValue (ds : jsstring) : Z :=
  fold_left (fun a c => a * 10 + (Z.of_N c - 48)) ds 0.

Definition readSign (s : jsstring) : Z * jsstring :=
  match s with
  | c :: s' =>
      if (c =? 45)%N then (-1, s')
      else if (c =? 43)%N then (1, s')
      else (1, s)
  | [] => (1, s)
  end.

(** [parseFloat(s)]: the longest prefix that is a decimal literal, with an
    optional fraction and an optional exponent. The literal [Infinity] is
    read as [NaN], which stands for the non-finite values. *)
Definition parseFloat (s : jsstring) : jsnum :=
  let '(sign, s) := readSign (trimStart s) in
  let '(ip, r1) := spanDigits s in
  let '(fp, r2) :=
    match r1 with
    | c :: r => if (c =? 46)%N then spanDigits r else ([], r1)
    | [] => ([], r1)
    end in
  match ip ++ fp with
  | [] => NaN
  | ds =>
      let ex :=
        match r2 with
        | c :: r =>
            if ((c =? 101) || (c =? 69))%N then
              let '(es, r') := readSign r in
              let '(ed, _) := spanDigits r' in
              match ed with [] => 0 | _ => es * decimalValue ed end
            else 0
        | [] => 0
        end in
      Num (inject_Z sign * inject_Z (decimalValue ds)
           * Qpower (10 # 1) (ex - Z.of_nat (length fp)))%Q
  end.

End JsString.

Coercion Js.ofAscii : string >-> Js.jsstring.

(** ** types.ts *)

Module Types.
Import Js.

Inductive MaskMode := line | image.
Inductive LineStyle := cross | slash.

Record Settings := {
  aspectRatio : jsstring;
  customW : jsnum;
  customH : jsnum;
  gap : Q;
  showNum : bool;
  startNumber : Z;
  fontSize : Q;
  fontWeight : jsstring;
  fontColor : jsstring;
  enableStroke : bool;
  fontStrokeColor : jsstring;
  fontShadowColor : jsstring;
  enableShadow : bool;
  fontFamily : jsstring;
  fontPos : jsstring;
  cols : Z;
  groupRows : Z;
  overlayImgUrl : option jsstring;
  overlayMode : jsstring;
  overlayOpacity : Q;
  qualityVal : Z;
  maskMode : MaskMode;
  maskIndices : jsstring;
  maskColor : jsstring;
  maskWidth : Q;
  lineStyle : LineStyle;
  stickerImgUrl : option jsstring;
  stickerSize : Q;
  stickerX : Q;
  stickerY : Q
}.

Record ImageItem := {
  id : jsstring;
  url : jsstring;
  name : jsstring;
  size : Z
}.

End Types.

(** ** The browser: images, the canvas and the trace of effects *)

Module Dom.
Import Js.

(** What an image element reports once its load has settled. *)
Record Bitmap := {
  naturalWidth : Z;
  naturalHeight : Z;
  complete : bool;
  width : Z;
  height : Z
}.

(** An image element together with the flag [drawAsync] hangs on it. *)
Record HTMLImage := {
  bitmap : Bitmap;
  isBroken : bool
}.

Inductive LoadEvent := OnLoad (b : Bitmap) | OnError.

Inductive Align := AlignLeft | AlignRight | AlignCenter.
Inductive Text := Glyph (s : jsstring) | Digits (n : Z).

(** Calls and assignments on the 2D context and its canvas. *)
Inductive Cmd :=
| SetWidth (v : Z)
| SetHeight (v : Z)
| FillStyle (c : jsstring)
| StrokeStyle (c : jsstring)
| FillRect (x y w h : jsnum)
| ClearRect (x y w h : jsnum)
| SetFont (weight : jsstring) (px : jsnum) (family : jsstring)
| TextAlign (a : Align)
| FillText (t : Text) (x y : jsnum)
| StrokeText (t : Text) (x y : jsnum)
| Save
| Restore
| BeginPath
| Rect (x y w h : jsnum)
| Clip
| DrawImage (img : Bitmap) (dx dy dw dh : jsnum)
| LineWidth (v : jsnum)
| LineJoinRound
| MiterLimit (v : jsnum)
| LineCapRound
| ShadowColor (c : jsstring)
| ShadowBlur (v : jsnum)
| ShadowOffsetX (v : jsnum)
| ShadowOffsetY (v : jsnum)
| MoveTo (x y : jsnum)
| LineTo (x y : jsnum)
| Stroke
| GlobalAlpha (v : jsnum)
| GlobalCompositeOperation (mode : jsstring).

(** The canvas: its size and what was painted since it was last resized. *)
Record Surface := {
  canvasWidth : Z;
  canvasHeight : Z;
  painted : list Cmd
}.

Inductive Mime := ImagePng | ImageJpeg.

Record Blob := {
  blobType : Mime;
  blobSize : Z
}.

Inductive EncodeResult :=
| Produced (b : Blob)
| Null
| Throws (message : jsstring).

(** Where the cancellation flag is read. *)
Inductive PollPoint :=
| DrawStart
| CellStart
| AfterAcquire
| BatchStart
| BeforeEncode
| BeforePublish
| InCatch.

Inductive Suspension :=
| Timer (ms : Z)
| ImageSettled
| ToBlob.

Inductive Message :=
| PleaseAddImages
| GenerationInterrupted (message : jsstring).

Inductive LoadingText :=
| Preparing
| Generating (batch total : Z).

Inductive Event :=
| Wait (s : Suspension)
| Poll (p : PollPoint) (v : bool)
| Canvas (c : Cmd)
| AssignSrc (src : jsstring)
| MarkBroken
| Release
| Encode (sheet : Surface) (mime : Mime) (quality : option Q)
         (answer : EncodeResult)
| SetGeneratedBlobs (blobs : list Blob)
| SetIsLoading (b : bool)
| SetLoadingText (t : LoadingText)
| ScrollToResult
| Alert (m : Message).

Definition Trace := list Event.

(** The logical clock: the number of suspensions so far. *)
Fixpoint clock (tr : Trace) : nat :=
  match tr with
  | Wait _ :: tr' => S (clock tr')
  | _ :: tr' => clock tr'
  | [] => O
  end.

Definition paint (s : Surface) (e : Event) : Surface :=
  match e with
  | Canvas (SetWidth v) =>
      {| canvasWidth := v; canvasHeight := canvasHeight s; painted := [] |}
  | Canvas (SetHeight v) =>
      {| canvasWidth := canvasWidth s; canvasHeight := v; painted := [] |}
  | Canvas c =>
      {| canvasWidth := canvasWidth s; canvasHeight := canvasHeight s;
         painted := painted s ++ [c] |}
  | _ => s
  end.

(** A canvas element starts 300 by 150 and blank. *)
Definition blankSurface : Surface :=
  {| canvasWidth := 300; canvasHeight := 150; painted := [] |}.

Definition surfaceOf (tr : Trace) : Surface := fold_left paint tr blankSurface.

Fixpoint encodeCount (tr : Trace) : nat :=
  match tr with
  | Encode _ _ _ _ :: tr' => S (encodeCount tr')
  | _ :: tr' => encodeCount tr'
  | [] => O
  end.

(** The environment of one run.
    - [cancelAt = Some t]: the user cancels during suspension number [t]
      (counted from 0), so the flag reads true once the clock exceeds [t];
    - [imageEvent src retries]: which of load and error fires for the
      attempt made with [retries] retries left;
    - [resource url]: the state of a sticker or overlay image once settled;
    - [toBlob n sheet mime quality]: the answer of the encoder to its
      [n]-th call;
    - [canvasRef]: whether the output canvas is mounted;
    - [arrayLimit]: the number of elements an array of the engine takes: a
      [push] on an array that holds as many throws a [RangeError]. The
      language puts it at 2^32 - 1 at most. *)
Record Env := {
  cancelAt : option nat;
  imageEvent : jsstring -> nat -> LoadEvent;
  resource : jsstring -> Bitmap;
  toBlob : nat -> Surface -> Mime -> option Q -> EncodeResult;
  canvasRef : bool;
  arrayLimit : Z
}.

Definition cancelRef (env : Env) (tr : Trace) : bool :=
  match cancelAt env with
  | Some t => (t <? clock tr)%nat
  | None => false
  end.

(** Conversion of a number to the [unsigned long] a canvas dimension
    holds: truncation, modulo 2^32, and 0 for what is not a number. *)
Definition unsignedLong (v : jsnum) : Z :=
  match v with
  | Num q => Z.modulo (Z.quot (Qnum q) (Zpos (Qden q))) (2 ^ 32)
  | _ => 0
  end.

(** The assignment of a number to the width or the height of a canvas.
    The dimension reflects a content attribute that is limited to
    2^31 - 1: a number whose conversion lies above stores the default
    instead, 300 for a width and 150 for a height. *)
Definition dimension (default : Z) (v : jsnum) : Z :=
  let u := unsignedLong v in
  if u <=? 2147483647 then u else default.

End Dom.

(** ** utils: ratio resolution, mask-index parsing and the draw engine *)

Module Utils.
Import Js Types Dom.

Definition getRatio (settings : Settings) : jsnum :=
  if negb (JsString.eqb (aspectRatio settings) "custom") then
    JsString.parseFloat (aspectRatio settings)
  else
    let w := (customW settings || Num 1000)%js in
    let h := (customH settings || Num 1500)%js in
    (w / h)%js.

(** *** parseMaskIndices *)

(** [,] , full-width comma, enumeration comma, or white space. *)
Definition isSeparator (c : N) : bool :=
  ((c =? 0x2C) || (c =? 0xFF0C) || (c =? 0x3001))%N || isWhiteSpace c.

(** [~], em dash, en dash. *)
Definition isRangeMark (c : N) : bool :=
  ((c =? 0x7E) || (c =? 0x2014) || (c =? 0x2013))%N.

Definition hyphen : N := 0x2D.

(** [maskTargets.push(k)]; [None] is the [RangeError] of an array that is
    full. *)
Definition push (limit : Z) (maskTargets : list Z) (k : Z)
  : option (list Z) :=
  if Z.of_nat (length maskTargets) <? limit then Some (maskTargets ++ [k])
  else None.

(** [k++] on a double that holds an integer. *)
Definition increment (k : Z) : Z := toDouble (k + 1).

(** [for (let k = lo; k <= hi; k++) maskTargets.push(k)], run for at most
    [fuel] iterations. From 2^53 on [k++] may leave [k] as it is; the loop
    then pushes for ever, until the array is full. *)
Fixpoint pushRangeLoop (limit : Z) (fuel : nat) (k hi : Z)
         (maskTargets : list Z) : option (list Z) :=
  match fuel with
  | O => None
  | S fuel' =>
      if k <=? hi then
        match push limit maskTargets k with
        | Some maskTargets =>
            if increment k <=? k then None
            else pushRangeLoop limit fuel' (increment k) hi maskTargets
        | None => None
        end
      else Some maskTargets
  end.

(** The loop ends, or throws, within [hi - lo + 2] iterations, [k] growing
    by 1 at least at each of them. *)
Definition pushRange (limit : Z) (lo hi : Z) (maskTargets : list Z)
  : option (list Z) :=
  pushRangeLoop limit (Z.to_nat (hi - lo + 2)) lo hi maskTargets.

(** The body of the [forEach] callback; [None] when it throws. *)
Definition parsePart (limit : Z) (maskTargets : list Z) (part : jsstring)
  : option (list Z) :=
  let part := trim part in
  if negb (JsString.truthy part) then Some maskTargets
  else
    let standardPart :=
      map (fun c => if isRangeMark c then hyphen else c) part in
    if existsb (N.eqb hyphen) standardPart then
      match splitOn hyphen [] standardPart with
      | [a; b] =>
          match parseInt a, parseInt b with
          | Some s, Some e =>
              pushRange limit (Z.min s e) (Z.max s e) maskTargets
          | _, _ => Some maskTargets
          end
      | _ => Some maskTargets
      end
    else
      match parseInt standardPart with
      | Some num => push limit maskTargets num
      | None => Some maskTargets
      end.

(** The [forEach] over the parts: it stops at the first part that throws. *)
Fixpoint parseParts (limit : Z) (maskTargets : list Z)
         (parts : list jsstring) : option (list Z) :=
  match parts with
  | [] => Some maskTargets
  | part :: parts' =>
      match parsePart limit maskTargets part with
      | Some maskTargets => parseParts limit maskTargets parts'
      | None => None
      end
  end.

(** [parseMaskIndices(input)] in an engine whose arrays take [limit]
    elements; [None] is the [RangeError] it throws. *)
Definition parseMaskIndices (limit : Z) (input : jsstring)
  : option (list Z) :=
  let parts := splitClass isSeparator false [] input in
  parseParts limit [] parts.

(** [maskIndices.includes(n)] *)
Definition includes (n : Z) (l : list Z) : bool := existsb (Z.eqb n) l.

(** *** drawAsync *)

Definition emit (evs : list Event) (tr : Trace) : Trace := tr ++ evs.
Definition draw (cmds : list Cmd) (tr : Trace) : Trace :=
  tr ++ map Canvas cmds.

(** How a call ended: it ran to its end, or left through a [return] taken
    on a true reading of the cancellation predicate. *)
Inductive Flow := Completed | Returned.

Section LoadImg.
Variable env : Env.

(** [loadImg(src, retries)], with the image element it settles. *)
Fixpoint loadImg (src : jsstring) (retries : nat) (tr : Trace)
  : HTMLImage * Trace :=
  let tr := emit [AssignSrc src; Wait ImageSettled] tr in
  match imageEvent env src retries with
  | OnLoad b => ({| bitmap := b; isBroken := false |}, tr)
  | OnError =>
      match retries with
      | S retries' =>
          loadImg src retries' (emit [Wait (Timer 200); AssignSrc src] tr)
      | O =>
          ({| bitmap := {| naturalWidth := 0; naturalHeight := 0;
                           complete := true; width := 0; height := 0 |};
              isBroken := true |},
           emit [MarkBroken] tr)
      end
  end.

(** The sticker and the overlay are loaded once per call and their errors
    are ignored. *)
Definition loadResource (url : option jsstring) (tr : Trace)
  : option Bitmap * Trace :=
  match url with
  | Some u =>
      if JsString.truthy u then
        (Some (resource env u), emit [AssignSrc u; Wait ImageSettled] tr)
      else (None, tr)
  | None => (None, tr)
  end.

End LoadImg.

(** The body of the [try]: the placeholder tile or the cover-fit draw. No
    call in it throws on the values that reach it, so the [catch] branch
    has no counterpart here. *)
Definition placeholder (x y w h : jsnum) : list Cmd :=
  [ FillStyle "#f0f0f0"; FillRect x y w h;
    FillStyle "#ccc";
    SetFont "bold" (w / Num 10)%js "sans-serif";
    TextAlign AlignCenter;
    FillText (Glyph "!") (x + w / Num 2)%js (y + h / Num 2)%js ].

Definition coverFit (b : Bitmap) (x y w h : jsnum) : Cmd :=
  let iRatio := (ofZ (width b) / ofZ (height b))%js in
  let cRatio := (w / h)%js in
  if (iRatio >? cRatio)%js then
    DrawImage b (x - (h * iRatio - w) / Num 2)%js y (h * iRatio)%js h
  else
    DrawImage b x (y - (w / iRatio - h) / Num 2)%js w (w / iRatio)%js.

Definition drawImg (img : HTMLImage) (x y w h : jsnum) : list Cmd :=
  if isBroken img
     || (naturalWidth (bitmap img) =? 0)
     || (naturalHeight (bitmap img) =? 0)
     || negb (complete (bitmap img))
  then placeholder x y w h
  else [Save; BeginPath; Rect x y w h; Clip;
        coverFit (bitmap img) x y w h;
        Restore].

(** "Draw Number" *)
Definition drawNumber (settings : Settings) (forceHideNums : bool)
           (currentNum : Z) (x y w h : jsnum) : list Cmd :=
  if showNum settings && negb forceHideNums then
    let fSize := Num (fontSize settings) in
    let fWeight :=
      if JsString.truthy (fontWeight settings) then fontWeight settings
      else ofAscii "bold" in
    let ty :=
      if JsString.eqb (fontPos settings) "center" then
        (y + h / Num 2 + fSize / Num 3)%js
      else if JsString.includes "top" (fontPos settings) then
        (y + fSize + Num 20)%js
      else (y + h - fSize / Num 2)%js in
    let '(tx, align) :=
      if JsString.includes "left" (fontPos settings) then
        ((x + Num 20)%js, AlignLeft)
      else if JsString.includes "right" (fontPos settings) then
        ((x + w - Num 20)%js, AlignRight)
      else ((x + w / Num 2)%js, AlignCenter) in
    [Save; SetFont fWeight fSize (fontFamily settings); TextAlign align]
    ++ (if enableStroke settings then
          [ LineWidth (fSize / Num 12)%js;
            StrokeStyle (fontStrokeColor settings);
            LineJoinRound; MiterLimit (Num 2);
            StrokeText (Digits currentNum) tx ty ]
        else [])
    ++ (if enableShadow settings then
          [ ShadowColor (fontShadowColor settings);
            ShadowBlur (fSize / Num 10)%js;
            ShadowOffsetX (Num 0); ShadowOffsetY (Num 0) ]
        else [ShadowColor "transparent"; ShadowBlur (Num 0)])
    ++ [FillStyle (fontColor settings);
        FillText (Digits currentNum) tx ty;
        Restore]
  else [].

(** "Draw Mask / Sticker" *)
Definition drawMask (settings : Settings) (stickerImgObj : option Bitmap)
           (applyMask : bool) (maskIndices : list Z) (currentNum : Z)
           (x y w h : jsnum) : list Cmd :=
  if applyMask && includes currentNum maskIndices then
    match stickerImgObj with
    | Some s =>
        if complete s && (naturalWidth s >? 0) then
          let sizePct := (Num (stickerSize settings) / Num 100)%js in
          let xPct := (Num (stickerX settings) / Num 100)%js in
          let yPct := (Num (stickerY settings) / Num 100)%js in
          let sw := (w * sizePct)%js in
          let sh := (sw * (ofZ (height s) / ofZ (width s)))%js in
          [DrawImage s (x + w * xPct - sw / Num 2)%js
                       (y + h * yPct - sh / Num 2)%js sw sh]
        else []
    | None =>
        [ BeginPath;
          StrokeStyle (maskColor settings);
          LineWidth (Num (maskWidth settings) * (w / Num 500) * Num 5)%js;
          LineCapRound ]
        ++ match lineStyle settings with
           | cross =>
               [ MoveTo (x + w * Num 0.2)%js (y + h * Num 0.2)%js;
                 LineTo (x + w * Num 0.8)%js (y + h * Num 0.8)%js;
                 MoveTo (x + w * Num 0.8)%js (y + h * Num 0.2)%js;
                 LineTo (x + w * Num 0.2)%js (y + h * Num 0.8)%js ]
           | slash =>
               [ MoveTo (x + w * Num 0.2)%js (y + h * Num 0.8)%js;
                 LineTo (x + w * Num 0.8)%js (y + h * Num 0.2)%js ]
           end
        ++ [Stroke]
    end
  else [].

(** "Draw Global Overlay" *)
Definition drawOverlay (settings : Settings) (overlayImgObj : option Bitmap)
           (canvasW canvasH : Z) : list Cmd :=
  match overlayImgObj with
  | Some o =>
      if complete o && (naturalWidth o >? 0) then
        [ Save;
          GlobalAlpha (Num (overlayOpacity settings));
          GlobalCompositeOperation (overlayMode settings);
          DrawImage o (Num 0) (Num 0) (ofZ canvasW) (ofZ canvasH);
          Restore ]
      else []
  | None => []
  end.

Section DrawAsync.
Variable env : Env.
Variables rows cols : Z.
Variables w h gap : jsnum.
Variables globalOffset startNum : Z.
Variable maskIndices : list Z.
Variable settings : Settings.
Variable applyMask : bool.
Variable isCancelled : Trace -> bool.
Variable forceHideNums : bool.

Definition poll (p : PollPoint) (tr : Trace) : bool * Trace :=
  let v := isCancelled tr in (v, emit [Poll p v] tr).

(** What one cell adds to the canvas, given the image element that
    [loadImg] settled for it. *)
Definition cellX (i : Z) : jsnum := (ofZ (Z.rem i cols) * (w + gap))%js.
Definition cellY (i : Z) : jsnum := (ofZ (i / cols) * (h + gap))%js.
Definition currentNum (i : Z) : Z := startNum + globalOffset + i.

(** The [for] loop over the cells, from index [i] on. *)
Fixpoint drawCells (stickerImgObj : option Bitmap) (i : Z)
         (imgs : list jsstring) (tr : Trace) : Flow * Trace :=
  match imgs with
  | [] => (Completed, tr)
  | src :: rest =>
      let '(cancelled, tr) := poll CellStart tr in
      if cancelled then (Returned, tr)
      else
        let tr := if Z.rem i 10 =? 0 then emit [Wait (Timer 0)] tr else tr in
        let x := cellX i in
        let y := cellY i in
        let '(img, tr) := loadImg env src 2 tr in
        let '(cancelled, tr) := poll AfterAcquire tr in
        if cancelled then (Returned, tr)
        else
          let tr := draw (drawImg img x y w h) tr in
          let tr := emit [Release] tr in
          let tr :=
            draw (drawNumber settings forceHideNums (currentNum i) x y w h)
                 tr in
          let tr :=
            draw (drawMask settings stickerImgObj applyMask maskIndices
                           (currentNum i) x y w h) tr in
          drawCells stickerImgObj (i + 1) rest tr
  end.

Definition canvasW : Z :=
  dimension 300 (ofZ cols * w + ofZ (cols - 1) * gap)%js.
Definition canvasH : Z :=
  dimension 150 (ofZ rows * h + ofZ (rows - 1) * gap)%js.

Definition drawAsync (imgs : list jsstring) (tr : Trace) : Flow * Trace :=
  let '(cancelled, tr) := poll DrawStart tr in
  if cancelled then (Returned, tr)
  else
    let tr :=
      draw [ SetWidth canvasW; SetHeight canvasH;
             FillStyle "#FFFFFF";
             FillRect (Num 0) (Num 0) (ofZ canvasW) (ofZ canvasH) ] tr in
    let '(stickerImgObj, tr) := loadResource env (stickerImgUrl settings) tr in
    let '(overlayImgObj, tr) := loadResource env (overlayImgUrl settings) tr in
    match drawCells stickerImgObj 0 imgs tr with
    | (Returned, tr) => (Returned, tr)
    | (Completed, tr) =>
        (Completed,
         draw (drawOverlay settings overlayImgObj canvasW canvasH) tr)
    end.

End DrawAsync.

End Utils.

(** ** App: the batch scheduler *)

Module App.
Import Js Types Dom Utils.

Definition MAX_CANVAS_DIMENSION : Z := 8192.

(** [DEFAULT_SETTINGS], with the fields the scenarios vary left open. *)
Definition settingsWith (groupRows qualityVal : Z) (maskMode : MaskMode)
           (maskIndices : jsstring) (stickerImgUrl : option jsstring)
  : Settings :=
  {| aspectRatio := "0.75";
     customW := Num 1000;
     customH := Num 1500;
     gap := 0;
     showNum := true;
     startNumber := 1;
     fontSize := 350;
     fontWeight := "bold";
     fontColor := "#FFFFFF";
     enableStroke := true;
     fontStrokeColor := "#000000";
     fontShadowColor := "#000000";
     enableShadow := false;
     fontFamily := "sans-serif";
     fontPos := "bottom-center";
     Types.cols := 3;
     Types.groupRows := groupRows;
     overlayImgUrl := None;
     overlayMode := "source-over";
     overlayOpacity := 1;
     Types.qualityVal := qualityVal;
     Types.maskMode := maskMode;
     Types.maskIndices := maskIndices;
     maskColor := "#FF3B30";
     maskWidth := 10;
     lineStyle := cross;
     Types.stickerImgUrl := stickerImgUrl;
     stickerSize := 50;
     stickerX := 50;
     stickerY := 50 |}.

Definition DEFAULT_SETTINGS : Settings := settingsWith 3 50 line "" None.

Inductive OpType := normal | apply | repack.

(** [Math.ceil(a / b)] on integers. *)
Definition ceilDiv (a b : Z) : Z := - ((- a) / b).

(** [l.slice(start, end)] *)
Definition slice {A : Type} (l : list A) (start finish : Z) : list A :=
  let len := Z.of_nat (length l) in
  let k := if start <? 0 then Z.max (len + start) 0 else Z.min start len in
  let final :=
    if finish <? 0 then Z.max (len + finish) 0 else Z.min finish len in
  firstn (Z.to_nat (final - k)) (skipn (Z.to_nat k) l).

(** [l.filter((x, i) => keep(x, i))], the index counted from [i]. *)
Fixpoint filterIndexed {A : Type} (keep : A -> Z -> bool) (i : Z)
         (l : list A) : list A :=
  match l with
  | [] => []
  | x :: l' =>
      if keep x i then x :: filterIndexed keep (i + 1) l'
      else filterIndexed keep (i + 1) l'
  end.

(** How the [try] block ended. *)
Inductive Completion := Normal | Thrown (message : jsstring).

Record Outcome := {
  trace : Trace;
  tempBlobs : list Blob
}.

(** The artifact list the application holds: the argument of the last
    [setGeneratedBlobs]. *)
Definition generatedBlobs (before : list Blob) (tr : Trace) : list Blob :=
  fold_left (fun acc e =>
               match e with SetGeneratedBlobs l => l | _ => acc end)
            tr before.

Section RunGeneration.
Variable env : Env.
Variable images : list ImageItem.
Variable settings : Settings.
Variable opType : OpType.

(** The array [parseMaskIndices] has returned. *)
Variable maskIndicesArr : list Z.

Definition startNum : Z := startNumber settings.

Definition targets : list jsstring :=
  let targets := map url images in
  match opType with
  | repack =>
      filterIndexed (fun _ i => negb (includes (startNum + i) maskIndicesArr))
                    0 targets
  | _ => targets
  end.

Definition cols : Z := if Types.cols settings =? 0 then 3 else Types.cols settings.
Definition rows : Z := if groupRows settings =? 0 then 50 else groupRows settings.
Definition batchSize : Z := cols * rows.

Definition qVal : Z :=
  let qVal := qualityVal settings in
  let qVal := if qVal <? 10 then 10 else qVal in
  if qVal >? 100 then 100 else qVal.

Definition isPng : bool := qVal =? 100.
Definition mimeType : Mime := if isPng then ImagePng else ImageJpeg.
Definition quality : option Q :=
  if isPng then None else Some (inject_Z qVal / 100)%Q.

Definition totalBatches : Z :=
  ceilDiv (Z.of_nat (length targets)) batchSize.

Definition currentImgs (b : Z) : list jsstring :=
  slice targets (b * batchSize)
        (Z.min ((b + 1) * batchSize) (Z.of_nat (length targets))).

Definition cellW : jsnum :=
  if cols * 1500 >? MAX_CANVAS_DIMENSION then
    floor ((ofZ MAX_CANVAS_DIMENSION - Num (gap settings) * ofZ cols)
           / ofZ cols)%js
  else Num 1500.

(** [Math.floor(cellW / ratio)]: the ratio and the quotient are doubles,
    each the nearest to its exact value. *)
Definition cellH : jsnum :=
  floor (double (cellW / double (getRatio settings)))%js.

Definition drawSettings : Settings :=
  {| aspectRatio := aspectRatio settings;
     customW := customW settings;
     customH := customH settings;
     gap := gap settings;
     showNum := showNum settings;
     startNumber := startNumber settings;
     fontSize := fontSize settings;
     fontWeight := fontWeight settings;
     fontColor := fontColor settings;
     enableStroke := enableStroke settings;
     fontStrokeColor := fontStrokeColor settings;
     fontShadowColor := fontShadowColor settings;
     enableShadow := enableShadow settings;
     fontFamily := fontFamily settings;
     fontPos := fontPos settings;
     Types.cols := Types.cols settings;
     groupRows := groupRows settings;
     overlayImgUrl := overlayImgUrl settings;
     overlayMode := overlayMode settings;
     overlayOpacity := overlayOpacity settings;
     qualityVal := qualityVal settings;
     maskMode := maskMode settings;
     maskIndices := maskIndices settings;
     maskColor := maskColor settings;
     maskWidth := maskWidth settings;
     lineStyle := lineStyle settings;
     stickerImgUrl :=
       match maskMode settings with
       | image => stickerImgUrl settings
       | line => None
       end;
     stickerSize := stickerSize settings;
     stickerX := stickerX settings;
     stickerY := stickerY settings |}.

Definition applyMask : bool :=
  match opType with
  | apply => true
  | normal => (0 <? Z.of_nat (length (maskIndices settings)))
  | repack => false
  end.

Definition pollRef (p : PollPoint) (tr : Trace) : bool * Trace :=
  let v := cancelRef env tr in (v, emit [Poll p v] tr).

(** One call of [drawAsync] as the scheduler makes it for batch [b]. *)
Definition drawBatch (b : Z) (tr : Trace) : Flow * Trace :=
  drawAsync env
            (ceilDiv (Z.of_nat (length (currentImgs b))) cols) cols
            cellW cellH (Num (gap settings))
            (b * batchSize) startNum maskIndicesArr drawSettings applyMask
            (cancelRef env) false (currentImgs b) tr.

(** The [for] loop over the batches: [n] iterations are left and the next
    batch is [b]. *)
Fixpoint batchLoop (n : nat) (b : Z) (tempBlobs : list Blob) (tr : Trace)
  : Completion * list Blob * Trace :=
  match n with
  | O => (Normal, tempBlobs, tr)
  | S n' =>
      let '(cancelled, tr) := pollRef BatchStart tr in
      if cancelled then (Normal, tempBlobs, tr)
      else
        let tr :=
          emit [SetLoadingText (Generating (b + 1) totalBatches);
                Wait (Timer 200)] tr in
        let '(_, tr) := drawBatch b tr in
        let '(cancelled, tr) := pollRef BeforeEncode tr in
        if cancelled then (Normal, tempBlobs, tr)
        else
          let sheet := surfaceOf tr in
          let answer := toBlob env (encodeCount tr) sheet mimeType quality in
          let tr := emit [Encode sheet mimeType quality answer] tr in
          match answer with
          | Throws e => (Thrown e, tempBlobs, tr)
          | _ =>
              let tr := emit [Wait ToBlob] tr in
              let tempBlobs :=
                match answer with
                | Produced blob => tempBlobs ++ [blob]
                | _ => tempBlobs
                end in
              let tr :=
                draw [ ClearRect (Num 0) (Num 0)
                                 (ofZ (canvasWidth sheet))
                                 (ofZ (canvasHeight sheet));
                       SetWidth 1; SetHeight 1 ] tr in
              batchLoop n' (b + 1) tempBlobs tr
          end
  end.

(** The run from the canvas on, once the parse has returned. *)
Definition afterParse (tr : Trace) : Outcome :=
  if negb (canvasRef env) then
    {| trace := emit [SetIsLoading false] tr; tempBlobs := [] |}
  else
    let '(completion, tempBlobs, tr) :=
      batchLoop (Z.to_nat totalBatches) 0 [] tr in
    let tr :=
      match completion with
      | Normal =>
          let '(cancelled, tr) := pollRef BeforePublish tr in
          if cancelled then tr
          else emit [SetGeneratedBlobs tempBlobs; ScrollToResult] tr
      | Thrown e =>
          let '(cancelled, tr) := pollRef InCatch tr in
          if cancelled then tr
          else emit [Alert (GenerationInterrupted e)] tr
      end in
    {| trace := emit [SetIsLoading false] tr; tempBlobs := tempBlobs |}.

End RunGeneration.

(** The parse of the mask field stands before the [try]: when it throws,
    the error leaves [runGeneration] at once. Nothing catches it, and the
    loading indicator, which is on by then, is left on. *)
Definition runGeneration (env : Env) (images : list ImageItem)
           (settings : Settings) (opType : OpType) : Outcome :=
  match images with
  | [] => {| trace := [Alert PleaseAddImages]; tempBlobs := [] |}
  | _ :: _ =>
      let tr :=
        [ SetGeneratedBlobs []; SetIsLoading true; SetLoadingText Preparing;
          Wait (Timer 50) ] in
      match parseMaskIndices (arrayLimit env) (maskIndices settings) with
      | Some maskIndicesArr =>
          afterParse env images settings opType maskIndicesArr tr
      | None => {| trace := tr; tempBlobs := [] |}
      end
  end.

End App.

(** ** Specification-side definitions

    What follows is not code of the program: it is the vocabulary in which
    the properties are stated. *)

(** *** The mask-index grammar *)

Module MaskGrammar.
Import Js Utils.

(** The integers from [lo] to [hi], both included. *)
Definition zrange (lo hi : Z) : list Z :=
  map (fun i => lo + Z.of_nat i) (seq 0 (Z.to_nat (hi - lo + 1))).

(** The tokens of an input: the non-empty fields between separator runs. *)
Definition tokens (input : jsstring) : list jsstring :=
  filter JsString.truthy (splitClass isSeparator false [] input).

Definition free (cls : N -> bool) (s : jsstring) : Prop :=
  Forall (fun c => cls c = false) s.

(** [replace(/[~—–]/g, '-')] *)
Definition standardise (t : jsstring) : jsstring :=
  map (fun c => if isRangeMark c then hyphen else c) t.

(** The mask field read with exact integers into a list without bound:
    what the parser returns as long as no number reaches 2^53 and the list
    fits in an array. First the loop over a range, for at most [fuel]
    iterations. *)
Fixpoint exactRangeLoop (fuel : nat) (k hi : Z) (maskTargets : list Z)
  : list Z :=
  match fuel with
  | O => maskTargets
  | S fuel' =>
      if k <=? hi then exactRangeLoop fuel' (k + 1) hi (maskTargets ++ [k])
      else maskTargets
  end.

Definition exactRange (lo hi : Z) (maskTargets : list Z) : list Z :=
  exactRangeLoop (Z.to_nat (hi - lo + 1)) lo hi maskTargets.

(** What one part adds. *)
Definition exactPart (maskTargets : list Z) (part : jsstring) : list Z :=
  let part := trim part in
  if negb (JsString.truthy part) then maskTargets
  else
    let standardPart :=
      map (fun c => if isRangeMark c then hyphen else c) part in
    if existsb (N.eqb hyphen) standardPart then
      match splitOn hyphen [] standardPart with
      | [a; b] =>
          match mathInt a, mathInt b with
          | Some s, Some e => exactRange (Z.min s e) (Z.max s e) maskTargets
          | _, _ => maskTargets
          end
      | _ => maskTargets
      end
    else
      match mathInt standardPart with
      | Some num => maskTargets ++ [num]
      | None => maskTargets
      end.

Definition exactIndices (input : jsstring) : list Z :=
  let parts := splitClass isSeparator false [] input in
  fold_left exactPart parts [].

(** Fields put back together around a separator. *)
Fixpoint join (sep : N) (fields : list jsstring) : jsstring :=
  match fields with
  | [] => []
  | [f] => f
  | f :: fs => f ++ sep :: join sep fs
  end.

(** What a token contributes: the integer [parseInt] reads from it when it
    holds no range separator, and the inclusive range between the two
    integers [parseInt] reads on either side of its one range separator. *)
Inductive contributes (tok : jsstring) (k : Z) : Prop :=
| contributes_single :
    ~ In hyphen (standardise tok) ->
    parseInt (standardise tok) = Some k ->
    contributes tok k
| contributes_range (a b : jsstring) (s e : Z) :
    standardise tok = a ++ hyphen :: b ->
    ~ In hyphen a -> ~ In hyphen b ->
    parseInt a = Some s -> parseInt b = Some e ->
    Z.min s e <= k <= Z.max s e ->
    contributes tok k.

(** A token that is a single integer: a non-empty run of decimal digits. *)
Definition isInteger (t : jsstring) : bool :=
  JsString.truthy t && forallb JsString.isDecimalDigit t.

(** The grammar as the specification words it: a token is a single
    integer, or a range made of two integers around one of the four range
    separators; any other token contributes nothing. *)
Definition specContribution (tok : jsstring) : list Z :=
  if isInteger tok then [JsString.decimalValue tok]
  else
    match splitOn hyphen [] (standardise tok) with
    | [a; b] =>
        if isInteger a && isInteger b then
          zrange (Z.min (JsString.decimalValue a) (JsString.decimalValue b))
                 (Z.max (JsString.decimalValue a) (JsString.decimalValue b))
        else []
    | _ => []
    end.

Definition specParse (input : jsstring) : list Z :=
  flat_map specContribution (tokens input).

(** A token the specification gives a meaning to. *)
Definition wellFormed (tok : jsstring) : bool :=
  isInteger tok ||
  match splitOn hyphen [] (standardise tok) with
  | [a; b] => isInteger a && isInteger b
  | _ => false
  end.

End MaskGrammar.

(** *** Observations on traces *)

Module Observations.
Import Js Types Dom Utils App.

(** A path point of a command lies in the cell. *)
Definition insideCell (x y w h : Q) (c : Cmd) : Prop :=
  match c with
  | MoveTo (Num px) (Num py) | LineTo (Num px) (Num py) =>
      (x <= px /\ px <= x + w /\ y <= py /\ py <= y + h)%Q
  | MoveTo _ _ | LineTo _ _ => False
  | _ => True
  end.

Definition countOf (p : Event -> bool) (tr : Trace) : nat :=
  length (filter p tr).

Definition isAttempt (e : Event) : bool :=
  match e with Wait ImageSettled => true | _ => false end.
Definition isRetryDelay (e : Event) : bool :=
  match e with Wait (Timer ms) => ms =? 200 | _ => false end.
Definition isRelease (e : Event) : bool :=
  match e with Release => true | _ => false end.
Definition isEncode (e : Event) : bool :=
  match e with Encode _ _ _ _ => true | _ => false end.
Definition isThrow (e : Event) : bool :=
  match e with Encode _ _ _ (Throws _) => true | _ => false end.
Definition isStart (e : Event) : bool :=
  match e with SetLoadingText (Generating _ _) => true | _ => false end.
Definition isWait (e : Event) : bool :=
  match e with Wait _ => true | _ => false end.
Definition isPublish (e : Event) : bool :=
  match e with SetGeneratedBlobs _ => true | _ => false end.
Definition isAlert (e : Event) : bool :=
  match e with Alert _ => true | _ => false end.

Definition truePoll (e : Event) : bool :=
  match e with Poll _ true => true | _ => false end.

(** No poll of the trace has read true. *)
Definition calm (tr : Trace) : Prop := countOf truePoll tr = O.

(** Every poll of [evs], performed after [tr], reports the flag as it
    stands at that point. *)
Fixpoint truthful (env : Env) (tr evs : Trace) : Prop :=
  match evs with
  | [] => True
  | e :: evs' =>
      match e with Poll _ v => v = cancelRef env tr | _ => True end
      /\ truthful env (tr ++ [e]) evs'
  end.

Definition isPoll (e : Event) : bool :=
  match e with Poll _ _ => true | _ => false end.

(** What may still happen once a poll has read true: further polls that
    read true, and the loading indicator going off. *)
Definition afterCancel (e : Event) : bool :=
  match e with
  | Poll _ true => true
  | SetIsLoading false => true
  | _ => false
  end.

(** The blobs the encoder produced, and all its answers, in order. *)
Definition produced (tr : Trace) : list Blob :=
  flat_map (fun e =>
              match e with
              | Encode _ _ _ (Produced blob) => [blob]
              | _ => []
              end) tr.

Definition answers (tr : Trace) : list EncodeResult :=
  flat_map (fun e => match e with Encode _ _ _ a => [a] | _ => [] end) tr.

(** The poll points inside [drawAsync]. *)
Definition inDraw (p : PollPoint) : bool :=
  match p with
  | DrawStart | CellStart | AfterAcquire => true
  | _ => false
  end.

(** The events an acquisition, a call of [drawAsync] and the loop over the
    batches can perform. *)
Definition loadOnly (e : Event) : bool :=
  match e with
  | AssignSrc _ | Wait (Timer _) | Wait ImageSettled | MarkBroken => true
  | _ => false
  end.

Definition drawKind (e : Event) : bool :=
  match e with
  | Wait (Timer _) | Wait ImageSettled => true
  | Poll p _ => inDraw p
  | Canvas _ | AssignSrc _ | MarkBroken | Release => true
  | _ => false
  end.

Definition loopKind (e : Event) : bool :=
  match e with
  | SetGeneratedBlobs _ | SetIsLoading _ | Alert _ | ScrollToResult => false
  | SetLoadingText Preparing => false
  | Poll BeforePublish _ | Poll InCatch _ => false
  | _ => true
  end.

Definition isResize (c : Cmd) : bool :=
  match c with SetWidth _ | SetHeight _ => true | _ => false end.

Definition paintAll (cmds : list Cmd) (s : Surface) : Surface :=
  {| canvasWidth := canvasWidth s; canvasHeight := canvasHeight s;
     painted := painted s ++ cmds |}.

(** The image element and the events of one acquisition. *)
Definition settled (env : Env) (src : jsstring) (retries : nat) : HTMLImage :=
  fst (loadImg env src retries []).
Definition loadEvents (env : Env) (src : jsstring) (retries : nat) : Trace :=
  snd (loadImg env src retries []).

(** The events of loading the sticker or the overlay. *)
Definition resourceEvents (env : Env) (url : option jsstring) : Trace :=
  snd (loadResource env url []).

End Observations.

(** *** The finished sheet *)

Module Rendering.
Import Js Types Dom Utils App Observations.

Definition yieldEvents (i : Z) : Trace :=
  if Z.rem i 10 =? 0 then [Wait (Timer 0)] else [].

Section Render.
Variable env : Env.
Variables rows cols : Z.
Variables w h gap : jsnum.
Variables globalOffset startNum : Z.
Variable maskIndices : list Z.
Variable settings : Settings.
Variable applyMask : bool.
Variable forceHideNums : bool.

(** What one cell adds to the canvas. *)
Definition cellCmds (stickerImgObj : option Bitmap) (i : Z) (src : jsstring)
  : list Cmd :=
  let x := cellX cols w gap i in
  let y := cellY cols h gap i in
  let n := currentNum globalOffset startNum i in
  drawImg (settled env src 2) x y w h
  ++ drawNumber settings forceHideNums n x y w h
  ++ drawMask settings stickerImgObj applyMask maskIndices n x y w h.

Fixpoint renderCells (stickerImgObj : option Bitmap) (i : Z)
         (imgs : list jsstring) : list Cmd :=
  match imgs with
  | [] => []
  | src :: rest =>
      cellCmds stickerImgObj i src ++ renderCells stickerImgObj (i + 1) rest
  end.

(** The sheet a call of [drawAsync] leaves when it runs to its end: the
    background, every cell, then the overlay. *)
Definition renderSheet (imgs : list jsstring) : Surface :=
  let cw := canvasW cols w gap in
  let ch := canvasH rows h gap in
  {| canvasWidth := cw;
     canvasHeight := ch;
     painted :=
       [FillStyle "#FFFFFF"; FillRect (Num 0) (Num 0) (ofZ cw) (ofZ ch)]
       ++ renderCells (fst (loadResource env (stickerImgUrl settings) []))
                      0 imgs
       ++ drawOverlay settings
                      (fst (loadResource env (overlayImgUrl settings) []))
                      cw ch |}.

(** The events of a cell up to its second poll, and those that follow
    when that poll reads false. *)
Definition acquireEvents (i : Z) (src : jsstring) : Trace :=
  [Poll CellStart false] ++ yieldEvents i ++ loadEvents env src 2.

Definition paintEvents (stickerImgObj : option Bitmap) (i : Z)
           (src : jsstring) : Trace :=
  let x := cellX cols w gap i in
  let y := cellY cols h gap i in
  let n := currentNum globalOffset startNum i in
  [Poll AfterAcquire false]
  ++ map Canvas (drawImg (settled env src 2) x y w h)
  ++ [Release]
  ++ map Canvas (drawNumber settings forceHideNums n x y w h)
  ++ map Canvas (drawMask settings stickerImgObj applyMask maskIndices n
                          x y w h).

(** The events of the loop over the cells, from index [i] on, when no poll
    reads true: cell after cell, the acquisition and then the painting. *)
Fixpoint cellsEvents (stickerImgObj : option Bitmap) (i : Z)
         (imgs : list jsstring) : Trace :=
  match imgs with
  | [] => []
  | src :: rest =>
      acquireEvents i src ++ paintEvents stickerImgObj i src
      ++ cellsEvents stickerImgObj (i + 1) rest
  end.

(** The events of a call before its first cell. *)
Definition headerEvents : Trace :=
  [Poll DrawStart false]
  ++ map Canvas [ SetWidth (canvasW cols w gap); SetHeight (canvasH rows h gap);
                  FillStyle "#FFFFFF";
                  FillRect (Num 0) (Num 0) (ofZ (canvasW cols w gap))
                           (ofZ (canvasH rows h gap)) ]
  ++ resourceEvents env (stickerImgUrl settings)
  ++ resourceEvents env (overlayImgUrl settings).

End Render.

Section Batches.
Variable env : Env.
Variable images : list ImageItem.
Variable settings : Settings.
Variable opType : OpType.
Variable arr : list Z.

(** The finished sheet of batch [b]. *)
Definition sheetOfBatch (b : Z) : Surface :=
  renderSheet env
              (ceilDiv (Z.of_nat (length (currentImgs images settings opType
                                                     arr b)))
                       (cols settings))
              (cols settings) (cellW settings) (cellH settings)
              (Num (gap settings))
              (b * batchSize settings) (startNum settings)
              arr (drawSettings settings)
              (applyMask settings opType) false
              (currentImgs images settings opType arr b).

(** An encode event of a batch from [lo] to [lo + n - 1], with the
    configured format and a finished sheet. *)
Definition goodEncode (lo : Z) (n : nat) (e : Event) : Prop :=
  match e with
  | Encode sheet mime q _ =>
      mime = mimeType settings /\ q = quality settings
      /\ exists b, lo <= b < lo + Z.of_nat n /\ sheet = sheetOfBatch b
  | _ => True
  end.

(** The events of one iteration of the loop, before and after the draw
    call. *)
Definition startEvents (b : Z) : Trace :=
  [ Poll BatchStart false;
    SetLoadingText (Generating (b + 1)
                               (totalBatches images settings opType arr));
    Wait (Timer 200) ].

Definition blobOf (answer : EncodeResult) : list Blob :=
  match answer with Produced blob => [blob] | _ => [] end.

Definition encodeEvents (sheet : Surface) (answer : EncodeResult) : Trace :=
  [ Poll BeforeEncode false;
    Encode sheet (mimeType settings) (quality settings) answer;
    Wait ToBlob;
    Canvas (ClearRect (Num 0) (Num 0) (ofZ (canvasWidth sheet))
                      (ofZ (canvasHeight sheet)));
    Canvas (SetWidth 1); Canvas (SetHeight 1) ].

(** What a run of the loop guarantees, for [n] iterations from batch [b]:
    its events split into a part [evs1] in which no poll reads true and a
    part [evs2] made of polls that read true only. *)
Definition LoopPost (n : nat) (b : Z) (temp : list Blob) (tr : Trace)
           (res : Completion * list Blob * Trace) : Prop :=
  let '(c, temp', tr') := res in
  exists evs1 evs2,
    tr' = tr ++ evs1 ++ evs2
    /\ calm evs1
    /\ forallb truePoll evs2 = true
    /\ forallb loopKind (evs1 ++ evs2) = true
    /\ truthful env tr (evs1 ++ evs2)
    /\ Forall (goodEncode b n) evs1
    /\ temp' = temp ++ produced evs1
    /\ match evs2 with
       | [] => countOf isEncode evs1 = countOf isStart evs1
       | Poll p _ :: _ =>
           c = Normal /\ cancelRef env tr' = true
           /\ match p with
              | BatchStart => countOf isEncode evs1 = countOf isStart evs1
              | _ => S (countOf isEncode evs1) = countOf isStart evs1
              end
       | _ :: _ => False
       end
    /\ match c with
       | Normal =>
           countOf isThrow evs1 = O
           /\ (evs2 = [] -> countOf isEncode evs1 = n)
       | Thrown e =>
           evs2 = [] /\ cancelRef env tr' = false
           /\ exists pre sheet k,
                evs1 = pre ++ [Encode sheet (mimeType settings)
                                      (quality settings) (Throws e)]
                /\ countOf isThrow pre = O
                /\ toBlob env k sheet (mimeType settings) (quality settings)
                   = Throws e
       end.

End Batches.

(** The events of a run before and after the loop: the publication of the
    artifacts or the alert, each guarded by one more reading of the flag. *)
Definition initEvents : Trace :=
  [ SetGeneratedBlobs []; SetIsLoading true; SetLoadingText Preparing;
    Wait (Timer 50) ].

Definition closingEvents (c : Completion) (cancelled : bool)
           (tempBlobs : list Blob) : Trace :=
  match c with
  | Normal =>
      Poll BeforePublish cancelled
      :: (if cancelled then []
          else [SetGeneratedBlobs tempBlobs; ScrollToResult])
  | Thrown e =>
      Poll InCatch cancelled
      :: (if cancelled then [] else [Alert (GenerationInterrupted e)])
  end
  ++ [SetIsLoading false].

End Rendering.

(** *** Scenarios *)

Module Scenarios.
Import Js Types Dom Utils App.

Definition imageItem (u : string) : ImageItem :=
  {| id := u; url := u; name := u; size := 1 |}.

Definition fourImages : list ImageItem :=
  map imageItem ["a"; "b"; "c"; "d"].

Definition sevenImages : list ImageItem :=
  map imageItem ["a"; "b"; "c"; "d"; "e"; "f"; "g"].

(** [DEFAULT_SETTINGS] with a custom aspect ratio. *)
Definition customRatio (w h : jsnum) : Settings :=
  {| aspectRatio := "custom";
     customW := w;
     customH := h;
     gap := gap DEFAULT_SETTINGS;
     showNum := showNum DEFAULT_SETTINGS;
     startNumber := startNumber DEFAULT_SETTINGS;
     fontSize := fontSize DEFAULT_SETTINGS;
     fontWeight := fontWeight DEFAULT_SETTINGS;
     fontColor := fontColor DEFAULT_SETTINGS;
     enableStroke := enableStroke DEFAULT_SETTINGS;
     fontStrokeColor := fontStrokeColor DEFAULT_SETTINGS;
     fontShadowColor := fontShadowColor DEFAULT_SETTINGS;
     enableShadow := enableShadow DEFAULT_SETTINGS;
     fontFamily := fontFamily DEFAULT_SETTINGS;
     fontPos := fontPos DEFAULT_SETTINGS;
     Types.cols := Types.cols DEFAULT_SETTINGS;
     groupRows := groupRows DEFAULT_SETTINGS;
     overlayImgUrl := overlayImgUrl DEFAULT_SETTINGS;
     overlayMode := overlayMode DEFAULT_SETTINGS;
     overlayOpacity := overlayOpacity DEFAULT_SETTINGS;
     qualityVal := qualityVal DEFAULT_SETTINGS;
     maskMode := maskMode DEFAULT_SETTINGS;
     maskIndices := maskIndices DEFAULT_SETTINGS;
     maskColor := maskColor DEFAULT_SETTINGS;
     maskWidth := maskWidth DEFAULT_SETTINGS;
     lineStyle := lineStyle DEFAULT_SETTINGS;
     stickerImgUrl := stickerImgUrl DEFAULT_SETTINGS;
     stickerSize := stickerSize DEFAULT_SETTINGS;
     stickerX := stickerX DEFAULT_SETTINGS;
     stickerY := stickerY DEFAULT_SETTINGS |}.

(** The batches a run goes through when nothing stops it, and what the
    scheduler hands to [drawAsync] for each: the images of the sheet and
    its row count. *)
Definition batchIndices (images : list ImageItem) (settings : Settings)
           (opType : OpType) (arr : list Z) : list Z :=
  map Z.of_nat (seq 0 (Z.to_nat (totalBatches images settings opType arr))).



(** The integers [i], [i + 1], ... , [n] of them. *)
Definition zseq (i : Z) (n : nat) : list Z :=
  map (fun k => i + Z.of_nat k) (seq 0 n).


(** A decoded photograph, 4 by 3, and an image that failed to load. *)
Definition photoBitmap : Bitmap :=
  {| naturalWidth := 4; naturalHeight := 3; complete := true;
     width := 4; height := 3 |}.

Definition photo : HTMLImage :=
  {| bitmap := photoBitmap; isBroken := false |}.

Definition failedBitmap : Bitmap :=
  {| naturalWidth := 0; naturalHeight := 0; complete := true;
     width := 0; height := 0 |}.

Definition jpegBlob (n : nat) : Blob :=
  {| blobType := ImageJpeg; blobSize := Z.of_nat n |}.

Definition jpegAnswer (n : nat) : EncodeResult := Produced (jpegBlob n).

(** The encoder that yields no blob for the first sheet only. *)
Definition firstSheetFails (n : nat) : EncodeResult :=
  match n with
  | O => Null
  | _ => Produced (jpegBlob n)
  end.

(** A browser in which every image decodes at once and the encoder
    answers [encoder]; the user cancels as [cancel] says. *)
Definition browser (cancel : option nat)
           (encoder : nat -> EncodeResult) : Env :=
  {| cancelAt := cancel;
     imageEvent := fun _ _ => OnLoad photoBitmap;
     resource := fun _ => photoBitmap;
     toBlob := fun n _ _ _ => encoder n;
     canvasRef := true;
     arrayLimit := 4294967295 |}.

(** A browser in which no image ever loads. *)
Definition offline : Env :=
  {| cancelAt := None;
     imageEvent := fun _ _ => OnError;
     resource := fun _ => failedBitmap;
     toBlob := fun n _ _ _ => jpegAnswer n;
     canvasRef := true;
     arrayLimit := 4294967295 |}.

End Scenarios.

(** * The rest of the application *)

(** ** Numbers as strings *)

Module JsNumber.
Import Js.

(** The code units of a run of decimal digits. *)
Fixpoint unitsOf (d : Decimal.uint) : jsstring :=
  match d with
  | Decimal.Nil => []
  | Decimal.D0 d => 48%N :: unitsOf d
  | Decimal.D1 d => 49%N :: unitsOf d
  | Decimal.D2 d => 50%N :: unitsOf d
  | Decimal.D3 d => 51%N :: unitsOf d
  | Decimal.D4 d => 52%N :: unitsOf d
  | Decimal.D5 d => 53%N :: unitsOf d
  | Decimal.D6 d => 54%N :: unitsOf d
  | Decimal.D7 d => 55%N :: unitsOf d
  | Decimal.D8 d => 56%N :: unitsOf d
  | Decimal.D9 d => 57%N :: unitsOf d
  end.

(** [String(n)] for an integer [n]: its decimal digits, after a minus sign
    when it is negative. (Integers from 10^21 on, which JavaScript prints
    with an exponent, are beyond any count or file size.) *)
Definition toString (n : Z) : jsstring :=
  match Z.to_int n with
  | Decimal.Pos d => unitsOf d
  | Decimal.Neg d => 45%N :: unitsOf d
  end.

End JsNumber.

(** ** Arrays and objects *)

Module JsArray.

(** [l.splice(start, deleteCount, ...items)]: the removed elements and the
    array as it is left. *)
Definition splice {A : Type} (l : list A) (start deleteCount : Z)
           (items : list A) : list A * list A :=
  let len := Z.of_nat (length l) in
  let actualStart :=
    if start <? 0 then Z.max (len + start) 0 else Z.min start len in
  let actualDeleteCount :=
    Z.min (Z.max deleteCount 0) (len - actualStart) in
  let s := Z.to_nat actualStart in
  let d := Z.to_nat actualDeleteCount in
  (firstn d (skipn s l), firstn s l ++ items ++ skipn (s + d) l).

(** [l[i]]; [None] is [undefined]. *)
Definition get {A : Type} (l : list A) (i : Z) : option A :=
  if i <? 0 then None else nth_error l (Z.to_nat i).

End JsArray.

Module JsObject.
Import Js.

(** An object with string keys: its own properties in creation order. *)
Definition object (V : Type) := list (jsstring * V).

Fixpoint get {V : Type} (o : object V) (k : jsstring) : option V :=
  match o with
  | [] => None
  | (k', v) :: o' => if JsString.eqb k k' then Some v else get o' k
  end.

(** [o[k] = v]: an existing property keeps its place. *)
Fixpoint set {V : Type} (o : object V) (k : jsstring) (v : V) : object V :=
  match o with
  | [] => [(k, v)]
  | (k', v') :: o' =>
      if JsString.eqb k k' then (k', v) :: o' else (k', v') :: set o' k v
  end.

(** An array index: the canonical decimal form of an integer below
    [2^32 - 1]. *)
Definition isArrayIndex (k : jsstring) : bool :=
  JsString.truthy k && forallb JsString.isDecimalDigit k
  && match k with
     | c :: _ :: _ => negb (c =? 48)%N
     | _ => true
     end
  && (JsString.decimalValue k <? 2 ^ 32 - 1).

Fixpoint insertByIndex {V : Type} (p : jsstring * V) (o : object V)
  : object V :=
  match o with
  | [] => [p]
  | q :: o' =>
      if JsString.decimalValue (fst p) <=? JsString.decimalValue (fst q)
      then p :: o
      else q :: insertByIndex p o'
  end.

Definition sortByIndex {V : Type} (o : object V) : object V :=
  fold_right insertByIndex [] o.

(** [Object.values(o)]: the array indices in ascending order, then the
    other keys in creation order. *)
Definition values {V : Type} (o : object V) : list V :=
  map snd (sortByIndex (filter (fun p => isArrayIndex (fst p)) o)
           ++ filter (fun p => negb (isArrayIndex (fst p))) o).

End JsObject.

(** ** Files picked by the user *)

Module Files.
Import Js.

Record File := {
  type : jsstring;
  name : jsstring;
  size : Z
}.

(** Case folding as a regular expression with the [i] flag applies it to
    the letters of an extension: only [A] to [Z] fold onto [a] to [z]. *)
Definition fold (c : N) : N :=
  if ((65 <=? c) && (c <=? 90))%N then (c + 32)%N else c.

(** [s] ends with [suffix], letters compared without case. *)
Definition endsWithFolded (suffix s : jsstring) : bool :=
  JsString.eqb (map fold suffix)
               (map fold (skipn (length s - length suffix) s))
  && (length suffix <=? length s)%nat.

(** [name.match(/\.(jpg|jpeg|png|gif|webp)$/i)] is not [null]. *)
Definition hasImageExtension (name : jsstring) : bool :=
  existsb (fun ext => endsWithFolded (46%N :: ofAscii ext) name)
          ["jpg"; "jpeg"; "png"; "gif"; "webp"].

End Files.

(** ** App: the image list *)

Module ImageList.
Import Js Types.

(** What the handlers do besides giving the next list. The effects of a
    state update are listed after those of the handler that asks for it.
    [ResetInput] empties the file input the handler belongs to. *)
Inductive Effect :=
| RevokeObjectURL (url : jsstring)
| DeleteImageFromDB (id : jsstring)
| ClearImagesDB
| SaveImageToDB (id : option jsstring) (url name : jsstring) (size : Z)
                (blob : Files.File)
| SaveImagesToDB (items : list (ImageItem * Files.File))
| AnimationFrame
| SetIsLoading (b : bool)
| SetLoadingTextImporting
| SetShowImageAction (b : bool)
| SetTargetImageIndex (i : Z)
| SetShowClearAlert (b : bool)
| ResetInput.

(** [item.name + item.size]. The key ends with a digit, so it is never
    the name of a property an object inherits. *)
Definition key (item : ImageItem) : jsstring :=
  name item ++ JsNumber.toString (size item).

(** *** handleFiles *)

Definition CHUNK_SIZE : Z := 50.

(** The browser at import: the identifier and the object URL it hands out
    for the [k]-th accepted file. *)
Record Importer := {
  randomId : nat -> jsstring;
  createObjectURL : nat -> jsstring
}.

Section HandleFiles.
Variable browser : Importer.

Definition accepted (file : Files.File) : bool :=
  JsString.startsWith "image/" (Files.type file)
  || Files.hasImageExtension (Files.name file).

(** The loop over one chunk; [k] counts the files accepted so far. *)
Fixpoint importChunk (k : nat) (chunk : list Files.File)
  : list (ImageItem * Files.File) * nat :=
  match chunk with
  | [] => ([], k)
  | file :: rest =>
      if accepted file then
        let item :=
          {| id := randomId browser k;
             url := createObjectURL browser k;
             name := Files.name file;
             size := Files.size file |} in
        let '(dbItems, k') := importChunk (S k) rest in
        ((item, file) :: dbItems, k')
      else importChunk k rest
  end.

(** The loop over the chunks, from index [i] on, for at most [fuel]
    chunks. *)
Fixpoint importLoop (fuel : nat) (i : Z) (fileArray : list Files.File)
         (k : nat) (images : list ImageItem) (effects : list Effect)
  : list ImageItem * list Effect :=
  match fuel with
  | O => (images, effects)
  | S fuel' =>
      if i <? Z.of_nat (length fileArray) then
        let chunk := App.slice fileArray i (i + CHUNK_SIZE) in
        let '(dbItems, k') := importChunk k chunk in
        let newImages := map fst dbItems in
        let effects :=
          effects
          ++ (if 0 <? Z.of_nat (length dbItems)
              then [SaveImagesToDB dbItems] else [])
          ++ [AnimationFrame] in
        importLoop fuel' (i + CHUNK_SIZE) fileArray k' (images ++ newImages)
                   effects
      else (images, effects)
  end.

Definition handleFiles (files : option (list Files.File))
           (images : list ImageItem) : list ImageItem * list Effect :=
  match files with
  | None | Some [] => (images, [])
  | Some fileArray =>
      let '(images, effects) :=
        importLoop (length fileArray) 0 fileArray 0 images
                   [SetIsLoading true; SetLoadingTextImporting] in
      (images, effects ++ [SetIsLoading false; ResetInput])
  end.

End HandleFiles.

(** *** handleReplace

    [newUrl] is the object URL made for the file. The list is [None] when
    the update raises a [TypeError], no image standing at the target
    index. The effects of the update itself are listed last. *)
Definition handleReplace (files : option (list Files.File))
           (newUrl : jsstring) (targetImageIndex : Z)
           (images : list ImageItem)
  : option (list ImageItem) * list Effect :=
  match files with
  | Some (file :: _) =>
      if -1 <? targetImageIndex then
        let img := JsArray.get images targetImageIndex in
        let saved :=
          SaveImageToDB (option_map id img) newUrl (Files.name file)
                        (Files.size file) file in
        match img with
        | Some img =>
            let next :=
              {| id := id img; url := newUrl; name := Files.name file;
                 size := Files.size file |} in
            (Some (firstn (Z.to_nat targetImageIndex) images
                   ++ next :: skipn (S (Z.to_nat targetImageIndex)) images),
             [ saved; SetShowImageAction false; ResetInput;
               RevokeObjectURL (url img) ])
        | None => (None, [saved; SetShowImageAction false; ResetInput])
        end
      else (Some images, [ResetInput])
  | _ => (Some images, [ResetInput])
  end.

(** *** deleteImage; [confirmed] is the answer to [window.confirm]. *)
Definition deleteImage (confirmed : bool) (targetImageIndex : Z)
           (images : list ImageItem) : list ImageItem * list Effect :=
  if (targetImageIndex <? 0)
     || (Z.of_nat (length images) <=? targetImageIndex) then (images, [])
  else if confirmed then
    match JsArray.get images targetImageIndex with
    | Some img =>
        (snd (JsArray.splice images targetImageIndex 1 []),
         [ DeleteImageFromDB (id img);
           SetShowImageAction false; SetTargetImageIndex (-1);
           RevokeObjectURL (url img) ])
    | None => (images, [])
    end
  else (images, []).

(** *** confirmClearAll *)
Definition confirmClearAll (prev : list ImageItem)
  : list ImageItem * list Effect :=
  ([], ClearImagesDB :: SetShowClearAlert false
       :: map (fun i => RevokeObjectURL (url i)) prev).

(** *** removeDuplicates

    The [filter] callback, run over the list with the set [seen] threaded
    through. *)
Fixpoint dedupe (seen : list jsstring) (prev : list ImageItem)
  : list ImageItem * list Effect :=
  match prev with
  | [] => ([], [])
  | item :: rest =>
      let k := key item in
      let duplicate := existsb (JsString.eqb k) seen in
      let seen := if duplicate then seen else seen ++ [k] in
      let '(kept, effects) := dedupe seen rest in
      if duplicate then
        (kept, RevokeObjectURL (url item) :: DeleteImageFromDB (id item)
               :: effects)
      else (item :: kept, effects)
  end.

Definition removeDuplicates (prev : list ImageItem)
  : list ImageItem * list Effect :=
  dedupe [] prev.

(** *** "Duplicate check logic": the groups of images by key. *)
Definition addToGroup (groups : JsObject.object (list ImageItem))
           (img : ImageItem) : JsObject.object (list ImageItem) :=
  let key := key img in
  let groups :=
    match JsObject.get groups key with
    | Some _ => groups
    | None => JsObject.set groups key []
    end in
  match JsObject.get groups key with
  | Some g => JsObject.set groups key (g ++ [img])
  | None => groups
  end.

Definition groupsOf (images : list ImageItem)
  : JsObject.object (list ImageItem) :=
  fold_left addToGroup images [].

Definition duplicateGroups (images : list ImageItem) : list (list ImageItem) :=
  filter (fun g => 1 <? Z.of_nat (length g))
         (JsObject.values (groupsOf images)).

Definition duplicatesCount (images : list ImageItem) : Z :=
  fold_left (fun acc g => acc + Z.of_nat (length g) - 1)
            (duplicateGroups images) 0.

(** *** handleReorder

    The entries of the array are image items or [undefined]; [None] is
    [undefined]. *)
Definition handleReorder {A : Type} (oldIndex newIndex : Z)
           (prev : list (option A)) : list (option A) :=
  let '(removed, newList) := JsArray.splice prev oldIndex 1 [] in
  let moved := match removed with m :: _ => m | [] => None end in
  snd (JsArray.splice newList newIndex 0 [moved]).

End ImageList.

(** ** ImageGrid *)

Module ImageGrid.

(** The [onEnd] handler given to the sortable grid. *)
Definition onEnd {A : Type} (oldIndex newIndex : option Z)
           (images : list (option A)) : list (option A) :=
  match oldIndex, newIndex with
  | Some o, Some n => ImageList.handleReorder o n images
  | _, _ => images
  end.

End ImageGrid.

(** ** App: downloads *)

Module Downloads.
Import Js Types Dom.

Inductive Ext := png | jpg.
Inductive DownloadType := parts | combine | zip.

(** The names given to the files: [拼图_Part_<i>.<ext>],
    [拼图打包_<time>.zip] and [拼图_合并版_<time>.<ext>]. *)
Inductive FileName :=
| PartName (i : Z) (ext : Ext)
| ZipName (time : Z)
| CombinedName (time : Z) (ext : Ext).

(** What [createImageBitmap] gives for a blob. Both are [unsigned long]
    values, which a canvas dimension takes as they are. *)
Record ImageBitmap := {
  width : Z;
  height : Z
}.

(** The canvas of the combined image: its size and the bitmaps drawn on
    it, each with its position. *)
Record Canvas := {
  canvasWidth : Z;
  canvasHeight : Z;
  drawn : list (ImageBitmap * Z * Z)
}.

Inductive Content :=
| OfBlob (b : Blob)
| OfZip (entries : list (FileName * Blob))
| OfCanvas (c : Canvas) (mime : Mime) (quality : Q) (b : Blob).

Inductive Message :=
| ZipFailed (message : jsstring)
| TooManyImages
| TooManyPixels
| CombineFailed.

Inductive LoadingText :=
| Zipping
| Combining
| Downloading (i n : Z).

Inductive Event :=
| SetIsLoading (b : bool)
| SetLoadingText (t : LoadingText)
| Alert (m : Message)
| Wait (ms : Z)
| DownloadBlob (content : Content) (name : FileName).

(** The browser and the user at download time:
    - [confirmed]: the answer to [window.confirm];
    - [now]: what [new Date().getTime()] reads;
    - [isMobile]: whether the user agent is a phone or a tablet;
    - [createImageBitmap]: the bitmap decoded from a blob, if any;
    - [generateAsync]: the message of the error when zipping fails;
    - [toBlob]: the answer of the encoder for the combined canvas. *)
Record Desk := {
  confirmed : bool;
  now : Z;
  isMobile : bool;
  createImageBitmap : Blob -> option ImageBitmap;
  generateAsync : option jsstring;
  toBlob : Canvas -> Mime -> Q -> EncodeResult
}.

(** [await Promise.all(generatedBlobs.map(b => createImageBitmap(b)))];
    [None] when one of them is rejected. *)
Fixpoint allBitmaps (desk : Desk) (blobs : list Blob)
  : option (list ImageBitmap) :=
  match blobs with
  | [] => Some []
  | b :: rest =>
      match createImageBitmap desk b, allBitmaps desk rest with
      | Some bmp, Some bmps => Some (bmp :: bmps)
      | _, _ => None
      end
  end.

(** [for (let bmp of bitmaps) { ctx.drawImage(bmp, 0, y); y += bmp.height }] *)
Fixpoint drawStack (y : Z) (bitmaps : list ImageBitmap)
  : list (ImageBitmap * Z * Z) :=
  match bitmaps with
  | [] => []
  | bmp :: rest => (bmp, 0, y) :: drawStack (y + height bmp) rest
  end.

(** [generatedBlobs.forEach((blob, i) => folder.file(name(i + 1), blob))] *)
Fixpoint zipEntries (ext : Ext) (i : Z) (blobs : list Blob)
  : list (FileName * Blob) :=
  match blobs with
  | [] => []
  | blob :: rest => (PartName (i + 1) ext, blob) :: zipEntries ext (i + 1) rest
  end.

(** The loop of the "parts" download, from index [i] on; [n] is the
    number of blobs. *)
Fixpoint downloadParts (n i : Z) (blobs : list Blob) : list Event :=
  match blobs with
  | [] => []
  | blob :: rest =>
      let ext :=
        match blobType blob with ImagePng => png | ImageJpeg => jpg end in
      [ SetLoadingText (Downloading (i + 1) n);
        DownloadBlob (OfBlob blob) (PartName (i + 1) ext) ]
      ++ (if i <? n - 1 then [Wait 1500] else [])
      ++ downloadParts n (i + 1) rest
  end.

Definition handleDownload (desk : Desk) (images : list ImageItem)
           (settings : Settings) (generatedBlobs : list Blob)
           (type : DownloadType) : list Event :=
  match generatedBlobs with
  | [] => []
  | first :: _ =>
      match type with
      | zip =>
          let ext := if qualityVal settings =? 100 then png else jpg in
          let entries := zipEntries ext 0 generatedBlobs in
          [SetIsLoading true; SetLoadingText Zipping]
          ++ match generateAsync desk with
             | None =>
                 [DownloadBlob (OfZip entries) (ZipName (now desk))]
             | Some message => [Alert (ZipFailed message)]
             end
          ++ [SetIsLoading false]
      | combine =>
          if 100 <? Z.of_nat (length images) then [Alert TooManyImages]
          else
            [SetIsLoading true; SetLoadingText Combining]
            ++ match allBitmaps desk generatedBlobs with
               | Some ((bmp0 :: _) as bitmaps) =>
                   let totalH :=
                     fold_left (fun sum b => sum + height b) bitmaps 0 in
                   let maxW := width bmp0 in
                   if (if isMobile desk then 16777216 else 50000000)
                        <? maxW * totalH
                   then [Alert TooManyPixels; SetIsLoading false]
                   else
                     let cvs :=
                       {| canvasWidth := maxW; canvasHeight := totalH;
                          drawn := drawStack 0 bitmaps |} in
                     let ext :=
                       if qualityVal settings =? 100 then png else jpg in
                     let mime :=
                       if qualityVal settings =? 100 then ImagePng
                       else ImageJpeg in
                     let quality := (inject_Z (qualityVal settings) / 100)%Q in
                     match toBlob desk cvs mime quality with
                     | Produced blob =>
                         [ DownloadBlob (OfCanvas cvs mime quality blob)
                                        (CombinedName (now desk) ext);
                           SetIsLoading false ]
                     | Null => [SetIsLoading false]
                     | Throws _ => [Alert CombineFailed; SetIsLoading false]
                     end
               | _ => [Alert CombineFailed; SetIsLoading false]
               end
      | parts =>
          if confirmed desk then
            [SetIsLoading true]
            ++ downloadParts (Z.of_nat (length generatedBlobs)) 0
                             generatedBlobs
            ++ [SetIsLoading false]
          else []
      end
  end.

End Downloads.

(** ** App: previews *)

Module Previews.
Import Js Types Dom Utils App.

(** *** previewQuality *)

Inductive QualityPreview :=
| PleaseAddImagesFirst
| PreviewFailed
| Preview (canvasWidth canvasHeight : Z) (mime : Mime) (quality : option Q).

(** [loaded] is what the image element of the first image reports. The
    scale is [Math.min(1, 1000 / img.width)], and the quotient and the two
    products are doubles, each the nearest to its exact value; an image 0
    wide makes the quotient infinite and the scale 1. The image comes from
    an object URL, so the canvas can be read and [toDataURL] gives its
    answer. *)
Definition previewQuality (loaded : LoadEvent) (images : list ImageItem)
           (settings : Settings) : QualityPreview :=
  match images with
  | [] => PleaseAddImagesFirst
  | _ :: _ =>
      match loaded with
      | OnError => PreviewFailed
      | OnLoad img =>
          if (naturalWidth img =? 0) || (naturalHeight img =? 0)
          then PreviewFailed
          else
            let ratio := double (Num 1000 / ofZ (width img))%js in
            let scale :=
              match ratio with
              | Num r => if Qle_bool 1 r then Num 1 else ratio
              | _ => Num 1
              end in
            let q := qualityVal settings in
            Preview (dimension 300 (double (ofZ (width img) * scale)%js))
                    (dimension 150 (double (ofZ (height img) * scale)%js))
                    (if q =? 100 then ImagePng else ImageJpeg)
                    (if q =? 100 then None else Some (inject_Z q / 100)%Q)
      end
  end.

(** *** previewOverlay *)

(** [while (previewImgs.length < 9 && images.length > 0)
       previewImgs.push(images[0].url)], for at most [fuel] turns. *)
Fixpoint padLoop (fuel : nat) (previewImgs : list jsstring)
         (images : list ImageItem) : list jsstring :=
  match fuel with
  | O => previewImgs
  | S fuel' =>
      match images with
      | first :: _ =>
          if Z.of_nat (length previewImgs) <? 9
          then padLoop fuel' (previewImgs ++ [url first]) images
          else previewImgs
      | [] => previewImgs
      end
  end.

Definition previewImgs (images : list ImageItem) : list jsstring :=
  padLoop 9 (map url (slice images 0 9)) images.

Inductive OverlayPreview :=
| PleaseAddImagesAndOverlay
| Drawn (flow : Flow) (tr : Trace) (answer : EncodeResult).

Definition truthyUrl (u : option jsstring) : bool :=
  match u with
  | Some s => JsString.truthy s
  | None => false
  end.

(** The draw is made on a canvas of its own; the encoder is then asked
    for a JPEG at quality 0.8, and the preview is shown when it gives a
    blob. *)
Definition previewOverlay (env : Env) (images : list ImageItem)
           (settings : Settings) : OverlayPreview :=
  match images with
  | [] => PleaseAddImagesAndOverlay
  | _ :: _ =>
      if negb (truthyUrl (overlayImgUrl settings))
      then PleaseAddImagesAndOverlay
      else
        let w := Num 200 in
        let h := floor (double (w / double (getRatio settings)))%js in
        let '(flow, tr) :=
          drawAsync env 3 3 w h (floor (Num (gap settings) / Num 5)%js)
                    0 1 [] settings false (fun _ => false) true
                    (previewImgs images) [] in
        Drawn flow tr (toBlob env 0 (surfaceOf tr) ImageJpeg (Some (8 # 10)))
  end.

End Previews.

(** ** App: the preview of the mark *)

Module MarkPreview.
Import Js Types Dom Utils.

(** A call on the context of the preview canvas: one of those the sheets
    are painted with, or [drawImage] with a source rectangle. *)
Inductive Paint :=
| Ctx (c : Cmd)
| DrawImageFrom (img : Bitmap) (sx sy sw sh dx dy dw dh : jsnum).

Record Canvas := {
  canvasWidth : Z;
  canvasHeight : Z;
  painted : list Paint
}.

(** The cache of the preview: the image elements loaded last, and the URLs
    they were loaded from. *)
Record Refs := {
  bgImageRef : option Bitmap;
  lastBgUrlRef : option jsstring;
  stickerImageRef : option Bitmap;
  lastStickerUrlRef : option jsstring
}.

Definition w : jsnum := Num 300.
Definition h : jsnum := Num 300.

(** [url !== last], for a string and a string or [null]. *)
Definition differs (url : jsstring) (last : option jsstring) : bool :=
  match last with
  | Some l => negb (JsString.eqb url l)
  | None => true
  end.

(** "1. Prepare Background Image": the image element to draw and the
    cache as it is left. A load settles on [onload] and on [onerror]
    alike. *)
Definition prepareBackground (env : Env) (images : list ImageItem)
           (refs : Refs) : option Bitmap * Refs :=
  let currentBgUrl :=
    match images with
    | first :: _ => Some (url first)
    | [] => None
    end in
  let forgotten :=
    {| bgImageRef := None; lastBgUrlRef := None;
       stickerImageRef := stickerImageRef refs;
       lastStickerUrlRef := lastStickerUrlRef refs |} in
  match currentBgUrl with
  | Some u =>
      if JsString.truthy u then
        if differs u (lastBgUrlRef refs) then
          let bgImg := resource env u in
          (Some bgImg,
           {| bgImageRef := Some bgImg; lastBgUrlRef := Some u;
              stickerImageRef := stickerImageRef refs;
              lastStickerUrlRef := lastStickerUrlRef refs |})
        else (bgImageRef refs, refs)
      else (None, forgotten)
  | None => (None, forgotten)
  end.

Definition noImage : list Paint :=
  map Ctx
      [ FillStyle "#f0f0f0"; FillRect (Num 0) (Num 0) w h;
        FillStyle "#ccc"; TextAlign AlignCenter;
        FillText (Glyph [26080; 22270]%N) (w / Num 2)%js (h / Num 2)%js ].

(** "Draw BG": the middle of the image, as wide as it is high, stretched
    over the canvas. (An image that is complete and has a natural width has
    a height other than zero, so that [sRatio] is a number.) *)
Definition drawBackground (bgImg : option Bitmap) : list Paint :=
  match bgImg with
  | Some b =>
      if complete b && (naturalWidth b >? 0) then
        let sRatio := (ofZ (width b) / ofZ (height b))%js in
        let cRatio := (w / h)%js in
        if (sRatio >? cRatio)%js then
          [ DrawImageFrom b
              ((ofZ (width b) - ofZ (height b) * cRatio) / Num 2)%js (Num 0)
              (ofZ (height b) * cRatio)%js (ofZ (height b))
              (Num 0) (Num 0) w h ]
        else
          [ DrawImageFrom b
              (Num 0) ((ofZ (height b) - ofZ (width b) / cRatio) / Num 2)%js
              (ofZ (width b)) (ofZ (width b) / cRatio)%js
              (Num 0) (Num 0) w h ]
      else noImage
  | None => noImage
  end.

(** "2. Prepare Sticker Image", and the sticker drawn. *)
Definition drawSticker (env : Env) (settings : Settings) (refs : Refs)
  : list Paint * Refs :=
  match maskMode settings, stickerImgUrl settings with
  | image, Some currentStickerUrl =>
      if JsString.truthy currentStickerUrl then
        let '(stickerImg, refs) :=
          if differs currentStickerUrl (lastStickerUrlRef refs) then
            let stickerImg := resource env currentStickerUrl in
            (Some stickerImg,
             {| bgImageRef := bgImageRef refs;
                lastBgUrlRef := lastBgUrlRef refs;
                stickerImageRef := Some stickerImg;
                lastStickerUrlRef := Some currentStickerUrl |})
          else (stickerImageRef refs, refs) in
        match stickerImg with
        | Some s =>
            if complete s && (naturalWidth s >? 0) then
              let sizePct := (Num (stickerSize settings) / Num 100)%js in
              let xPct := (Num (stickerX settings) / Num 100)%js in
              let yPct := (Num (stickerY settings) / Num 100)%js in
              let sw := (w * sizePct)%js in
              let sh := (sw * (ofZ (height s) / ofZ (width s)))%js in
              let dx := (w * xPct - sw / Num 2)%js in
              let dy := (h * yPct - sh / Num 2)%js in
              ([Ctx (DrawImage s dx dy sw sh)], refs)
            else ([], refs)
        | None => ([], refs)
        end
      else ([], refs)
  | _, _ => ([], refs)
  end.

(** "Draw Line" *)
Definition drawLine (settings : Settings) : list Paint :=
  match maskMode settings with
  | line =>
      map Ctx
          ([ BeginPath;
             StrokeStyle (maskColor settings);
             LineWidth (Num (maskWidth settings) * (w / Num 500) * Num 5)%js;
             LineCapRound ]
           ++ match lineStyle settings with
              | cross =>
                  [ MoveTo (w * Num 0.2)%js (h * Num 0.2)%js;
                    LineTo (w * Num 0.8)%js (h * Num 0.8)%js;
                    MoveTo (w * Num 0.8)%js (h * Num 0.2)%js;
                    LineTo (w * Num 0.2)%js (h * Num 0.8)%js ]
              | slash =>
                  [ MoveTo (w * Num 0.2)%js (h * Num 0.8)%js;
                    LineTo (w * Num 0.8)%js (h * Num 0.2)%js ]
              end
           ++ [Stroke])
  | image => []
  end.

(** One call of [render], run to its end with no other call in between.
    The two canvases are those of the sticker panel and of the line panel,
    [None] when the panel is not mounted; the result is the canvas that was
    painted, if any, and the cache as it is left. The canvas is taken to
    give a 2D context. *)
Definition render (env : Env)
           (smallStickerCanvasRef linePreviewCanvasRef : option Canvas)
           (images : list ImageItem) (settings : Settings) (refs : Refs)
  : option Canvas * Refs :=
  let canvas :=
    match maskMode settings with
    | image => smallStickerCanvasRef
    | line => linePreviewCanvasRef
    end in
  match canvas with
  | None => (None, refs)
  | Some canvas =>
      let before :=
        if negb (canvasWidth canvas =? 300)
           || negb (canvasHeight canvas =? 300)
        then [] else painted canvas in
      let '(bgImg, refs) := prepareBackground env images refs in
      let '(sticker, refs) := drawSticker env settings refs in
      (Some {| canvasWidth := 300; canvasHeight := 300;
               painted :=
                 before ++ [Ctx (ClearRect (Num 0) (Num 0) w h)]
                 ++ drawBackground bgImg ++ sticker ++ drawLine settings |},
       refs)
  end.

End MarkPreview.

(** ** Specification-side definitions for the grid *)

Module Geometry.

Section Grid.
Variables rows cols : Z.
Variables w h gap : Q.

(** The extent of the grid, before it is stored as a canvas dimension. *)
Definition gridWidth : Q := inject_Z cols * w + inject_Z (cols - 1) * gap.
Definition gridHeight : Q := inject_Z rows * h + inject_Z (rows - 1) * gap.

(** The left and the top edge of cell [i]. *)
Definition column (i : Z) : Q := inject_Z (Z.rem i cols) * (w + gap).
Definition row (i : Z) : Q := inject_Z (i / cols) * (h + gap).

End Grid.

End Geometry.

(** ** Specification-side definitions for lists *)

Module Lists.

(** The list without its entry at position [i]. *)
Definition removeAt {A : Type} (i : nat) (l : list A) : list A :=
  firstn i l ++ skipn (S i) l.

(** The list with [x] put in before position [i]. *)
Definition insertAt {A : Type} (i : nat) (x : A) (l : list A) : list A :=
  firstn i l ++ x :: skipn i l.

End Lists.

(** ** Specification-side definitions for the effects of the handlers *)

Module Effects.
Import ImageList.

(** The records written to the database, in order. *)
Definition savedItems (effects : list Effect)
  : list (Types.ImageItem * Files.File) :=
  flat_map (fun e => match e with SaveImagesToDB l => l | _ => [] end)
           effects.

Definition isFrame (e : Effect) : bool :=
  match e with AnimationFrame => true | _ => false end.

(** A write to the database holds between 1 and 50 records. *)
Definition goodSave (e : Effect) : Prop :=
  match e with
  | SaveImagesToDB l => l <> [] /\ (length l <= 50)%nat
  | _ => True
  end.

End Effects.

(** ** Specification-side definitions for runs *)

Module Runs.
Import Js Types Dom Utils App.

(** [updateSetting('maskIndices', val)]: the settings with another mask
    field. *)
Definition withMaskIndices (val : jsstring) (prev : Settings) : Settings :=
  {| aspectRatio := aspectRatio prev;
     customW := customW prev;
     customH := customH prev;
     gap := gap prev;
     showNum := showNum prev;
     startNumber := startNumber prev;
     fontSize := fontSize prev;
     fontWeight := fontWeight prev;
     fontColor := fontColor prev;
     enableStroke := enableStroke prev;
     fontStrokeColor := fontStrokeColor prev;
     fontShadowColor := fontShadowColor prev;
     enableShadow := enableShadow prev;
     fontFamily := fontFamily prev;
     fontPos := fontPos prev;
     Types.cols := Types.cols prev;
     groupRows := groupRows prev;
     overlayImgUrl := overlayImgUrl prev;
     overlayMode := overlayMode prev;
     overlayOpacity := overlayOpacity prev;
     qualityVal := qualityVal prev;
     maskMode := maskMode prev;
     maskIndices := val;
     maskColor := maskColor prev;
     maskWidth := maskWidth prev;
     lineStyle := lineStyle prev;
     stickerImgUrl := stickerImgUrl prev;
     stickerSize := stickerSize prev;
     stickerX := stickerX prev;
     stickerY := stickerY prev |}.

(** The images whose number, counted from the start number, is not in
    the array [arr] read from the mask field. *)
Definition keptImages (images : list ImageItem) (settings : Settings)
           (arr : list Z) : list ImageItem :=
  filterIndexed
    (fun _ i => negb (includes (startNumber settings + i) arr))
    0 images.

(** The events that show progress: the loading indicator going on or off,
    and the text beside it. *)
Definition isLoadingFlag (e : Event) : bool :=
  match e with SetIsLoading _ => true | _ => false end.

Definition isLoadingText (e : Event) : bool :=
  match e with SetLoadingText _ => true | _ => false end.

(** The width every sheet of a run is given. *)
Definition sheetWidth (settings : Settings) : Z :=
  canvasW (cols settings) (cellW settings) (Num (gap settings)).

End Runs.

(** ** Specification-side definitions for downloads and previews *)

Module Delivery.
Import Js Types Dom Downloads.

(** The extension that fits a blob. *)
Definition extOf (blob : Blob) : Ext :=
  match blobType blob with ImagePng => png | ImageJpeg => jpg end.

(** The files handed to the browser, in order. *)
Definition downloadsOf (evs : list Event) : list (Content * FileName) :=
  flat_map (fun e => match e with DownloadBlob c n => [(c, n)] | _ => [] end)
           evs.

Definition isPause (e : Event) : bool :=
  match e with Wait ms => ms =? 1500 | _ => false end.

(** The bitmaps are stacked from [y] down to [bottom]: each one at the
    left edge, right under the one before. *)
Fixpoint tiled (y : Z) (drawn : list (ImageBitmap * Z * Z)) (bottom : Z)
  : Prop :=
  match drawn with
  | [] => y = bottom
  | (bmp, x, y') :: rest =>
      x = 0 /\ y' = y /\ tiled (y + height bmp) rest bottom
  end.

(** The pictures of a sheet, and nothing else: each source drawn in its
    cell, from cell [i] on. *)
Definition pictures (env : Env) (cols : Z) (w h gap : jsnum) (i : Z)
           (imgs : list jsstring) : list Cmd :=
  flat_map (fun p =>
              Utils.drawImg (Observations.settled env (snd p) 2)
                            (Utils.cellX cols w gap (fst p))
                            (Utils.cellY cols h gap (fst p)) w h)
           (List.combine (Scenarios.zseq i (length imgs)) imgs).

(** The largest canvas the combined download makes. *)
Definition pixelLimit (desk : Desk) : Z :=
  if isMobile desk then 16777216 else 50000000.

(** An encoder that gives the type it is asked for. *)
Definition honest (env : Env) : Prop :=
  forall k sheet mime q blob,
    Dom.toBlob env k sheet mime q = Produced blob -> blobType blob = mime.

(** A browser in which every image decodes at once and the encoder gives
    a blob of the type asked for; and a user who confirms, at a desk where
    nothing fails. *)
Definition studio : Env :=
  {| cancelAt := None;
     imageEvent := fun _ _ => OnLoad Scenarios.photoBitmap;
     resource := fun _ => Scenarios.photoBitmap;
     Dom.toBlob :=
       fun n _ mime _ => Produced {| blobType := mime; blobSize := 1 |};
     canvasRef := true;
     arrayLimit := 4294967295 |}.

Definition desk : Desk :=
  {| confirmed := true;
     now := 7;
     isMobile := true;
     createImageBitmap := fun _ => Some {| width := 100; height := 40 |};
     generateAsync := None;
     Downloads.toBlob := fun _ _ _ => Produced (Scenarios.jpegBlob 9) |}.

End Delivery.

(** ** Specification-side definitions for the preview of the mark *)

Module Shown.
Import Js Types Dom MarkPreview.

(** The same number: the same rational, or the same absence of one. *)
Definition sameNum (a b : jsnum) : Prop :=
  match a, b with
  | Num p, Num q => (p == q)%Q
  | NaN, NaN => True
  | Undef, Undef => True
  | _, _ => False
  end.

(** A call of the preview is the call [c] of a sheet: the same method on
    the same arguments. *)
Definition sameCall (p : Paint) (c : Cmd) : Prop :=
  match p, c with
  | Ctx (DrawImage i x y sw sh), DrawImage i' x' y' sw' sh' =>
      i = i' /\ sameNum x x' /\ sameNum y y' /\ sameNum sw sw'
      /\ sameNum sh sh'
  | Ctx (MoveTo x y), MoveTo x' y' => sameNum x x' /\ sameNum y y'
  | Ctx (LineTo x y), LineTo x' y' => sameNum x x' /\ sameNum y y'
  | Ctx (LineWidth v), LineWidth v' => sameNum v v'
  | Ctx c1, c2 => c1 = c2
  | DrawImageFrom _ _ _ _ _ _ _ _ _, _ => False
  end.

(** The cache holds, for each URL it remembers, the image that URL
    loads. *)
Definition coherent (env : Env) (refs : Refs) : Prop :=
  (forall u, lastBgUrlRef refs = Some u ->
             bgImageRef refs = Some (resource env u))
  /\ (forall u, lastStickerUrlRef refs = Some u ->
                stickerImageRef refs = Some (resource env u)).

(** The image behind the mark: the first image of the list, as its URL
    loads. *)
Definition backgroundOf (env : Env) (images : list ImageItem)
  : option Bitmap :=
  match images with
  | first :: _ =>
      if JsString.truthy (url first) then Some (resource env (url first))
      else None
  | [] => None
  end.

Definition noRefs : Refs :=
  {| bgImageRef := None; lastBgUrlRef := None;
     stickerImageRef := None; lastStickerUrlRef := None |}.

End Shown.

(** * Properties *)

(** ** parseMaskIndices *)

Module MaskGrammarProofs.
Import Js Utils MaskGrammar.

Lemma in_zrange lo hi k : In k (zrange lo hi) <-> lo <= k <= hi.
Proof.
  unfold zrange. rewrite in_map_iff. split.
  - intros (i & <- & Hi). apply in_seq in Hi. lia.
  - intros H. exists (Z.to_nat (k - lo)). split; [lia|]. apply in_seq. lia.
Qed.

Lemma exactRangeLoop_enough fuel : forall k hi acc,
  (Z.to_nat (hi - k + 1) <= fuel)%nat ->
  exactRangeLoop fuel k hi acc = acc ++ zrange k hi.
Proof.
  induction fuel as [|fuel IH]; intros k hi acc Hf; simpl.
  - unfold zrange. replace (Z.to_nat (hi - k + 1)) with O by lia.
    simpl. now rewrite app_nil_r.
  - destruct (Z.leb_spec k hi) as [Hle|Hgt].
    + rewrite IH by lia. rewrite <- app_assoc. f_equal.
      unfold zrange.
      replace (Z.to_nat (hi - k + 1)) with (S (Z.to_nat (hi - (k + 1) + 1))) by lia.
      simpl. f_equal; [lia|].
      rewrite <- seq_shift, map_map. apply map_ext. intros; lia.
    + unfold zrange. replace (Z.to_nat (hi - k + 1)) with O by lia.
      simpl. now rewrite app_nil_r.
Qed.

Lemma exactRange_spec lo hi acc : exactRange lo hi acc = acc ++ zrange lo hi.
Proof. unfold exactRange. apply exactRangeLoop_enough. lia. Qed.

Lemma exactPart_acc acc part : exactPart acc part = acc ++ exactPart [] part.
Proof.
  unfold exactPart.
  destruct (negb _); [now rewrite app_nil_r|].
  destruct (existsb _ _).
  - destruct (splitOn _ _ _) as [|a [|b [|c l]]]; try now rewrite app_nil_r.
    destruct (mathInt a), (mathInt b); try now rewrite app_nil_r.
    now rewrite !exactRange_spec.
  - destruct (mathInt _); [reflexivity|now rewrite app_nil_r].
Qed.

Lemma fold_exactPart parts : forall acc,
  fold_left exactPart parts acc = acc ++ flat_map (exactPart []) parts.
Proof.
  induction parts as [|p parts IH]; intros acc; simpl.
  - now rewrite app_nil_r.
  - rewrite IH, (exactPart_acc acc p). now rewrite app_assoc.
Qed.

Lemma flat_map_tokens (f : jsstring -> list Z) parts :
  f [] = [] ->
  flat_map f (filter JsString.truthy parts) = flat_map f parts.
Proof.
  intros Hf. induction parts as [|p parts IH]; simpl; [reflexivity|].
  destruct p; simpl; [now rewrite Hf|]. now rewrite IH.
Qed.

Lemma exactIndices_tokens input :
  exactIndices input = flat_map (exactPart []) (tokens input).
Proof.
  unfold exactIndices, tokens.
  rewrite fold_exactPart. simpl. now rewrite flat_map_tokens.
Qed.

Lemma splitClass_free cls s : forall inRun cur,
  free cls cur ->
  Forall (free cls) (splitClass cls inRun cur s).
Proof.
  induction s as [|c s IH]; intros inRun cur Hcur; simpl.
  - constructor; [|constructor]. now apply Forall_rev.
  - destruct (cls c) eqn:Hc.
    + destruct inRun.
      * apply IH. constructor.
      * constructor; [now apply Forall_rev|]. apply IH. constructor.
    + apply IH. now constructor.
Qed.

Lemma tokens_free input t :
  In t (tokens input) -> t <> [] /\ free isSeparator t.
Proof.
  unfold tokens. rewrite filter_In. intros [Hin Ht]. split.
  - destruct t; [discriminate|congruence].
  - pose proof (@splitClass_free isSeparator input false [] (Forall_nil _)) as H.
    rewrite Forall_forall in H. now apply H.
Qed.

(** The characters of the tokens, in order, are the characters of the
    input that are not separators. *)
Lemma splitClass_concat cls s : forall inRun cur,
  (inRun = true -> cur = []) ->
  concat (splitClass cls inRun cur s)
  = rev cur ++ filter (fun c => negb (cls c)) s.
Proof.
  induction s as [|c s IH]; intros inRun cur Hrun; simpl.
  - now rewrite !app_nil_r.
  - destruct (cls c) eqn:Hc; simpl.
    + destruct inRun; simpl; rewrite IH by reflexivity; simpl.
      * now rewrite (Hrun eq_refl).
      * reflexivity.
    + rewrite IH by discriminate. simpl. now rewrite <- app_assoc.
Qed.

Lemma concat_filter_truthy (l : list jsstring) :
  concat (filter JsString.truthy l) = concat l.
Proof.
  induction l as [|t l IH]; simpl; [reflexivity|].
  destruct t; simpl; [assumption|]. now rewrite IH.
Qed.

Lemma tokens_concat input :
  concat (tokens input) = filter (fun c => negb (isSeparator c)) input.
Proof.
  unfold tokens. rewrite concat_filter_truthy.
  now rewrite splitClass_concat by discriminate.
Qed.

Lemma trimStart_free s : free isWhiteSpace s -> trimStart s = s.
Proof. intros H. destruct H as [|c s Hc Hs]; simpl; [reflexivity|now rewrite Hc]. Qed.

Lemma trim_free s : free isWhiteSpace s -> trim s = s.
Proof.
  intros H. unfold trim. rewrite (trimStart_free H).
  rewrite trimStart_free by now apply Forall_rev.
  apply rev_involutive.
Qed.

Lemma separator_free_white s : free isSeparator s -> free isWhiteSpace s.
Proof.
  apply Forall_impl. intros c Hc. unfold isSeparator in Hc.
  now apply orb_false_iff in Hc.
Qed.

Lemma existsb_hyphen s : existsb (N.eqb hyphen) s = true <-> In hyphen s.
Proof.
  rewrite existsb_exists. split.
  - intros (c & Hin & Hc). apply N.eqb_eq in Hc. now subst.
  - intros H. exists hyphen. split; [assumption|apply N.eqb_refl].
Qed.

(** Joining the fields of [splitOn] with the separator gives the string
    back, and no field holds the separator. *)
Lemma join_cons sep f fs :
  fs <> [] -> join sep (f :: fs) = f ++ sep :: join sep fs.
Proof. destruct fs; [congruence|reflexivity]. Qed.

Lemma splitOn_nonempty sep s : forall cur, splitOn sep cur s <> [].
Proof.
  induction s as [|c s IH]; intros cur; simpl; [discriminate|].
  destruct (c =? sep)%N; [discriminate|apply IH].
Qed.

Lemma splitOn_join sep s : forall cur,
  join sep (splitOn sep cur s) = rev cur ++ s.
Proof.
  induction s as [|c s IH]; intros cur; simpl.
  - now rewrite app_nil_r.
  - destruct (N.eqb_spec c sep) as [->|Hne].
    + rewrite join_cons by apply splitOn_nonempty.
      now rewrite IH.
    + rewrite IH. simpl. now rewrite <- app_assoc.
Qed.

Lemma splitOn_free sep s : forall cur,
  ~ In sep cur -> Forall (fun f => ~ In sep f) (splitOn sep cur s).
Proof.
  induction s as [|c s IH]; intros cur Hcur; simpl.
  - constructor; [|constructor]. now rewrite <- in_rev.
  - destruct (N.eqb_spec c sep) as [->|Hne].
    + constructor; [now rewrite <- in_rev|]. apply IH. intros [].
    + apply IH. intros [H|H]; [congruence|contradiction].
Qed.

Lemma splitOn_no_sep sep s : forall cur,
  ~ In sep s -> splitOn sep cur s = [rev cur ++ s].
Proof.
  induction s as [|c s IH]; intros cur Hs; simpl.
  - now rewrite app_nil_r.
  - destruct (N.eqb_spec c sep) as [->|Hne]; [exfalso; apply Hs; now left|].
    rewrite IH by (intros H; apply Hs; now right).
    simpl. now rewrite <- app_assoc.
Qed.

Lemma splitOn_app sep a rest : forall cur,
  ~ In sep a ->
  splitOn sep cur (a ++ sep :: rest) = (rev cur ++ a) :: splitOn sep [] rest.
Proof.
  induction a as [|c a IH]; intros cur Ha; simpl.
  - rewrite N.eqb_refl. now rewrite app_nil_r.
  - destruct (N.eqb_spec c sep) as [->|Hne]; [exfalso; apply Ha; now left|].
    rewrite IH by (intros H; apply Ha; now right).
    simpl. now rewrite <- app_assoc.
Qed.

Lemma splitOn_two sep s a b :
  splitOn sep [] s = [a; b] <->
  s = a ++ sep :: b /\ ~ In sep a /\ ~ In sep b.
Proof.
  split.
  - intros E.
    pose proof (splitOn_join sep s []) as J. rewrite E in J. simpl in J.
    pose proof (@splitOn_free sep s [] (fun H => H)) as F. rewrite E in F.
    inversion F as [|? ? Fa F']; subst. inversion F' as [|? ? Fb _]; subst.
    now split.
  - intros (-> & Ha & Hb).
    rewrite splitOn_app by assumption. simpl.
    now rewrite splitOn_no_sep.
Qed.

(** **** Tokens that are plain decimal integers *)

Lemma decimal_digit_facts c :
  JsString.isDecimalDigit c = true ->
  isSeparator c = false /\ isRangeMark c = false /\ c <> hyphen
  /\ (c =? 45)%N = false /\ (c =? 43)%N = false
  /\ (c =? 120)%N = false /\ (c =? 88)%N = false
  /\ digitValue 10 c = Some (Z.of_N c - 48).
Proof.
  unfold JsString.isDecimalDigit. intros H.
  apply andb_true_iff in H. destruct H as [H1 H2].
  unfold digitValue. rewrite H1, H2. simpl.
  apply N.leb_le in H1, H2.
  unfold isSeparator, isRangeMark, isWhiteSpace, hyphen.
  repeat match goal with
         | |- context [(?a <=? ?b)%N] => destruct (N.leb_spec a b); try lia
         | |- context [(?a =? ?b)%N] => destruct (N.eqb_spec a b); try lia
         end.
  simpl. repeat split; try reflexivity; lia.
Qed.

Lemma readDigits_decimal t : forall acc seen,
  forallb JsString.isDecimalDigit t = true ->
  (seen = true \/ t <> []) ->
  readDigits 10 acc seen t
  = Some (fold_left (fun a c => a * 10 + (Z.of_N c - 48)) t acc).
Proof.
  induction t as [|c t IH]; intros acc seen Hall Hs; simpl.
  - destruct Hs as [->|Hs]; [reflexivity|congruence].
  - simpl in Hall. apply andb_true_iff in Hall. destruct Hall as [Hc Hall].
    destruct (decimal_digit_facts _ Hc) as (_ & _ & _ & _ & _ & _ & _ & Hd).
    rewrite Hd. apply IH; [assumption|now left].
Qed.

Lemma mathInt_integer t :
  isInteger t = true -> mathInt t = Some (JsString.decimalValue t).
Proof.
  unfold isInteger. intros H. apply andb_true_iff in H. destruct H as [Hne Hall].
  destruct t as [|c t]; [discriminate|].
  pose proof Hall as Hall'. simpl in Hall'. apply andb_true_iff in Hall'.
  destruct Hall' as [Hc Ht].
  destruct (decimal_digit_facts _ Hc) as (Hsep & _ & _ & H45 & H43 & _ & _ & _).
  unfold mathInt. cbn [trimStart].
  assert (Hw : isWhiteSpace c = false).
  { unfold isSeparator in Hsep. now apply orb_false_iff in Hsep. }
  rewrite Hw, H45, H43. cbv beta iota zeta.
  assert (Hend : forall r : option Z,
            r = Some (fold_left (fun a c => a * 10 + (Z.of_N c - 48)) (c :: t) 0) ->
            match r with Some n => Some (1 * n) | None => None end
            = Some (JsString.decimalValue (c :: t))).
  { intros r ->. unfold JsString.decimalValue. f_equal.
    destruct (fold_left _ _ _); reflexivity. }
  destruct t as [|x t].
  - apply Hend. apply readDigits_decimal; [assumption|right; discriminate].
  - simpl in Ht. apply andb_true_iff in Ht. destruct Ht as [Hx _].
    destruct (decimal_digit_facts _ Hx) as (_ & _ & _ & _ & _ & H120 & H88 & _).
    rewrite H120, H88. simpl orb. rewrite andb_false_r.
    apply Hend. apply readDigits_decimal; [assumption|right; discriminate].
Qed.

Lemma standardise_integer t :
  forallb JsString.isDecimalDigit t = true ->
  standardise t = t /\ ~ In hyphen t.
Proof.
  induction t as [|c t IH]; simpl; intros H; [split; [reflexivity|intros []]|].
  apply andb_true_iff in H. destruct H as [Hc Ht].
  destruct (decimal_digit_facts _ Hc) as (_ & Hm & Hh & _).
  destruct (IH Ht) as [E Hn]. rewrite Hm, E. split; [reflexivity|].
  intros [H|H]; [congruence|contradiction].
Qed.

Lemma exactPart_wellFormed tok :
  tok <> [] -> free isSeparator tok -> wellFormed tok = true ->
  exactPart [] tok = specContribution tok.
Proof.
  intros Hne Hfree Hwf. unfold exactPart, specContribution.
  rewrite (trim_free (separator_free_white Hfree)).
  destruct tok as [|c tok]; [congruence|]. cbn [JsString.truthy negb].
  fold (standardise (c :: tok)).
  unfold wellFormed in Hwf.
  destruct (isInteger (c :: tok)) eqn:Hi.
  - pose proof (mathInt_integer _ Hi) as P.
    unfold isInteger in Hi. apply andb_true_iff in Hi. destruct Hi as [_ Hall].
    destruct (standardise_integer _ Hall) as [E Hn]. rewrite E.
    destruct (existsb (N.eqb hyphen) (c :: tok)) eqn:Hex.
    + apply existsb_hyphen in Hex. contradiction.
    + now rewrite P.
  - try rewrite Hi in Hwf. cbn [orb] in Hwf.
    destruct (splitOn hyphen [] (standardise (c :: tok)))
      as [|a [|b [|x l]]] eqn:E; try discriminate.
    rewrite Hwf. apply andb_true_iff in Hwf. destruct Hwf as [Ia Ib].
    apply splitOn_two in E. destruct E as (E & _ & _).
    assert (Hex : existsb (N.eqb hyphen) (standardise (c :: tok)) = true).
    { apply existsb_hyphen. rewrite E. apply in_or_app. right. now left. }
    rewrite Hex, (mathInt_integer _ Ia), (mathInt_integer _ Ib).
    now rewrite exactRange_spec.
Qed.

(** On inputs made of well-formed tokens only, the code computes what the
    specification says. *)
Lemma exactIndices_wellFormed input :
  forallb wellFormed (tokens input) = true ->
  exactIndices input = specParse input.
Proof.
  intros H. rewrite exactIndices_tokens. unfold specParse.
  rewrite forallb_forall in H.
  assert (G : forall l, (forall t, In t l -> In t (tokens input)) ->
                        flat_map (exactPart []) l = flat_map specContribution l).
  { induction l as [|t l IH]; intros Hl; simpl; [reflexivity|].
    rewrite IH by (intros; apply Hl; now right).
    f_equal. destruct (tokens_free input t (Hl t (or_introl eq_refl))).
    apply exactPart_wellFormed; auto. apply H, Hl. now left. }
  apply G. auto.
Qed.

Lemma trimStart_suffix s : exists p, s = p ++ trimStart s.
Proof.
  induction s as [|c s IH]; [exists []; reflexivity|].
  cbn [trimStart]. destruct (isWhiteSpace c).
  - destruct IH as [p Hp]. exists (c :: p). cbn. now rewrite <- Hp.
  - exists []. reflexivity.
Qed.

Lemma digitValue_nonneg radix c d : digitValue radix c = Some d -> 0 <= d.
Proof.
  unfold digitValue.
  destruct ((48 <=? c) && (c <=? 57))%N eqn:E1.
  - intros [= <-]. apply andb_true_iff in E1 as [E1 _].
    apply N.leb_le in E1. lia.
  - destruct ((radix =? 16) && ((97 <=? c) && (c <=? 102))%N) eqn:E2.
    + intros [= <-]. apply andb_true_iff in E2 as [_ E2].
      apply andb_true_iff in E2 as [E2 _]. apply N.leb_le in E2. lia.
    + destruct ((radix =? 16) && ((65 <=? c) && (c <=? 70))%N) eqn:E3;
        [|discriminate].
      intros [= <-]. apply andb_true_iff in E3 as [_ E3].
      apply andb_true_iff in E3 as [E3 _]. apply N.leb_le in E3. lia.
Qed.

Lemma readDigits_nonneg radix s : forall acc seen n,
  0 < radix -> 0 <= acc ->
  readDigits radix acc seen s = Some n -> 0 <= n.
Proof.
  induction s as [|c s IH]; intros acc seen n Hr Ha; cbn [readDigits].
  - destruct seen; [intros [= <-]; exact Ha|discriminate].
  - destruct (digitValue radix c) as [d|] eqn:E.
    + apply IH; [exact Hr|]. apply digitValue_nonneg in E. nia.
    + destruct seen; [intros [= <-]; exact Ha|discriminate].
Qed.

(** [mathInt] reads a negative number only behind a minus sign. *)
Lemma mathInt_nonneg s n : ~ In hyphen s -> mathInt s = Some n -> 0 <= n.
Proof.
  intros Hs. unfold mathInt.
  destruct (trimStart_suffix s) as [p Hp].
  assert (Ht : ~ In hyphen (trimStart s)).
  { intros H. apply Hs. rewrite Hp. apply in_or_app. now right. }
  assert (Hrd : forall radix u k,
             0 < radix ->
             match readDigits radix 0 false u with
             | Some n0 => Some (1 * n0)
             | None => None
             end = Some k -> 0 <= k).
  { intros radix u k Hr. destruct (readDigits radix 0 false u) eqn:E;
      [|discriminate].
    intros [= <-]. apply readDigits_nonneg in E; try lia.
    destruct z; lia. }
  destruct (trimStart s) as [|c t]; [cbn; discriminate|].
  destruct (c =? 45)%N eqn:E45.
  { exfalso. apply Ht. left. apply N.eqb_eq in E45. now rewrite E45. }
  destruct (c =? 43)%N.
  - destruct t as [|z [|x u]]; try (apply Hrd; lia).
    destruct ((z =? 48) && ((x =? 120) || (x =? 88)))%N; apply Hrd; lia.
  - destruct t as [|x u]; try (apply Hrd; lia).
    destruct ((c =? 48) && ((x =? 120) || (x =? 88)))%N; apply Hrd; lia.
Qed.

(** **** Integers held in doubles *)

Lemma toDouble_small n : Z.abs n < 2 ^ 53 -> toDouble n = n.
Proof.
  intros H. unfold toDouble.
  destruct (Z.ltb_spec (Z.abs n) (2 ^ 53)); [reflexivity|lia].
Qed.

(** From 2^53 on, a double is a 53-bit integer times a power of two. *)
Local Abbreviation isDouble k :=
  (k < 2 ^ 53
   \/ exists q e, 1 <= e /\ 2 ^ 52 <= q < 2 ^ 53 /\ k%Z = q * 2 ^ e).

Lemma significand_bounds n :
  2 ^ 53 <= n ->
  let e := Z.log2 n - 52 in
  1 <= e /\ 2 ^ 52 <= n / 2 ^ e < 2 ^ 53.
Proof.
  intros Hn e.
  assert (H0 : 0 < n) by lia.
  pose proof (Z.log2_spec n H0) as [Hlo Hhi].
  assert (HL : 53 <= Z.log2 n).
  { apply Z.log2_le_pow2; lia. }
  assert (He : 1 <= e) by (unfold e; lia).
  split; [exact He|].
  assert (Hp : 0 < 2 ^ e) by (apply Z.pow_pos_nonneg; lia).
  assert (E1 : 2 ^ Z.log2 n = 2 ^ 52 * 2 ^ e).
  { rewrite <- Z.pow_add_r by lia. f_equal. unfold e. lia. }
  assert (E2 : 2 ^ Z.succ (Z.log2 n) = 2 ^ 53 * 2 ^ e).
  { rewrite <- Z.pow_add_r by lia. f_equal. unfold e. lia. }
  split.
  - apply Z.div_le_lower_bound; [exact Hp|]. rewrite Z.mul_comm. lia.
  - apply Z.div_lt_upper_bound; [exact Hp|]. rewrite Z.mul_comm. lia.
Qed.

Lemma toDouble_large n :
  2 ^ 53 <= n ->
  exists q e,
    1 <= e /\ 2 ^ 52 <= q <= 2 ^ 53
    /\ toDouble n = Z.min (q * 2 ^ e) (2 ^ 1024).
Proof.
  intros Hn. destruct (significand_bounds Hn) as [He Hq].
  unfold toDouble. rewrite Z.abs_eq by lia.
  destruct (Z.ltb_spec n (2 ^ 53)); [lia|].
  cbv zeta. rewrite Z.sgn_pos by lia. rewrite Z.mul_1_l.
  set (e := Z.log2 n - 52) in *.
  destruct (_ || _).
  - exists (n / 2 ^ e + 1), e. repeat split; try lia.
  - exists (n / 2 ^ e), e. repeat split; try lia.
Qed.

Lemma toDouble_nonneg n : 0 <= n -> 0 <= toDouble n.
Proof.
  intros H. destruct (Z.lt_ge_cases n (2 ^ 53)) as [Hs|Hl].
  - rewrite toDouble_small; lia.
  - destruct (toDouble_large Hl) as (q & e & He & Hq & ->).
    assert (0 < 2 ^ e) by (apply Z.pow_pos_nonneg; lia).
    apply Z.min_glb; [nia|]. apply Z.pow_nonneg. lia.
Qed.

Lemma toDouble_isDouble n : 0 <= n -> isDouble (toDouble n).
Proof.
  intros H. destruct (Z.lt_ge_cases n (2 ^ 53)) as [Hs|Hl].
  - left. rewrite toDouble_small; lia.
  - right. destruct (toDouble_large Hl) as (q & e & He & Hq & ->).
    destruct (Z.le_gt_cases (q * 2 ^ e) (2 ^ 1024)) as [Hm|Hm].
    + rewrite Z.min_l by exact Hm.
      destruct (Z.eq_dec q (2 ^ 53)) as [->|Hne].
      * exists (2 ^ 52), (e + 1). repeat split; try lia.
        rewrite Z.pow_add_r by lia. change (2 ^ 53) with (2 ^ 52 * 2 ^ 1). ring.
      * exists q, e. repeat split; lia.
    + rewrite Z.min_r by lia.
      exists (2 ^ 52), 972. repeat split; lia.
Qed.

Lemma increment_small k : 0 <= k < 2 ^ 53 -> increment k = k + 1.
Proof.
  intros H. unfold increment.
  destruct (Z.eq_dec (k + 1) (2 ^ 53)) as [E|E].
  - rewrite E. reflexivity.
  - apply toDouble_small. lia.
Qed.

(** [k++] from 2^53 on: the sum falls between two doubles. Where doubles
    are 2 apart it is half way, and goes to the one whose significand is
    even; further up it goes back to [k]. *)
Lemma increment_large q e :
  1 <= e -> 2 ^ 52 <= q < 2 ^ 53 ->
  increment (q * 2 ^ e)
  = if (e =? 1) && Z.odd q then q * 2 ^ e + 2
    else Z.min (q * 2 ^ e) (2 ^ 1024).
Proof.
  intros He Hq.
  assert (Hp : 2 <= 2 ^ e).
  { change 2 with (2 ^ 1) at 1. apply Z.pow_le_mono_r; lia. }
  assert (Hk : 2 ^ 53 <= q * 2 ^ e) by nia.
  assert (HL : Z.log2 (q * 2 ^ e + 1) = 52 + e).
  { apply Z.log2_unique; [lia|].
    rewrite Z.pow_succ_r, !Z.pow_add_r by lia.
    change (2 ^ 52 * 2 * 2 ^ e) with (2 ^ 53 * 2 ^ e). nia. }
  unfold increment, toDouble. rewrite Z.abs_eq by lia.
  destruct (Z.ltb_spec (q * 2 ^ e + 1) (2 ^ 53)); [lia|].
  cbv zeta. rewrite HL. replace (52 + e - 52) with e by lia.
  rewrite Z.sgn_pos by lia. rewrite Z.mul_1_l.
  assert (Hd : (q * 2 ^ e + 1) / 2 ^ e = q).
  { symmetry. apply Z.div_unique with 1; lia. }
  assert (Hm : (q * 2 ^ e + 1) mod 2 ^ e = 1).
  { symmetry. apply Z.mod_unique with q; lia. }
  rewrite Hd, Hm.
  assert (Hp1 : 0 < 2 ^ (e - 1)) by (apply Z.pow_pos_nonneg; lia).
  destruct (Z.ltb_spec (2 ^ (e - 1)) 1); [lia|]. cbn [orb].
  destruct (Z.eqb_spec e 1) as [->|Hne].
  - change (2 ^ (1 - 1)) with 1. cbn [Z.eqb Pos.eqb andb].
    destruct (Z.odd q); [|reflexivity].
    change (2 ^ 1) with 2.
    assert (2 ^ 55 <= 2 ^ 1024) by (apply Z.pow_le_mono_r; lia).
    change (2 ^ 55) with (2 ^ 53 * 4) in *.
    rewrite Z.min_l; lia.
  - assert (2 <= 2 ^ (e - 1)).
    { change 2 with (2 ^ 1) at 1. apply Z.pow_le_mono_r; lia. }
    destruct (Z.eqb_spec 1 (2 ^ (e - 1))); [lia|]. reflexivity.
Qed.

Lemma isDouble_even k : 2 ^ 53 <= k -> isDouble k -> Z.even k = true.
Proof.
  intros Hk [H|(q & e & He & Hq & ->)]; [lia|].
  rewrite Z.even_mul, Z.even_pow by lia. apply orb_true_r.
Qed.

(** The two ways [k++] can leave a double behind: by 1 below 2^53, and by
    2 to a double from which it moves no more. *)
Lemma increment_cases k :
  0 <= k -> isDouble k -> k < increment k ->
  (k < 2 ^ 53 /\ increment k = k + 1)
  \/ (2 ^ 53 <= k /\ increment k = k + 2
      /\ increment (k + 2) <= k + 2).
Proof.
  intros H0 [Hs|(q & e & He & Hq & ->)] Hinc.
  { left. split; [exact Hs|]. apply increment_small. lia. }
  right.
  assert (Hp : 2 <= 2 ^ e).
  { change 2 with (2 ^ 1) at 1. apply Z.pow_le_mono_r; lia. }
  split; [nia|].
  rewrite (increment_large He Hq) in Hinc |- *.
  destruct ((e =? 1) && Z.odd q) eqn:C.
  - split; [reflexivity|].
    apply andb_true_iff in C as [C1 C2]. apply Z.eqb_eq in C1. subst e.
    change (2 ^ 1) with 2.
    destruct (Z.eq_dec (q + 1) (2 ^ 53)) as [E|E].
    + replace (q * 2 + 2) with (2 ^ 52 * 2 ^ 2)
        by (change (2 ^ 52 * 2 ^ 2) with (2 ^ 53 * 2); lia).
      rewrite increment_large by lia. cbn [Z.eqb Pos.eqb andb].
      apply Z.le_min_l.
    + replace (q * 2 + 2) with ((q + 1) * 2 ^ 1)
        by (change (2 ^ 1) with 2; lia).
      rewrite increment_large by lia.
      replace (Z.odd (q + 1)) with false.
      * rewrite andb_false_r. apply Z.le_min_l.
      * rewrite Z.odd_add, C2. reflexivity.
  - pose proof (Z.le_min_l (q * 2 ^ e) (2 ^ 1024)). lia.
Qed.

(** **** The loop over a range *)

Lemma zrange_cons k hi : k <= hi -> zrange k hi = k :: zrange (k + 1) hi.
Proof.
  intros H. unfold zrange.
  replace (Z.to_nat (hi - k + 1)) with (S (Z.to_nat (hi - (k + 1) + 1))) by lia.
  simpl. f_equal; [lia|].
  rewrite <- seq_shift, map_map. apply map_ext. intros; lia.
Qed.

Lemma zrange_nil k hi : hi < k -> zrange k hi = [].
Proof.
  intros H. unfold zrange. now replace (Z.to_nat (hi - k + 1)) with O by lia.
Qed.

Lemma zrange_length k hi :
  Z.of_nat (length (zrange k hi)) = Z.max 0 (hi - k + 1).
Proof. unfold zrange. rewrite length_map, length_seq. lia. Qed.

Lemma push_returned limit acc k r :
  push limit acc k = Some r ->
  r = acc ++ [k] /\ Z.of_nat (length acc) < limit.
Proof.
  unfold push. destruct (Z.ltb_spec (Z.of_nat (length acc)) limit);
    [|discriminate].
  intros [= <-]. now split.
Qed.

Lemma push_fits limit acc k :
  Z.of_nat (length acc) < limit -> push limit acc k = Some (acc ++ [k]).
Proof.
  intros H. unfold push.
  destruct (Z.ltb_spec (Z.of_nat (length acc)) limit); [reflexivity|lia].
Qed.

Lemma push_full limit acc k :
  limit <= Z.of_nat (length acc) -> push limit acc k = None.
Proof.
  intros H. unfold push.
  destruct (Z.ltb_spec (Z.of_nat (length acc)) limit); [lia|reflexivity].
Qed.

(** Whenever the loop ends, it has pushed the integers from [k] to [hi]:
    from 2^53 on it ends only where [k] and [hi] are the same double, the
    one pass it then makes leaving [k] above [hi]. *)
Lemma pushRangeLoop_returned limit hi :
  isDouble hi ->
  forall fuel k acc r,
    0 <= k -> isDouble k ->
    pushRangeLoop limit fuel k hi acc = Some r -> r = acc ++ zrange k hi.
Proof.
  intros Dhi. induction fuel as [|fuel IH]; intros k acc r H0 Dk H;
    cbn [pushRangeLoop] in H; [discriminate|].
  destruct (Z.leb_spec k hi) as [Hle|Hgt].
  - destruct (push limit acc k) as [acc1|] eqn:P; [|discriminate].
    apply push_returned in P as [-> _].
    destruct (Z.leb_spec (increment k) k) as [|Hinc]; [discriminate|].
    destruct (increment_cases H0 Dk Hinc) as [[Hs E]|(Hl & E & St)];
      rewrite E in H.
    + apply IH in H; [|lia|].
      * rewrite H, (zrange_cons Hle), <- app_assoc. reflexivity.
      * destruct (Z.eq_dec (k + 1) (2 ^ 53)) as [E1|E1]; [|left; lia].
        right. exists (2 ^ 52), 1. rewrite E1. repeat split; lia.
    + destruct fuel as [|fuel']; cbn [pushRangeLoop] in H; [discriminate|].
      destruct (Z.leb_spec (k + 2) hi) as [Hle2|Hgt2].
      * destruct (push limit (acc ++ [k]) (k + 2)); [|discriminate].
        destruct (Z.leb_spec (increment (k + 2)) (k + 2)); [discriminate|lia].
      * injection H as <-.
        pose proof (isDouble_even Hl Dk) as Ek.
        assert (Hhi : 2 ^ 53 <= hi) by lia.
        pose proof (isDouble_even Hhi Dhi) as Eh.
        apply Z.even_spec in Ek as [a Ea], Eh as [b Eb].
        assert (hi = k) by lia. subst hi.
        rewrite (zrange_cons Hle), zrange_nil by lia. reflexivity.
  - injection H as <-. rewrite zrange_nil by lia. now rewrite app_nil_r.
Qed.

(** Below 2^53 the loop counts by 1: it ends when the range fits in the
    array, and throws when it does not. *)
Lemma pushRangeLoop_fits limit hi :
  hi < 2 ^ 53 ->
  forall fuel k acc,
    0 <= k -> Z.max 1 (hi - k + 2) <= Z.of_nat fuel ->
    Z.of_nat (length acc) + Z.max 0 (hi - k + 1) <= limit ->
    pushRangeLoop limit fuel k hi acc = Some (acc ++ zrange k hi).
Proof.
  intros Hhi. induction fuel as [|fuel IH]; intros k acc H0 Hf Hl; [lia|].
  cbn [pushRangeLoop].
  destruct (Z.leb_spec k hi) as [Hle|Hgt].
  - rewrite push_fits by lia. rewrite increment_small by lia.
    destruct (Z.leb_spec (k + 1) k); [lia|].
    rewrite IH; try lia.
    + rewrite (zrange_cons Hle), <- app_assoc. reflexivity.
    + rewrite length_app. cbn [length]. lia.
  - rewrite zrange_nil by lia. now rewrite app_nil_r.
Qed.

Lemma pushRangeLoop_overflows limit hi :
  hi < 2 ^ 53 ->
  forall fuel k acc,
    0 <= k <= hi ->
    limit < Z.of_nat (length acc) + (hi - k + 1) ->
    pushRangeLoop limit fuel k hi acc = None.
Proof.
  intros Hhi. induction fuel as [|fuel IH]; intros k acc Hk Hl;
    [reflexivity|].
  cbn [pushRangeLoop].
  destruct (Z.leb_spec k hi) as [Hle|Hgt]; [|lia].
  destruct (Z.le_gt_cases limit (Z.of_nat (length acc))) as [Hfull|Hroom].
  - now rewrite push_full.
  - rewrite push_fits by lia. rewrite increment_small by lia.
    destruct (Z.leb_spec (k + 1) k); [lia|].
    apply IH; [lia|]. rewrite length_app. cbn [length]. lia.
Qed.

Lemma pushRange_returned limit lo hi acc r :
  0 <= lo -> isDouble lo -> isDouble hi ->
  pushRange limit lo hi acc = Some r -> r = acc ++ zrange lo hi.
Proof. intros H0 Dlo Dhi. now apply pushRangeLoop_returned. Qed.

Lemma pushRange_fits limit lo hi acc :
  0 <= lo <= hi -> hi < 2 ^ 53 ->
  Z.of_nat (length acc) + (hi - lo + 1) <= limit ->
  pushRange limit lo hi acc = Some (acc ++ zrange lo hi).
Proof.
  intros H Hhi Hl. unfold pushRange. apply pushRangeLoop_fits; lia.
Qed.

Lemma pushRange_overflows limit lo hi acc :
  0 <= lo <= hi -> hi < 2 ^ 53 ->
  limit < Z.of_nat (length acc) + (hi - lo + 1) ->
  pushRange limit lo hi acc = None.
Proof.
  intros H Hhi Hl. unfold pushRange. now apply pushRangeLoop_overflows.
Qed.

(** **** What [parseInt] reads *)

Lemma parseInt_read s n :
  parseInt s = Some n <-> exists m, mathInt s = Some m /\ n = toDouble m.
Proof.
  unfold parseInt. destruct (mathInt s) as [m|]; cbn; split.
  - intros [= <-]. now exists m.
  - intros (m' & [= <-] & ->). reflexivity.
  - discriminate.
  - intros (m' & E & _). discriminate.
Qed.

Lemma parseInt_nonneg s n :
  ~ In hyphen s -> parseInt s = Some n -> 0 <= n /\ isDouble n.
Proof.
  intros Hs H. apply parseInt_read in H as (m & Hm & ->).
  apply mathInt_nonneg in Hm; [|exact Hs].
  split; [now apply toDouble_nonneg|now apply toDouble_isDouble].
Qed.

Lemma parseInt_integer t :
  isInteger t = true ->
  parseInt t = Some (toDouble (JsString.decimalValue t)).
Proof. intros H. unfold parseInt. now rewrite (mathInt_integer _ H). Qed.

(** **** What a token contributes *)

Lemma contributes_fields tok k :
  contributes tok k <->
  match splitOn hyphen [] (standardise tok) with
  | [t] => parseInt t = Some k
  | [a; b] =>
      exists s e, parseInt a = Some s /\ parseInt b = Some e
                  /\ Z.min s e <= k <= Z.max s e
  | _ => False
  end.
Proof.
  split.
  - intros [Hno P|a b s e E Ha Hb Pa Pb Hk].
    + rewrite splitOn_no_sep by exact Hno. exact P.
    + assert (S2 : splitOn hyphen [] (standardise tok) = [a; b])
        by (apply splitOn_two; now split).
      rewrite S2. now exists s, e.
  - destruct (splitOn hyphen [] (standardise tok)) as [|a [|b [|x l]]] eqn:E;
      try contradiction.
    + pose proof (splitOn_join hyphen (standardise tok) []) as J.
      pose proof (@splitOn_free hyphen (standardise tok) [] (fun H => H)) as F.
      rewrite E in J, F. cbn in J. apply Forall_inv in F.
      intros P. apply contributes_single; rewrite <- J; assumption.
    + apply splitOn_two in E as (E & Ha & Hb).
      intros (s & e & Pa & Pb & Hk). eapply contributes_range; eauto.
Qed.

Lemma fields_hyphen s :
  existsb (N.eqb hyphen) s = false -> splitOn hyphen [] s = [s].
Proof.
  intros H. apply splitOn_no_sep. intros Hin.
  apply existsb_hyphen in Hin. congruence.
Qed.

Lemma contributes_integer tok k :
  isInteger tok = true ->
  contributes tok k <-> k = toDouble (JsString.decimalValue tok).
Proof.
  intros Hi. pose proof (parseInt_integer _ Hi) as P.
  unfold isInteger in Hi. apply andb_true_iff in Hi. destruct Hi as [_ Hall].
  destruct (standardise_integer _ Hall) as [E Hn].
  rewrite contributes_fields, E, splitOn_no_sep by exact Hn. cbn [rev app].
  rewrite P. split; congruence.
Qed.

Lemma contributes_nonneg tok k : contributes tok k -> 0 <= k.
Proof.
  intros [Hn Hp|a b s e _ Ha Hb Hs He Hk].
  - now apply parseInt_nonneg in Hp.
  - apply parseInt_nonneg in Hs; [|exact Ha].
    apply parseInt_nonneg in He; [|exact Hb]. lia.
Qed.

(** **** One part *)

(** A token with its white space and range marks normalised, as the
    callback sees it. *)
Lemma parsePart_token limit acc tok :
  tok <> [] -> free isSeparator tok ->
  parsePart limit acc tok
  = match splitOn hyphen [] (standardise tok) with
    | [t] =>
        match parseInt t with
        | Some num => push limit acc num
        | None => Some acc
        end
    | [a; b] =>
        match parseInt a, parseInt b with
        | Some s, Some e => pushRange limit (Z.min s e) (Z.max s e) acc
        | _, _ => Some acc
        end
    | _ => Some acc
    end.
Proof.
  intros Hne Hfree. unfold parsePart.
  rewrite (trim_free (separator_free_white Hfree)).
  destruct tok as [|c tok]; [congruence|]. cbn [JsString.truthy negb].
  fold (standardise (c :: tok)).
  destruct (existsb (N.eqb hyphen) (standardise (c :: tok))) eqn:Hex.
  - destruct (splitOn hyphen [] (standardise (c :: tok)))
      as [|a [|b [|x l]]] eqn:E; try reflexivity.
    exfalso. apply existsb_hyphen in Hex.
    pose proof (splitOn_join hyphen (standardise (c :: tok)) []) as J.
    pose proof (@splitOn_free hyphen (standardise (c :: tok)) []
                  (fun H => H)) as F.
    rewrite E in J, F. cbn in J. apply Forall_inv in F.
    apply F. now rewrite J.
  - now rewrite fields_hyphen.
Qed.

(** What a token adds, whenever the callback returns, is what it
    contributes. *)
Lemma parsePart_returned limit acc tok r :
  tok <> [] -> free isSeparator tok ->
  parsePart limit acc tok = Some r ->
  exists added,
    r = acc ++ added /\ forall k, In k added <-> contributes tok k.
Proof.
  intros Hne Hfree. rewrite (parsePart_token limit acc Hne Hfree).
  assert (Nothing : forall P : Z -> Prop,
             (forall k, ~ P k) ->
             Some acc = Some r ->
             exists added, r = acc ++ added /\ forall k, In k added <-> P k).
  { intros P HP [= <-]. exists []. split; [now rewrite app_nil_r|].
    intros k. split; [intros []|]. intros H. now apply HP in H. }
  destruct (splitOn hyphen [] (standardise tok)) as [|a [|b [|x l]]] eqn:E.
  - apply Nothing. intros k. rewrite contributes_fields, E. auto.
  - destruct (parseInt a) as [n|] eqn:Pa.
    + intros H. apply push_returned in H as [-> _]. exists [n].
      split; [reflexivity|]. intros k.
      rewrite contributes_fields, E, Pa. cbn. split.
      * intros [<-|[]]. reflexivity.
      * intros [= <-]. now left.
    + apply Nothing. intros k. rewrite contributes_fields, E, Pa. discriminate.
  - pose proof E as E2. apply splitOn_two in E2 as (_ & Ha & Hb).
    destruct (parseInt a) as [s|] eqn:Pa;
      [destruct (parseInt b) as [e|] eqn:Pb|].
    + intros H.
      destruct (@parseInt_nonneg _ _ Ha Pa) as [Hs Ds].
      destruct (@parseInt_nonneg _ _ Hb Pb) as [He De].
      apply pushRange_returned in H.
      * exists (zrange (Z.min s e) (Z.max s e)). split; [exact H|].
        intros k. rewrite in_zrange, contributes_fields, E, Pa, Pb. split.
        -- intros Hk. now exists s, e.
        -- intros (s' & e' & [= <-] & [= <-] & Hk). exact Hk.
      * lia.
      * destruct (Z.min_spec s e) as [[_ ->]|[_ ->]]; assumption.
      * destruct (Z.max_spec s e) as [[_ ->]|[_ ->]]; assumption.
    + apply Nothing. intros k. rewrite contributes_fields, E, Pa, Pb.
      intros (s' & e' & _ & [=] & _).
    + apply Nothing. intros k. rewrite contributes_fields, E, Pa.
      intros (s' & e' & [=] & _).
  - apply Nothing. intros k. rewrite contributes_fields, E. auto.
Qed.

(** **** The parts in turn *)

Lemma parsePart_empty limit acc : parsePart limit acc [] = Some acc.
Proof. reflexivity. Qed.

Lemma parseParts_tokens limit parts : forall acc,
  parseParts limit acc (filter JsString.truthy parts)
  = parseParts limit acc parts.
Proof.
  induction parts as [|p parts IH]; intros acc; [reflexivity|].
  destruct p as [|c p]; cbn [filter JsString.truthy].
  - cbn [parseParts]. rewrite parsePart_empty. apply IH.
  - cbn [parseParts]. destruct (parsePart limit acc (c :: p)); [apply IH|].
    reflexivity.
Qed.

Lemma parseMaskIndices_tokens limit input :
  parseMaskIndices limit input = parseParts limit [] (tokens input).
Proof. unfold parseMaskIndices, tokens. now rewrite parseParts_tokens. Qed.

Lemma parseParts_returned limit toks : forall acc r,
  Forall (fun t => t <> [] /\ free isSeparator t) toks ->
  parseParts limit acc toks = Some r ->
  exists added,
    r = acc ++ added
    /\ forall k, In k added <-> exists tok, In tok toks /\ contributes tok k.
Proof.
  induction toks as [|t toks IH]; intros acc r Hall H.
  - injection H as <-. exists []. split; [now rewrite app_nil_r|].
    intros k. split; [intros []|intros (tok & [] & _)].
  - inversion Hall as [|? ? [Hne Hfree] Hall']; subst.
    cbn [parseParts] in H.
    destruct (parsePart limit acc t) as [acc1|] eqn:P; [|discriminate].
    apply parsePart_returned in P as (a1 & -> & H1); try assumption.
    apply IH in H as (a2 & -> & H2); [|exact Hall'].
    exists (a1 ++ a2). split; [now rewrite app_assoc|].
    intros k. rewrite in_app_iff, H1, H2. split.
    + intros [Hc|(tok & Hin & Hc)].
      * exists t. split; [now left|exact Hc].
      * exists tok. split; [now right|exact Hc].
    + intros (tok & [<-|Hin] & Hc); [now left|].
      right. now exists tok.
Qed.

Lemma tokens_all input :
  Forall (fun t => t <> [] /\ free isSeparator t) (tokens input).
Proof. apply Forall_forall. intros t Ht. now apply tokens_free in Ht. Qed.

Lemma parseMaskIndices_returned limit input l :
  parseMaskIndices limit input = Some l ->
  forall k,
    In k l <-> exists tok, In tok (tokens input) /\ contributes tok k.
Proof.
  rewrite parseMaskIndices_tokens. intros H.
  apply parseParts_returned in H as (added & -> & H); [|apply tokens_all].
  exact H.
Qed.

(** **** Below 2^53: the exact reading *)

Lemma exactPart_token tok :
  tok <> [] -> free isSeparator tok ->
  exactPart [] tok
  = match splitOn hyphen [] (standardise tok) with
    | [t] =>
        match mathInt t with
        | Some num => [num]
        | None => []
        end
    | [a; b] =>
        match mathInt a, mathInt b with
        | Some s, Some e => zrange (Z.min s e) (Z.max s e)
        | _, _ => []
        end
    | _ => []
    end.
Proof.
  intros Hne Hfree. unfold exactPart.
  rewrite (trim_free (separator_free_white Hfree)).
  destruct tok as [|c tok]; [congruence|]. cbn [JsString.truthy negb].
  fold (standardise (c :: tok)).
  destruct (existsb (N.eqb hyphen) (standardise (c :: tok))) eqn:Hex.
  - destruct (splitOn hyphen [] (standardise (c :: tok)))
      as [|a [|b [|x l]]] eqn:E; try reflexivity.
    + exfalso. apply existsb_hyphen in Hex.
      pose proof (splitOn_join hyphen (standardise (c :: tok)) []) as J.
      pose proof (@splitOn_free hyphen (standardise (c :: tok)) []
                    (fun H => H)) as F.
      rewrite E in J, F. cbn in J. apply Forall_inv in F.
      apply F. now rewrite J.
    + destruct (mathInt a), (mathInt b); try reflexivity.
      now rewrite exactRange_spec.
  - now rewrite fields_hyphen.
Qed.

Lemma parseInt_exact s n :
  ~ In hyphen s -> mathInt s = Some n -> n < 2 ^ 53 ->
  parseInt s = Some n /\ 0 <= n.
Proof.
  intros Hs Hm Hn. pose proof (mathInt_nonneg _ Hs Hm) as H0.
  split; [|exact H0].
  unfold parseInt. rewrite Hm. cbn. f_equal. apply toDouble_small. lia.
Qed.

(** As long as no number reaches 2^53, a token adds its exact reading
    when that fits in the array, and the callback throws when it does
    not. *)
Lemma parsePart_exact limit acc tok :
  tok <> [] -> free isSeparator tok ->
  Forall (fun k => k < 2 ^ 53) (exactPart [] tok) ->
  Z.of_nat (length acc) <= limit ->
  parsePart limit acc tok
  = if Z.of_nat (length acc) + Z.of_nat (length (exactPart [] tok)) <=? limit
    then Some (acc ++ exactPart [] tok)
    else None.
Proof.
  intros Hne Hfree.
  rewrite (parsePart_token limit acc Hne Hfree), (exactPart_token Hne Hfree).
  intros Hall Hacc.
  assert (Nothing :
            Some acc
            = if Z.of_nat (length acc) + Z.of_nat (length (@nil Z)) <=? limit
              then Some (acc ++ []) else None).
  { cbn [length]. rewrite app_nil_r.
    destruct (Z.leb_spec (Z.of_nat (length acc) + Z.of_nat 0) limit);
      [reflexivity|lia]. }
  pose proof (@splitOn_free hyphen (standardise tok) [] (fun H => H)) as F.
  destruct (splitOn hyphen [] (standardise tok)) as [|a [|b [|x l]]];
    try exact Nothing.
  - apply Forall_inv in F.
    destruct (mathInt a) as [n|] eqn:Pa.
    + apply Forall_inv in Hall.
      destruct (@parseInt_exact _ _ F Pa Hall) as [-> _].
      unfold push. cbn [length].
      destruct (Z.ltb_spec (Z.of_nat (length acc)) limit),
               (Z.leb_spec (Z.of_nat (length acc) + Z.of_nat 1) limit);
        try lia; reflexivity.
    + unfold parseInt. rewrite Pa. exact Nothing.
  - pose proof (Forall_inv F) as Fa.
    pose proof (Forall_inv (Forall_inv_tail F)) as Fb.
    destruct (mathInt a) as [s|] eqn:Pa;
      [destruct (mathInt b) as [e|] eqn:Pb|].
    + pose proof (mathInt_nonneg _ Fa Pa) as Hs.
      pose proof (mathInt_nonneg _ Fb Pb) as He.
      assert (Hhi : Z.max s e < 2 ^ 53).
      { rewrite Forall_forall in Hall. apply Hall, in_zrange. lia. }
      destruct (@parseInt_exact a s Fa Pa) as [-> _]; [lia|].
      destruct (@parseInt_exact b e Fb Pb) as [-> _]; [lia|].
      pose proof (zrange_length (Z.min s e) (Z.max s e)) as L.
      destruct (Z.leb_spec
                  (Z.of_nat (length acc)
                   + Z.of_nat (length (zrange (Z.min s e) (Z.max s e))))
                  limit).
      * apply pushRange_fits; lia.
      * apply pushRange_overflows; lia.
    + unfold parseInt. rewrite Pa, Pb. exact Nothing.
    + unfold parseInt. rewrite Pa. exact Nothing.
Qed.

Lemma parseParts_exact limit toks : forall acc,
  Forall (fun t => t <> [] /\ free isSeparator t) toks ->
  Forall (fun k => k < 2 ^ 53) (flat_map (exactPart []) toks) ->
  Z.of_nat (length acc) <= limit ->
  parseParts limit acc toks
  = if Z.of_nat (length acc)
       + Z.of_nat (length (flat_map (exactPart []) toks)) <=? limit
    then Some (acc ++ flat_map (exactPart []) toks)
    else None.
Proof.
  induction toks as [|t toks IH]; intros acc Htoks Hall Hacc.
  - cbn [parseParts flat_map length]. rewrite app_nil_r.
    destruct (Z.leb_spec (Z.of_nat (length acc) + Z.of_nat 0) limit);
      [reflexivity|lia].
  - inversion Htoks as [|? ? [Hne Hfree] Htoks']; subst.
    cbn [flat_map] in Hall |- *. apply Forall_app in Hall as [H1 H2].
    cbn [parseParts]. rewrite parsePart_exact by assumption.
    rewrite length_app, Nat2Z.inj_add.
    destruct (Z.leb_spec
                (Z.of_nat (length acc)
                 + Z.of_nat (length (exactPart [] t))) limit) as [Hfit|Hover].
    + rewrite IH; try assumption.
      * rewrite length_app, Nat2Z.inj_add, Z.add_assoc, app_assoc.
        reflexivity.
      * rewrite length_app, Nat2Z.inj_add. exact Hfit.
    + destruct (Z.leb_spec
                  (Z.of_nat (length acc)
                   + (Z.of_nat (length (exactPart [] t))
                      + Z.of_nat (length (flat_map (exactPart []) toks))))
                  limit); [lia|reflexivity].
Qed.

Lemma parseMaskIndices_exact limit input :
  Forall (fun k => k < 2 ^ 53) (exactIndices input) ->
  0 <= limit ->
  parseMaskIndices limit input
  = if Z.of_nat (length (exactIndices input)) <=? limit
    then Some (exactIndices input)
    else None.
Proof.
  rewrite parseMaskIndices_tokens, exactIndices_tokens. intros Hall Hl.
  rewrite parseParts_exact; [reflexivity|apply tokens_all|exact Hall|].
  cbn [length]. lia.
Qed.

(** **** A range that does not fit *)

Lemma parseMaskIndices_range_overflows limit input a b s e :
  tokens input = [a ++ hyphen :: b] ->
  standardise (a ++ hyphen :: b) = a ++ hyphen :: b ->
  ~ In hyphen a -> ~ In hyphen b ->
  parseInt a = Some s -> parseInt b = Some e ->
  0 <= s <= e -> e < 2 ^ 53 ->
  limit < e - s + 1 ->
  parseMaskIndices limit input = None.
Proof.
  intros Ht Hstd Ha Hb Pa Pb Hs He Hl.
  rewrite parseMaskIndices_tokens, Ht. cbn [parseParts].
  assert (Hin : In (a ++ hyphen :: b) (tokens input)) by (rewrite Ht; now left).
  apply tokens_free in Hin as [Hne Hfree].
  rewrite (parsePart_token limit [] Hne Hfree), Hstd.
  assert (S2 : splitOn hyphen [] (a ++ hyphen :: b) = [a; b])
    by (apply splitOn_two; now split).
  rewrite S2, Pa, Pb.
  rewrite pushRange_overflows; [reflexivity| | |]; cbn [length]; lia.
Qed.

(** No array holds the 2^32 numbers of this range. *)
Lemma parseMaskIndices_too_long :
  parseMaskIndices 4294967295 "1-4294967296" = None.
Proof.
  apply (@parseMaskIndices_range_overflows
           4294967295 (ofAscii "1-4294967296") (ofAscii "1")
           (ofAscii "4294967296") 1 4294967296);
    try reflexivity; try lia.
  - intros [E|[]]. discriminate E.
  - cbn. intuition discriminate.
Qed.

(** C2, amended. The mask-index parser either returns a list or throws
    the [RangeError] of an array that is full. The tokens of the input are
    the non-empty runs between separators. Whenever the parser returns, an
    index is in the list exactly when some token contributes it, where a
    token without a range separator contributes the number [parseInt]
    reads from it and a token with one range separator contributes the
    inclusive range between the numbers [parseInt] reads on both sides.
    [parseInt] yields a double: a token made of decimal digits only
    contributes the double nearest to its value, which is its value below
    2^53. As long as the exact reading of the input holds no number from
    2^53 on, the parser returns that reading when it fits in an array and
    throws when it does not. The three examples of the specification hold
    in every engine whose arrays take that many elements; the range
    [1-115000000] throws in an engine whose arrays take fewer than
    115000000 elements; and [9007199254740993] is read as
    9007199254740992. *)
Theorem parseMaskIndices_grammar :
  (forall limit input l,
      parseMaskIndices limit input = Some l ->
      forall k,
        In k l <-> exists tok, In tok (tokens input) /\ contributes tok k)
  /\ (forall input,
         concat (tokens input) = filter (fun c => negb (isSeparator c)) input
         /\ Forall (fun t => t <> [] /\ free isSeparator t) (tokens input))
  /\ (forall tok k,
         isInteger tok = true ->
         (contributes tok k <-> k = toDouble (JsString.decimalValue tok)))
  /\ (forall n, Z.abs n < 2 ^ 53 -> toDouble n = n)
  /\ (forall limit input,
         Forall (fun k => k < 2 ^ 53) (exactIndices input) ->
         0 <= limit ->
         parseMaskIndices limit input
         = if Z.of_nat (length (exactIndices input)) <=? limit
           then Some (exactIndices input)
           else None)
  /\ (forall limit,
         4 <= limit -> parseMaskIndices limit "1-3,5" = Some [1; 2; 3; 5])
  /\ (forall limit,
         3 <= limit -> parseMaskIndices limit "5-3" = Some [3; 4; 5])
  /\ (forall limit,
         2 <= limit -> parseMaskIndices limit "a,1,,2" = Some [1; 2])
  /\ (forall limit,
         limit < 115000000 -> parseMaskIndices limit "1-115000000" = None)
  /\ (forall limit,
         1 <= limit ->
         parseMaskIndices limit "9007199254740993"
         = Some [9007199254740992]).
Proof.
  split; [exact parseMaskIndices_returned|].
  split.
  { intros input. split; [apply tokens_concat|apply tokens_all]. }
  split; [exact contributes_integer|].
  split; [exact toDouble_small|].
  split; [exact parseMaskIndices_exact|].
  assert (Ex : forall limit input l,
             exactIndices input = l ->
             forallb (fun k => k <? 2 ^ 53) l = true ->
             Z.of_nat (length l) <= limit ->
             parseMaskIndices limit input = Some l).
  { intros limit input l <- Hall Hl.
    rewrite parseMaskIndices_exact; [| |lia].
    - destruct (Z.leb_spec (Z.of_nat (length (exactIndices input))) limit);
        [reflexivity|lia].
    - apply Forall_forall. intros k Hk.
      rewrite forallb_forall in Hall. apply Hall in Hk. lia. }
  split; [intros limit H; apply Ex; [reflexivity|reflexivity|cbn; lia]|].
  split; [intros limit H; apply Ex; [reflexivity|reflexivity|cbn; lia]|].
  split; [intros limit H; apply Ex; [reflexivity|reflexivity|cbn; lia]|].
  split.
  - intros limit H.
    apply (@parseMaskIndices_range_overflows
             limit (ofAscii "1-115000000") (ofAscii "1")
             (ofAscii "115000000") 1 115000000);
      try reflexivity; try lia.
    + intros [E|[]]. discriminate E.
    + cbn. intuition discriminate.
  - intros limit H.
    rewrite parseMaskIndices_tokens.
    change (tokens "9007199254740993") with [ofAscii "9007199254740993"].
    cbn [parseParts].
    rewrite parsePart_token; [|discriminate|repeat constructor].
    change (splitOn hyphen [] (standardise "9007199254740993"))
      with [ofAscii "9007199254740993"].
    assert (P : parseInt "9007199254740993" = Some 9007199254740992)
      by reflexivity.
    cbv beta iota. rewrite P, push_fits by (cbn [length]; lia). reflexivity.
Qed.

Lemma parseMaskIndices_grammar_witness :
  parseMaskIndices 4294967295 "1-3,5" = Some [1; 2; 3; 5]
  /\ (exists tok, In tok (tokens "1-3,5") /\ contributes tok 2)
  /\ isInteger "42" = true /\ contributes "42" 42.
Proof.
  destruct parseMaskIndices_grammar as (G1 & _ & G3 & _ & _ & G6 & _).
  assert (P : parseMaskIndices 4294967295 "1-3,5" = Some [1; 2; 3; 5])
    by (apply G6; lia).
  split; [exact P|]. split.
  - apply (G1 4294967295 "1-3,5" [1; 2; 3; 5] P 2). right. now left.
  - split; [reflexivity|]. apply (G3 "42" 42); reflexivity.
Defined.

(** C2 as stated fails twice. The token [3x] is neither a single integer
    nor a range, yet the parser takes the 3 that [parseInt] reads from it.
    And the parser does raise: no array holds the 2^32 numbers of the
    range [1-4294967296]. *)
Lemma parseMaskIndices_reads_leading_digits :
  parseMaskIndices 4294967295 "3x" = Some [3]
  /\ specParse "3x" = []
  /\ parseMaskIndices 4294967295 "1-4294967296" = None.
Proof.
  split; [reflexivity|]. split; [reflexivity|].
  exact parseMaskIndices_too_long.
Qed.

End MaskGrammarProofs.

(** ** getRatio *)

Module RatioProofs.
Import Js Types Dom Utils App Scenarios.

Lemma truthy_false_iff v :
  truthy v = false <-> (exists q, v = Num q /\ q == 0) \/ v = NaN \/ v = Undef.
Proof.
  destruct v as [q| |]; simpl.
  - rewrite negb_false_iff, Qeq_bool_iff. split.
    + intros H. left. now exists q.
    + intros [(q' & E & Hq)|[E|E]]; [now inversion E; subst|discriminate..].
  - split; auto.
  - split; auto.
Qed.

Lemma orElse_num v d :
  ~ d == 0 ->
  exists q, (v || Num d)%js = Num q /\ ~ q == 0
            /\ (truthy v = false -> q = d)
            /\ (forall p, v = Num p -> ~ p == 0 -> q = p).
Proof.
  intros Hd. unfold orElse. destruct (truthy v) eqn:T.
  - destruct v as [p| |]; try discriminate. exists p.
    simpl in T. apply negb_true_iff in T.
    repeat split; [|discriminate|congruence].
    intros H. apply Qeq_bool_iff in H. congruence.
  - exists d. repeat split; auto.
    intros p -> Hp. simpl in T. apply negb_false_iff, Qeq_bool_iff in T.
    contradiction.
Qed.

(** C10. With the custom aspect ratio, the divisor is never zero: a width
    that is 0, NaN or missing is read as 1000, a height that is 0, NaN or
    missing as 1500, any other value is kept, and the result is the
    quotient of the two, positive when both are. *)
Theorem getRatio_custom (settings : Settings) :
  aspectRatio settings = ofAscii "custom" ->
  exists w h : Q,
    getRatio settings = Num (w / h)
    /\ ~ h == 0 /\ ~ w == 0
    /\ (truthy (customW settings) = false -> w = 1000%Q)
    /\ (truthy (customH settings) = false -> h = 1500%Q)
    /\ (forall q, customW settings = Num q -> ~ q == 0 -> w = q)
    /\ (forall q, customH settings = Num q -> ~ q == 0 -> h = q)
    /\ (0 < w -> 0 < h -> 0 < w / h)%Q.
Proof.
  intros Hc. unfold getRatio. rewrite Hc. cbn [negb].
  change (JsString.eqb (ofAscii "custom") (ofAscii "custom")) with true.
  cbn [negb].
  destruct (@orElse_num (customW settings) 1000%Q) as (w & Ew & Hw & Hw0 & Hw1);
    [discriminate|].
  destruct (@orElse_num (customH settings) 1500%Q) as (h & Eh & Hh & Hh0 & Hh1);
    [discriminate|].
  exists w, h. rewrite Ew, Eh. unfold div.
  assert (Qeq_bool h 0 = false) as ->.
  { destruct (Qeq_bool h 0) eqn:E; [|reflexivity].
    apply Qeq_bool_iff in E. contradiction. }
  repeat split; auto.
  intros Pw Ph. apply Qlt_shift_div_l; [assumption|]. now rewrite Qmult_0_l.
Qed.


Lemma getRatio_custom_witness :
  exists w h : Q,
    getRatio (customRatio (Num 0) NaN) = Num (w / h)
    /\ w = 1000%Q /\ h = 1500%Q.
Proof.
  destruct (@getRatio_custom (customRatio (Num 0) NaN))
    as (w & h & E & _ & _ & Hw & Hh & _); [reflexivity|].
  exists w, h. split; [exact E|]. split; [now apply Hw|now apply Hh].
Defined.
End RatioProofs.

(** ** The cell: cover fit *)

Module CellProofs.
Import Js Types Dom Utils Scenarios.

Lemma Qeq_bool_false (q : Q) : ~ q == 0 -> Qeq_bool q 0 = false.
Proof.
  intros H. destruct (Qeq_bool q 0) eqn:E; [|reflexivity].
  apply Qeq_bool_iff in E. contradiction.
Qed.

Lemma inject_Z_pos (z : Z) : 0 < z -> (0 < inject_Z z)%Q.
Proof. intros H. change 0%Q with (inject_Z 0). now rewrite <- Zlt_Qlt. Qed.

Lemma gt_num (a b : Q) : (Num a >? Num b)%js = true <-> (b < a)%Q.
Proof.
  simpl. rewrite negb_true_iff. split.
  - intros H. apply Qnot_le_lt. intros L. apply Qle_bool_iff in L. congruence.
  - intros H. destruct (Qle_bool a b) eqn:E; [|reflexivity].
    apply Qle_bool_iff in E. exfalso. exact (Qlt_not_le _ _ H E).
Qed.

Lemma Qhalf (q : Q) : (q / 2 == q * (1 # 2))%Q.
Proof. field. Qed.

Section CoverFit.
Variable b : Bitmap.
Variables x y w h : Q.
Hypothesis width_pos : 0 < width b.
Hypothesis height_pos : 0 < height b.
Hypothesis w_pos : (0 < w)%Q.
Hypothesis h_pos : (0 < h)%Q.

Let iRatio : Q := (inject_Z (width b) / inject_Z (height b))%Q.
Let cRatio : Q := (w / h)%Q.

Lemma iRatio_pos : (0 < iRatio)%Q.
Proof.
  unfold iRatio. apply Qlt_shift_div_l; [now apply inject_Z_pos|].
  rewrite Qmult_0_l. now apply inject_Z_pos.
Qed.

Lemma w_as_ratio : (w == cRatio * h)%Q.
Proof. unfold cRatio. field. intros E. rewrite E in h_pos. discriminate. Qed.

Lemma coverFit_wide :
  (cRatio < iRatio)%Q ->
  coverFit b (Num x) (Num y) (Num w) (Num h)
  = DrawImage b (Num (x - (h * iRatio - w) / 2)) (Num y) (Num (h * iRatio)) (Num h).
Proof.
  intros H. unfold coverFit, ofZ, div.
  rewrite (Qeq_bool_false (q := inject_Z (height b))),
          (Qeq_bool_false (q := h)).
  - fold iRatio cRatio. rewrite (proj2 (gt_num iRatio cRatio) H).
    reflexivity.
  - intros E. rewrite E in h_pos. discriminate.
  - intros E. pose proof (inject_Z_pos height_pos) as P. rewrite E in P. discriminate.
Qed.

Lemma coverFit_tall :
  (iRatio <= cRatio)%Q ->
  coverFit b (Num x) (Num y) (Num w) (Num h)
  = DrawImage b (Num x) (Num (y - (w / iRatio - h) / 2)) (Num w) (Num (w / iRatio)).
Proof.
  intros H. unfold coverFit, ofZ, div.
  rewrite (Qeq_bool_false (q := inject_Z (height b))),
          (Qeq_bool_false (q := h)).
  - fold iRatio cRatio.
    assert ((Num iRatio >? Num cRatio)%js = false) as ->.
    { destruct (Num iRatio >? Num cRatio)%js eqn:E; [|reflexivity].
      apply gt_num in E. exfalso. exact (Qlt_not_le _ _ E H). }
    simpl. rewrite Qeq_bool_false; [reflexivity|].
    intros E. pose proof iRatio_pos as P. rewrite E in P. discriminate.
  - intros E. rewrite E in h_pos. discriminate.
  - intros E. pose proof (inject_Z_pos height_pos) as P. rewrite E in P. discriminate.
Qed.

Lemma wide_covers :
  (cRatio < iRatio)%Q ->
  (x - (h * iRatio - w) / 2 <= x
   /\ x + w <= x - (h * iRatio - w) / 2 + h * iRatio
   /\ h * iRatio / h == iRatio)%Q.
Proof.
  intros H. pose proof w_as_ratio as Ew.
  assert (Hw : (w <= h * iRatio)%Q).
  { rewrite Ew. rewrite (Qmult_comm h iRatio).
    apply Qmult_le_compat_r; [now apply Qlt_le_weak|now apply Qlt_le_weak]. }
  repeat split.
  - clear Ew H. generalize dependent (h * iRatio)%Q. intros p Hp. rewrite Qhalf. lra.
  - clear Ew H. generalize dependent (h * iRatio)%Q. intros p Hp. rewrite Qhalf. lra.
  - field. intros E. rewrite E in h_pos. discriminate.
Qed.

Lemma tall_covers :
  (iRatio <= cRatio)%Q ->
  (y - (w / iRatio - h) / 2 <= y
   /\ y + h <= y - (w / iRatio - h) / 2 + w / iRatio
   /\ w / (w / iRatio) == iRatio)%Q.
Proof.
  intros H. pose proof w_as_ratio as Ew. pose proof iRatio_pos as Pi.
  assert (Hh : (h <= w / iRatio)%Q).
  { apply Qle_shift_div_l; [assumption|].
    rewrite Ew. rewrite (Qmult_comm h iRatio).
    apply Qmult_le_compat_r; [assumption|now apply Qlt_le_weak]. }
  repeat split.
  - clear Ew H. generalize dependent (w / iRatio)%Q. intros p Hp. rewrite Qhalf. lra.
  - clear Ew H. generalize dependent (w / iRatio)%Q. intros p Hp. rewrite Qhalf. lra.
  - field. split.
    + intros E. rewrite E in Pi. discriminate.
    + intros E. rewrite E in w_pos. discriminate.
Qed.

End CoverFit.

(** C3. A decoded image is drawn inside a clip to its cell. When it is
    wider than the cell in proportion ([iRatio > cRatio]) it is drawn at the
    height of the cell and at width [h * iRatio], centred horizontally;
    otherwise at the width of the cell and at height [w / iRatio], centred
    vertically. Either way the drawn rectangle contains the cell and keeps
    the proportions of the image. *)
Theorem drawImg_cover_fit (img : HTMLImage) (x y w h : Q) :
  isBroken img = false ->
  naturalWidth (bitmap img) <> 0 ->
  naturalHeight (bitmap img) <> 0 ->
  complete (bitmap img) = true ->
  0 < width (bitmap img) ->
  0 < height (bitmap img) ->
  (0 < w)%Q -> (0 < h)%Q ->
  let iRatio := (inject_Z (width (bitmap img)) / inject_Z (height (bitmap img)))%Q in
  let cRatio := (w / h)%Q in
  exists dx dy dw dh : Q,
    drawImg img (Num x) (Num y) (Num w) (Num h)
    = [ Save; BeginPath; Rect (Num x) (Num y) (Num w) (Num h); Clip;
        DrawImage (bitmap img) (Num dx) (Num dy) (Num dw) (Num dh);
        Restore ]
    /\ ((cRatio < iRatio)%Q ->
        dh = h /\ dw = (h * iRatio)%Q
        /\ dx = (x - (h * iRatio - w) / 2)%Q /\ dy = y)
    /\ ((iRatio <= cRatio)%Q ->
        dw = w /\ dh = (w / iRatio)%Q
        /\ dx = x /\ dy = (y - (w / iRatio - h) / 2)%Q)
    /\ (dx <= x /\ x + w <= dx + dw /\ dy <= y /\ y + h <= dy + dh)%Q
    /\ (dw / dh == iRatio)%Q.
Proof.
  intros Hb Hnw Hnh Hc Hw Hh Pw Ph iRatio cRatio.
  assert (Hvalid : drawImg img (Num x) (Num y) (Num w) (Num h)
                   = [ Save; BeginPath; Rect (Num x) (Num y) (Num w) (Num h);
                       Clip;
                       coverFit (bitmap img) (Num x) (Num y) (Num w) (Num h);
                       Restore ]).
  { unfold drawImg. rewrite Hb, Hc.
    destruct (Z.eqb_spec (naturalWidth (bitmap img)) 0); [contradiction|].
    destruct (Z.eqb_spec (naturalHeight (bitmap img)) 0); [contradiction|].
    reflexivity. }
  rewrite Hvalid.
  destruct (Qlt_le_dec cRatio iRatio) as [Hwide|Htall].
  - exists (x - (h * iRatio - w) / 2)%Q, y, (h * iRatio)%Q, h.
    destruct (@wide_covers (bitmap img) x w h) as (C1 & C2 & C3); try assumption.
    split; [rewrite (@coverFit_wide (bitmap img) x y w h); auto|].
    split; [intros _; repeat split|].
    split; [intros Hle; exfalso; exact (Qlt_not_le _ _ Hwide Hle)|].
    split; [|exact C3].
    repeat split; try assumption; apply Qle_refl.
  - exists x, (y - (w / iRatio - h) / 2)%Q, w, (w / iRatio)%Q.
    destruct (@tall_covers (bitmap img) y w h) as (C1 & C2 & C3); try assumption.
    split; [rewrite (@coverFit_tall (bitmap img) x y w h); auto|].
    split; [intros Hlt; exfalso; exact (Qlt_not_le _ _ Hlt Htall)|].
    split; [intros _; repeat split|].
    split; [|exact C3].
    repeat split; try assumption; apply Qle_refl.
Qed.

Lemma drawImg_cover_fit_witness :
  exists dx dy dw dh : Q,
    drawImg photo (Num 0) (Num 0) (Num 1500) (Num 2000)
    = [ Save; BeginPath; Rect (Num 0) (Num 0) (Num 1500) (Num 2000); Clip;
        DrawImage (bitmap photo) (Num dx) (Num dy) (Num dw) (Num dh);
        Restore ]
    /\ (dx <= 0 /\ 0 + 1500 <= dx + dw /\ dy <= 0 /\ 0 + 2000 <= dy + dh)%Q.
Proof.
  destruct (@drawImg_cover_fit photo 0 0 1500 2000)
    as (dx & dy & dw & dh & E & _ & _ & C & _);
    try reflexivity; try discriminate.
  exists dx, dy, dw, dh. split; [exact E|exact C].
Defined.

End CellProofs.

(** ** The cell: redaction mark *)

Module MaskProofs.
Import Js Types Dom Utils App Observations Scenarios.

Lemma loadResource_none env tr :
  loadResource env None tr = (None, tr).
Proof. reflexivity. Qed.

(** C6, amended. On a targeted cell, when no sticker image object exists
    (the redaction mode is line, or it is sticker and no sticker is
    configured), the mark is stroked inside the cell in the configured
    colour, with round caps and line width [maskWidth * (w / 500) * 5]: two
    diagonals for [cross], one for [slash]. When a sticker object exists but
    its image is not loaded and valid, nothing is drawn. *)
Theorem drawMask_mark (env : Env) (settings : Settings) (tr : Trace)
        (maskIndices : list Z) (n : Z) (x y w h : Q) :
  includes n maskIndices = true ->
  (0 < w)%Q -> (0 < h)%Q ->
  let sticker :=
    fst (loadResource env (stickerImgUrl (drawSettings settings)) tr) in
  let mark :=
    [ BeginPath; StrokeStyle (maskColor settings);
      LineWidth (Num (maskWidth settings * (w / 500) * 5)); LineCapRound ]
    ++ match lineStyle settings with
       | cross =>
           [ MoveTo (Num (x + w * 0.2)) (Num (y + h * 0.2));
             LineTo (Num (x + w * 0.8)) (Num (y + h * 0.8));
             MoveTo (Num (x + w * 0.8)) (Num (y + h * 0.2));
             LineTo (Num (x + w * 0.2)) (Num (y + h * 0.8)) ]
       | slash =>
           [ MoveTo (Num (x + w * 0.2)) (Num (y + h * 0.8));
             LineTo (Num (x + w * 0.8)) (Num (y + h * 0.2)) ]
       end
    ++ [Stroke] in
  (maskMode settings = line \/ stickerImgUrl settings = None ->
   sticker = None
   /\ drawMask (drawSettings settings) sticker true maskIndices n
               (Num x) (Num y) (Num w) (Num h) = mark
   /\ Forall (insideCell x y w h) mark)
  /\ (forall s, sticker = Some s ->
                complete s && (naturalWidth s >? 0) = false ->
                drawMask (drawSettings settings) sticker true maskIndices n
                         (Num x) (Num y) (Num w) (Num h) = []).
Proof.
  intros Hin Pw Ph sticker mark. split.
  - intros Hmode.
    assert (Hs : sticker = None).
    { unfold sticker, drawSettings. cbn [stickerImgUrl].
      destruct Hmode as [->| ->]; [reflexivity|].
      now destruct (maskMode settings). }
    rewrite Hs. split; [reflexivity|]. split.
    + unfold drawMask. rewrite Hin. cbn [andb]. unfold mark.
      cbn [maskColor maskWidth lineStyle drawSettings].
      destruct (lineStyle settings); reflexivity.
    + unfold mark.
      assert (A2 : (x <= x + w * 0.2 /\ x + w * 0.2 <= x + w)%Q) by (split; lra).
      assert (A8 : (x <= x + w * 0.8 /\ x + w * 0.8 <= x + w)%Q) by (split; lra).
      assert (B2 : (y <= y + h * 0.2 /\ y + h * 0.2 <= y + h)%Q) by (split; lra).
      assert (B8 : (y <= y + h * 0.8 /\ y + h * 0.8 <= y + h)%Q) by (split; lra).
      destruct (lineStyle settings); repeat constructor; simpl; tauto.
  - intros s Hs Hbad. rewrite Hs. unfold drawMask. rewrite Hin. cbn [andb].
    now rewrite Hbad.
Qed.


Lemma drawMask_mark_witness :
  drawMask (drawSettings DEFAULT_SETTINGS) None true [2] 2
           (Num 0) (Num 0) (Num 1500) (Num 2000)
  = [ BeginPath; StrokeStyle "#FF3B30";
      LineWidth (Num (10 * (1500 / 500) * 5)); LineCapRound;
      MoveTo (Num (0 + 1500 * 0.2)) (Num (0 + 2000 * 0.2));
      LineTo (Num (0 + 1500 * 0.8)) (Num (0 + 2000 * 0.8));
      MoveTo (Num (0 + 1500 * 0.8)) (Num (0 + 2000 * 0.2));
      LineTo (Num (0 + 1500 * 0.2)) (Num (0 + 2000 * 0.8));
      Stroke ].
Proof.
  destruct (@drawMask_mark offline DEFAULT_SETTINGS [] [2] 2 0 0 1500 2000)
    as [H _]; [reflexivity..|].
  destruct H as (Hs & Hm & _); [now left|].
  exact Hm.
Defined.

(** C6 as stated fails: in sticker mode, with a sticker configured whose
    image did not load, a targeted cell gets no mark at all. *)
Lemma failed_sticker_leaves_no_mark :
  let settings := settingsWith 3 50 image "2" (Some (ofAscii "blob:sticker")) in
  let sticker :=
    fst (loadResource offline (stickerImgUrl (drawSettings settings)) []) in
  sticker = Some failedBitmap
  /\ parseMaskIndices (arrayLimit offline) (maskIndices settings) = Some [2]
  /\ drawMask (drawSettings settings) sticker true [2] 2
              (Num 0) (Num 0) (Num 1500) (Num 2000) = [].
Proof. repeat split; reflexivity. Qed.
End MaskProofs.

(** ** Acquisition *)

Module AcquireProofs.
Import Js Types Dom Utils App Observations Rendering Scenarios.

Lemma countOf_app p (a b : Trace) :
  countOf p (a ++ b) = (countOf p a + countOf p b)%nat.
Proof. unfold countOf. now rewrite filter_app, length_app. Qed.

Lemma countOf_canvas p cmds :
  (forall c, p (Canvas c) = false) -> countOf p (map Canvas cmds) = O.
Proof.
  intros Hp. unfold countOf. induction cmds as [|c cmds IH]; simpl; [reflexivity|].
  now rewrite Hp.
Qed.

(** [loadImg] only extends the trace, by events that do not depend on it. *)
Lemma loadImg_trace env src retries : forall tr,
  loadImg env src retries tr
  = (settled env src retries, tr ++ loadEvents env src retries).
Proof.
  unfold settled, loadEvents.
  induction retries as [|r IH]; intros tr; cbn [loadImg]; cbv zeta.
  - destruct (imageEvent env src 0); simpl; unfold emit;
      now rewrite <- ?app_assoc.
  - destruct (imageEvent env src (S r)); [reflexivity|].
    rewrite (IH (emit [Wait (Timer 200); AssignSrc src]
                      (emit [AssignSrc src; Wait ImageSettled] tr))).
    rewrite (IH (emit [Wait (Timer 200); AssignSrc src]
                      (emit [AssignSrc src; Wait ImageSettled] []))).
    unfold emit. simpl. now rewrite <- !app_assoc.
Qed.

Lemma loadEvents_unfold env src retries :
  loadEvents env src retries
  = [AssignSrc src; Wait ImageSettled]
    ++ match imageEvent env src retries with
       | OnLoad _ => []
       | OnError =>
           match retries with
           | S r => [Wait (Timer 200); AssignSrc src] ++ loadEvents env src r
           | O => [MarkBroken]
           end
       end.
Proof.
  unfold loadEvents. destruct retries as [|r]; simpl.
  - now destruct (imageEvent env src 0).
  - destruct (imageEvent env src (S r)); [reflexivity|].
    rewrite loadImg_trace. reflexivity.
Qed.

Lemma settled_unfold env src retries :
  settled env src retries
  = match imageEvent env src retries with
    | OnLoad b => {| bitmap := b; isBroken := false |}
    | OnError =>
        match retries with
        | S r => settled env src r
        | O => {| bitmap := {| naturalWidth := 0; naturalHeight := 0;
                               complete := true; width := 0; height := 0 |};
                  isBroken := true |}
        end
    end.
Proof.
  unfold settled. destruct retries as [|r]; simpl.
  - now destruct (imageEvent env src 0).
  - destruct (imageEvent env src (S r)); [reflexivity|].
    now rewrite loadImg_trace.
Qed.

Ltac in_cases :=
  let H := fresh in
  intros ? H; simpl in H;
  repeat (destruct H as [H|H];
          [try discriminate; try (inversion H; subst; reflexivity)|]);
  try contradiction.

Lemma loadEvents_budget env src retries :
  (1 <= countOf isAttempt (loadEvents env src retries) <= S retries)%nat
  /\ S (countOf isRetryDelay (loadEvents env src retries))
     = countOf isAttempt (loadEvents env src retries)
  /\ countOf isRelease (loadEvents env src retries) = O
  /\ (forall s, In (AssignSrc s) (loadEvents env src retries) -> s = src)
  /\ (forall ms, In (Wait (Timer ms)) (loadEvents env src retries) -> ms = 200).
Proof.
  induction retries as [|r IH]; rewrite loadEvents_unfold.
  - destruct (imageEvent env src 0); unfold countOf; simpl; repeat split;
      first [lia | reflexivity | in_cases].
  - destruct (imageEvent env src (S r)).
    + unfold countOf; simpl; repeat split;
        first [lia | reflexivity | in_cases].
    + destruct IH as (A & D & R & S1 & T1).
      rewrite !countOf_app.
      change (countOf isAttempt [Wait (Timer 200); AssignSrc src]) with O.
      change (countOf isRetryDelay [Wait (Timer 200); AssignSrc src]) with 1%nat.
      change (countOf isRelease [Wait (Timer 200); AssignSrc src]) with O.
      change (countOf isAttempt [AssignSrc src; Wait ImageSettled]) with 1%nat.
      change (countOf isRetryDelay [AssignSrc src; Wait ImageSettled]) with O.
      change (countOf isRelease [AssignSrc src; Wait ImageSettled]) with O.
      repeat split; try lia.
      * intros s H. simpl in H.
        destruct H as [H|[H|[H|[H|H]]]]; try discriminate;
          try (now inversion H). now apply S1.
      * intros ms H. simpl in H.
        destruct H as [H|[H|[H|[H|H]]]]; try discriminate;
          try (now inversion H). now apply T1.
Qed.

Lemma drawImg_placeholder img x y w h :
  isBroken img = true \/ naturalWidth (bitmap img) = 0
  \/ naturalHeight (bitmap img) = 0 \/ complete (bitmap img) = false ->
  drawImg img x y w h = placeholder x y w h.
Proof.
  unfold drawImg. intros [H|[H|[H|H]]]; rewrite H; simpl;
    rewrite ?orb_true_r; reflexivity.
Qed.

Section NeverCancelled.
Variable env : Env.
Variable cols : Z.
Variables w h gap : jsnum.
Variables globalOffset startNum : Z.
Variable maskIndices : list Z.
Variable settings : Settings.
Variable applyMask forceHideNums : bool.
Variable stickerImgObj : option Bitmap.

(** Whatever the decoder answers, the loop over the cells runs to its end
    and releases one image element per cell. *)
Lemma drawCells_never_cancelled imgs : forall i tr,
  exists evs,
    drawCells env cols w h gap globalOffset startNum maskIndices settings
              applyMask (fun _ => false) forceHideNums stickerImgObj i imgs tr
    = (Completed, tr ++ evs)
    /\ countOf isRelease evs = length imgs.
Proof.
  induction imgs as [|src rest IH]; intros i tr.
  - exists []. simpl. now rewrite app_nil_r.
  - cbn [drawCells poll]. cbv beta iota zeta.
    set (tr1 := if Z.rem i 10 =? 0 then emit [Wait (Timer 0)] _ else _).
    rewrite loadImg_trace. cbv beta iota zeta.
    match goal with
    | |- context [drawCells _ _ _ _ _ _ _ _ _ _ _ _ _ (i + 1) rest ?t] =>
        destruct (IH (i + 1) t) as (evs & E & C); rewrite E
    end.
    unfold draw, emit in *.
    assert (Htr1 : exists pre, tr1 = tr ++ pre /\ countOf isRelease pre = O).
    { unfold tr1. destruct (Z.rem i 10 =? 0).
      - exists [Poll CellStart false; Wait (Timer 0)].
        now rewrite <- app_assoc.
      - now exists [Poll CellStart false]. }
    destruct Htr1 as (pre & -> & Cpre).
    eexists. split.
    + rewrite <- !app_assoc. reflexivity.
    + rewrite !countOf_app, Cpre, C.
      destruct (loadEvents_budget env src 2) as (_ & _ & R & _).
      rewrite R. rewrite !countOf_canvas by reflexivity. simpl. lia.
Qed.

(** The events of that loop, cell by cell. *)
Lemma drawCells_trace imgs : forall i tr,
  drawCells env cols w h gap globalOffset startNum maskIndices settings
            applyMask (fun _ => false) forceHideNums stickerImgObj i imgs tr
  = (Completed,
     tr ++ cellsEvents env cols w h gap globalOffset startNum maskIndices
                       settings applyMask forceHideNums stickerImgObj
                       i imgs).
Proof.
  induction imgs as [|src rest IH]; intros i tr.
  - simpl. now rewrite app_nil_r.
  - cbn [drawCells poll cellsEvents]. cbv beta iota zeta.
    rewrite loadImg_trace. cbv beta iota zeta. rewrite IH.
    unfold draw, emit, acquireEvents, paintEvents, yieldEvents. cbv zeta.
    f_equal. destruct (Z.rem i 10 =? 0); rewrite <- !app_assoc; reflexivity.
Qed.

Lemma cellsEvents_app before : forall i after,
  cellsEvents env cols w h gap globalOffset startNum maskIndices settings
              applyMask forceHideNums stickerImgObj i (before ++ after)
  = cellsEvents env cols w h gap globalOffset startNum maskIndices settings
                applyMask forceHideNums stickerImgObj i before
    ++ cellsEvents env cols w h gap globalOffset startNum maskIndices settings
                   applyMask forceHideNums stickerImgObj
                   (i + Z.of_nat (length before)) after.
Proof.
  induction before as [|src rest IH]; intros i after.
  - cbn [app cellsEvents length].
    now replace (i + Z.of_nat 0) with i by lia.
  - cbn [app cellsEvents length]. rewrite IH, <- !app_assoc.
    now replace (i + 1 + Z.of_nat (length rest))
      with (i + Z.of_nat (S (length rest))) by lia.
Qed.

End NeverCancelled.

(** C9. An acquisition makes at most three attempts, the first and two
    retries, each retry after a 200 ms timer and with the same source
    assigned again; it ends at the first attempt that loads, with the image
    that attempt decoded. When all three fail the image element is marked
    broken, nothing is raised, and the cell is drawn as the placeholder
    tile; so is a cell whose image reports a zero natural width or height
    or is not complete, and no other cell. The loop over the cells, when no
    poll reads true, acquires every cell with that budget of two retries
    and paints what the acquisition settled: a cell whose three attempts
    fail gets the placeholder, between the cells before it and the cells
    after it, which are acquired and painted as if it had loaded. *)
Theorem loadImg_retry_budget (env : Env) (src : jsstring) (tr : Trace) :
  (exists img evs,
      loadImg env src 2 tr = (img, tr ++ evs)
      /\ (1 <= countOf isAttempt evs <= 3)%nat
      /\ S (countOf isRetryDelay evs) = countOf isAttempt evs
      /\ (forall s, In (AssignSrc s) evs -> s = src)
      /\ (forall ms, In (Wait (Timer ms)) evs -> ms = 200))
  /\ (imageEvent env src 2 = OnError ->
      imageEvent env src 1 = OnError ->
      imageEvent env src 0 = OnError ->
      exists img,
        loadImg env src 2 tr
        = (img,
           tr ++ [ AssignSrc src; Wait ImageSettled;
                   Wait (Timer 200); AssignSrc src;
                   AssignSrc src; Wait ImageSettled;
                   Wait (Timer 200); AssignSrc src;
                   AssignSrc src; Wait ImageSettled;
                   MarkBroken ])
        /\ isBroken img = true)
  /\ (forall img x y w h,
         isBroken img = true \/ naturalWidth (bitmap img) = 0
         \/ naturalHeight (bitmap img) = 0 \/ complete (bitmap img) = false ->
         drawImg img x y w h
         = [ FillStyle "#f0f0f0"; FillRect x y w h;
             FillStyle "#ccc";
             SetFont "bold" (w / Num 10)%js "sans-serif";
             TextAlign AlignCenter;
             FillText (Glyph "!") (x + w / Num 2)%js (y + h / Num 2)%js ])
  /\ (forall cols w h gap globalOffset startNum maskIndices settings
             applyMask forceHideNums stickerImgObj i imgs,
         exists evs,
           drawCells env cols w h gap globalOffset startNum maskIndices
                     settings applyMask (fun _ => false) forceHideNums
                     stickerImgObj i imgs tr
           = (Completed, tr ++ evs)
           /\ countOf isRelease evs = length imgs)
  /\ (forall b,
         imageEvent env src 2 = OnLoad b ->
         loadImg env src 2 tr
         = ({| bitmap := b; isBroken := false |},
            tr ++ [AssignSrc src; Wait ImageSettled]))
  /\ (forall b,
         imageEvent env src 2 = OnError ->
         imageEvent env src 1 = OnLoad b ->
         loadImg env src 2 tr
         = ({| bitmap := b; isBroken := false |},
            tr ++ [ AssignSrc src; Wait ImageSettled;
                    Wait (Timer 200); AssignSrc src;
                    AssignSrc src; Wait ImageSettled ]))
  /\ (forall b,
         imageEvent env src 2 = OnError ->
         imageEvent env src 1 = OnError ->
         imageEvent env src 0 = OnLoad b ->
         loadImg env src 2 tr
         = ({| bitmap := b; isBroken := false |},
            tr ++ [ AssignSrc src; Wait ImageSettled;
                    Wait (Timer 200); AssignSrc src;
                    AssignSrc src; Wait ImageSettled;
                    Wait (Timer 200); AssignSrc src;
                    AssignSrc src; Wait ImageSettled ]))
  /\ (forall img x y w h,
         isBroken img = false -> naturalWidth (bitmap img) <> 0 ->
         naturalHeight (bitmap img) <> 0 -> complete (bitmap img) = true ->
         drawImg img x y w h
         = [ Save; BeginPath; Rect x y w h; Clip;
             coverFit (bitmap img) x y w h;
             Restore ])
  /\ (forall cols w h gap globalOffset startNum maskIndices settings
             applyMask forceHideNums stickerImgObj i imgs,
         drawCells env cols w h gap globalOffset startNum maskIndices
                   settings applyMask (fun _ => false) forceHideNums
                   stickerImgObj i imgs tr
         = (Completed,
            tr ++ cellsEvents env cols w h gap globalOffset startNum
                              maskIndices settings applyMask forceHideNums
                              stickerImgObj i imgs))
  /\ (forall cols w h gap globalOffset startNum maskIndices settings
             applyMask forceHideNums stickerImgObj i before after,
         imageEvent env src 2 = OnError ->
         imageEvent env src 1 = OnError ->
         imageEvent env src 0 = OnError ->
         let events :=
           cellsEvents env cols w h gap globalOffset startNum maskIndices
                       settings applyMask forceHideNums stickerImgObj in
         let k := i + Z.of_nat (length before) in
         let x := cellX cols w gap k in
         let y := cellY cols h gap k in
         let n := startNum + globalOffset + k in
         drawCells env cols w h gap globalOffset startNum maskIndices
                   settings applyMask (fun _ => false) forceHideNums
                   stickerImgObj i (before ++ src :: after) tr
         = (Completed,
            tr ++ events i before
               ++ [Poll CellStart false]
               ++ (if Z.rem k 10 =? 0 then [Wait (Timer 0)] else [])
               ++ [ AssignSrc src; Wait ImageSettled;
                    Wait (Timer 200); AssignSrc src;
                    AssignSrc src; Wait ImageSettled;
                    Wait (Timer 200); AssignSrc src;
                    AssignSrc src; Wait ImageSettled;
                    MarkBroken ]
               ++ [Poll AfterAcquire false]
               ++ map Canvas (placeholder x y w h)
               ++ [Release]
               ++ map Canvas (drawNumber settings forceHideNums n x y w h)
               ++ map Canvas (drawMask settings stickerImgObj applyMask
                                       maskIndices n x y w h)
               ++ events (k + 1) after)).
Proof.
  assert (Broken : imageEvent env src 2 = OnError ->
                   imageEvent env src 1 = OnError ->
                   imageEvent env src 0 = OnError ->
                   loadEvents env src 2
                   = [ AssignSrc src; Wait ImageSettled;
                       Wait (Timer 200); AssignSrc src;
                       AssignSrc src; Wait ImageSettled;
                       Wait (Timer 200); AssignSrc src;
                       AssignSrc src; Wait ImageSettled;
                       MarkBroken ]
                   /\ isBroken (settled env src 2) = true).
  { intros E2 E1 E0. split.
    - rewrite loadEvents_unfold, E2. cbn [app].
      rewrite loadEvents_unfold, E1. cbn [app].
      rewrite loadEvents_unfold, E0. reflexivity.
    - rewrite settled_unfold, E2, settled_unfold, E1, settled_unfold, E0.
      reflexivity. }
  split.
  { exists (settled env src 2), (loadEvents env src 2).
    split; [apply loadImg_trace|].
    destruct (loadEvents_budget env src 2) as (A & D & _ & S1 & T1).
    repeat split; auto; lia. }
  split.
  { intros E2 E1 E0. exists (settled env src 2).
    destruct (Broken E2 E1 E0) as [<- B].
    split; [apply loadImg_trace|exact B]. }
  split.
  { intros img x y w h H. now rewrite drawImg_placeholder. }
  split.
  { intros. apply drawCells_never_cancelled. }
  split.
  { intros b E2. rewrite loadImg_trace, settled_unfold, loadEvents_unfold, E2.
    reflexivity. }
  split.
  { intros b E2 E1.
    rewrite loadImg_trace, settled_unfold, loadEvents_unfold, E2.
    rewrite settled_unfold, loadEvents_unfold, E1. reflexivity. }
  split.
  { intros b E2 E1 E0.
    rewrite loadImg_trace, settled_unfold, loadEvents_unfold, E2.
    rewrite settled_unfold, loadEvents_unfold, E1.
    rewrite settled_unfold, loadEvents_unfold, E0. reflexivity. }
  split.
  { intros img x y w h B W H C. unfold drawImg. rewrite B, C.
    destruct (Z.eqb_spec (naturalWidth (bitmap img)) 0); [contradiction|].
    destruct (Z.eqb_spec (naturalHeight (bitmap img)) 0); [contradiction|].
    reflexivity. }
  split.
  { intros. apply drawCells_trace. }
  intros cols w h gap globalOffset startNum maskIndices settings applyMask
         forceHideNums stickerImgObj i before after E2 E1 E0 events k x y n.
  destruct (Broken E2 E1 E0) as [L B].
  rewrite drawCells_trace. f_equal. f_equal.
  unfold events. rewrite cellsEvents_app. f_equal.
  cbn [cellsEvents]. unfold acquireEvents, paintEvents, yieldEvents.
  cbv zeta. fold k. fold x. fold y. unfold currentNum. fold n.
  rewrite L, (drawImg_placeholder _ x y w h (or_introl B)).
  rewrite <- !app_assoc. reflexivity.
Qed.

Lemma loadImg_retry_budget_witness :
  exists img,
    loadImg offline (ofAscii "a") 2 []
    = (img,
       [ AssignSrc (ofAscii "a"); Wait ImageSettled;
         Wait (Timer 200); AssignSrc (ofAscii "a");
         AssignSrc (ofAscii "a"); Wait ImageSettled;
         Wait (Timer 200); AssignSrc (ofAscii "a");
         AssignSrc (ofAscii "a"); Wait ImageSettled;
         MarkBroken ])
    /\ isBroken img = true.
Proof.
  destruct (@loadImg_retry_budget offline (ofAscii "a") []) as (_ & H & _).
  exact (H eq_refl eq_refl eq_refl).
Defined.

End AcquireProofs.

(** ** Chunking *)

Module BatchProofs.
Import Js Types Dom Utils App Scenarios.

Lemma slice_length (A : Type) (l : list A) (start finish : Z) :
  0 <= start -> 0 <= finish ->
  length (slice l start finish)
  = Z.to_nat (Z.min finish (Z.of_nat (length l))
              - Z.min start (Z.of_nat (length l))).
Proof.
  intros Hs Hf. unfold slice.
  destruct (Z.ltb_spec start 0); [lia|].
  destruct (Z.ltb_spec finish 0); [lia|].
  rewrite length_firstn, length_skipn. lia.
Qed.

Lemma currentImgs_length images settings opType arr b :
  0 <= b -> 0 < batchSize settings ->
  let L := Z.of_nat (length (targets images settings opType arr)) in
  length (currentImgs images settings opType arr b)
  = Z.to_nat (Z.min ((b + 1) * batchSize settings) L
              - Z.min (b * batchSize settings) L).
Proof.
  intros Hb HB L. unfold currentImgs. rewrite slice_length; [fold L|nia|nia].
  f_equal. nia.
Qed.

Lemma ceilDiv_nonpos a b : b < 0 -> 0 <= a -> ceilDiv a b <= 0.
Proof.
  intros Hb Ha. unfold ceilDiv.
  pose proof (Z.div_mod (- a) b ltac:(lia)) as E.
  pose proof (Z.mod_neg_bound (- a) b Hb) as M.
  nia.
Qed.






End BatchProofs.

(** ** The repack pre-pass *)

Module RepackProofs.
Import Js Types Dom Utils App Scenarios BatchProofs.

Lemma zseq_cons i n : zseq i (S n) = i :: zseq (i + 1) n.
Proof.
  unfold zseq. simpl. f_equal; [lia|].
  rewrite <- seq_shift, map_map. apply map_ext. intros; lia.
Qed.






End RepackProofs.

(** ** Traces of the draw engine and of the scheduler *)

Module TraceFacts.
Import Js Types Dom Utils App Observations Rendering AcquireProofs.

Lemma countOf_zero p (tr : Trace) :
  (forall e, In e tr -> p e = false) -> countOf p tr = O.
Proof.
  unfold countOf. induction tr as [|e tr IH]; intros H; simpl; [reflexivity|].
  rewrite (H e (or_introl eq_refl)). apply IH. intros; apply H; now right.
Qed.

Lemma countOf_zero_in p (tr : Trace) e :
  countOf p tr = O -> In e tr -> p e = false.
Proof.
  unfold countOf. induction tr as [|x tr IH]; simpl; [contradiction|].
  intros H [<-|Hin].
  - destruct (p x); [discriminate|reflexivity].
  - apply IH; [|assumption]. destruct (p x); [discriminate|assumption].
Qed.

Lemma countOf_cons p e (tr : Trace) :
  countOf p (e :: tr) = ((if p e then 1 else 0) + countOf p tr)%nat.
Proof. unfold countOf. simpl. now destruct (p e). Qed.

Lemma clock_countOf tr : clock tr = countOf isWait tr.
Proof.
  induction tr as [|e tr IH]; [reflexivity|].
  rewrite countOf_cons. destruct e; simpl; now rewrite IH.
Qed.

Lemma clock_app a b : clock (a ++ b) = (clock a + clock b)%nat.
Proof. now rewrite !clock_countOf, countOf_app. Qed.

Lemma cancelRef_quiet env tr evs :
  countOf isWait evs = O -> cancelRef env (tr ++ evs) = cancelRef env tr.
Proof.
  intros H. unfold cancelRef. rewrite clock_app, (clock_countOf evs), H.
  now rewrite Nat.add_0_r.
Qed.

(** The flag is never lowered during a run. *)
Lemma cancelRef_mono env tr evs :
  cancelRef env tr = true -> cancelRef env (tr ++ evs) = true.
Proof.
  unfold cancelRef. destruct (cancelAt env) as [t|]; [|discriminate].
  rewrite clock_app, !Nat.ltb_lt. lia.
Qed.

Lemma calm_app a b : calm (a ++ b) <-> calm a /\ calm b.
Proof. unfold calm. rewrite countOf_app. lia. Qed.

Lemma calm_canvas cmds : calm (map Canvas cmds).
Proof. apply countOf_canvas. reflexivity. Qed.

Lemma truthful_app env (a b : Trace) : forall tr,
  truthful env tr (a ++ b) <-> truthful env tr a /\ truthful env (tr ++ a) b.
Proof.
  induction a as [|e a IH]; intros tr; cbn [app truthful].
  - rewrite app_nil_r. tauto.
  - rewrite IH, <- app_assoc. cbn [app]. tauto.
Qed.

Lemma truthful_quiet env (evs : Trace) : forall tr,
  countOf isPoll evs = O -> truthful env tr evs.
Proof.
  induction evs as [|e evs IH]; intros tr H; cbn [truthful]; [exact I|].
  rewrite countOf_cons in H. split.
  - destruct e; try exact I. simpl in H. discriminate.
  - apply IH. lia.
Qed.

Lemma truthful_poll env tr p v :
  v = cancelRef env tr -> truthful env tr [Poll p v].
Proof. intros ->. repeat split. Qed.

Lemma truthful_canvas env tr cmds : truthful env tr (map Canvas cmds).
Proof. apply truthful_quiet. apply countOf_canvas. reflexivity. Qed.

(** A truthful trace, read at any of its polls. *)
Lemma truthful_at env (pre post : Trace) p v : forall tr,
  truthful env tr (pre ++ Poll p v :: post) -> v = cancelRef env (tr ++ pre).
Proof.
  induction pre as [|e pre IH]; intros tr; cbn [app truthful].
  - rewrite app_nil_r. tauto.
  - intros [_ H]. apply IH in H. now rewrite <- app_assoc in H.
Qed.

Lemma forallb_canvas cmds : forallb drawKind (map Canvas cmds) = true.
Proof. induction cmds; simpl; auto. Qed.

(** *** Painting *)

Lemma paint_other s evs :
  (forall e, In e evs -> match e with Canvas _ => False | _ => True end) ->
  fold_left paint evs s = s.
Proof.
  revert s. induction evs as [|e evs IH]; intros s H; simpl; [reflexivity|].
  rewrite IH by (intros; apply H; now right).
  specialize (H e (or_introl eq_refl)). destruct e; try reflexivity; contradiction.
Qed.

Lemma paintAll_nil s : paintAll [] s = s.
Proof. destruct s. unfold paintAll. simpl. now rewrite app_nil_r. Qed.

Lemma paintAll_app a b s : paintAll b (paintAll a s) = paintAll (a ++ b) s.
Proof. unfold paintAll. simpl. now rewrite app_assoc. Qed.

Lemma paint_canvas cmds : forall s,
  existsb isResize cmds = false ->
  fold_left paint (map Canvas cmds) s = paintAll cmds s.
Proof.
  induction cmds as [|c cmds IH]; intros s H; cbn [map fold_left].
  - now rewrite paintAll_nil.
  - simpl in H. apply orb_false_iff in H. destruct H as [Hc H].
    rewrite IH by assumption.
    assert (paint s (Canvas c) = paintAll [c] s) as ->
      by (destruct c; try reflexivity; discriminate).
    apply paintAll_app.
Qed.

Lemma drawImg_no_resize img x y w h : existsb isResize (drawImg img x y w h) = false.
Proof.
  unfold drawImg, placeholder, coverFit.
  repeat match goal with
         | |- context [if ?c then _ else _] => destruct c
         end; reflexivity.
Qed.

Lemma drawNumber_no_resize settings f n x y w h :
  existsb isResize (drawNumber settings f n x y w h) = false.
Proof.
  unfold drawNumber.
  repeat match goal with
         | |- context [if ?c then _ else _] => destruct c
         end; reflexivity.
Qed.

Lemma drawMask_no_resize settings st am mask n x y w h :
  existsb isResize (drawMask settings st am mask n x y w h) = false.
Proof.
  unfold drawMask.
  repeat match goal with
         | |- context [if ?c then _ else _] => destruct c
         | |- context [match ?c with _ => _ end] => destruct c
         end; reflexivity.
Qed.

Lemma drawOverlay_no_resize settings o cw ch :
  existsb isResize (drawOverlay settings o cw ch) = false.
Proof.
  unfold drawOverlay. destruct o as [o|]; [|reflexivity].
  destruct (_ && _); reflexivity.
Qed.

(** *** The events of an acquisition *)

Lemma loadEvents_kind env src retries :
  forallb loadOnly (loadEvents env src retries) = true.
Proof.
  induction retries as [|r IH]; rewrite loadEvents_unfold.
  - now destruct (imageEvent env src 0).
  - destruct (imageEvent env src (S r)); [reflexivity|].
    simpl. exact IH.
Qed.

Lemma loadEvents_count env src retries p :
  (forall e, loadOnly e = true -> p e = false) ->
  countOf p (loadEvents env src retries) = O.
Proof.
  intros H. apply countOf_zero. intros e Hin. apply H.
  pose proof (loadEvents_kind env src retries) as K.
  rewrite forallb_forall in K. now apply K.
Qed.

Lemma loadEvents_calm env src retries : calm (loadEvents env src retries).
Proof. apply loadEvents_count. now intros []. Qed.

Lemma loadEvents_drawKind env src retries :
  forallb drawKind (loadEvents env src retries) = true.
Proof.
  pose proof (loadEvents_kind env src retries) as K.
  rewrite forallb_forall in *. intros e Hin. specialize (K e Hin).
  destruct e as [[]| | | | | | | | | | |]; try discriminate; reflexivity.
Qed.

Lemma loadEvents_truthful env src retries tr :
  truthful env tr (loadEvents env src retries).
Proof. apply truthful_quiet. apply loadEvents_count. now intros []. Qed.

Lemma loadEvents_paint env src retries s :
  fold_left paint (loadEvents env src retries) s = s.
Proof.
  apply paint_other. intros e Hin.
  pose proof (loadEvents_kind env src retries) as K.
  rewrite forallb_forall in K. specialize (K e Hin).
  destruct e; try exact I. discriminate.
Qed.

(** *** The loop over the cells *)

Section Cells.
Variable env : Env.
Variables rows cols : Z.
Variables w h gap : jsnum.
Variables globalOffset startNum : Z.
Variable maskIndices : list Z.
Variable settings : Settings.
Variable applyMask : bool.
Variable forceHideNums : bool.
Variable stickerImgObj : option Bitmap.

Local Abbreviation cells :=
  (drawCells env cols w h gap globalOffset startNum maskIndices settings
             applyMask (cancelRef env) forceHideNums stickerImgObj).
Local Abbreviation rendered :=
  (renderCells env cols w h gap globalOffset startNum maskIndices settings
               applyMask forceHideNums stickerImgObj).
Local Abbreviation acquire := (acquireEvents env).
Local Abbreviation paints :=
  (paintEvents env cols w h gap globalOffset startNum maskIndices settings
               applyMask forceHideNums stickerImgObj).

Lemma drawCells_cons i src rest tr :
  cells i (src :: rest) tr
  = if cancelRef env tr then (Returned, tr ++ [Poll CellStart true])
    else
      if cancelRef env (tr ++ acquire i src) then
        (Returned, tr ++ acquire i src ++ [Poll AfterAcquire true])
      else cells (i + 1) rest (tr ++ acquire i src ++ paints i src).
Proof.
  cbn [drawCells]. unfold poll, emit, draw. cbv beta iota zeta.
  destruct (cancelRef env tr) eqn:C0; [reflexivity|].
  match goal with
  | |- context [loadImg env src 2 ?t] =>
      assert (Ey : t = tr ++ [Poll CellStart false] ++ yieldEvents i)
  end.
  { unfold yieldEvents. destruct (Z.rem i 10 =? 0).
    - now rewrite <- app_assoc.
    - now rewrite app_nil_r. }
  rewrite Ey, loadImg_trace. cbv beta iota zeta.
  assert (Ea : (tr ++ [Poll CellStart false] ++ yieldEvents i)
               ++ loadEvents env src 2 = tr ++ acquire i src).
  { unfold acquireEvents. now rewrite <- !app_assoc. }
  rewrite Ea.
  destruct (cancelRef env (tr ++ acquire i src)) eqn:C1.
  - now rewrite <- app_assoc.
  - f_equal. unfold paintEvents. cbv zeta. now rewrite <- !app_assoc.
Qed.

Lemma yieldEvents_facts i :
  calm (yieldEvents i) /\ forallb drawKind (yieldEvents i) = true
  /\ (forall s, fold_left paint (yieldEvents i) s = s)
  /\ forall tr, truthful env tr (yieldEvents i).
Proof.
  unfold yieldEvents.
  destruct (Z.rem i 10 =? 0); (split; [|split; [|split]]);
    try reflexivity; intros; repeat split.
Qed.

Lemma acquireEvents_facts i src :
  calm (acquire i src)
  /\ forallb drawKind (acquire i src) = true
  /\ (forall s, fold_left paint (acquire i src) s = s)
  /\ forall tr, cancelRef env tr = false ->
                truthful env tr (acquire i src).
Proof.
  destruct (yieldEvents_facts i) as (Y1 & Y2 & Y3 & Y4).
  unfold acquireEvents. split; [|split; [|split]].
  - apply calm_app. split; [reflexivity|]. apply calm_app. split; [assumption|].
    apply loadEvents_calm.
  - rewrite !forallb_app, Y2, loadEvents_drawKind. reflexivity.
  - intros s. rewrite !fold_left_app, loadEvents_paint, Y3. reflexivity.
  - intros tr C. apply truthful_app. split; [now apply truthful_poll|].
    apply truthful_app. split; [apply Y4|apply loadEvents_truthful].
Qed.

Lemma paintEvents_facts i src :
  calm (paints i src)
  /\ forallb drawKind (paints i src) = true
  /\ countOf isWait (paints i src) = O
  /\ (forall tr, cancelRef env tr = false ->
                 truthful env tr (paints i src))
  /\ forall s, fold_left paint (paints i src) s
               = paintAll (cellCmds env cols w h gap globalOffset startNum
                                    maskIndices settings applyMask
                                    forceHideNums stickerImgObj i src) s.
Proof.
  unfold paintEvents. cbv zeta. split; [|split; [|split; [|split]]].
  - repeat (apply calm_app; split); try apply calm_canvas; reflexivity.
  - rewrite !forallb_app, !forallb_canvas. reflexivity.
  - rewrite !countOf_app, !countOf_canvas by reflexivity. reflexivity.
  - intros tr C. apply truthful_app. split; [now apply truthful_poll|].
    apply truthful_quiet.
    rewrite !countOf_app, !countOf_canvas by reflexivity. reflexivity.
  - intros s. rewrite !fold_left_app. cbn [fold_left paint].
    rewrite !paint_canvas
      by first [apply drawImg_no_resize | apply drawNumber_no_resize
               | apply drawMask_no_resize].
    cbn [fold_left paint]. rewrite !paintAll_app. unfold cellCmds.
    cbv zeta. now rewrite <- ?app_assoc.
Qed.

(** A call either runs to its end without any poll reading true and
    paints every cell, or it returns on the first poll that reads true,
    which is then its last event. *)
Lemma drawCells_spec imgs : forall i tr,
  exists flow evs,
    cells i imgs tr = (flow, tr ++ evs)
    /\ forallb drawKind evs = true
    /\ truthful env tr evs
    /\ match flow with
       | Completed =>
           calm evs
           /\ forall s, fold_left paint evs s = paintAll (rendered i imgs) s
       | Returned =>
           exists evs1 p,
             evs = evs1 ++ [Poll p true] /\ calm evs1
             /\ cancelRef env (tr ++ evs) = true
       end.
Proof.
  induction imgs as [|src rest IH]; intros i tr.
  - exists Completed, []. simpl. rewrite app_nil_r. repeat split.
    intros s. now rewrite paintAll_nil.
  - rewrite drawCells_cons.
    destruct (acquireEvents_facts i src) as (A1 & A2 & A3 & A4).
    destruct (paintEvents_facts i src) as (P1 & P2 & P3 & P5 & P4).
    destruct (cancelRef env tr) eqn:C0.
    { exists Returned, [Poll CellStart true]. repeat split; [now rewrite C0|].
      exists [], CellStart. repeat split.
      now rewrite cancelRef_quiet. }
    destruct (cancelRef env (tr ++ acquire i src)) eqn:C1.
    { exists Returned, (acquire i src ++ [Poll AfterAcquire true]).
      split; [reflexivity|]. split; [now rewrite forallb_app, A2|].
      split.
      - apply truthful_app. split; [now apply A4|]. now apply truthful_poll.
      - exists (acquire i src), AfterAcquire.
        repeat split; [assumption|].
        now rewrite app_assoc, cancelRef_quiet. }
    destruct (IH (i + 1) (tr ++ acquire i src ++ paints i src))
      as (flow & evs & E & K & H & F).
    exists flow, (acquire i src ++ paints i src ++ evs).
    split; [rewrite E; f_equal; rewrite <- !app_assoc; reflexivity|].
    split; [now rewrite !forallb_app, A2, P2, K|].
    split.
    { apply truthful_app. split; [now apply A4|].
      apply truthful_app. split; [now apply P5|].
      now rewrite <- app_assoc. }
    destruct flow.
    + destruct F as [F1 F2]. split.
      * apply calm_app; split; [assumption|]. now apply calm_app.
      * intros s. rewrite !fold_left_app, A3, P4, F2.
        cbn [renderCells]. now rewrite paintAll_app.
    + destruct F as (evs1 & p & -> & F1 & F2).
      exists (acquire i src ++ paints i src ++ evs1), p.
      repeat split.
      * now rewrite <- !app_assoc.
      * apply calm_app; split; [assumption|]. now apply calm_app.
      * rewrite <- !app_assoc in F2. exact F2.
Qed.

End Cells.

(** *** One call of drawAsync *)

Lemma loadResource_trace env url tr :
  loadResource env url tr
  = (fst (loadResource env url []), tr ++ resourceEvents env url).
Proof.
  unfold resourceEvents, loadResource.
  destruct url as [u|]; [|now rewrite app_nil_r].
  destruct (JsString.truthy u); [reflexivity|now rewrite app_nil_r].
Qed.

Lemma resourceEvents_facts env url :
  calm (resourceEvents env url)
  /\ forallb drawKind (resourceEvents env url) = true
  /\ (forall s, fold_left paint (resourceEvents env url) s = s)
  /\ forall tr, truthful env tr (resourceEvents env url).
Proof.
  unfold resourceEvents, loadResource.
  destruct url as [u|]; [|repeat split].
  destruct (JsString.truthy u); repeat split.
Qed.

Section Sheet.
Variable env : Env.
Variables rows cols : Z.
Variables w h gap : jsnum.
Variables globalOffset startNum : Z.
Variable maskIndices : list Z.
Variable settings : Settings.
Variable applyMask : bool.
Variable forceHideNums : bool.

Local Abbreviation sheetDraw :=
  (drawAsync env rows cols w h gap globalOffset startNum maskIndices settings
             applyMask (cancelRef env) forceHideNums).
Local Abbreviation finished :=
  (renderSheet env rows cols w h gap globalOffset startNum maskIndices
               settings applyMask forceHideNums).
Local Abbreviation header := (headerEvents env rows cols w h gap settings).

Lemma headerEvents_facts :
  calm header /\ forallb drawKind header = true
  /\ (forall s, fold_left paint header s
                = {| canvasWidth := canvasW cols w gap;
                     canvasHeight := canvasH rows h gap;
                     painted := [ FillStyle "#FFFFFF";
                                  FillRect (Num 0) (Num 0)
                                           (ofZ (canvasW cols w gap))
                                           (ofZ (canvasH rows h gap)) ] |})
  /\ forall tr, cancelRef env tr = false -> truthful env tr header.
Proof.
  destruct (resourceEvents_facts env (stickerImgUrl settings))
    as (S1 & S2 & S3 & S4).
  destruct (resourceEvents_facts env (overlayImgUrl settings))
    as (O1 & O2 & O3 & O4).
  unfold headerEvents. split; [|split; [|split]].
  - repeat (apply calm_app; split); try assumption; reflexivity.
  - rewrite !forallb_app, S2, O2. reflexivity.
  - intros s. rewrite !fold_left_app, O3, S3. reflexivity.
  - intros tr C. apply truthful_app. split; [now apply truthful_poll|].
    apply truthful_app. split; [apply truthful_canvas|].
    apply truthful_app. split; [apply S4|apply O4].
Qed.

Lemma drawAsync_unfold imgs tr :
  sheetDraw imgs tr
  = if cancelRef env tr then (Returned, tr ++ [Poll DrawStart true])
    else
      match drawCells env cols w h gap globalOffset startNum maskIndices
                      settings applyMask (cancelRef env) forceHideNums
                      (fst (loadResource env (stickerImgUrl settings) []))
                      0 imgs (tr ++ header) with
      | (Returned, tr') => (Returned, tr')
      | (Completed, tr') =>
          (Completed,
           tr' ++ map Canvas
                     (drawOverlay settings
                        (fst (loadResource env (overlayImgUrl settings) []))
                        (canvasW cols w gap) (canvasH rows h gap)))
      end.
Proof.
  unfold drawAsync, poll, emit, draw. cbv beta iota zeta.
  destruct (cancelRef env tr); [reflexivity|].
  rewrite (loadResource_trace env (stickerImgUrl settings)).
  rewrite (loadResource_trace env (overlayImgUrl settings)).
  cbv beta iota zeta.
  match goal with
  | |- context [drawCells _ _ _ _ _ _ _ _ _ _ _ _ _ _ _ ?t] =>
      assert (E : t = tr ++ header)
        by (unfold headerEvents; now rewrite <- !app_assoc);
      rewrite E
  end.
  reflexivity.
Qed.

Lemma drawAsync_spec imgs tr :
  exists flow evs,
    sheetDraw imgs tr = (flow, tr ++ evs)
    /\ forallb drawKind evs = true
    /\ truthful env tr evs
    /\ match flow with
       | Completed =>
           calm evs /\ forall s, fold_left paint evs s = finished imgs
       | Returned =>
           exists evs1 p,
             evs = evs1 ++ [Poll p true] /\ calm evs1
             /\ cancelRef env (tr ++ evs) = true
       end.
Proof.
  rewrite drawAsync_unfold.
  destruct headerEvents_facts as (H1 & H2 & H3 & H4).
  destruct (cancelRef env tr) eqn:C0.
  { exists Returned, [Poll DrawStart true]. repeat split; [now rewrite C0|].
    exists [], DrawStart. repeat split. now rewrite cancelRef_quiet. }
  destruct (drawCells_spec env cols w h gap globalOffset startNum maskIndices
                           settings applyMask forceHideNums
                           (fst (loadResource env (stickerImgUrl settings) []))
                           imgs 0 (tr ++ header))
    as (flow & evs & E & K & T & F).
  rewrite E. destruct flow.
  - destruct F as [F1 F2].
    exists Completed. eexists. split; [rewrite <- !app_assoc; reflexivity|].
    split; [now rewrite !forallb_app, H2, K, forallb_canvas|].
    split.
    { apply truthful_app. split; [now apply H4|].
      apply truthful_app. split; [assumption|apply truthful_canvas]. }
    split.
    + apply calm_app; split; [assumption|].
      apply calm_app; split; [assumption|apply calm_canvas].
    + intros s. rewrite !fold_left_app, H3, F2.
      rewrite paint_canvas by apply drawOverlay_no_resize.
      unfold renderSheet, paintAll. cbn [canvasWidth canvasHeight painted].
      now rewrite <- !app_assoc.
  - destruct F as (evs1 & p & -> & F1 & F2).
    exists Returned, (header ++ evs1 ++ [Poll p true]).
    split; [now rewrite <- !app_assoc|].
    split; [now rewrite forallb_app, H2, K|].
    split; [apply truthful_app; split; [now apply H4|assumption]|].
    exists (header ++ evs1), p. repeat split.
    + now rewrite <- !app_assoc.
    + now apply calm_app.
    + rewrite <- !app_assoc in F2. exact F2.
Qed.

End Sheet.

(** *** The loop over the batches *)

Lemma drawKind_count p (evs : Trace) :
  (forall e, drawKind e = true -> p e = false) ->
  forallb drawKind evs = true -> countOf p evs = O.
Proof.
  intros H K. apply countOf_zero. intros e Hin. apply H.
  rewrite forallb_forall in K. now apply K.
Qed.

Lemma encodeCount_countOf tr : encodeCount tr = countOf isEncode tr.
Proof.
  induction tr as [|e tr IH]; [reflexivity|].
  rewrite countOf_cons. destruct e; simpl; now rewrite IH.
Qed.

Lemma produced_app a b : produced (a ++ b) = produced a ++ produced b.
Proof. unfold produced. apply flat_map_app. Qed.

Lemma produced_none (evs : Trace) : countOf isEncode evs = O -> produced evs = [].
Proof.
  intros H. unfold produced. induction evs as [|e evs IH]; [reflexivity|].
  rewrite countOf_cons in H. destruct e; simpl in *; try (apply IH; lia).
  discriminate.
Qed.

Section Loop.
Variable env : Env.
Variable images : list ImageItem.
Variable settings : Settings.
Variable opType : OpType.
Variable arr : list Z.

Local Abbreviation loop := (batchLoop env images settings opType arr).
Local Abbreviation sheetDraw := (drawBatch env images settings opType arr).
Local Abbreviation good := (goodEncode env images settings opType arr).
Local Abbreviation starts := (startEvents images settings opType arr).
Local Abbreviation encoded := (encodeEvents settings).
Local Abbreviation Post := (LoopPost env images settings opType arr).

Lemma batchLoop_S n b temp tr :
  loop (S n) b temp tr
  = if cancelRef env tr then (Normal, temp, tr ++ [Poll BatchStart true])
    else
      let trd := snd (sheetDraw b (tr ++ starts b)) in
      if cancelRef env trd then (Normal, temp, trd ++ [Poll BeforeEncode true])
      else
        let sheet := surfaceOf (trd ++ [Poll BeforeEncode false]) in
        let answer :=
          toBlob env (encodeCount (trd ++ [Poll BeforeEncode false])) sheet
                 (mimeType settings) (quality settings) in
        match answer with
        | Throws e =>
            (Thrown e, temp,
             trd ++ [ Poll BeforeEncode false;
                      Encode sheet (mimeType settings) (quality settings)
                             answer ])
        | _ => loop n (b + 1) (temp ++ blobOf answer)
                    (trd ++ encoded sheet answer)
        end.
Proof.
  cbn [batchLoop]. unfold pollRef, emit, draw. cbv beta iota zeta.
  destruct (cancelRef env tr); [reflexivity|].
  change (tr ++ [Poll BatchStart false]) with (tr ++ [Poll BatchStart false]).
  rewrite <- (app_assoc tr [Poll BatchStart false]).
  change ([Poll BatchStart false]
          ++ [SetLoadingText (Generating (b + 1)
                                         (totalBatches images settings opType arr));
              Wait (Timer 200)]) with (starts b).
  destruct (sheetDraw b (tr ++ starts b)) as [flow trd]. cbn [snd].
  destruct (cancelRef env trd); [reflexivity|].
  set (sheet := surfaceOf (trd ++ [Poll BeforeEncode false])).
  set (answer := toBlob env _ sheet _ _).
  destruct answer as [blob| |e]; unfold encodeEvents, blobOf;
    rewrite <- ?app_assoc, ?app_nil_r; reflexivity.
Qed.

Lemma goodEncode_weaken lo n e : good (lo + 1) n e -> good lo (S n) e.
Proof.
  destruct e; try exact (fun H => H). simpl.
  intros (Hm & Hq & b & Hb & Hs). repeat split; try assumption.
  exists b. split; [lia|assumption].
Qed.

Lemma goodEncode_draw lo n (evs : Trace) :
  forallb drawKind evs = true -> Forall (good lo n) evs.
Proof.
  intros K. apply Forall_forall. intros e Hin.
  rewrite forallb_forall in K. specialize (K e Hin).
  destruct e; try exact I. discriminate.
Qed.

Lemma drawKind_loopKind (evs : Trace) :
  forallb drawKind evs = true -> forallb loopKind evs = true.
Proof.
  rewrite !forallb_forall. intros K e Hin. specialize (K e Hin).
  destruct e as [[]|[]| | | | | | | | | |]; try discriminate; reflexivity.
Qed.

Lemma drawBatch_spec b tr :
  exists flow evs,
    sheetDraw b tr = (flow, tr ++ evs)
    /\ forallb drawKind evs = true
    /\ truthful env tr evs
    /\ match flow with
       | Completed =>
           calm evs
           /\ forall s, fold_left paint evs s
                        = sheetOfBatch env images settings opType arr b
       | Returned =>
           exists evs1 p,
             evs = evs1 ++ [Poll p true] /\ calm evs1
             /\ cancelRef env (tr ++ evs) = true
       end.
Proof. unfold drawBatch, sheetOfBatch. apply drawAsync_spec. Qed.

Ltac by_kind := intros []; try reflexivity; discriminate.

Lemma startEvents_facts b :
  calm (starts b) /\ forallb loopKind (starts b) = true
  /\ countOf isEncode (starts b) = O
  /\ countOf isStart (starts b) = 1%nat
  /\ countOf isThrow (starts b) = O
  /\ produced (starts b) = []
  /\ (forall lo n, Forall (good lo n) (starts b))
  /\ forall tr, cancelRef env tr = false -> truthful env tr (starts b).
Proof.
  do 6 (split; [reflexivity|]). split.
  - intros. repeat constructor.
  - intros tr C. unfold startEvents. cbn [truthful]. now rewrite C.
Qed.

Lemma drawn_facts (evs : Trace) :
  forallb drawKind evs = true ->
  forallb loopKind evs = true
  /\ countOf isEncode evs = O
  /\ countOf isStart evs = O
  /\ countOf isThrow evs = O
  /\ produced evs = []
  /\ forall lo n, Forall (good lo n) evs.
Proof.
  intros K.
  assert (E : countOf isEncode evs = O) by (apply drawKind_count; [by_kind|assumption]).
  repeat split.
  - now apply drawKind_loopKind.
  - assumption.
  - apply drawKind_count; [by_kind|assumption].
  - apply drawKind_count; [by_kind|assumption].
  - now apply produced_none.
  - intros. now apply goodEncode_draw.
Qed.

Lemma surfaceOf_app tr evs : surfaceOf (tr ++ evs) = fold_left paint evs (surfaceOf tr).
Proof. unfold surfaceOf. apply fold_left_app. Qed.

(** An iteration that encodes its sheet and goes on: the guarantee of the
    rest of the loop carries over to the whole. *)
Lemma LoopPost_step n b temp tr evsd answer res :
  (forall e, answer <> Throws e) ->
  cancelRef env tr = false ->
  calm evsd -> forallb drawKind evsd = true ->
  truthful env (tr ++ starts b) evsd ->
  cancelRef env ((tr ++ starts b) ++ evsd) = false ->
  Post n (b + 1) (temp ++ blobOf answer)
           (((tr ++ starts b) ++ evsd)
            ++ encoded (sheetOfBatch env images settings opType arr b) answer)
           res ->
  Post (S n) b temp tr res.
Proof.
  intros Hsafe C0 F1 K Td C1. destruct res as [[c temp'] tr'].
  set (sheet := sheetOfBatch env images settings opType arr b).
  intros (evs1 & evs2 & T & I1 & I2 & I3 & It & I4 & I5 & I6 & I7).
  destruct (startEvents_facts b) as (S1 & S2 & S3 & S4 & S5 & S6 & S7 & S8).
  destruct (drawn_facts evsd K) as (D2 & D3 & D4 & D5 & D6 & D7).
  assert (Ecalm : calm (encoded sheet answer)) by reflexivity.
  assert (Eloop : forallb loopKind (encoded sheet answer) = true)
    by reflexivity.
  assert (Eenc : countOf isEncode (encoded sheet answer) = 1%nat)
    by reflexivity.
  assert (Estart : countOf isStart (encoded sheet answer) = O)
    by reflexivity.
  assert (Ethrow : countOf isThrow (encoded sheet answer) = O).
  { destruct answer as [blob| |e]; try reflexivity. now destruct (Hsafe e). }
  assert (Eprod : produced (encoded sheet answer) = blobOf answer)
    by (destruct answer; reflexivity).
  assert (Egood : Forall (good b (S n)) (encoded sheet answer)).
  { repeat constructor. exists b. split; [lia|reflexivity]. }
  assert (Etrue : truthful env ((tr ++ starts b) ++ evsd)
                           (encoded sheet answer)).
  { unfold encodeEvents. cbn [truthful]. now rewrite C1. }
  exists (starts b ++ evsd ++ encoded sheet answer ++ evs1), evs2.
  split; [rewrite T; now rewrite <- !app_assoc|].
  split; [repeat (apply calm_app; split); assumption|].
  split; [assumption|].
  split.
  { rewrite forallb_app in I3. apply andb_true_iff in I3.
    destruct I3 as [I3a I3b].
    now rewrite !forallb_app, S2, D2, Eloop, I3a, I3b. }
  split.
  { rewrite <- !app_assoc.
    apply truthful_app. split; [now apply S8|].
    apply truthful_app. split; [assumption|].
    apply truthful_app. split; [assumption|exact It]. }
  split.
  { repeat (apply Forall_app; split); auto.
    eapply Forall_impl; [|exact I4]. intros; now apply goodEncode_weaken. }
  split.
  { rewrite I5, !produced_app, S6, D6, Eprod. cbn [app].
    now rewrite <- app_assoc. }
  split.
  { rewrite !countOf_app, S3, S4, D3, D4, Eenc, Estart.
    destruct evs2 as [|[] evs2]; try contradiction; [lia|].
    destruct I6 as (? & ? & I6). repeat split; try assumption.
    destruct p; lia. }
  destruct c.
  - destruct I7 as [I7 I8]. split.
    + rewrite !countOf_app, S5, D5, Ethrow, I7. reflexivity.
    + intros ->. rewrite !countOf_app, S3, D3, Eenc, (I8 eq_refl). reflexivity.
  - destruct I7 as (-> & I7 & pre & sh & k' & -> & I8 & I9).
    split; [reflexivity|]. split; [assumption|].
    exists (starts b ++ evsd ++ encoded sheet answer ++ pre), sh, k'.
    split; [now rewrite <- !app_assoc|].
    split; [|assumption].
    rewrite !countOf_app, S5, D5, Ethrow, I8. reflexivity.
Qed.

Lemma batchLoop_post n : forall b temp tr,
  Post n b temp tr (loop n b temp tr).
Proof.
  induction n as [|n IH]; intros b temp tr.
  { exists [], []. simpl. rewrite !app_nil_r. repeat split; constructor. }
  rewrite batchLoop_S.
  destruct (cancelRef env tr) eqn:C0.
  { exists [], [Poll BatchStart true]. cbn [app].
    split; [reflexivity|]. split; [reflexivity|]. split; [reflexivity|].
    split; [reflexivity|].
    split; [cbn [truthful]; now rewrite C0|].
    split; [constructor|]. split; [now rewrite app_nil_r|].
    split.
    - split; [reflexivity|]. split; [now rewrite cancelRef_quiet|reflexivity].
    - split; [reflexivity|discriminate]. }
  cbv zeta.
  destruct (drawBatch_spec b (tr ++ starts b))
    as (flow & evsd & E & K & Td & F).
  rewrite E. cbn [snd].
  destruct (startEvents_facts b) as (S1 & S2 & S3 & S4 & S5 & S6 & S7 & S8).
  destruct (drawn_facts evsd K) as (D2 & D3 & D4 & D5 & D6 & D7).
  destruct (cancelRef env ((tr ++ starts b) ++ evsd)) eqn:C1.
  { (* the flag is up when the draw call returns *)
    assert (Tall : truthful env tr ((starts b ++ evsd)
                                    ++ [Poll BeforeEncode true])).
    { apply truthful_app. split.
      - apply truthful_app. split; [now apply S8|assumption].
      - apply truthful_poll. now rewrite app_assoc, C1. }
    destruct flow.
    - destruct F as [F1 _].
      exists (starts b ++ evsd), [Poll BeforeEncode true].
      split; [now rewrite <- !app_assoc|].
      split; [now apply calm_app|].
      split; [reflexivity|].
      split; [now rewrite !forallb_app, S2, D2|].
      split; [exact Tall|].
      split; [apply Forall_app; split; auto|].
      split; [now rewrite produced_app, S6, D6, app_nil_r|].
      split.
      + split; [reflexivity|]. split; [now rewrite cancelRef_quiet|].
        rewrite !countOf_app. lia.
      + split; [rewrite countOf_app; lia|discriminate].
    - destruct F as (evs1 & p & -> & F1 & F2).
      assert (Hp : inDraw p = true).
      { rewrite forallb_app in K. apply andb_true_iff in K.
        destruct K as [_ K]. simpl in K. now rewrite andb_true_r in K. }
      rewrite forallb_app in K. apply andb_true_iff in K. destruct K as [K1 _].
      destruct (drawn_facts evs1 K1) as (E2 & E3 & E4 & E5 & E6 & E7).
      exists (starts b ++ evs1), [Poll p true; Poll BeforeEncode true].
      split; [now rewrite <- !app_assoc|].
      split; [now apply calm_app|].
      split; [reflexivity|].
      split.
      { rewrite !forallb_app, S2, E2. destruct p; try discriminate; reflexivity. }
      split.
      { rewrite <- !app_assoc in Tall. rewrite <- app_assoc. exact Tall. }
      split; [apply Forall_app; split; auto|].
      split; [now rewrite produced_app, S6, E6, app_nil_r|].
      split.
      + split; [reflexivity|]. split; [now rewrite cancelRef_quiet|].
        rewrite !countOf_app. destruct p; try discriminate; lia.
      + split; [rewrite countOf_app; lia|discriminate]. }
  (* the flag is down: the sheet is finished and goes to the encoder *)
  destruct flow;
    [|destruct F as (? & ? & _ & _ & F2); congruence].
  destruct F as [F1 F2].
  assert (Hsheet : surfaceOf (((tr ++ starts b) ++ evsd)
                              ++ [Poll BeforeEncode false])
                   = sheetOfBatch env images settings opType arr b).
  { rewrite !surfaceOf_app. cbn [fold_left paint]. apply F2. }
  rewrite Hsheet.
  set (sheet := sheetOfBatch env images settings opType arr b) in *.
  set (k := encodeCount _).
  destruct (toBlob env k sheet (mimeType settings) (quality settings))
    as [blob| |e] eqn:A.
  - (* a blob *)
    apply LoopPost_step with (evsd := evsd) (answer := Produced blob);
      try assumption; [discriminate|apply IH].
  - (* no blob: the sheet is skipped and the loop goes on *)
    apply LoopPost_step with (evsd := evsd) (answer := Null);
      try assumption; [discriminate|apply IH].
  - (* the encoder throws *)
    exists (starts b ++ evsd
            ++ [Poll BeforeEncode false;
                Encode sheet (mimeType settings) (quality settings) (Throws e)]),
           [].
    split; [now rewrite app_nil_r, <- !app_assoc|].
    split; [repeat (apply calm_app; split); auto; reflexivity|].
    split; [reflexivity|].
    split; [now rewrite app_nil_r, !forallb_app, S2, D2|].
    split.
    { rewrite app_nil_r.
      apply truthful_app. split; [now apply S8|].
      apply truthful_app. split; [assumption|].
      cbn [truthful]. now rewrite C1. }
    split.
    { repeat (apply Forall_app; split); auto.
      repeat constructor. exists b. split; [lia|reflexivity]. }
    split; [now rewrite !produced_app, S6, D6, app_nil_r|].
    split; [rewrite !countOf_app, S3, S4, D3, D4; reflexivity|].
    split; [reflexivity|].
    split.
    { rewrite cancelRef_quiet by reflexivity. exact C1. }
    exists (starts b ++ evsd ++ [Poll BeforeEncode false]), sheet, k.
    split; [now rewrite <- !app_assoc|].
    split; [|assumption].
    rewrite !countOf_app, S5, D5. reflexivity.
Qed.

End Loop.

(** *** Splitting a trace at a poll that reads true *)

Lemma split_after_calm (l1 l2 pre post : Trace) x :
  l1 ++ l2 = pre ++ x :: post -> calm l1 -> truePoll x = true ->
  exists mid, pre = l1 ++ mid /\ l2 = mid ++ x :: post.
Proof.
  revert pre. induction l1 as [|e l1 IH]; intros pre E C X.
  - exists pre. now split.
  - unfold calm in C. rewrite countOf_cons in C.
    destruct pre as [|e' pre]; simpl in E; injection E as -> E.
    + rewrite X in C. discriminate.
    + destruct (IH pre E) as (mid & -> & ->); [unfold calm; lia|assumption|].
      now exists mid.
Qed.

Lemma calm_head_true (mid post l : Trace) p q :
  Poll q true :: l = mid ++ Poll p true :: post -> calm mid ->
  mid = [] /\ p = q /\ post = l.
Proof.
  intros E C. destruct mid as [|e mid]; simpl in E; injection E as E1 E2.
  - now subst.
  - subst e. unfold calm in C. rewrite countOf_cons in C. simpl in C. lia.
Qed.

Lemma forallb_suffix (f : Event -> bool) (a b : Trace) :
  forallb f (a ++ b) = true -> forallb f b = true.
Proof. rewrite forallb_app. intros H. now apply andb_true_iff in H. Qed.

Lemma generatedBlobs_app before a b :
  generatedBlobs before (a ++ b) = generatedBlobs (generatedBlobs before a) b.
Proof. unfold generatedBlobs. apply fold_left_app. Qed.

Lemma generatedBlobs_quiet before (evs : Trace) :
  countOf isPublish evs = O -> generatedBlobs before evs = before.
Proof.
  revert before. induction evs as [|e evs IH]; intros before H; [reflexivity|].
  rewrite countOf_cons in H.
  change (generatedBlobs before (e :: evs))
    with (generatedBlobs (match e with SetGeneratedBlobs l => l | _ => before end) evs).
  destruct e; simpl in H; try (apply IH; lia). discriminate.
Qed.

Lemma loopKind_count p (evs : Trace) :
  (forall e, loopKind e = true -> p e = false) ->
  forallb loopKind evs = true -> countOf p evs = O.
Proof.
  intros H K. apply countOf_zero. intros e Hin. apply H.
  rewrite forallb_forall in K. now apply K.
Qed.

Lemma truePoll_count p (evs : Trace) :
  (forall e, truePoll e = true -> p e = false) ->
  forallb truePoll evs = true -> countOf p evs = O.
Proof.
  intros H K. apply countOf_zero. intros e Hin. apply H.
  rewrite forallb_forall in K. now apply K.
Qed.

(** *** The whole run *)

Section Run.
Variable env : Env.
Variable images : list ImageItem.
Variable settings : Settings.
Variable opType : OpType.
Variable arr : list Z.
Hypothesis some_images : images <> [].
Hypothesis canvas_mounted : canvasRef env = true.
Hypothesis parsed :
  parseMaskIndices (arrayLimit env) (maskIndices settings) = Some arr.

Local Abbreviation out := (runGeneration env images settings opType).
Local Abbreviation total := (totalBatches images settings opType arr).

(** The run in one statement: the events of the loop, split at the first
    poll that reads true, and the closing events. *)
Lemma runGeneration_summary :
  exists c evs1 evs2,
    trace out
    = initEvents ++ evs1 ++ evs2
      ++ closingEvents c (cancelRef env (trace out)) (tempBlobs out)
    /\ calm evs1
    /\ forallb truePoll evs2 = true
    /\ forallb loopKind evs1 = true
    /\ truthful env [] (trace out)
    /\ Forall (goodEncode env images settings opType arr 0 (Z.to_nat total)) evs1
    /\ tempBlobs out = produced evs1
    /\ match evs2 with
       | [] => countOf isEncode evs1 = countOf isStart evs1
       | Poll p _ :: _ =>
           c = Normal /\ cancelRef env (trace out) = true
           /\ loopKind (Poll p true) = true
           /\ match p with
              | BatchStart => countOf isEncode evs1 = countOf isStart evs1
              | _ => S (countOf isEncode evs1) = countOf isStart evs1
              end
       | _ :: _ => False
       end
    /\ match c with
       | Normal =>
           countOf isThrow evs1 = O
           /\ (evs2 = [] -> countOf isEncode evs1 = Z.to_nat total)
       | Thrown e =>
           evs2 = [] /\ cancelRef env (trace out) = false
           /\ exists pre sheet k,
                evs1 = pre ++ [Encode sheet (mimeType settings)
                                      (quality settings) (Throws e)]
                /\ countOf isThrow pre = O
                /\ toBlob env k sheet (mimeType settings) (quality settings)
                   = Throws e
       end.
Proof.
  unfold runGeneration. destruct images as [|im ims]; [congruence|].
  rewrite parsed. unfold afterParse.
  rewrite canvas_mounted. cbn [negb].
  fold initEvents.
  pose proof (batchLoop_post env (im :: ims) settings opType arr
                             (Z.to_nat (totalBatches (im :: ims) settings
                                                     opType arr))
                             0 [] initEvents) as P.
  destruct (batchLoop _ _ _ _ _ _ _ _ _) as [[c temp'] tr'].
  destruct P as (evs1 & evs2 & -> & P1 & P2 & P3 & Pt & P4 & P5 & P6 & P7).
  exists c, evs1, evs2.
  set (tr' := initEvents ++ evs1 ++ evs2) in *.
  assert (T : forall fin,
             countOf isWait fin = O ->
             cancelRef env (tr' ++ fin ++ [SetIsLoading false])
             = cancelRef env tr').
  { intros fin Hf. apply cancelRef_quiet. rewrite countOf_app, Hf. reflexivity. }
  assert (Hclose :
    trace
      {| trace :=
           emit [SetIsLoading false]
             match c with
             | Normal =>
                 let '(cancelled, tr) := pollRef env BeforePublish tr' in
                 if cancelled then tr
                 else emit [SetGeneratedBlobs temp'; ScrollToResult] tr
             | Thrown e =>
                 let '(cancelled, tr) := pollRef env InCatch tr' in
                 if cancelled then tr
                 else emit [Alert (GenerationInterrupted e)] tr
             end;
         tempBlobs := temp' |}
    = tr' ++ closingEvents c (cancelRef env tr') temp').
  { unfold closingEvents, pollRef, emit. cbn [trace].
    destruct c; destruct (cancelRef env tr');
      cbn [app]; rewrite <- ?app_assoc; reflexivity. }
  rewrite Hclose. cbn [tempBlobs].
  assert (Hflag : cancelRef env (tr' ++ closingEvents c (cancelRef env tr') temp')
                  = cancelRef env tr').
  { apply cancelRef_quiet. unfold closingEvents.
    destruct c; destruct (cancelRef env tr'); reflexivity. }
  rewrite Hflag.
  split; [unfold tr'; now rewrite <- !app_assoc|].
  split; [assumption|]. split; [assumption|].
  split; [rewrite forallb_app in P3; apply andb_true_iff in P3; tauto|].
  split.
  { apply truthful_app. split.
    - unfold tr'. apply truthful_app. split; [repeat split|exact Pt].
    - change ([] ++ tr') with tr'. unfold closingEvents.
      destruct c; destruct (cancelRef env tr') eqn:V; cbn [app truthful];
        rewrite ?V; repeat split. }
  split; [assumption|]. split; [assumption|].
  split.
  - destruct evs2 as [|[] evs2]; try assumption.
    destruct P6 as (Q1 & Q2 & Q3). repeat split; try assumption.
    apply forallb_suffix in P3. simpl in P3. apply andb_true_iff in P3.
    destruct P3 as [P3 _]. simpl in P2. apply andb_true_iff in P2.
    destruct P2 as [P2 _]. destruct v; [|discriminate]. exact P3.
  - exact P7.
Qed.

Lemma closingEvents_facts c v temp :
  countOf isEncode (closingEvents c v temp) = O
  /\ countOf isStart (closingEvents c v temp) = O
  /\ produced (closingEvents c v temp) = []
  /\ (v = true ->
      forallb afterCancel (closingEvents c v temp) = true
      /\ countOf isPublish (closingEvents c v temp) = O)
  /\ (v = false -> calm (closingEvents c v temp)).
Proof.
  unfold closingEvents.
  destruct c, v; repeat split; try reflexivity; intros; discriminate.
Qed.

Lemma truePolls_facts (evs : Trace) :
  forallb truePoll evs = true ->
  forallb afterCancel evs = true
  /\ countOf isEncode evs = O /\ countOf isStart evs = O
  /\ countOf isPublish evs = O /\ produced evs = [].
Proof.
  intros K.
  assert (E : countOf isEncode evs = O)
    by (apply truePoll_count; [now intros []|assumption]).
  repeat split.
  - rewrite forallb_forall in *. intros e Hin. specialize (K e Hin).
    destruct e as [|p []| | | | | | | | | |]; try discriminate; reflexivity.
  - assumption.
  - apply truePoll_count; [now intros []|assumption].
  - apply truePoll_count; [now intros []|assumption].
  - now apply produced_none.
Qed.

Lemma initEvents_facts :
  calm initEvents /\ countOf isEncode initEvents = O
  /\ countOf isStart initEvents = O /\ produced initEvents = [].
Proof. repeat split. Qed.

(** Every sheet handed to the encoder is the finished sheet of a batch,
    and goes with the configured format. *)
Lemma runGeneration_encodes sheet mime q answer :
  In (Encode sheet mime q answer) (trace out) ->
  mime = mimeType settings /\ q = quality settings
  /\ exists b, 0 <= b < total
               /\ sheet = sheetOfBatch env images settings opType arr b.
Proof.
  destruct runGeneration_summary
    as (c & evs1 & evs2 & T & P1 & P2 & P3 & _ & P4 & _).
  destruct (closingEvents_facts c (cancelRef env (trace out)) (tempBlobs out))
    as (E3 & _).
  destruct (truePolls_facts evs2 P2) as (_ & E2 & _).
  remember (closingEvents c (cancelRef env (trace out)) (tempBlobs out))
    as closing eqn:Hcl.
  rewrite T. intros Hin.
  assert (Hin1 : In (Encode sheet mime q answer) evs1).
  { repeat (apply in_app_or in Hin; destruct Hin as [Hin|Hin]);
      try assumption; exfalso.
    - simpl in Hin. intuition discriminate.
    - now apply (countOf_zero_in _ _ _ E2) in Hin.
    - now apply (countOf_zero_in _ _ _ E3) in Hin. }
  rewrite Forall_forall in P4. specialize (P4 _ Hin1). simpl in P4.
  destruct P4 as (Hm & Hq & b & Hb & Hs).
  repeat split; try assumption. exists b. split; [lia|assumption].
Qed.

(** The local list holds the blobs the encoder produced. *)
Lemma runGeneration_tempBlobs : tempBlobs out = produced (trace out).
Proof.
  destruct runGeneration_summary
    as (c & evs1 & evs2 & T & P1 & P2 & P3 & _ & P4 & P5 & _).
  destruct (truePolls_facts evs2 P2) as (_ & _ & _ & _ & E2).
  destruct (closingEvents_facts c (cancelRef env (trace out)) (tempBlobs out))
    as (_ & _ & E3 & _).
  remember (closingEvents c (cancelRef env (trace out)) (tempBlobs out))
    as closing eqn:Hcl.
  rewrite T, !produced_app, E2, E3, !app_nil_r. exact P5.
Qed.

(** Once a poll has read true, only polls that read true and the end of
    the loading state follow. *)
Lemma runGeneration_stops pre p post :
  trace out = pre ++ Poll p true :: post ->
  forallb afterCancel post = true.
Proof.
  destruct runGeneration_summary
    as (c & evs1 & evs2 & T & P1 & P2 & P3 & _ & P4 & P5 & P6 & P7).
  set (closing := closingEvents c (cancelRef env (trace out)) (tempBlobs out)) in *.
  intros E. rewrite E in T at 1.
  assert (T' : (initEvents ++ evs1) ++ (evs2 ++ closing)
               = pre ++ Poll p true :: post)
    by (rewrite T; now rewrite <- !app_assoc).
  apply split_after_calm in T';
    [|apply calm_app; split; [reflexivity|assumption]|reflexivity].
  destruct T' as (mid & _ & L2).
  destruct (closingEvents_facts c (cancelRef env (trace out)) (tempBlobs out))
    as (_ & _ & _ & Ctrue & Cfalse).
  fold closing in Ctrue, Cfalse.
  destruct (cancelRef env (trace out)) eqn:V.
  - destruct (Ctrue eq_refl) as [A _].
    destruct (truePolls_facts evs2 P2) as (A2 & _).
    assert (forallb afterCancel (evs2 ++ closing) = true)
      by now rewrite forallb_app, A2, A.
    rewrite L2 in H. apply forallb_suffix in H. simpl in H.
    exact H.
  - destruct evs2 as [|[] evs2]; try contradiction.
    + simpl in L2. exfalso.
      assert (In (Poll p true) closing)
        by (rewrite L2; apply in_or_app; right; now left).
      now apply (countOf_zero_in _ _ _ (Cfalse eq_refl)) in H.
    + destruct P6 as (_ & ? & _). congruence.
Qed.

(** At the first poll that reads true, every sheet started before it has
    been encoded, except the one in progress when the poll is inside a
    batch. *)
Lemma runGeneration_progress pre p post :
  trace out = pre ++ Poll p true :: post -> calm pre ->
  countOf isEncode (trace out) = countOf isEncode pre
  /\ p <> InCatch
  /\ match p with
     | BatchStart | BeforePublish =>
         countOf isEncode pre = countOf isStart pre
     | _ => S (countOf isEncode pre) = countOf isStart pre
     end.
Proof.
  destruct runGeneration_summary
    as (c & evs1 & evs2 & T & P1 & P2 & P3 & _ & P4 & P5 & P6 & P7).
  set (closing := closingEvents c (cancelRef env (trace out)) (tempBlobs out)) in *.
  intros E Cpre. rewrite E in T at 1.
  assert (T' : (initEvents ++ evs1) ++ (evs2 ++ closing)
               = pre ++ Poll p true :: post)
    by (rewrite T; now rewrite <- !app_assoc).
  apply split_after_calm in T';
    [|apply calm_app; split; [reflexivity|assumption]|reflexivity].
  destruct T' as (mid & Epre & L2).
  assert (Cmid : calm mid).
  { rewrite Epre in Cpre. now apply calm_app in Cpre. }
  destruct (closingEvents_facts c (cancelRef env (trace out)) (tempBlobs out))
    as (C1 & C2 & _ & Ctrue & Cfalse).
  fold closing in C1, C2, Ctrue, Cfalse.
  destruct (truePolls_facts evs2 P2) as (_ & E2 & _).
  assert (Hall : countOf isEncode (trace out) = countOf isEncode evs1).
  { rewrite E, T, !countOf_app, E2, C1. simpl. lia. }
  destruct evs2 as [|[| q v | | | | | | | | | | ] evs2]; try contradiction.
  - (* the loop saw nothing: the poll is the one before publishing *)
    simpl in L2.
    destruct (cancelRef env (trace out)) eqn:V.
    + destruct c.
      * unfold closing, closingEvents in L2. cbn [app] in L2.
        apply calm_head_true in L2; [|assumption].
        destruct L2 as (-> & -> & _). rewrite app_nil_r in Epre. subst pre.
        rewrite Hall, !countOf_app. simpl.
        repeat split; try discriminate. lia.
      * destruct P7 as (_ & ? & _). congruence.
    + exfalso.
      assert (In (Poll p true) closing)
        by (rewrite L2; apply in_or_app; right; now left).
      now apply (countOf_zero_in _ _ _ (Cfalse eq_refl)) in H.
  - destruct P6 as (_ & _ & K & P6).
    simpl in P2. apply andb_true_iff in P2. destruct P2 as [Hv _].
    destruct v; [|discriminate].
    cbn [app] in L2. apply calm_head_true in L2; [|assumption].
    destruct L2 as (-> & -> & _). rewrite app_nil_r in Epre. subst pre.
    rewrite Hall, !countOf_app. simpl.
    destruct q; try discriminate; repeat split; try discriminate; lia.
Qed.

(** Every poll of the run reports the flag as it stands when it is read:
    true exactly when the cancellation came during an earlier suspension. *)
Lemma runGeneration_polls pre p v post :
  trace out = pre ++ Poll p v :: post ->
  v = cancelRef env pre.
Proof.
  destruct runGeneration_summary as (c & evs1 & evs2 & _ & _ & _ & _ & Pt & _).
  intros E. rewrite E in Pt. now apply truthful_at in Pt.
Qed.

(** A run that ends with the flag up publishes nothing. *)
Lemma runGeneration_unpublished before :
  cancelRef env (trace out) = true ->
  generatedBlobs before (trace out) = [].
Proof.
  destruct runGeneration_summary
    as (c & evs1 & evs2 & T & P1 & P2 & P3 & _ & P4 & P5 & P6 & P7).
  intros V. rewrite T, V.
  destruct (closingEvents_facts c true (tempBlobs out)) as (_ & _ & _ & Ctrue & _).
  destruct (Ctrue eq_refl) as [_ Q].
  destruct (truePolls_facts evs2 P2) as (_ & _ & _ & Q2 & _).
  rewrite generatedBlobs_app. change (generatedBlobs before initEvents) with (@nil Blob).
  apply generatedBlobs_quiet. rewrite !countOf_app, Q2, Q.
  rewrite (loopKind_count isPublish); [reflexivity| |assumption].
  now intros [].
Qed.

End Run.

(** When the parse of the mask field throws, the run is over before its
    first batch. *)
Lemma runGeneration_thrown env images settings opType :
  images <> [] ->
  parseMaskIndices (arrayLimit env) (maskIndices settings) = None ->
  runGeneration env images settings opType
  = {| trace := initEvents; tempBlobs := [] |}.
Proof.
  intros Hi P. unfold runGeneration. destruct images; [congruence|].
  now rewrite P.
Qed.

Lemma initEvents_polls pre p v post :
  initEvents <> pre ++ Poll p v :: post.
Proof.
  intros H.
  assert (I : In (Poll p v) initEvents) by (rewrite H; apply in_elt).
  cbn in I. repeat (destruct I as [I|I]; [discriminate I|]). exact I.
Qed.

Lemma initEvents_encodes sheet mime q answer :
  ~ In (Encode sheet mime q answer) initEvents.
Proof.
  cbn. intros I. repeat (destruct I as [I|I]; [discriminate I|]). exact I.
Qed.

End TraceFacts.

(** ** runGeneration *)

Module RunProofs.
Import Js Types Dom Utils App Observations Rendering Scenarios AcquireProofs
       TraceFacts.

Section Run.
Variable env : Env.
Variable images : list ImageItem.
Variable settings : Settings.
Variable opType : OpType.
Variable arr : list Z.
Hypothesis some_images : images <> [].
Hypothesis canvas_mounted : canvasRef env = true.
Hypothesis parsed :
  parseMaskIndices (arrayLimit env) (maskIndices settings) = Some arr.

Local Abbreviation out := (runGeneration env images settings opType).
Local Abbreviation total := (totalBatches images settings opType arr).

Lemma cancelRef_never tr : cancelAt env = None -> cancelRef env tr = false.
Proof. unfold cancelRef. now intros ->. Qed.

(** With no cancellation and an encoder that does not throw, every batch
    is encoded, whether or not its encode yields a blob, and the blobs
    produced are published. *)
Lemma runGeneration_skips_null before :
  cancelAt env = None ->
  (forall k s m q e, toBlob env k s m q <> Throws e) ->
  countOf isEncode (trace out) = Z.to_nat total
  /\ generatedBlobs before (trace out) = tempBlobs out
  /\ countOf isAlert (trace out) = O.
Proof.
  intros Hnever Hsafe.
  destruct (@runGeneration_summary env images settings opType arr some_images canvas_mounted parsed)
    as (c & evs1 & evs2 & T & P1 & P2 & P3 & _ & P4 & P5 & P6 & P7).
  rewrite (cancelRef_never _ Hnever) in *.
  assert (E2 : evs2 = []).
  { destruct evs2 as [|[] evs2]; try contradiction; [reflexivity|].
    destruct P6 as (_ & ? & _). discriminate. }
  subst evs2.
  destruct c as [|e];
    [|destruct P7 as (_ & _ & pre & sh & k & _ & _ & A); now apply Hsafe in A].
  destruct P7 as [_ P7]. specialize (P7 eq_refl).
  unfold closingEvents in T. cbn [app] in T.
  rewrite T. repeat split.
  - rewrite !countOf_app, P7. cbn. lia.
  - rewrite !generatedBlobs_app. reflexivity.
  - rewrite !countOf_app.
    rewrite (@loopKind_count isAlert evs1); [reflexivity| |assumption].
    now intros [].
Qed.

(** An encode that throws is the last thing the loop does: the message
    is shown in an alert, and nothing is published. *)
Lemma runGeneration_throw sheet m q e :
  In (Encode sheet m q (Throws e)) (trace out) ->
  (exists pre,
      trace out
      = pre ++ [ Encode sheet m q (Throws e);
                 Poll InCatch false;
                 Alert (GenerationInterrupted e);
                 SetIsLoading false ])
  /\ forall before, generatedBlobs before (trace out) = [].
Proof.
  destruct (@runGeneration_summary env images settings opType arr some_images canvas_mounted parsed)
    as (c & evs1 & evs2 & T & P1 & P2 & P3 & _ & P4 & P5 & P6 & P7).
  destruct (closingEvents_facts c (cancelRef env (trace out)) (tempBlobs out))
    as (E3 & _).
  destruct (truePolls_facts evs2 P2) as (_ & E2 & _).
  intros Hin.
  assert (Hin1 : In (Encode sheet m q (Throws e)) evs1).
  { remember (closingEvents c (cancelRef env (trace out)) (tempBlobs out))
      as closing eqn:Hcl.
    rewrite T in Hin.
    repeat (apply in_app_or in Hin; destruct Hin as [Hin|Hin]);
      try assumption; exfalso.
    - simpl in Hin. intuition discriminate.
    - now apply (countOf_zero_in _ _ _ E2) in Hin.
    - now apply (countOf_zero_in _ _ _ E3) in Hin. }
  destruct c as [|e'].
  { destruct P7 as [P7 _]. now apply (countOf_zero_in _ _ _ P7) in Hin1. }
  destruct P7 as (-> & V & pre & sh & k & -> & Q & A).
  apply in_app_or in Hin1. destruct Hin1 as [Hin1|[Hin1|[]]].
  { now apply (countOf_zero_in _ _ _ Q) in Hin1. }
  injection Hin1 as <- <- <- <-.
  rewrite V in T. unfold closingEvents in T. cbn [app] in T.
  split.
  - exists (initEvents ++ pre). rewrite T. now rewrite <- !app_assoc.
  - intros before. rewrite T, !generatedBlobs_app.
    change (generatedBlobs before initEvents) with (@nil Blob).
    rewrite !generatedBlobs_quiet; try reflexivity.
    rewrite forallb_app in P3. apply andb_true_iff in P3. destruct P3 as [P3 _].
    rewrite (@loopKind_count isPublish pre); [reflexivity| |assumption].
    now intros [].
Qed.

End Run.

(** C1, amended. An encode that yields no blob does not stop the run: once
    the mask field is parsed, with no cancellation and an encoder that
    never throws, every batch is encoded and the blobs produced are
    published, without any alert. An encode that throws is the last event
    of the loop: the run then shows the message of the error in an alert,
    which carries no count, and publishes nothing. The one error that is
    not caught is that of the parse of the mask field, which stands before
    the loop: the run then ends before its first batch, with nothing
    encoded, no alert, and the loading indicator left on. *)
Theorem encode_failure_handling (env : Env) (images : list ImageItem)
        (settings : Settings) (opType : OpType) :
  images <> [] -> canvasRef env = true ->
  let out := runGeneration env images settings opType in
  let parse := parseMaskIndices (arrayLimit env) (maskIndices settings) in
  (forall arr,
      parse = Some arr ->
      cancelAt env = None ->
      (forall k s m q e, toBlob env k s m q <> Throws e) ->
      countOf isEncode (trace out)
      = Z.to_nat (totalBatches images settings opType arr)
      /\ tempBlobs out = produced (trace out)
      /\ (forall before, generatedBlobs before (trace out) = tempBlobs out)
      /\ countOf isAlert (trace out) = O)
  /\ (forall sheet m q e,
         In (Encode sheet m q (Throws e)) (trace out) ->
         (exists pre,
             trace out
             = pre ++ [ Encode sheet m q (Throws e);
                        Poll InCatch false;
                        Alert (GenerationInterrupted e);
                        SetIsLoading false ])
         /\ forall before, generatedBlobs before (trace out) = [])
  /\ (parse = None ->
      trace out
      = [ SetGeneratedBlobs []; SetIsLoading true; SetLoadingText Preparing;
          Wait (Timer 50) ]
      /\ tempBlobs out = []).
Proof.
  intros Hi Hc out parse. split; [|split].
  - intros arr P Hnever Hsafe.
    destruct (@runGeneration_skips_null env images settings opType arr Hi Hc
                P [] Hnever Hsafe)
      as (A & _ & C).
    split; [exact A|].
    split; [now apply (@runGeneration_tempBlobs env images settings opType arr)|].
    split; [|exact C].
    intros before.
    now destruct (@runGeneration_skips_null env images settings opType arr Hi
                    Hc P before Hnever Hsafe)
      as (_ & B & _).
  - intros sheet m q e Hin.
    destruct parse as [arr|] eqn:P.
    + now apply (@runGeneration_throw env images settings opType arr).
    + exfalso. unfold out in Hin.
      rewrite (@runGeneration_thrown env images settings opType Hi P) in Hin.
      exact (@initEvents_encodes _ _ _ _ Hin).
  - intros P. unfold out. now rewrite (@runGeneration_thrown env images settings opType Hi P).
Qed.

Lemma encode_failure_handling_witness :
  let out := runGeneration (browser None firstSheetFails) fourImages
                           (settingsWith 1 50 line "" None) normal in
  let thrown := runGeneration (browser None firstSheetFails) fourImages
                              (settingsWith 1 50 line "1-4294967296" None)
                              normal in
  countOf isEncode (trace out) = 2%nat
  /\ tempBlobs out = [jpegBlob 1]
  /\ generatedBlobs [] (trace out) = [jpegBlob 1]
  /\ trace thrown
     = [ SetGeneratedBlobs []; SetIsLoading true; SetLoadingText Preparing;
         Wait (Timer 50) ].
Proof.
  destruct (@encode_failure_handling (browser None firstSheetFails) fourImages
              (settingsWith 1 50 line "" None) normal)
    as [H _]; [discriminate|reflexivity|].
  destruct (H [] eq_refl) as (A & B & C & _);
    [reflexivity|intros k s m q e; destruct k; discriminate|].
  destruct (@encode_failure_handling (browser None firstSheetFails) fourImages
              (settingsWith 1 50 line "1-4294967296" None) normal)
    as (_ & _ & T); [discriminate|reflexivity|].
  destruct (T MaskGrammarProofs.parseMaskIndices_too_long) as [T1 _].
  intros out thrown. split; [exact A|]. split; [reflexivity|].
  split; [|exact T1].
  transitivity (tempBlobs out); [exact (C [])|reflexivity].
Defined.

(** C1 as stated fails: the first sheet fails to encode, and the run goes
    on to encode the second one, with no error surfaced. *)
Lemma failed_encode_does_not_abort :
  let out := runGeneration (browser None firstSheetFails) fourImages
                           (settingsWith 1 50 line "" None) normal in
  answers (trace out) = [Null; Produced (jpegBlob 1)]
  /\ countOf isAlert (trace out) = O.
Proof. vm_compute. split; reflexivity. Qed.

(** C4, amended. Every poll point reads the flag as it stands, so the
    first poll after the cancellation reads true; and once a poll reads
    true the run stops there: only polls that read true and the end of the
    loading state follow, so nothing is drawn or encoded any more. When
    the first such poll is inside batch [k] (the [k]-th sheet started),
    exactly [k - 1] sheets have been encoded; between two batches, all the
    sheets started. Every sheet handed to the encoder is a finished sheet.
    The blobs produced are kept in the local list only: a run that ends
    with the flag up publishes nothing. *)
Theorem cancellation_stops_run (env : Env) (images : list ImageItem)
        (settings : Settings) (opType : OpType) :
  images <> [] -> canvasRef env = true ->
  let out := runGeneration env images settings opType in
  (forall pre p v post,
      trace out = pre ++ Poll p v :: post -> v = cancelRef env pre)
  /\ (forall pre p post,
         trace out = pre ++ Poll p true :: post ->
         forallb afterCancel post = true)
  /\ (forall pre p post,
         trace out = pre ++ Poll p true :: post -> calm pre ->
         countOf isEncode (trace out) = countOf isEncode pre
         /\ p <> InCatch
         /\ match p with
            | BatchStart | BeforePublish =>
                countOf isEncode pre = countOf isStart pre
            | _ => S (countOf isEncode pre) = countOf isStart pre
            end)
  /\ (forall sheet mime q answer,
         In (Encode sheet mime q answer) (trace out) ->
         exists arr b,
           parseMaskIndices (arrayLimit env) (maskIndices settings)
           = Some arr
           /\ 0 <= b < totalBatches images settings opType arr
           /\ sheet = sheetOfBatch env images settings opType arr b)
  /\ tempBlobs out = produced (trace out)
  /\ (cancelRef env (trace out) = true ->
      forall before, generatedBlobs before (trace out) = []).
Proof.
  intros Hi Hc out.
  destruct (parseMaskIndices (arrayLimit env) (maskIndices settings))
    as [arr|] eqn:P.
  - split; [intros pre p v post;
            now apply (@runGeneration_polls env images settings opType arr)|].
    split; [intros pre p post;
            now apply (@runGeneration_stops env images settings opType arr)|].
    split; [intros pre p post;
            now apply (@runGeneration_progress env images settings opType
                         arr)|].
    split.
    { intros sheet mime q answer Hin.
      destruct (@runGeneration_encodes env images settings opType arr Hi Hc P
                  _ _ _ _ Hin) as (_ & _ & b & Hb & Hs).
      now exists arr, b. }
    split; [now apply (@runGeneration_tempBlobs env images settings opType
                         arr)|].
    intros V before.
    now apply (@runGeneration_unpublished env images settings opType arr).
  - unfold out. rewrite (@runGeneration_thrown env images settings opType Hi P). cbn [trace tempBlobs].
    split; [intros pre p v post H; now destruct (@initEvents_polls _ _ _ _ H)|].
    split; [intros pre p post H; now destruct (@initEvents_polls _ _ _ _ H)|].
    split; [intros pre p post H; now destruct (@initEvents_polls _ _ _ _ H)|].
    split; [intros sheet mime q answer H; now destruct (@initEvents_encodes _ _ _ _ H)|].
    split; [reflexivity|]. intros _ before. reflexivity.
Qed.

Lemma cancellation_stops_run_witness :
  let out := runGeneration (browser (Some 8%nat) jpegAnswer) fourImages
                           (settingsWith 1 50 line "" None) normal in
  generatedBlobs [jpegBlob 7] (trace out) = [].
Proof.
  destruct (@cancellation_stops_run (browser (Some 8%nat) jpegAnswer) fourImages
              (settingsWith 1 50 line "" None) normal)
    as (_ & _ & _ & _ & _ & H); [discriminate|reflexivity|].
  intros out. apply H. vm_compute. reflexivity.
Defined.

(** C4 as stated fails: cancelled while the second sheet is being drawn,
    the run has produced one artifact, and the artifact list it leaves to
    the application is empty. *)
Lemma cancelled_run_publishes_nothing :
  let out := runGeneration (browser (Some 8%nat) jpegAnswer) fourImages
                           (settingsWith 1 50 line "" None) normal in
  countOf isStart (trace out) = 2%nat
  /\ tempBlobs out = [jpegBlob 0]
  /\ generatedBlobs [] (trace out) = [].
Proof. vm_compute. repeat split; reflexivity. Qed.


(** *** Export format *)

Lemma qVal_cases (settings : Settings) :
  1 <= qualityVal settings <= 100 ->
  (qualityVal settings = 100 ->
   mimeType settings = ImagePng /\ quality settings = None)
  /\ (qualityVal settings <> 100 ->
      mimeType settings = ImageJpeg
      /\ quality settings
         = Some (inject_Z (Z.max 10 (qualityVal settings)) / 100)%Q)
  /\ (10 <= qualityVal settings -> qualityVal settings <> 100 ->
      quality settings = Some (inject_Z (qualityVal settings) / 100)%Q).
Proof.
  intros Hq. unfold mimeType, quality, isPng, qVal.
  destruct (Z.ltb_spec (qualityVal settings) 10) as [Hlt|Hge].
  - change (10 >? 100) with false. change (10 =? 100) with false.
    cbv iota.
    split; [intros; lia|]. split; [|intros; lia].
    intros _. split; [reflexivity|].
    now replace (Z.max 10 (qualityVal settings)) with 10 by lia.
  - destruct (Z.gtb_spec (qualityVal settings) 100) as [Hgt|Hle]; [lia|].
    destruct (Z.eqb_spec (qualityVal settings) 100) as [E|N].
    + split; [intros _; now split|]. split; intros; contradiction.
    + split; [intros; contradiction|].
      split; [intros _; split; [reflexivity|]|intros _ _; reflexivity].
      now replace (Z.max 10 (qualityVal settings))
        with (qualityVal settings) by lia.
Qed.

(** C7, amended. For a quality from 1 to 100, quality 100 selects PNG with
    no quality argument, and any other value selects JPEG with the quality
    clamped from below at 10 and divided by 100: [quality / 100] from 10 on,
    [10 / 100] below. Every sheet a run hands to the encoder goes with that
    format and that quality. *)
Theorem export_format (settings : Settings) :
  1 <= qualityVal settings <= 100 ->
  (qualityVal settings = 100 ->
   mimeType settings = ImagePng /\ quality settings = None)
  /\ (qualityVal settings <> 100 ->
      mimeType settings = ImageJpeg
      /\ quality settings
         = Some (inject_Z (Z.max 10 (qualityVal settings)) / 100)%Q)
  /\ (10 <= qualityVal settings -> qualityVal settings <> 100 ->
      quality settings = Some (inject_Z (qualityVal settings) / 100)%Q)
  /\ (forall env images opType sheet mime q answer,
         images <> [] -> canvasRef env = true ->
         In (Encode sheet mime q answer)
            (trace (runGeneration env images settings opType)) ->
         mime = mimeType settings /\ q = quality settings).
Proof.
  intros Hq. destruct (qVal_cases settings Hq) as (A & B & C).
  split; [exact A|]. split; [exact B|]. split; [exact C|].
  intros env images opType sheet mime q answer Hi Hc Hin.
  destruct (parseMaskIndices (arrayLimit env) (maskIndices settings))
    as [arr|] eqn:P.
  - destruct (@runGeneration_encodes env images settings opType arr Hi Hc P
                sheet mime q answer Hin) as (M & K & _).
    now split.
  - rewrite (@runGeneration_thrown env images settings opType Hi P) in Hin.
    now destruct (@initEvents_encodes _ _ _ _ Hin).
Qed.

Lemma export_format_witness :
  mimeType (settingsWith 3 50 line "" None) = ImageJpeg
  /\ quality (settingsWith 3 50 line "" None) = Some (inject_Z 50 / 100)%Q.
Proof.
  destruct (@export_format (settingsWith 3 50 line "" None)) as (_ & _ & H & _);
    [simpl; lia|].
  split; [reflexivity|]. apply H; simpl; [lia|discriminate].
Defined.

(** C7 as stated fails below 10: quality 5 is encoded at 10/100, not at
    5/100. *)
Lemma export_quality_is_clamped :
  exists q, quality (settingsWith 3 5 line "" None) = Some q
            /\ q == 10 # 100 /\ ~ q == 5 # 100.
Proof.
  eexists. split; [reflexivity|]. split; [reflexivity|discriminate].
Qed.

End RunProofs.

(** * Properties of the rest of the application *)

From Stdlib Require DecimalZ DecimalPos DecimalN Permutation.

Module NumberFacts.
Import Js JsNumber.

Lemma unitsOf_digits d : forallb JsString.isDecimalDigit (unitsOf d) = true.
Proof. induction d; cbn; auto. Qed.

Lemma of_uint_acc_units d : forall acc,
  Z.pos (Pos.of_uint_acc d acc)
  = fold_left (fun a c => a * 10 + (Z.of_N c - 48)) (unitsOf d) (Z.pos acc).
Proof.
  induction d; intros acc; cbn [Pos.of_uint_acc unitsOf fold_left];
    try reflexivity; rewrite IHd; f_equal; lia.
Qed.

Lemma of_uint_units d :
  Z.of_N (Pos.of_uint d) = JsString.decimalValue (unitsOf d).
Proof.
  unfold JsString.decimalValue.
  induction d; cbn [Pos.of_uint unitsOf fold_left]; try reflexivity;
    try exact IHd;
    cbn [Z.of_N]; rewrite of_uint_acc_units; f_equal.
Qed.

Lemma to_int_nonneg n : 0 <= n -> Z.to_int n = Decimal.Pos (N.to_uint (Z.to_N n)).
Proof.
  intros H. destruct n as [|p|p]; try lia; reflexivity.
Qed.

(** The digits of a non-negative integer spell it. *)
Lemma toString_nonneg n :
  0 <= n ->
  toString n <> []
  /\ forallb JsString.isDecimalDigit (toString n) = true
  /\ JsString.decimalValue (toString n) = n.
Proof.
  intros H. unfold toString. rewrite (to_int_nonneg H).
  split; [|split].
  - destruct n as [|p|p]; try lia; cbn; [discriminate|].
    intros E. apply (DecimalPos.Unsigned.to_uint_nonnil p).
    destruct (Pos.to_uint p); try discriminate. reflexivity.
  - apply unitsOf_digits.
  - rewrite <- of_uint_units.
    change (Pos.of_uint (N.to_uint (Z.to_N n))) with (N.of_uint (N.to_uint (Z.to_N n))).
    rewrite DecimalN.Unsigned.of_to. lia.
Qed.

End NumberFacts.

(** ** parseMaskIndices: what a user of the mask field can rely on *)

Module MaskInputProofs.
Import Js Utils MaskGrammar MaskGrammarProofs JsNumber NumberFacts.

(** Fields after a separator run: the empty field a leading run leaves is
    the only difference. *)
Lemma tokens_inRun cls s :
  filter JsString.truthy (splitClass cls true [] s)
  = filter JsString.truthy (splitClass cls false [] s).
Proof.
  destruct s as [|c s]; [reflexivity|].
  cbn [splitClass]. destruct (cls c); reflexivity.
Qed.

Lemma splitClass_app cls sep b a : forall inRun cur,
  cls sep = true ->
  (inRun = true -> cur = []) ->
  filter JsString.truthy (splitClass cls inRun cur (a ++ sep :: b))
  = filter JsString.truthy (splitClass cls inRun cur a)
    ++ filter JsString.truthy (splitClass cls false [] b).
Proof.
  induction a as [|c a IH]; intros inRun cur Hsep Hinv.
  - cbn [app splitClass]. rewrite Hsep. destruct inRun.
    + rewrite (Hinv eq_refl). cbn. apply tokens_inRun.
    + cbn [filter]. rewrite tokens_inRun.
      destruct (JsString.truthy (rev cur)); reflexivity.
  - cbn [app splitClass]. destruct (cls c).
    + destruct inRun.
      * apply IH; [exact Hsep|reflexivity].
      * cbn [filter]. rewrite (IH true []); [|exact Hsep|reflexivity].
        destruct (JsString.truthy (rev cur)); reflexivity.
    + apply IH; [exact Hsep|discriminate].
Qed.

Lemma tokens_app a sep b :
  isSeparator sep = true -> tokens (a ++ sep :: b) = tokens a ++ tokens b.
Proof.
  intros H. unfold tokens. apply splitClass_app; [exact H|discriminate].
Qed.

Lemma tokens_blank input :
  forallb isSeparator input = true -> tokens input = [].
Proof.
  intros H.
  assert (E : concat (tokens input) = []).
  { rewrite tokens_concat. induction input as [|c s IH]; [reflexivity|].
    cbn in H. apply andb_true_iff in H as [Hc Hs].
    cbn [filter]. rewrite Hc. cbn. now apply IH. }
  destruct (tokens input) as [|t ts] eqn:Et; [reflexivity|].
  assert (Hin : In t (tokens input)) by (rewrite Et; now left).
  apply tokens_free in Hin as [Hne _].
  cbn in E. destruct t; [contradiction|discriminate].
Qed.

Lemma splitClass_free_whole cls s : forall cur,
  free cls s -> splitClass cls false cur s = [rev cur ++ s].
Proof.
  induction s as [|c s IH]; intros cur H.
  - cbn. now rewrite app_nil_r.
  - inversion H as [|? ? Hc Hs]; subst. cbn [splitClass]. rewrite Hc.
    rewrite IH by exact Hs. cbn [rev]. now rewrite <- app_assoc.
Qed.

Lemma digits_free s :
  forallb JsString.isDecimalDigit s = true -> free isSeparator s.
Proof.
  induction s as [|c s IH]; intros H; [constructor|].
  cbn in H. apply andb_true_iff in H as [Hc Hs].
  constructor; [|now apply IH].
  now destruct (decimal_digit_facts c Hc) as (E & _).
Qed.

(** A number written in decimal is read back. *)
Lemma exactIndices_toString n :
  0 <= n -> exactIndices (toString n) = [n].
Proof.
  intros H. destruct (toString_nonneg H) as (Hne & Hd & Hv).
  assert (Hint : isInteger (toString n) = true).
  { unfold isInteger. rewrite Hd.
    destruct (toString n); [contradiction|reflexivity]. }
  assert (Ht : tokens (toString n) = [toString n]).
  { unfold tokens. rewrite splitClass_free_whole by now apply digits_free.
    cbn [rev app filter].
    destruct (toString n); [contradiction|reflexivity]. }
  rewrite exactIndices_wellFormed.
  - unfold specParse. rewrite Ht. cbn [flat_map].
    unfold specContribution. rewrite Hint, Hv. reflexivity.
  - rewrite Ht. cbn [forallb]. unfold wellFormed. rewrite Hint. reflexivity.
Qed.

Lemma exactIndices_listing sep l :
  isSeparator sep = true ->
  Forall (fun k => 0 <= k) l ->
  exactIndices (join sep (map toString l)) = l.
Proof.
  intros Hsep Hl. induction Hl as [|k l Hk Hl IH]; [reflexivity|].
  destruct l as [|k' l'].
  - cbn. now apply exactIndices_toString.
  - cbn [map]. rewrite join_cons by discriminate.
    rewrite !exactIndices_tokens, (@tokens_app _ sep _ Hsep), flat_map_app.
    rewrite <- !exactIndices_tokens.
    rewrite exactIndices_toString by exact Hk.
    cbn [map] in IH. rewrite IH. reflexivity.
Qed.

(** **** The array as it fills *)

(** Whatever is returned extends the array it started from, and is no
    longer than an array can be. *)
Lemma pushRangeLoop_extends limit hi : forall fuel k acc r,
  pushRangeLoop limit fuel k hi acc = Some r ->
  exists added,
    r = acc ++ added
    /\ (Z.of_nat (length acc) <= limit -> Z.of_nat (length r) <= limit).
Proof.
  induction fuel as [|fuel IH]; intros k acc r H; cbn [pushRangeLoop] in H;
    [discriminate|].
  destruct (k <=? hi).
  - destruct (push limit acc k) as [acc1|] eqn:P; [|discriminate].
    apply push_returned in P as [-> Hroom].
    destruct (increment k <=? k); [discriminate|].
    apply IH in H as (added & -> & Hlen).
    exists (k :: added). split; [now rewrite <- app_assoc|].
    intros _. apply Hlen. rewrite length_app. cbn [length]. lia.
  - injection H as <-. exists []. split; [now rewrite app_nil_r|auto].
Qed.

Lemma parsePart_extends limit acc part r :
  parsePart limit acc part = Some r ->
  exists added,
    r = acc ++ added
    /\ (Z.of_nat (length acc) <= limit -> Z.of_nat (length r) <= limit).
Proof.
  assert (Nothing : Some acc = Some r ->
            exists added,
              r = acc ++ added
              /\ (Z.of_nat (length acc) <= limit ->
                  Z.of_nat (length r) <= limit)).
  { intros [= <-]. exists []. split; [now rewrite app_nil_r|auto]. }
  unfold parsePart. destruct (negb _); [exact Nothing|].
  destruct (existsb _ _).
  - destruct (splitOn _ _ _) as [|a [|b [|x l]]]; try exact Nothing.
    destruct (parseInt a), (parseInt b); try exact Nothing.
    apply pushRangeLoop_extends.
  - destruct (parseInt _); [|exact Nothing].
    intros H. apply push_returned in H as [-> Hroom].
    exists [z]. split; [reflexivity|].
    intros _. rewrite length_app. cbn [length]. lia.
Qed.

Lemma parseParts_extends limit parts : forall acc r,
  parseParts limit acc parts = Some r ->
  exists added,
    r = acc ++ added
    /\ (Z.of_nat (length acc) <= limit -> Z.of_nat (length r) <= limit).
Proof.
  induction parts as [|p parts IH]; intros acc r H; cbn [parseParts] in H.
  - injection H as <-. exists []. split; [now rewrite app_nil_r|auto].
  - destruct (parsePart limit acc p) as [acc1|] eqn:P; [|discriminate].
    apply parsePart_extends in P as (a1 & -> & H1).
    apply IH in H as (a2 & -> & H2).
    exists (a1 ++ a2). split; [now rewrite app_assoc|auto].
Qed.

(** An array that already holds [pre] fills as an empty one does in an
    engine whose arrays are shorter by the length of [pre]. *)
Lemma push_shift limit pre acc k :
  push limit (pre ++ acc) k
  = option_map (app pre) (push (limit - Z.of_nat (length pre)) acc k).
Proof.
  unfold push. rewrite length_app, Nat2Z.inj_add.
  destruct (Z.ltb_spec (Z.of_nat (length pre) + Z.of_nat (length acc)) limit),
           (Z.ltb_spec (Z.of_nat (length acc))
                       (limit - Z.of_nat (length pre)));
    try lia; cbn; [now rewrite app_assoc|reflexivity].
Qed.

Lemma pushRangeLoop_shift limit pre hi : forall fuel k acc,
  pushRangeLoop limit fuel k hi (pre ++ acc)
  = option_map (app pre)
      (pushRangeLoop (limit - Z.of_nat (length pre)) fuel k hi acc).
Proof.
  induction fuel as [|fuel IH]; intros k acc; cbn [pushRangeLoop];
    [reflexivity|].
  destruct (k <=? hi); [|reflexivity].
  rewrite push_shift.
  destruct (push (limit - Z.of_nat (length pre)) acc k) as [acc1|];
    [|reflexivity].
  cbn [option_map]. destruct (increment k <=? k); [reflexivity|apply IH].
Qed.

Lemma parsePart_shift limit pre acc part :
  parsePart limit (pre ++ acc) part
  = option_map (app pre)
      (parsePart (limit - Z.of_nat (length pre)) acc part).
Proof.
  unfold parsePart. destruct (negb _); [reflexivity|].
  destruct (existsb _ _).
  - destruct (splitOn _ _ _) as [|a [|b [|x l]]]; try reflexivity.
    destruct (parseInt a), (parseInt b); try reflexivity.
    apply pushRangeLoop_shift.
  - destruct (parseInt _); [apply push_shift|reflexivity].
Qed.

Lemma parseParts_shift limit pre parts : forall acc,
  parseParts limit (pre ++ acc) parts
  = option_map (app pre)
      (parseParts (limit - Z.of_nat (length pre)) acc parts).
Proof.
  induction parts as [|p parts IH]; intros acc; cbn [parseParts];
    [reflexivity|].
  rewrite parsePart_shift.
  destruct (parsePart (limit - Z.of_nat (length pre)) acc p) as [acc1|];
    [apply IH|reflexivity].
Qed.

(** In an engine whose arrays are shorter the parser returns the same
    list, or throws where that list is too long. *)
Local Abbreviation within short r :=
  (match r return option (list Z) with
   | Some l => if Z.of_nat (length l) <=? short then Some l else None
   | None => None
   end).

Lemma push_within short limit acc k :
  short <= limit -> Z.of_nat (length acc) <= short ->
  push short acc k = within short (push limit acc k).
Proof.
  intros Hs Ha. unfold push.
  destruct (Z.ltb_spec (Z.of_nat (length acc)) short),
           (Z.ltb_spec (Z.of_nat (length acc)) limit); try lia;
    cbv beta iota; try reflexivity; rewrite length_app; cbn [length];
    destruct (Z.leb_spec (Z.of_nat (length acc + 1)) short); try lia;
    reflexivity.
Qed.

Lemma within_extends short acc added :
  short < Z.of_nat (length acc) ->
  within short (Some (acc ++ added)) = None.
Proof.
  intros H. cbv beta iota. rewrite length_app.
  destruct (Z.leb_spec (Z.of_nat (length acc + length added)) short);
    [lia|reflexivity].
Qed.

Lemma pushRangeLoop_within short limit hi : forall fuel k acc,
  short <= limit -> Z.of_nat (length acc) <= short ->
  pushRangeLoop short fuel k hi acc
  = within short (pushRangeLoop limit fuel k hi acc).
Proof.
  induction fuel as [|fuel IH]; intros k acc Hs Ha; cbn [pushRangeLoop];
    [reflexivity|].
  destruct (k <=? hi).
  - rewrite (@push_within short limit acc k Hs Ha).
    destruct (push limit acc k) as [acc1|] eqn:P; [|reflexivity].
    apply push_returned in P as [-> _].
    destruct (Z.leb_spec (Z.of_nat (length (acc ++ [k]))) short) as [Hfit|Hno].
    + destruct (increment k <=? k); [reflexivity|]. now apply IH.
    + destruct (increment k <=? k); [reflexivity|].
      destruct (pushRangeLoop limit fuel (increment k) hi (acc ++ [k]))
        as [r|] eqn:L; [|reflexivity].
      apply pushRangeLoop_extends in L as (added & -> & _).
      symmetry. now apply within_extends.
  - destruct (Z.leb_spec (Z.of_nat (length acc)) short); [reflexivity|lia].
Qed.

Lemma parsePart_within short limit acc part :
  short <= limit -> Z.of_nat (length acc) <= short ->
  parsePart short acc part = within short (parsePart limit acc part).
Proof.
  intros Hs Ha.
  assert (Nothing : Some acc = within short (Some acc)).
  { destruct (Z.leb_spec (Z.of_nat (length acc)) short); [reflexivity|lia]. }
  unfold parsePart. destruct (negb _); [exact Nothing|].
  destruct (existsb _ _).
  - destruct (splitOn _ _ _) as [|a [|b [|x l]]]; try exact Nothing.
    destruct (parseInt a), (parseInt b); try exact Nothing.
    now apply pushRangeLoop_within.
  - destruct (parseInt _); [now apply push_within|exact Nothing].
Qed.

Lemma parseParts_within short limit parts : forall acc,
  short <= limit -> Z.of_nat (length acc) <= short ->
  parseParts short acc parts = within short (parseParts limit acc parts).
Proof.
  induction parts as [|p parts IH]; intros acc Hs Ha; cbn [parseParts].
  - destruct (Z.leb_spec (Z.of_nat (length acc)) short); [reflexivity|lia].
  - rewrite (@parsePart_within short limit acc p Hs Ha).
    destruct (parsePart limit acc p) as [acc1|]; [|reflexivity].
    destruct (Z.leb_spec (Z.of_nat (length acc1)) short) as [Hfit|Hno].
    + now apply IH.
    + destruct (parseParts limit acc1 parts) as [r|] eqn:L; [|reflexivity].
      apply parseParts_extends in L as (added & -> & _).
      symmetry. now apply within_extends.
Qed.

Lemma parseParts_app limit p1 p2 : forall acc,
  parseParts limit acc (p1 ++ p2)
  = match parseParts limit acc p1 with
    | Some l => parseParts limit l p2
    | None => None
    end.
Proof.
  induction p1 as [|p p1 IH]; intros acc; cbn [app parseParts];
    [reflexivity|].
  destruct (parsePart limit acc p); [apply IH|reflexivity].
Qed.

(** X1. No number the parser returns is negative: a minus sign is read as a
    range separator, and a range with a missing bound contributes
    nothing. So a cell whose number is below zero can never be targeted. *)
Theorem parseMaskIndices_nonnegative (limit : Z) (input : jsstring)
        (l : list Z) :
  parseMaskIndices limit input = Some l -> Forall (fun k => 0 <= k) l.
Proof.
  intros H. apply Forall_forall. intros k Hk.
  apply (parseMaskIndices_returned _ _ H) in Hk as (tok & _ & Hc).
  eapply contributes_nonneg; eassumption.
Qed.

Lemma parseMaskIndices_nonnegative_witness :
  parseMaskIndices 4294967295 "7,-2,5-3" = Some [7; 3; 4; 5]
  /\ Forall (fun k => 0 <= k) [7; 3; 4; 5].
Proof.
  split; [reflexivity|].
  apply (@parseMaskIndices_nonnegative 4294967295 (ofAscii "7,-2,5-3")).
  reflexivity.
Defined.

(** X2. An input made of separators only, the empty input included, selects
    nothing; and the parse of two inputs put on either side of a separator
    is the parse of the first followed by the parse of the second: it
    throws when one of the two does, or when the two lists together are
    longer than an array can be. *)
Theorem parseMaskIndices_separators :
  (forall limit input,
      forallb isSeparator input = true ->
      parseMaskIndices limit input = Some [])
  /\ (forall limit a sep b,
         0 <= limit ->
         isSeparator sep = true ->
         parseMaskIndices limit (a ++ sep :: b)
         = match parseMaskIndices limit a, parseMaskIndices limit b with
           | Some la, Some lb =>
               if Z.of_nat (length la) + Z.of_nat (length lb) <=? limit
               then Some (la ++ lb)
               else None
           | _, _ => None
           end).
Proof.
  split.
  - intros limit input H.
    rewrite parseMaskIndices_tokens, (@tokens_blank input H). reflexivity.
  - intros limit a sep b Hl H.
    rewrite !parseMaskIndices_tokens, (@tokens_app a sep b H), parseParts_app.
    destruct (parseParts limit [] (tokens a)) as [la|] eqn:Pa; [|reflexivity].
    apply parseParts_extends in Pa as (added & E & Hlen).
    cbn [app] in E. subst added. cbn [length] in Hlen.
    specialize (Hlen Hl).
    rewrite <- (app_nil_r la) at 1. rewrite parseParts_shift.
    rewrite (@parseParts_within (limit - Z.of_nat (length la)) limit);
      [|lia|cbn [length]; lia].
    destruct (parseParts limit [] (tokens b)) as [lb|]; [|reflexivity].
    destruct (Z.leb_spec (Z.of_nat (length lb))
                         (limit - Z.of_nat (length la))),
             (Z.leb_spec (Z.of_nat (length la) + Z.of_nat (length lb)) limit);
      try lia; reflexivity.
Qed.

Lemma parseMaskIndices_separators_witness :
  parseMaskIndices 4294967295 " , " = Some []
  /\ parseMaskIndices 4294967295 (ofAscii "1-3" ++ 0x3001%N :: ofAscii "5")
     = Some ([1; 2; 3] ++ [5]).
Proof.
  destruct parseMaskIndices_separators as [H1 H2]. split.
  - apply H1. reflexivity.
  - rewrite H2; [reflexivity|lia|reflexivity].
Defined.

(** X3. Round trip: a list of non-negative integers below 2^53, written in
    decimal with one separator between two entries, is parsed back to the
    same list, in the same order and with its repetitions, in every engine
    whose arrays take a list of that length. *)
Theorem parseMaskIndices_listing (limit : Z) (sep : N) (l : list Z) :
  isSeparator sep = true ->
  Forall (fun k => 0 <= k < 2 ^ 53) l ->
  Z.of_nat (length l) <= limit ->
  parseMaskIndices limit (join sep (map toString l)) = Some l.
Proof.
  intros Hsep Hl Hlen.
  assert (E : exactIndices (join sep (map toString l)) = l).
  { apply exactIndices_listing; [exact Hsep|].
    eapply Forall_impl; [|exact Hl]. cbv beta. lia. }
  rewrite parseMaskIndices_exact; try rewrite E.
  - destruct (Z.leb_spec (Z.of_nat (length l)) limit); [reflexivity|lia].
  - eapply Forall_impl; [|exact Hl]. cbv beta. lia.
  - lia.
Qed.

Lemma parseMaskIndices_listing_witness :
  parseMaskIndices 4294967295 (join 0x2C%N (map toString [12; 5; 12; 0]))
  = Some [12; 5; 12; 0].
Proof.
  apply parseMaskIndices_listing; [reflexivity| |cbn; lia].
  repeat constructor; lia.
Defined.

End MaskInputProofs.

(** ** The grid of a sheet *)

Module GridProofs.
Import Js Types Dom Utils Scenarios CellProofs Geometry.

Lemma unsignedLong_floor (q : Q) :
  (0 <= q)%Q -> (q < inject_Z (2 ^ 32))%Q ->
  unsignedLong (Num q) = Qfloor q.
Proof.
  intros H0 H1. unfold unsignedLong.
  assert (Hn : 0 <= Qnum q).
  { destruct q as [n d]. unfold Qle in H0. cbn in *. lia. }
  assert (Hq : Z.quot (Qnum q) (Z.pos (Qden q)) = Qfloor q).
  { destruct q as [n d]. cbn in *. apply Z.quot_div_nonneg; lia. }
  rewrite Hq. apply Z.mod_small. split.
  - apply Qfloor_resp_le in H0. exact H0.
  - assert (Qfloor q <= Qfloor (inject_Z (2 ^ 32))) by (apply Qfloor_resp_le, Qlt_le_weak, H1).
    rewrite Qfloor_Z in H.
    destruct (Z.eq_dec (Qfloor q) (2 ^ 32)) as [E|E]; [|lia].
    exfalso. pose proof (Qfloor_le q) as L. rewrite E in L.
    exact (Qlt_not_le _ _ H1 L).
Qed.

Lemma inject_Z_pred (z : Z) : (inject_Z z == inject_Z (z - 1) + 1)%Q.
Proof. unfold Qeq, Qplus, inject_Z. cbn. lia. Qed.

Section Grid.
Variables rows cols : Z.
Variables w h gap : Q.
Hypothesis cols_pos : 0 < cols.
Hypothesis w_nonneg : (0 <= w)%Q.
Hypothesis h_nonneg : (0 <= h)%Q.
Hypothesis gap_nonneg : (0 <= gap)%Q.

Local Abbreviation gridWidth := (gridWidth cols w gap).
Local Abbreviation gridHeight := (gridHeight rows h gap).
Local Abbreviation column := (column cols w gap).
Local Abbreviation row := (row cols h gap).

Lemma cell_position i :
  cellX cols (Num w) (Num gap) i = Num (column i)
  /\ cellY cols (Num h) (Num gap) i = Num (row i).
Proof. split; reflexivity. Qed.

Lemma index_split i :
  0 <= i < rows * cols ->
  0 <= Z.rem i cols <= cols - 1 /\ 0 <= i / cols <= rows - 1.
Proof.
  intros Hi. rewrite Z.rem_mod_nonneg by lia.
  pose proof (Z.mod_pos_bound i cols cols_pos).
  split; [lia|]. split; [apply Z.div_pos; lia|].
  assert (i / cols < rows); [|lia].
  apply Z.div_lt_upper_bound; lia.
Qed.

Lemma scaled_le (a b : Z) (s : Q) :
  a <= b -> (0 <= s)%Q -> (inject_Z a * s <= inject_Z b * s)%Q.
Proof.
  intros Hab Hs. apply Qmult_le_compat_r; [|exact Hs].
  now rewrite <- Zle_Qle.
Qed.

Lemma column_in_grid i :
  0 <= i < rows * cols ->
  (0 <= column i /\ column i + w <= gridWidth)%Q.
Proof.
  intros Hi. destruct (index_split Hi) as [[C0 C1] _].
  unfold Geometry.column, Geometry.gridWidth. set (c := Z.rem i cols) in *.
  assert (S0 : (0 <= w + gap)%Q) by lra.
  pose proof (scaled_le C0 S0) as L0.
  pose proof (scaled_le C1 S0) as L1.
  pose proof (inject_Z_pred cols) as E.
  rewrite E. change (inject_Z 0) with 0%Q in L0.
  generalize dependent (inject_Z c). generalize (inject_Z (cols - 1)).
  intros a q L0 L1. split; [lra|].
  assert (Ex : (q * (w + gap) == q * w + q * gap)%Q) by ring.
  assert (Ea : (a * (w + gap) == a * w + a * gap)%Q) by ring.
  assert (Eb : ((a + 1) * w == a * w + w)%Q) by ring.
  lra.
Qed.

Lemma row_in_grid i :
  0 <= i < rows * cols ->
  (0 <= row i /\ row i + h <= gridHeight)%Q.
Proof.
  intros Hi. destruct (index_split Hi) as [_ [R0 R1]].
  unfold Geometry.row, Geometry.gridHeight. set (r := i / cols) in *.
  assert (S0 : (0 <= h + gap)%Q) by lra.
  pose proof (scaled_le R0 S0) as L0.
  pose proof (scaled_le R1 S0) as L1.
  pose proof (inject_Z_pred rows) as E.
  rewrite E. change (inject_Z 0) with 0%Q in L0.
  generalize dependent (inject_Z r). generalize (inject_Z (rows - 1)).
  intros a q L0 L1. split; [lra|].
  assert (Ex : (q * (h + gap) == q * h + q * gap)%Q) by ring.
  assert (Ea : (a * (h + gap) == a * h + a * gap)%Q) by ring.
  assert (Eb : ((a + 1) * h == a * h + h)%Q) by ring.
  lra.
Qed.

(** One step to the right or down moves a cell clear of its neighbour. *)
Lemma apart (a b : Z) (s t : Q) :
  a < b -> (0 <= s)%Q -> (0 <= t)%Q ->
  (inject_Z a * (s + t) + s <= inject_Z b * (s + t))%Q.
Proof.
  intros Hab Hs Ht.
  assert (L : (inject_Z (a + 1) * (s + t) <= inject_Z b * (s + t))%Q).
  { apply scaled_le; [lia|lra]. }
  rewrite (inject_Z_pred (a + 1)) in L.
  replace (a + 1 - 1) with a in L by lia.
  generalize dependent (inject_Z b). generalize (inject_Z a). intros p q L.
  assert (E1 : ((p + 1) * (s + t) == p * (s + t) + s + t)%Q) by ring.
  lra.
Qed.

Lemma cells_apart i j :
  0 <= i -> 0 <= j -> i <> j ->
  (column i + w <= column j \/ column j + w <= column i
   \/ row i + h <= row j \/ row j + h <= row i)%Q.
Proof.
  intros Hi Hj Hne. unfold Geometry.column, Geometry.row.
  rewrite !Z.rem_mod_nonneg by lia.
  destruct (Z.lt_trichotomy (i mod cols) (j mod cols)) as [L|[E|L]].
  - left. now apply apart.
  - destruct (Z.lt_trichotomy (i / cols) (j / cols)) as [L|[E'|L]].
    + right; right; left. now apply apart.
    + exfalso. apply Hne.
      rewrite (Z.div_mod i cols), (Z.div_mod j cols) by lia. now rewrite E, E'.
    + right; right; right. now apply apart.
  - right; left. now apply apart.
Qed.

End Grid.

Lemma grid_extent (n s t : Z) :
  (inject_Z n * inject_Z s + inject_Z (n - 1) * inject_Z t
   == inject_Z (n * s + (n - 1) * t))%Q.
Proof. now rewrite inject_Z_plus, !inject_Z_mult. Qed.

Lemma dimension_stored (default z : Z) (q : Q) :
  (q == inject_Z z)%Q -> 0 <= z < 2 ^ 32 ->
  dimension default (Num q) = if z <=? 2147483647 then z else default.
Proof.
  intros E Hz. unfold dimension.
  assert (U : unsignedLong (Num q) = z).
  { rewrite unsignedLong_floor.
    - now rewrite E, Qfloor_Z.
    - rewrite E. change 0%Q with (inject_Z 0). rewrite <- Zle_Qle. lia.
    - rewrite E. rewrite <- Zlt_Qlt. lia. }
  now rewrite U.
Qed.

(** X4. The cells of a sheet. For a grid of [rows] by [cols] cells whose
    width, height and gap are whole numbers and not negative, the canvas is
    exactly as wide and as high as the grid as long as that is below 2^31
    (from 2^31 on, and below 2^32, the canvas falls back to its default
    size, 300 by 150); every cell of index below [rows * cols] lies inside
    the grid, and two different cells never overlap. *)
Theorem drawAsync_grid (rows cols w h gap : Z) :
  0 < cols -> 0 < rows -> 0 <= w -> 0 <= h -> 0 <= gap ->
  let W := cols * w + (cols - 1) * gap in
  let H := rows * h + (rows - 1) * gap in
  let x i := column cols (inject_Z w) (inject_Z gap) i in
  let y i := row cols (inject_Z h) (inject_Z gap) i in
  (forall i, cellX cols (ofZ w) (ofZ gap) i = Num (x i)
             /\ cellY cols (ofZ h) (ofZ gap) i = Num (y i)
             /\ (x i == inject_Z (Z.rem i cols * (w + gap)))%Q
             /\ (y i == inject_Z (i / cols * (h + gap)))%Q)
  /\ (W < 2 ^ 31 -> canvasW cols (ofZ w) (ofZ gap) = W)
  /\ (H < 2 ^ 31 -> canvasH rows (ofZ h) (ofZ gap) = H)
  /\ (2 ^ 31 <= W < 2 ^ 32 -> canvasW cols (ofZ w) (ofZ gap) = 300)
  /\ (2 ^ 31 <= H < 2 ^ 32 -> canvasH rows (ofZ h) (ofZ gap) = 150)
  /\ (forall i, 0 <= i < rows * cols ->
                (0 <= x i /\ x i + inject_Z w <= inject_Z W
                 /\ 0 <= y i /\ y i + inject_Z h <= inject_Z H)%Q)
  /\ (forall i j, 0 <= i -> 0 <= j -> i <> j ->
                  (x i + inject_Z w <= x j \/ x j + inject_Z w <= x i
                   \/ y i + inject_Z h <= y j
                   \/ y j + inject_Z h <= y i)%Q).
Proof.
  intros Hc Hr Hw Hh Hg W H x y.
  assert (Qw : (0 <= inject_Z w)%Q)
    by (change 0%Q with (inject_Z 0); now rewrite <- Zle_Qle).
  assert (Qh : (0 <= inject_Z h)%Q)
    by (change 0%Q with (inject_Z 0); now rewrite <- Zle_Qle).
  assert (Qg : (0 <= inject_Z gap)%Q)
    by (change 0%Q with (inject_Z 0); now rewrite <- Zle_Qle).
  assert (W0 : 0 <= W) by (unfold W; nia).
  assert (H0 : 0 <= H) by (unfold H; nia).
  pose proof (grid_extent cols w gap) as EW. fold W in EW.
  pose proof (grid_extent rows h gap) as EH. fold H in EH.
  split.
  { intros i. split; [reflexivity|]. split; [reflexivity|].
    unfold x, y, Geometry.column, Geometry.row.
    now rewrite !inject_Z_mult, !inject_Z_plus. }
  split.
  { intros B. unfold canvasW. cbn [ofZ Js.mul Js.add lift2].
    rewrite (@dimension_stored 300 W) by (assumption || lia).
    destruct (Z.leb_spec W 2147483647); [reflexivity|lia]. }
  split.
  { intros B. unfold canvasH. cbn [ofZ Js.mul Js.add lift2].
    rewrite (@dimension_stored 150 H) by (assumption || lia).
    destruct (Z.leb_spec H 2147483647); [reflexivity|lia]. }
  split.
  { intros B. unfold canvasW. cbn [ofZ Js.mul Js.add lift2].
    rewrite (@dimension_stored 300 W) by (assumption || lia).
    destruct (Z.leb_spec W 2147483647); [lia|reflexivity]. }
  split.
  { intros B. unfold canvasH. cbn [ofZ Js.mul Js.add lift2].
    rewrite (@dimension_stored 150 H) by (assumption || lia).
    destruct (Z.leb_spec H 2147483647); [lia|reflexivity]. }
  split.
  { intros i Hi.
    destruct (@column_in_grid rows cols (inject_Z w) (inject_Z gap) Hc Qw Qg
                i Hi) as [X0 X1].
    destruct (@row_in_grid rows cols (inject_Z h) (inject_Z gap) Hc Qh Qg
                i Hi) as [Y0 Y1].
    unfold Geometry.gridWidth in X1. unfold Geometry.gridHeight in Y1.
    rewrite EW in X1. rewrite EH in Y1.
    repeat split; assumption. }
  intros i j Hi Hj Hne. now apply cells_apart.
Qed.

Lemma drawAsync_grid_witness :
  canvasW 3 (Num 1500) (Num 10) = 4520
  /\ canvasH 2 (Num 2000) (Num 10) = 4010
  /\ (column 3 1500 10 5 + 1500 <= 4520)%Q
  /\ (row 3 2000 10 5 + 2000 <= 4010)%Q.
Proof.
  destruct (@drawAsync_grid 2 3 1500 2000 10)
    as (_ & W & H & _ & _ & I & _); try lia.
  destruct (I 5) as (_ & X & _ & Y); [lia|].
  split; [apply W; reflexivity|].
  split; [apply H; reflexivity|].
  split; assumption.
Defined.

End GridProofs.

(** ** The sticker *)

Module StickerProofs.
Import Js Types Dom Utils Scenarios CellProofs.

Lemma anchor_in_cell (x w p : Q) :
  (0 <= w)%Q -> (0 <= p <= 100)%Q ->
  (x <= x + w * p / 100 <= x + w)%Q.
Proof.
  intros Hw [P0 P1].
  assert (E : (w * p / 100 == p * (1 # 100) * w)%Q) by field.
  rewrite E.
  assert (L0 : (0 * w <= p * (1 # 100) * w)%Q)
    by (apply Qmult_le_compat_r; [lra|exact Hw]).
  assert (L1 : (p * (1 # 100) * w <= 1 * w)%Q)
    by (apply Qmult_le_compat_r; [lra|exact Hw]).
  generalize dependent (p * (1 # 100) * w)%Q. intros t _ L0 L1.
  split; lra.
Qed.

(** X5. The sticker on a targeted cell. A sticker that is loaded is the only
    thing drawn as the mark: at [stickerSize] percent of the width of the
    cell, in its own proportions, and centred on the point of the cell that
    [stickerX] and [stickerY] name in percent; with both between 0 and 100
    that point lies in the cell. *)
Theorem drawMask_sticker (settings : Settings) (s : Bitmap)
        (maskIndices : list Z) (n : Z) (x y w h : Q) :
  includes n maskIndices = true ->
  complete s = true -> 0 < naturalWidth s -> 0 < width s ->
  (0 <= w)%Q -> (0 <= h)%Q ->
  exists dx dy sw sh : Q,
    drawMask settings (Some s) true maskIndices n
             (Num x) (Num y) (Num w) (Num h)
    = [DrawImage s (Num dx) (Num dy) (Num sw) (Num sh)]
    /\ (sw == w * stickerSize settings / 100)%Q
    /\ (sh * inject_Z (width s) == sw * inject_Z (height s))%Q
    /\ (dx + sw / 2 == x + w * stickerX settings / 100)%Q
    /\ (dy + sh / 2 == y + h * stickerY settings / 100)%Q
    /\ ((0 <= stickerX settings <= 100)%Q ->
        (x <= dx + sw / 2 <= x + w)%Q)
    /\ ((0 <= stickerY settings <= 100)%Q ->
        (y <= dy + sh / 2 <= y + h)%Q).
Proof.
  intros Hin Hc Hn Hwd Pw Ph.
  assert (Hne : ~ (inject_Z (width s) == 0)%Q).
  { intros E. apply inject_Z_pos in Hwd. rewrite E in Hwd.
    exact (Qlt_irrefl _ Hwd). }
  eexists _, _, _, _. split.
  { unfold drawMask. rewrite Hin, Hc. cbn [andb].
    assert (G : (naturalWidth s >? 0) = true) by (apply Z.gtb_lt; lia).
    rewrite G. cbn.
    rewrite (Qeq_bool_false Hne). reflexivity. }
  assert (Cx : (x + w * (stickerX settings / 100)
               - w * (stickerSize settings / 100) / 2
               + w * (stickerSize settings / 100) / 2
               == x + w * stickerX settings / 100)%Q) by field.
  assert (Cy : (y + h * (stickerY settings / 100)
               - w * (stickerSize settings / 100)
                 * (inject_Z (height s) / inject_Z (width s)) / 2
               + w * (stickerSize settings / 100)
                 * (inject_Z (height s) / inject_Z (width s)) / 2
               == y + h * stickerY settings / 100)%Q) by (field; exact Hne).
  split; [field|].
  split; [field; exact Hne|].
  split; [exact Cx|].
  split; [exact Cy|].
  split.
  - intros B. rewrite Cx. now apply anchor_in_cell.
  - intros B. rewrite Cy. now apply anchor_in_cell.
Qed.

Lemma drawMask_sticker_witness :
  exists dx dy sw sh : Q,
    drawMask App.DEFAULT_SETTINGS (Some photoBitmap) true [2] 2
             (Num 0) (Num 0) (Num 1500) (Num 2000)
    = [DrawImage photoBitmap (Num dx) (Num dy) (Num sw) (Num sh)]
    /\ (sw == 1500 * stickerSize App.DEFAULT_SETTINGS / 100)%Q.
Proof.
  destruct (@drawMask_sticker App.DEFAULT_SETTINGS photoBitmap [2] 2
              0 0 1500 2000)
    as (dx & dy & sw & sh & E & S & _);
    [reflexivity|reflexivity|reflexivity|reflexivity
    |unfold Qle; cbn; lia|unfold Qle; cbn; lia|].
  exists dx, dy, sw, sh. split; [exact E|exact S].
Defined.

End StickerProofs.

(** ** The image list: duplicates *)

Module DuplicateProofs.
Import Js Types ImageList.

Lemma jsstring_eqb_eq (a b : jsstring) : JsString.eqb a b = true <-> a = b.
Proof.
  revert b. induction a as [|x a IH]; intros [|y b]; cbn; split;
    try congruence; try discriminate.
  - intros H. apply andb_true_iff in H as [H1 H2].
    apply N.eqb_eq in H1. apply IH in H2. congruence.
  - intros [= -> ->]. rewrite N.eqb_refl. now apply IH.
Qed.

Lemma has_In (k : jsstring) (seen : list jsstring) :
  existsb (JsString.eqb k) seen = true <-> In k seen.
Proof.
  rewrite existsb_exists. split.
  - intros (x & Hx & E). apply jsstring_eqb_eq in E. now subst.
  - intros H. exists k. split; [exact H|]. now apply jsstring_eqb_eq.
Qed.

Lemma has_app (k : jsstring) (a b : list jsstring) :
  existsb (JsString.eqb k) (a ++ b)
  = existsb (JsString.eqb k) a || existsb (JsString.eqb k) b.
Proof. apply existsb_app. Qed.

Lemma has_absorb (k x : jsstring) (seen rest : list jsstring) :
  existsb (JsString.eqb x) seen = true ->
  existsb (JsString.eqb k) (seen ++ x :: rest)
  = existsb (JsString.eqb k) (seen ++ rest).
Proof.
  intros Hx. rewrite !has_app. cbn [existsb].
  destruct (JsString.eqb k x) eqn:E; [|reflexivity].
  apply jsstring_eqb_eq in E. subst. rewrite Hx. reflexivity.
Qed.

(** An item is kept when no key seen so far, before the list or in it,
    is its key. *)
Lemma dedupe_snoc a : forall seen item,
  fst (dedupe seen (a ++ [item]))
  = fst (dedupe seen a)
    ++ (if existsb (JsString.eqb (key item)) (seen ++ map key a)
        then [] else [item]).
Proof.
  induction a as [|x a IH]; intros seen item.
  - cbn [app map dedupe]. rewrite app_nil_r.
    destruct (existsb (JsString.eqb (key item)) seen); reflexivity.
  - cbn [app map dedupe].
    destruct (existsb (JsString.eqb (key x)) seen) eqn:Dx.
    + specialize (IH seen item).
      destruct (dedupe seen (a ++ [item])) as [k1 e1].
      destruct (dedupe seen a) as [k2 e2]. cbn [fst] in *.
      rewrite IH, has_absorb by exact Dx. reflexivity.
    + specialize (IH (seen ++ [key x]) item).
      destruct (dedupe (seen ++ [key x]) (a ++ [item])) as [k1 e1].
      destruct (dedupe (seen ++ [key x]) a) as [k2 e2]. cbn [fst] in *.
      rewrite IH, <- app_assoc. reflexivity.
Qed.

Lemma dedupe_fresh l : forall seen,
  NoDup (map key (fst (dedupe seen l)))
  /\ (forall item, In item (fst (dedupe seen l)) ->
                   In item l /\ ~ In (key item) seen).
Proof.
  induction l as [|x l IH]; intros seen.
  - split; [constructor|intros ? []].
  - cbn [dedupe].
    destruct (existsb (JsString.eqb (key x)) seen) eqn:Dx.
    + destruct (IH seen) as [N F].
      destruct (dedupe seen l) as [k e]. cbn [fst] in *.
      split; [exact N|]. intros item Hi. destruct (F item Hi).
      split; [now right|assumption].
    + destruct (IH (seen ++ [key x])) as [N F].
      destruct (dedupe (seen ++ [key x]) l) as [k e]. cbn [fst map] in *.
      split.
      * constructor; [|exact N]. intros Hin.
        apply in_map_iff in Hin as (y & Ey & Hy).
        destruct (F y Hy) as [_ Hn]. apply Hn. rewrite Ey.
        apply in_or_app. right. now left.
      * intros item [<-|Hi].
        -- split; [now left|]. intros Hin. apply has_In in Hin. congruence.
        -- destruct (F item Hi) as [H1 H2]. split; [now right|].
           intros Hin. apply H2. apply in_or_app. now left.
Qed.

Lemma dedupe_fixed l : forall seen,
  NoDup (map key l) ->
  (forall item, In item l -> ~ In (key item) seen) ->
  dedupe seen l = (l, []).
Proof.
  induction l as [|x l IH]; intros seen N F; [reflexivity|].
  cbn [dedupe]. inversion N as [|? ? Hx N']; subst.
  destruct (existsb (JsString.eqb (key x)) seen) eqn:Dx.
  - exfalso. apply (F x (or_introl eq_refl)). now apply has_In.
  - rewrite IH; [reflexivity|exact N'|].
    intros item Hi Hin. apply in_app_or in Hin as [Hin|[E|[]]].
    + exact (F item (or_intror Hi) Hin).
    + apply Hx. rewrite E. now apply in_map.
Qed.

(** Every key of the list is still the key of a kept item. *)
Lemma dedupe_covers l : forall seen item,
  In item l ->
  In (key item) seen \/ In (key item) (map key (fst (dedupe seen l))).
Proof.
  induction l as [|x l IH]; intros seen item; [intros []|].
  cbn [dedupe]. intros [<-|Hi].
  - destruct (existsb (JsString.eqb (key x)) seen) eqn:Dx.
    + left. now apply has_In.
    + destruct (dedupe (seen ++ [key x]) l). right. now left.
  - destruct (existsb (JsString.eqb (key x)) seen) eqn:Dx.
    + specialize (IH seen item Hi). now destruct (dedupe seen l).
    + specialize (IH (seen ++ [key x]) item Hi).
      destruct (dedupe (seen ++ [key x]) l) as [k e]. cbn [fst map] in *.
      destruct IH as [H|H].
      * apply in_app_or in H as [H|[E|[]]]; [now left|].
        right. left. exact E.
      * right. now right.
Qed.

(** X6. What "remove duplicates" keeps. Of the items that share a key (name
    and size), the first stays and the later ones go; the list that is left
    holds every key once, in the order of the first occurrences, and a
    second pass over it removes nothing and touches no URL or record. *)
Theorem removeDuplicates_keeps_first :
  (forall a item,
      fst (removeDuplicates (a ++ [item]))
      = fst (removeDuplicates a)
        ++ (if existsb (JsString.eqb (key item)) (map key a)
            then [] else [item]))
  /\ (forall prev,
         NoDup (map key (fst (removeDuplicates prev)))
         /\ incl (fst (removeDuplicates prev)) prev
         /\ incl (map key prev) (map key (fst (removeDuplicates prev))))
  /\ (forall prev,
         removeDuplicates (fst (removeDuplicates prev))
         = (fst (removeDuplicates prev), [])).
Proof.
  unfold removeDuplicates. split; [|split].
  - intros a item. apply (dedupe_snoc a [] item).
  - intros prev. destruct (dedupe_fresh prev []) as [N F].
    split; [exact N|]. split.
    + intros item Hi. now destruct (F item Hi).
    + intros k Hk. apply in_map_iff in Hk as (item & <- & Hi).
      destruct (dedupe_covers prev [] item Hi) as [[]|H]. exact H.
  - intros prev. destruct (dedupe_fresh prev []) as [N F].
    apply dedupe_fixed; [exact N|]. intros item _ [].
Qed.

(** *** The count the interface shows *)

Section Groups.
Variable V : Type.

Local Abbreviation sizes f o :=
  (fold_right (fun (p : jsstring * V) acc => f (snd p) + acc) 0 o).

Lemma sizes_app f (a b : JsObject.object V) :
  sizes f (a ++ b) = sizes f a + sizes f b.
Proof. induction a as [|p a IH]; cbn; [reflexivity|]. rewrite IH. lia. Qed.

Lemma sizes_insert f p (o : JsObject.object V) :
  sizes f (JsObject.insertByIndex p o) = f (snd p) + sizes f o.
Proof.
  induction o as [|q o IH]; cbn; [reflexivity|].
  destruct (_ <=? _); cbn; [reflexivity|]. rewrite IH. lia.
Qed.

Lemma sizes_sort f (o : JsObject.object V) :
  sizes f (JsObject.sortByIndex o) = sizes f o.
Proof.
  induction o as [|p o IH]; cbn; [reflexivity|].
  rewrite sizes_insert. unfold JsObject.sortByIndex in IH. now rewrite IH.
Qed.

Lemma sizes_partition f (p : jsstring * V -> bool) (o : JsObject.object V) :
  sizes f (filter p o) + sizes f (filter (fun x => negb (p x)) o) = sizes f o.
Proof.
  induction o as [|x o IH]; cbn; [reflexivity|].
  destruct (p x); cbn; lia.
Qed.

(** Whatever the order in which [Object.values] lists them, the values
    add up to the same. *)
Lemma sizes_values f (o : JsObject.object V) :
  fold_right (fun v acc => f v + acc) 0 (JsObject.values o) = sizes f o.
Proof.
  unfold JsObject.values.
  assert (E : forall l : JsObject.object V,
             fold_right (fun v acc => f v + acc) 0 (map snd l) = sizes f l).
  { induction l as [|x l IH]; cbn; [reflexivity|]. now rewrite IH. }
  rewrite E, sizes_app, sizes_sort. apply sizes_partition.
Qed.

Lemma get_set_same (o : JsObject.object V) k v :
  JsObject.get (JsObject.set o k v) k = Some v.
Proof.
  induction o as [|[k' v'] o IH]; cbn.
  - assert (E : JsString.eqb k k = true) by now apply jsstring_eqb_eq.
    now rewrite E.
  - destruct (JsString.eqb k k') eqn:E; cbn; rewrite E; [reflexivity|exact IH].
Qed.

Lemma get_set_other (o : JsObject.object V) k k' v :
  k' <> k -> JsObject.get (JsObject.set o k v) k' = JsObject.get o k'.
Proof.
  intros Hne. induction o as [|[k0 v0] o IH]; cbn.
  - destruct (JsString.eqb k' k) eqn:E; [|reflexivity].
    apply jsstring_eqb_eq in E. contradiction.
  - destruct (JsString.eqb k k0) eqn:E; cbn.
    + destruct (JsString.eqb k' k0) eqn:E'; [|reflexivity].
      apply jsstring_eqb_eq in E, E'. congruence.
    + destruct (JsString.eqb k' k0); [reflexivity|exact IH].
Qed.

Lemma sizes_set_new f (o : JsObject.object V) k v :
  JsObject.get o k = None ->
  sizes f (JsObject.set o k v) = sizes f o + f v
  /\ length (JsObject.set o k v) = S (length o).
Proof.
  induction o as [|[k' v'] o IH]; cbn; intros H; [split; [lia|reflexivity]|].
  destruct (JsString.eqb k k'); [discriminate|]. cbn.
  destruct (IH H) as [E1 E2]. split; [lia|now rewrite E2].
Qed.

Lemma sizes_set_old f (o : JsObject.object V) k v0 v :
  JsObject.get o k = Some v0 ->
  sizes f (JsObject.set o k v) = sizes f o - f v0 + f v
  /\ length (JsObject.set o k v) = length o.
Proof.
  induction o as [|[k' v'] o IH]; cbn; intros H; [discriminate|].
  destruct (JsString.eqb k k'); cbn.
  - injection H as ->. split; [lia|reflexivity].
  - destruct (IH H) as [E1 E2]. split; [lia|now rewrite E2].
Qed.

End Groups.

Local Abbreviation sizes f o :=
  (fold_right (fun (p : jsstring * list ImageItem) acc => f (snd p) + acc)
              0 o).
Local Abbreviation groupSize :=
  (fun g : list ImageItem => Z.of_nat (length g)).

(** One more image: one more entry in the groups, and one more group when
    its key is new. *)
Lemma addToGroup_sizes groups img :
  sizes groupSize (addToGroup groups img) = sizes groupSize groups + 1
  /\ length (addToGroup groups img)
     = (length groups
        + match JsObject.get groups (key img) with
          | Some _ => 0 | None => 1
          end)%nat
  /\ (forall k, JsObject.get (addToGroup groups img) k = None
                <-> JsObject.get groups k = None /\ k <> key img)
  /\ (sizes (fun _ => 1) (addToGroup groups img)
      = Z.of_nat (length (addToGroup groups img))).
Proof.
  assert (Hlen : forall o : JsObject.object (list ImageItem),
             sizes (fun _ => 1) o = Z.of_nat (length o)).
  { induction o as [|p o IH]; cbn [fold_right length]; [reflexivity|].
    rewrite IH. lia. }
  unfold addToGroup.
  destruct (JsObject.get groups (key img)) as [g|] eqn:G.
  - rewrite G.
    destruct (sizes_set_old groupSize groups (key img) (g ++ [img]) G)
      as [E1 E2].
    split; [|split; [|split]].
    + rewrite E1. rewrite length_app. cbn. lia.
    + rewrite E2. lia.
    + intros k. destruct (jsstring_eqb_eq k (key img)) as [_ R].
      split.
      * intros H. assert (Hne : k <> key img).
        { intros ->. rewrite get_set_same in H. discriminate. }
        split; [|exact Hne]. now rewrite get_set_other in H.
      * intros [H Hne]. now rewrite get_set_other.
    + apply Hlen.
  - rewrite get_set_same.
    destruct (sizes_set_new groupSize groups (key img) [] G) as [E1 E2].
    destruct (sizes_set_old groupSize (JsObject.set groups (key img) [])
                            (key img) ([] ++ [img])
                            (get_set_same groups (key img) []))
      as [E3 E4].
    split; [|split; [|split]].
    + rewrite E3, E1. cbn. lia.
    + rewrite E4, E2. lia.
    + intros k. split.
      * intros H. assert (Hne : k <> key img).
        { intros ->. rewrite get_set_same in H. discriminate. }
        split; [|exact Hne]. now rewrite !get_set_other in H.
      * intros [H Hne]. now rewrite !get_set_other.
    + apply Hlen.
Qed.

Lemma groups_nonempty l : forall groups,
  Forall (fun p => snd p <> []) groups ->
  Forall (fun p : jsstring * list ImageItem => snd p <> [])
         (fold_left addToGroup l groups).
Proof.
  assert (Hset : forall (o : JsObject.object (list ImageItem)) k v,
             v <> [] -> Forall (fun p => snd p <> []) o ->
             Forall (fun p => snd p <> []) (JsObject.set o k v)).
  { induction o as [|[k' v'] o IH]; intros k v Hv Ho; cbn.
    - constructor; [exact Hv|constructor].
    - inversion Ho as [|? ? H1 H2]; subst.
      destruct (JsString.eqb k k'); constructor; auto. }
  induction l as [|x l IH]; intros groups H; [exact H|].
  cbn [fold_left]. apply IH. unfold addToGroup.
  destruct (JsObject.get groups (key x)) as [g|] eqn:G.
  - rewrite G. apply Hset; [now destruct g|exact H].
  - rewrite get_set_same.
    assert (E : JsObject.set (JsObject.set groups (key x) []) (key x)
                             ([] ++ [x])
                = JsObject.set groups (key x) [x]).
    { clear -G. induction groups as [|[k' v'] o IHo]; cbn in *.
      - assert (E : JsString.eqb (key x) (key x) = true)
          by now apply jsstring_eqb_eq.
        now rewrite E.
      - destruct (JsString.eqb (key x) k') eqn:E; [discriminate|].
        cbn. rewrite E. now rewrite IHo. }
    rewrite E. apply Hset; [discriminate|exact H].
Qed.

(** The images kept and the groups grow together. *)
Lemma dedupe_groups l : forall seen groups,
  (forall k, In k seen <-> JsObject.get groups k <> None) ->
  (length (fst (dedupe seen l)) + length groups
   = length (fold_left addToGroup l groups))%nat
  /\ sizes groupSize (fold_left addToGroup l groups)
     = sizes groupSize groups + Z.of_nat (length l).
Proof.
  induction l as [|x l IH]; intros seen groups Hs.
  - cbn. split; [reflexivity|lia].
  - cbn [dedupe fold_left].
    destruct (addToGroup_sizes groups x) as (A1 & A2 & A3 & _).
    destruct (existsb (JsString.eqb (key x)) seen) eqn:Dx.
    + apply has_In in Dx. pose proof (proj1 (Hs _) Dx) as G.
      destruct (JsObject.get groups (key x)) as [g|] eqn:Eg; [|congruence].
      destruct (IH seen (addToGroup groups x)) as [I1 I2].
      { intros k. rewrite Hs. split.
        - intros H C. apply A3 in C. tauto.
        - intros H C. apply H. apply A3. split; [exact C|].
          intros ->. congruence. }
      destruct (dedupe seen l) as [k e]. cbn [fst length] in *.
      split; [lia|]. rewrite I2, A1. lia.
    + assert (Hn : ~ In (key x) seen).
      { intros H. apply has_In in H. congruence. }
      assert (G : JsObject.get groups (key x) = None).
      { destruct (JsObject.get groups (key x)) eqn:Eg; [|reflexivity].
        exfalso. apply Hn. apply Hs. congruence. }
      rewrite G in A2.
      destruct (IH (seen ++ [key x]) (addToGroup groups x)) as [I1 I2].
      { intros k. rewrite in_app_iff, Hs. cbn [In]. split.
        - intros [H|[<-|[]]] C; apply A3 in C; tauto.
        - intros H.
          destruct (JsString.eqb k (key x)) eqn:E.
          + apply jsstring_eqb_eq in E. right. left. now symmetry.
          + left. intros C. apply H. apply A3. split; [exact C|].
            intros ->.
            assert (JsString.eqb (key x) (key x) = true)
              by now apply jsstring_eqb_eq.
            congruence. }
      destruct (dedupe (seen ++ [key x]) l) as [k e]. cbn [fst length] in *.
      split; [lia|]. rewrite I2, A1. lia.
Qed.

Lemma count_fold (l : list (list ImageItem)) : forall acc,
  fold_left (fun acc g => acc + Z.of_nat (length g) - 1) l acc
  = acc + fold_right (fun g s => (groupSize g - 1) + s) 0 l.
Proof.
  induction l as [|g l IH]; intros acc; cbn; [lia|].
  rewrite IH. lia.
Qed.

Lemma count_filter (l : list (list ImageItem)) :
  Forall (fun g => g <> []) l ->
  fold_right (fun g s => (groupSize g - 1) + s) 0
             (filter (fun g => 1 <? Z.of_nat (length g)) l)
  = fold_right (fun g s => (groupSize g - 1) + s) 0 l.
Proof.
  induction 1 as [|g l Hg Hl IH]; [reflexivity|].
  cbn [filter]. destruct (Z.ltb_spec 1 (Z.of_nat (length g))); cbn.
  - now rewrite IH.
  - rewrite IH. destruct g; [contradiction|].
    cbn [length] in *. lia.
Qed.

Lemma insertByIndex_In (V : Type) (p q : jsstring * V) o :
  In q (JsObject.insertByIndex p o) -> q = p \/ In q o.
Proof.
  induction o as [|x o IH]; cbn.
  - intros [<-|[]]. now left.
  - destruct (_ <=? _); cbn.
    + intros [<-|H]; [now left|now right].
    + intros [<-|H]; [right; now left|].
      destruct (IH H); [now left|right; now right].
Qed.

Lemma values_In (V : Type) (o : JsObject.object V) v :
  In v (JsObject.values o) -> In v (map snd o).
Proof.
  unfold JsObject.values. rewrite in_map_iff. intros ([k v'] & <- & H).
  apply in_map_iff. exists (k, v'). split; [reflexivity|].
  apply in_app_or in H as [H|H].
  - assert (S : forall l : JsObject.object V,
               In (k, v') (JsObject.sortByIndex l) -> In (k, v') l).
    { induction l as [|x l IH]; cbn; [tauto|].
      intros Hi. apply insertByIndex_In in Hi as [->|Hi]; [now left|].
      right. now apply IH. }
    apply S in H. now apply filter_In in H as [H _].
  - now apply filter_In in H as [H _].
Qed.

Lemma sizes_minus (o : JsObject.object (list ImageItem)) :
  sizes (fun g => groupSize g - 1) o
  = sizes groupSize o - Z.of_nat (length o).
Proof.
  induction o as [|p o IH]; cbn [fold_right length]; [reflexivity|].
  rewrite IH. lia.
Qed.

Lemma duplicatesCount_sizes images :
  duplicatesCount images
  = Z.of_nat (length images) - Z.of_nat (length (groupsOf images)).
Proof.
  unfold duplicatesCount, duplicateGroups. rewrite count_fold, count_filter.
  - rewrite (sizes_values (fun g => groupSize g - 1) (groupsOf images)).
    rewrite sizes_minus.
    destruct (dedupe_groups images [] []) as [_ E].
    { intros k. cbn. split; [intros []|congruence]. }
    unfold groupsOf. rewrite E. cbn. lia.
  - apply Forall_forall. intros g Hg. apply values_In in Hg.
    apply in_map_iff in Hg as (p & <- & Hp).
    pose proof (groups_nonempty images (groups := []) (Forall_nil _)) as F.
    rewrite Forall_forall in F. exact (F p Hp).
Qed.

Lemma dedupe_length l : forall seen,
  (length (fst (dedupe seen l)) <= length l)%nat
  /\ (length (fst (dedupe seen l)) = length l -> dedupe seen l = (l, [])).
Proof.
  induction l as [|x l IH]; intros seen; [split; [reflexivity|reflexivity]|].
  cbn [dedupe].
  destruct (existsb (JsString.eqb (key x)) seen).
  - destruct (IH seen) as [L _]. destruct (dedupe seen l) as [k e].
    cbn [fst length] in *. split; [lia|lia].
  - destruct (IH (seen ++ [key x])) as [L E].
    destruct (dedupe (seen ++ [key x]) l) as [k e].
    cbn [fst length] in *. split; [lia|].
    intros H. injection H as H. specialize (E H). now injection E as -> ->.
Qed.

(** X7. The number of duplicates the interface announces is the number of
    images "remove duplicates" takes out: the list shrinks by exactly that
    count, which is never negative, and when it is zero the list is left as
    it is. *)
Theorem removeDuplicates_count (images : list ImageItem) :
  Z.of_nat (length (fst (removeDuplicates images)))
  = Z.of_nat (length images) - duplicatesCount images
  /\ 0 <= duplicatesCount images
  /\ (duplicatesCount images = 0 -> removeDuplicates images = (images, [])).
Proof.
  rewrite duplicatesCount_sizes. unfold removeDuplicates.
  destruct (dedupe_groups images [] []) as [E _].
  { intros k. cbn. split; [intros []|congruence]. }
  fold (groupsOf images) in E. cbn [length] in E.
  destruct (dedupe_length images []) as [L F].
  split; [lia|]. split; [lia|].
  intros H. apply F. lia.
Qed.

Lemma removeDuplicates_count_witness :
  removeDuplicates [Scenarios.imageItem "a"; Scenarios.imageItem "b"]
  = ([Scenarios.imageItem "a"; Scenarios.imageItem "b"], []).
Proof.
  destruct (removeDuplicates_count
              [Scenarios.imageItem "a"; Scenarios.imageItem "b"])
    as (_ & _ & H).
  apply H. reflexivity.
Defined.

End DuplicateProofs.

(** ** The image list: reordering *)

Module ReorderProofs.
Import Js Types ImageList Lists Permutation.

Lemma splice_remove (A : Type) (l : list A) (i : Z) :
  0 <= i < Z.of_nat (length l) ->
  JsArray.splice l i 1 []
  = (firstn 1 (skipn (Z.to_nat i) l), removeAt (Z.to_nat i) l).
Proof.
  intros Hi. unfold JsArray.splice, removeAt.
  destruct (Z.ltb_spec i 0); [lia|].
  replace (Z.min i (Z.of_nat (length l))) with i by lia.
  replace (Z.min (Z.max 1 0) (Z.of_nat (length l) - i)) with 1 by lia.
  cbn [app]. now rewrite Nat.add_1_r.
Qed.

Lemma splice_insert (A : Type) (l : list A) (i : Z) (v : A) :
  0 <= i <= Z.of_nat (length l) ->
  snd (JsArray.splice l i 0 [v]) = insertAt (Z.to_nat i) v l.
Proof.
  intros Hi. unfold JsArray.splice, insertAt.
  destruct (Z.ltb_spec i 0); [lia|].
  replace (Z.min i (Z.of_nat (length l))) with i by lia.
  replace (Z.min (Z.max 0 0) (Z.of_nat (length l) - i)) with 0 by lia.
  cbn [snd app Z.to_nat]. now rewrite Nat.add_0_r.
Qed.

Lemma removeAt_length (A : Type) (l : list A) i :
  (i < length l)%nat -> S (length (removeAt i l)) = length l.
Proof.
  intros H. unfold removeAt.
  rewrite length_app, length_firstn, length_skipn. lia.
Qed.

Lemma take_app (A : Type) (a r : list A) : firstn (length a) (a ++ r) = a.
Proof. induction a as [|y a IH]; cbn; [now destruct r|now rewrite IH]. Qed.

Lemma drop_app (A : Type) (a r : list A) : skipn (length a) (a ++ r) = r.
Proof. induction a as [|y a IH]; cbn; [reflexivity|exact IH]. Qed.

Lemma take_app_prefix (A : Type) (l : list A) i :
  (i <= length l)%nat ->
  firstn i (firstn i l ++ skipn (S i) l) = firstn i l.
Proof.
  intros H. rewrite <- (take_app (firstn i l) (skipn (S i) l)) at 2.
  now rewrite length_firstn, Nat.min_l by lia.
Qed.

Lemma drop_app_prefix (A : Type) (l : list A) i :
  (i <= length l)%nat ->
  skipn i (firstn i l ++ skipn (S i) l) = skipn (S i) l.
Proof.
  intros H. rewrite <- (drop_app (firstn i l) (skipn (S i) l)) at 2.
  now rewrite length_firstn, Nat.min_l by lia.
Qed.

Lemma removeAt_split (A : Type) (l : list A) i x :
  nth_error l i = Some x -> l = insertAt i x (removeAt i l).
Proof.
  intros H. apply nth_error_split in H as (a & b & -> & <-).
  assert (E : removeAt (length a) (a ++ x :: b) = a ++ b).
  { unfold removeAt. rewrite take_app.
    change (S (length a)) with (1 + length a)%nat.
    rewrite <- skipn_skipn, drop_app. reflexivity. }
  rewrite E. unfold insertAt. now rewrite take_app, drop_app.
Qed.

Lemma removeAt_map (A B : Type) (f : A -> B) i l :
  removeAt i (map f l) = map f (removeAt i l).
Proof.
  unfold removeAt. now rewrite map_app, <- firstn_map, <- skipn_map.
Qed.

Lemma insertAt_map (A B : Type) (f : A -> B) i x l :
  insertAt i (f x) (map f l) = map f (insertAt i x l).
Proof.
  unfold insertAt. rewrite map_app. cbn [map].
  now rewrite <- firstn_map, <- skipn_map.
Qed.

Lemma insertAt_facts (A : Type) (l : list A) i x :
  (i <= length l)%nat ->
  nth_error (insertAt i x l) i = Some x
  /\ removeAt i (insertAt i x l) = l
  /\ Permutation (x :: l) (insertAt i x l).
Proof.
  intros H. unfold insertAt, removeAt.
  assert (L : length (firstn i l) = i) by (rewrite length_firstn; lia).
  split; [|split].
  - rewrite nth_error_app2 by lia. rewrite L, Nat.sub_diag. reflexivity.
  - rewrite firstn_app, L, Nat.sub_diag. cbn [firstn]. rewrite app_nil_r.
    rewrite firstn_firstn, Nat.min_id.
    rewrite skipn_app, L. rewrite skipn_all2 by lia.
    replace (S i - i)%nat with 1%nat by lia. cbn [skipn app].
    apply firstn_skipn.
  - rewrite <- (firstn_skipn i l) at 1. apply Permutation_middle.
Qed.

Lemma splice_keeps (A : Type) (l : list A) (start deleteCount : Z) items :
  Permutation (fst (JsArray.splice l start deleteCount items)
               ++ snd (JsArray.splice l start deleteCount items))
              (items ++ l).
Proof.
  unfold JsArray.splice. cbn [fst snd].
  set (s := Z.to_nat (if start <? 0 then _ else _)).
  set (d := Z.to_nat (Z.min _ _)).
  assert (E : firstn s l ++ firstn d (skipn s l) ++ skipn (s + d) l = l).
  { rewrite (Nat.add_comm s d), <- skipn_skipn.
    now rewrite (firstn_skipn d (skipn s l)), firstn_skipn. }
  assert (G : forall a r b : list A,
             Permutation (r ++ a ++ items ++ b) (items ++ a ++ r ++ b)).
  { intros a r b.
    rewrite (Permutation_app_swap_app r a).
    rewrite (Permutation_app_swap_app items a).
    apply Permutation_app_head. apply Permutation_app_swap_app. }
  rewrite G, E. reflexivity.
Qed.

(** Whatever the indices, a reordering loses nothing: it gives the
    entries of the list in another order, with one [undefined] entry more
    when the old index names no position. *)
Lemma handleReorder_keeps (A : Type) (oldIndex newIndex : Z)
      (prev : list (option A)) :
  Permutation (handleReorder oldIndex newIndex prev) prev
  \/ Permutation (handleReorder oldIndex newIndex prev) (None :: prev).
Proof.
  unfold handleReorder.
  pose proof (splice_keeps prev oldIndex 1 []) as P1.
  assert (L : (length (fst (JsArray.splice prev oldIndex 1 [])) <= 1)%nat).
  { unfold JsArray.splice. cbn [fst]. rewrite length_firstn. lia. }
  destruct (JsArray.splice prev oldIndex 1 []) as [removed newList].
  cbn [fst snd app] in *.
  set (moved := match removed with m :: _ => m | [] => None end).
  pose proof (splice_keeps newList newIndex 0 [moved]) as P2.
  assert (E : fst (JsArray.splice newList newIndex 0 [moved]) = []).
  { unfold JsArray.splice. cbn [fst].
    replace (Z.to_nat (Z.min (Z.max 0 0) _)) with O by lia. reflexivity. }
  rewrite E in P2. cbn [app] in P2.
  destruct removed as [|m [|m' r]]; cbn [length] in L; try lia.
  - right. rewrite P2. now apply perm_skip.
  - left. rewrite P2. exact P1.
Qed.

(** X8. Dragging an image. Whatever the indices of the drag, no image is lost
    or doubled: the entries come out in another order, with one
    [undefined] entry more when the old index names no position. When both
    indices name positions of the list, the image at the old position is
    taken out and put back at the new one: it stands at the new index and
    the others keep their order. A drag that reports no index leaves the
    list alone. *)
Theorem onEnd_moves (A : Type) (prev : list A) (oldIndex newIndex : Z) :
  (Permutation (ImageGrid.onEnd (Some oldIndex) (Some newIndex)
                                (map Some prev))
               (map Some prev)
   \/ Permutation (ImageGrid.onEnd (Some oldIndex) (Some newIndex)
                                   (map Some prev))
                  (None :: map Some prev))
  /\ (forall x,
         0 <= oldIndex ->
         nth_error prev (Z.to_nat oldIndex) = Some x ->
         0 <= newIndex < Z.of_nat (length prev) ->
         exists next,
           ImageGrid.onEnd (Some oldIndex) (Some newIndex) (map Some prev)
           = map Some next
           /\ Permutation prev next
           /\ nth_error next (Z.to_nat newIndex) = Some x
           /\ removeAt (Z.to_nat newIndex) next
              = removeAt (Z.to_nat oldIndex) prev)
  /\ ImageGrid.onEnd None (Some newIndex) (map Some prev) = map Some prev
  /\ ImageGrid.onEnd (Some oldIndex) None (map Some prev) = map Some prev.
Proof.
  split; [apply handleReorder_keeps|].
  split; [|split; reflexivity].
  intros x Ho Hx Hn.
  assert (Hlt : (Z.to_nat oldIndex < length prev)%nat)
    by (apply nth_error_Some; congruence).
  set (o := Z.to_nat oldIndex) in *. set (n := Z.to_nat newIndex).
  exists (insertAt n x (removeAt o prev)).
  pose proof (removeAt_length prev Hlt) as Lr.
  destruct (@insertAt_facts A (removeAt o prev) n x) as (F1 & F2 & F3);
    [unfold n; lia|].
  split; [|split; [|split]]; try assumption.
  - unfold ImageGrid.onEnd, handleReorder.
    rewrite splice_remove by (rewrite length_map; lia). fold o.
    assert (E1 : firstn 1 (skipn o (map Some prev)) = [Some x]).
    { apply nth_error_split in Hx as (a & b & -> & La).
      rewrite map_app, skipn_app, length_map, La.
      rewrite skipn_all2 by (rewrite length_map; lia).
      rewrite Nat.sub_diag. reflexivity. }
    rewrite E1.
    rewrite splice_insert.
    + fold n. now rewrite removeAt_map, insertAt_map.
    + unfold removeAt.
      rewrite length_app, length_firstn, length_skipn, length_map. lia.
  - rewrite (removeAt_split prev o Hx) at 1.
    destruct (@insertAt_facts A (removeAt o prev) o x) as (_ & _ & G);
      [lia|].
    rewrite <- G. exact F3.
Qed.

Lemma onEnd_moves_witness :
  exists next,
    ImageGrid.onEnd (Some 0) (Some 2) (map Some [1; 2; 3; 4]) = map Some next
    /\ nth_error next 2 = Some 1
    /\ removeAt 2 next = [2; 3; 4].
Proof.
  destruct (@onEnd_moves Z [1; 2; 3; 4] 0 2) as (_ & H & _).
  destruct (H 1) as (next & E & P & N & R); [lia|reflexivity|cbn; lia|].
  exists next. split; [exact E|]. split; [exact N|exact R].
Defined.

(** *** The identifiers *)

Lemma dedupe_ids l : forall seen,
  NoDup (map id l) -> NoDup (map id (fst (dedupe seen l))).
Proof.
  induction l as [|x l IH]; intros seen N; [constructor|].
  cbn [dedupe]. inversion N as [|? ? Hx N']; subst.
  destruct (existsb (JsString.eqb (key x)) seen).
  - specialize (IH seen N'). now destruct (dedupe seen l).
  - specialize (IH (seen ++ [key x]) N').
    destruct (DuplicateProofs.dedupe_fresh l (seen ++ [key x])) as [_ F].
    destruct (dedupe (seen ++ [key x]) l) as [k e]. cbn [fst map] in *.
    constructor; [|exact IH]. intros Hin. apply Hx.
    apply in_map_iff in Hin as (y & Ey & Hy). rewrite <- Ey.
    apply in_map. now destruct (F y Hy).
Qed.

Lemma removeAt_ids (l : list ImageItem) i :
  NoDup (map id l) -> NoDup (map id (removeAt i l)).
Proof.
  intros N. destruct (nth_error l i) as [x|] eqn:E.
  - rewrite (removeAt_split l i E) in N. unfold insertAt in N.
    rewrite map_app in N. cbn [map] in N. apply NoDup_remove_1 in N.
    rewrite <- map_app, firstn_skipn in N. exact N.
  - apply nth_error_None in E. unfold removeAt.
    rewrite firstn_all2, skipn_all2 by lia. now rewrite app_nil_r.
Qed.

(** X9. The identifiers of the images, which the grid uses as keys, stay
    distinct under every handler that changes the list without importing:
    deleting an image, removing the duplicates, clearing the list,
    replacing an image (which keeps every identifier where it is) and
    dragging an image to another place. *)
Theorem handlers_keep_ids_distinct (images : list ImageItem) :
  NoDup (map id images) ->
  (forall confirmed i,
      NoDup (map id (fst (deleteImage confirmed i images))))
  /\ NoDup (map id (fst (removeDuplicates images)))
  /\ NoDup (map id (fst (confirmClearAll images)))
  /\ (forall files newUrl i next,
         fst (handleReplace files newUrl i images) = Some next ->
         map id next = map id images)
  /\ (forall oldIndex newIndex next,
         ImageGrid.onEnd (Some oldIndex) (Some newIndex) (map Some images)
         = map Some next ->
         NoDup (map id next)).
Proof.
  intros N. split; [|split; [|split; [|split]]].
  - intros confirmed i. unfold deleteImage.
    destruct (Z.ltb_spec i 0); [exact N|].
    destruct (Z.leb_spec (Z.of_nat (length images)) i); [exact N|].
    cbn [orb]. destruct confirmed; [|exact N].
    destruct (JsArray.get images i); [|exact N].
    rewrite splice_remove by lia. cbn [fst snd]. now apply removeAt_ids.
  - now apply dedupe_ids.
  - constructor.
  - intros files newUrl i next. unfold handleReplace.
    destruct files as [[|file fs]|]; try (intros [= <-]; reflexivity).
    destruct (-1 <? i) eqn:Hi; [|intros [= <-]; reflexivity].
    unfold JsArray.get. destruct (Z.ltb_spec i 0); [lia|].
    destruct (nth_error images (Z.to_nat i)) as [img|] eqn:E;
      [|discriminate].
    intros [= <-]. rewrite (removeAt_split images (Z.to_nat i) E) at 3.
    unfold insertAt, removeAt.
    assert (L : (Z.to_nat i < length images)%nat)
      by (apply nth_error_Some; congruence).
    rewrite !map_app. cbn [map id].
    rewrite take_app_prefix, drop_app_prefix by lia. reflexivity.
  - intros oldIndex newIndex next E.
    destruct (handleReorder_keeps oldIndex newIndex (map Some images))
      as [P|P]; unfold ImageGrid.onEnd in E; rewrite E in P.
    + apply Permutation_map_inv in P as (l3 & E3 & P3).
      assert (next = l3).
      { clear -E3. revert l3 E3.
        induction next as [|x next IH]; intros [|y l3]; cbn;
          try discriminate; try reflexivity.
        intros [= -> H]. f_equal. now apply IH. }
      subst l3.
      apply (Permutation_NoDup (l := map id images));
        [now apply Permutation_map|exact N].
    + exfalso. apply Permutation_sym in P.
      assert (Hin : In None (map Some next))
        by (eapply Permutation_in; [exact P|now left]).
      apply in_map_iff in Hin as (? & ? & _). discriminate.
Qed.

Lemma handlers_keep_ids_distinct_witness :
  NoDup (map id (fst (deleteImage true 1 Scenarios.fourImages))).
Proof.
  destruct (@handlers_keep_ids_distinct Scenarios.fourImages) as (H & _).
  - repeat constructor; cbn; intuition discriminate.
  - apply H.
Defined.

End ReorderProofs.

(** ** The image list: import *)

Module ImportProofs.
Import Js Types ImageList Effects.

Section Chunks.
Variable browser : Importer.

Lemma importChunk_app a : forall b k,
  importChunk browser k (a ++ b)
  = let '(ia, k') := importChunk browser k a in
    let '(ib, k'') := importChunk browser k' b in
    (ia ++ ib, k'').
Proof.
  induction a as [|f a IH]; intros b k; cbn [app importChunk].
  - now destruct (importChunk browser k b).
  - destruct (accepted f).
    + rewrite IH. destruct (importChunk browser (S k) a) as [ia k'].
      now destruct (importChunk browser k' b).
    + apply IH.
Qed.

Lemma importChunk_files l : forall k,
  map snd (fst (importChunk browser k l)) = filter accepted l
  /\ (length (fst (importChunk browser k l)) <= length l)%nat.
Proof.
  induction l as [|f l IH]; intros k; cbn [importChunk filter].
  - split; [reflexivity|cbn; lia].
  - destruct (accepted f).
    + destruct (IH (S k)) as [E L].
      destruct (importChunk browser (S k) l) as [ia k']. cbn in *.
      split; [now rewrite E|lia].
    + destruct (IH k) as [E L]. split; [exact E|cbn; lia].
Qed.

Lemma slice_chunk (l : list Files.File) (i : Z) :
  0 <= i < Z.of_nat (length l) ->
  App.slice l i (i + CHUNK_SIZE) = firstn 50 (skipn (Z.to_nat i) l)
  /\ skipn (Z.to_nat i) l
     = firstn 50 (skipn (Z.to_nat i) l) ++ skipn (Z.to_nat (i + CHUNK_SIZE)) l.
Proof.
  intros Hi. unfold App.slice, CHUNK_SIZE.
  destruct (Z.ltb_spec i 0); [lia|].
  destruct (Z.ltb_spec (i + 50) 0); [lia|].
  replace (Z.min i (Z.of_nat (length l))) with i by lia.
  split.
  - destruct (Z.le_gt_cases (i + 50) (Z.of_nat (length l))).
    + replace (Z.min (i + 50) (Z.of_nat (length l)) - i) with 50 by lia.
      reflexivity.
    + replace (Z.min (i + 50) (Z.of_nat (length l))) with (Z.of_nat (length l))
        by lia.
      rewrite !firstn_all2; try reflexivity; rewrite length_skipn; lia.
  - replace (Z.to_nat (i + 50)) with (50 + Z.to_nat i)%nat by lia.
    rewrite <- skipn_skipn. symmetry. apply firstn_skipn.
Qed.

Lemma importLoop_spec fileArray fuel : forall i k images effects,
  0 <= i ->
  Z.of_nat (length fileArray) - i <= 50 * Z.of_nat fuel ->
  exists evs,
    importLoop browser fuel i fileArray k images effects
    = (images
       ++ map fst (fst (importChunk browser k (skipn (Z.to_nat i) fileArray))),
       effects ++ evs)
    /\ savedItems evs
       = fst (importChunk browser k (skipn (Z.to_nat i) fileArray))
    /\ length (filter isFrame evs)
       = Z.to_nat (App.ceilDiv (Z.of_nat (length fileArray) - i) 50)
    /\ Forall goodSave evs
    /\ (forall e, In e evs -> e = AnimationFrame
                              \/ exists l, e = SaveImagesToDB l).
Proof.
  induction fuel as [|fuel IH]; intros i k images effects Hi Hf.
  - exists []. cbn [importLoop]. rewrite skipn_all2 by lia.
    cbn. rewrite !app_nil_r. repeat split; auto.
    + unfold App.ceilDiv.
      assert (- (Z.of_nat (length fileArray) - i) / 50 >= 0)
        by (apply Z_div_ge0; lia).
      lia.
    + intros e [].
  - cbn [importLoop].
    destruct (Z.ltb_spec i (Z.of_nat (length fileArray))) as [Hlt|Hge].
    + destruct (slice_chunk fileArray (i := i)) as [Ec Es]; [lia|].
      rewrite Ec. set (chunk := firstn 50 (skipn (Z.to_nat i) fileArray)) in *.
      pose proof (importChunk_app chunk
                    (skipn (Z.to_nat (i + CHUNK_SIZE)) fileArray) k) as Ea.
      rewrite <- Es in Ea.
      destruct (importChunk_files chunk k) as [_ Lc].
      destruct (importChunk browser k chunk) as [dbItems k'] eqn:Ek.
      cbn [fst] in Lc.
      assert (L50 : (length chunk <= 50)%nat)
        by (unfold chunk; rewrite length_firstn; lia).
      destruct (IH (i + CHUNK_SIZE) k' (images ++ map fst dbItems)
                   (effects
                    ++ (if 0 <? Z.of_nat (length dbItems)
                        then [SaveImagesToDB dbItems] else [])
                    ++ [AnimationFrame]))
        as (evs & E & S & F & G & K); [unfold CHUNK_SIZE; lia..|].
      exists ((if 0 <? Z.of_nat (length dbItems)
               then [SaveImagesToDB dbItems] else [])
              ++ [AnimationFrame] ++ evs).
      rewrite E, Ea.
      destruct (importChunk browser k'
                  (skipn (Z.to_nat (i + CHUNK_SIZE)) fileArray))
        as [rest k''] eqn:Er.
      cbn [fst] in *.
      split; [now rewrite map_app, <- !app_assoc|].
      split; [|split; [|split]].
      * unfold savedItems in *. rewrite flat_map_app. cbn [flat_map app].
        rewrite S.
        destruct dbItems; cbn; [reflexivity|now rewrite app_nil_r].
      * rewrite filter_app, length_app. cbn [filter isFrame app length].
        rewrite F.
        assert (E0 : length (filter isFrame
                      (if 0 <? Z.of_nat (length dbItems)
                       then [SaveImagesToDB dbItems] else [])) = O)
          by now destruct (0 <? Z.of_nat (length dbItems)).
        rewrite E0. unfold CHUNK_SIZE, App.ceilDiv.
        replace (- (Z.of_nat (length fileArray) - i))
          with (- (Z.of_nat (length fileArray) - (i + 50)) + (-1) * 50) by lia.
        rewrite Z.div_add by lia.
        assert (- (Z.of_nat (length fileArray) - (i + 50)) / 50 < 1)
          by (apply Z.div_lt_upper_bound; lia).
        lia.
      * apply Forall_app. split.
        -- destruct (Z.ltb_spec 0 (Z.of_nat (length dbItems))); constructor;
             [|constructor].
           cbn. split; [destruct dbItems; [cbn in *; lia|discriminate]|lia].
        -- constructor; [exact I|exact G].
      * intros e He. apply in_app_or in He as [He|[<-|He]].
        -- destruct (0 <? Z.of_nat (length dbItems)); [|destruct He].
           destruct He as [<-|[]]. right. now eexists.
        -- now left.
        -- now apply K.
    + exists []. rewrite skipn_all2 by lia. cbn. rewrite !app_nil_r.
      repeat split; auto.
      * unfold App.ceilDiv.
        assert (- (Z.of_nat (length fileArray) - i) / 50 >= 0)
          by (apply Z_div_ge0; lia).
        lia.
      * intros e [].
Qed.

End Chunks.

(** X10. Importing files. The files are taken fifty at a time, but the outcome
    does not show it: the images appended to the list are those of one pass
    over all the files, one image per accepted file and in the order of the
    files, and the same records, in the same order, are written to the
    database, at most fifty per write and never an empty write. The
    interface is given one animation frame per chunk. With no file, nothing
    happens at all. *)
Theorem handleFiles_imports (browser : Importer) (files : list Files.File)
        (images : list ImageItem) :
  files <> [] ->
  let items := fst (importChunk browser 0 files) in
  let result := handleFiles browser (Some files) images in
  fst result = images ++ map fst items
  /\ map snd items = filter (accepted) files
  /\ savedItems (snd result) = items
  /\ Forall goodSave (snd result)
  /\ length (filter isFrame (snd result))
     = Z.to_nat (App.ceilDiv (Z.of_nat (length files)) 50)
  /\ (exists evs, snd result
                  = [SetIsLoading true; SetLoadingTextImporting] ++ evs
                    ++ [SetIsLoading false; ResetInput])
  /\ handleFiles browser None images = (images, [])
  /\ handleFiles browser (Some []) images = (images, []).
Proof.
  intros Hne items result.
  destruct (importLoop_spec browser files (length files) (i := 0) 0 images
              [SetIsLoading true; SetLoadingTextImporting])
    as (evs & E & S & F & G & K); [lia|lia|].
  cbn [Z.to_nat skipn] in E, S. rewrite Z.sub_0_r in F.
  assert (R : result
              = (images ++ map fst items,
                 ([SetIsLoading true; SetLoadingTextImporting] ++ evs)
                 ++ [SetIsLoading false; ResetInput])).
  { unfold result, handleFiles. destruct files as [|f fs]; [contradiction|].
    rewrite E. reflexivity. }
  rewrite R. cbn [fst snd].
  split; [reflexivity|].
  split; [apply importChunk_files|].
  split.
  { unfold savedItems in *. rewrite !flat_map_app, S. cbn.
    now rewrite app_nil_r. }
  split.
  { apply Forall_app. split; [|repeat constructor].
    apply Forall_app. split; [repeat constructor|exact G]. }
  split.
  { rewrite !filter_app, !length_app, F. cbn. lia. }
  split; [exists evs; now rewrite <- app_assoc|].
  split; reflexivity.
Qed.

Lemma handleFiles_imports_witness :
  let browser := {| randomId := fun _ => ofAscii "id";
                    createObjectURL := fun _ => ofAscii "blob:1" |} in
  let photo := {| Files.type := ofAscii "image/png";
                  Files.name := ofAscii "a.png"; Files.size := 10 |} in
  let note := {| Files.type := ofAscii "text/plain";
                 Files.name := ofAscii "notes.txt"; Files.size := 3 |} in
  map name (fst (handleFiles browser (Some [note; photo]) []))
  = [ofAscii "a.png"].
Proof.
  intros browser photo note.
  destruct (@handleFiles_imports browser [note; photo] []) as (E & _);
    [discriminate|].
  rewrite E. reflexivity.
Defined.

End ImportProofs.

(** ** The batches of a run *)

Module PartitionProofs.
Import Js Types Dom Utils App Scenarios BatchProofs Observations.

Lemma firstn_add (A : Type) (l : list A) : forall a b,
  firstn a l ++ firstn b (skipn a l) = firstn (a + b) l.
Proof.
  induction l as [|x l IH]; intros a b.
  - now rewrite !firstn_nil, skipn_nil, firstn_nil.
  - destruct a as [|a]; [reflexivity|]. cbn. now rewrite IH.
Qed.

(** The first [k] chunks of [n] elements make up the first [k * n]
    elements. *)
Lemma chunks_prefix (A : Type) (l : list A) (n : Z) (k : nat) :
  0 < n ->
  concat (map (fun b => slice l (b * n)
                              (Z.min ((b + 1) * n) (Z.of_nat (length l))))
              (map Z.of_nat (seq 0 k)))
  = firstn (Z.to_nat (Z.of_nat k * n)) l.
Proof.
  intros Hn. induction k as [|k IH]; [reflexivity|].
  rewrite seq_S, !map_app, concat_app, IH. cbn [map concat Nat.add].
  rewrite app_nil_r. unfold slice.
  set (len := Z.of_nat (length l)).
  destruct (Z.ltb_spec (Z.of_nat k * n) 0); [nia|].
  destruct (Z.ltb_spec (Z.min ((Z.of_nat k + 1) * n) len) 0); [nia|].
  destruct (Z.le_gt_cases len (Z.of_nat k * n)) as [Hge|Hlt].
  - replace (Z.to_nat (Z.min (Z.min ((Z.of_nat k + 1) * n) len) len
                       - Z.min (Z.of_nat k * n) len)) with O by nia.
    cbn [firstn]. rewrite app_nil_r.
    rewrite !firstn_all2; try reflexivity; unfold len in *; nia.
  - replace (Z.min (Z.of_nat k * n) len) with (Z.of_nat k * n) by lia.
    rewrite firstn_add.
    destruct (Z.le_gt_cases ((Z.of_nat k + 1) * n) len).
    + f_equal. nia.
    + replace (Z.min (Z.min ((Z.of_nat k + 1) * n) len) len) with len by lia.
      replace (Z.to_nat (Z.of_nat k * n) + Z.to_nat (len - Z.of_nat k * n))%nat
        with (length l) by (unfold len; nia).
      rewrite !firstn_all2; try reflexivity; unfold len in *; nia.
Qed.

Lemma ceilDiv_bounds a b :
  0 < b -> 0 <= a ->
  0 <= ceilDiv a b /\ a <= ceilDiv a b * b /\ (ceilDiv a b - 1) * b < a
  \/ a = 0 /\ ceilDiv a b = 0.
Proof.
  intros Hb Ha. unfold ceilDiv.
  pose proof (Z.div_mod (- a) b ltac:(lia)) as E.
  pose proof (Z.mod_pos_bound (- a) b Hb) as M.
  destruct (Z.eq_dec a 0) as [->|Hne].
  - right. split; [reflexivity|]. cbn [Z.opp] in *. nia.
  - left. nia.
Qed.

Lemma batchSize_nonzero settings : batchSize settings <> 0.
Proof.
  unfold batchSize, cols, rows.
  destruct (Z.eqb_spec (Types.cols settings) 0);
    destruct (Z.eqb_spec (groupRows settings) 0); nia.
Qed.

(** X11. The batches of a run. With a positive batch size the batches are a
    partition of the target images: put end to end, in order, they give
    the targets back, so no image is left out or drawn twice; no batch is
    empty, and every batch but the last is full. The batch size is never
    zero; when it is negative there is no batch at all, and the run encodes
    nothing. *)
Theorem batches_partition (env : Env) (images : list ImageItem)
        (settings : Settings) (opType : OpType) (arr : list Z) :
  let batches := batchIndices images settings opType arr in
  let batch := currentImgs images settings opType arr in
  batchSize settings <> 0
  /\ (0 < batchSize settings ->
      concat (map batch batches) = targets images settings opType arr
      /\ (forall b, In b batches ->
                    0 < Z.of_nat (length (batch b)) <= batchSize settings)
      /\ (forall b, In b batches -> In (b + 1) batches ->
                    Z.of_nat (length (batch b)) = batchSize settings))
  /\ (batchSize settings < 0 ->
      batches = []
      /\ tempBlobs (runGeneration env images settings opType) = []
      /\ countOf isEncode (trace (runGeneration env images settings opType))
         = O).
Proof.
  intros batches batch. split; [apply batchSize_nonzero|]. split.
  - intros HB. set (L := Z.of_nat (length (targets images settings opType arr))).
    assert (HL : 0 <= L) by (unfold L; lia).
    assert (Hin : forall b, In b batches ->
                            0 <= b < totalBatches images settings opType arr).
    { intros b Hb. unfold batches, batchIndices in Hb.
      apply in_map_iff in Hb as (k & <- & Hk). apply in_seq in Hk. lia. }
    assert (ET : ceilDiv L (batchSize settings)
                 = totalBatches images settings opType arr) by reflexivity.
    destruct (ceilDiv_bounds HB HL) as [(T0 & T1 & T2)|[L0 T0]];
      rewrite ET in *.
    + split; [|split].
      * unfold batch, batches, batchIndices, currentImgs.
        rewrite chunks_prefix by exact HB.
        apply firstn_all2. rewrite Z2Nat.id by exact T0.
        unfold L in T1. lia.
      * intros b Hb. apply Hin in Hb. unfold batch.
        rewrite currentImgs_length by lia. fold L. nia.
      * intros b Hb Hb'. apply Hin in Hb, Hb'. unfold batch.
        rewrite currentImgs_length by lia. fold L. nia.
    + assert (E : batches = []).
      { unfold batches, batchIndices. now rewrite T0. }
      rewrite E. split; [|split; intros b []].
      cbn. symmetry. apply length_zero_iff_nil. unfold L in L0. lia.
  - intros HB.
    assert (T : forall a,
               Z.to_nat (totalBatches images settings opType a) = O).
    { intros a. unfold totalBatches.
      pose proof (@ceilDiv_nonpos
                    (Z.of_nat (length (targets images settings opType a)))
                    (batchSize settings) HB ltac:(lia)). lia. }
    split; [unfold batches, batchIndices; now rewrite T|].
    unfold runGeneration.
    destruct images as [|img rest]; [split; reflexivity|].
    destruct (parseMaskIndices (arrayLimit env) (maskIndices settings))
      as [a|]; [|split; reflexivity].
    unfold afterParse. rewrite T.
    destruct (canvasRef env); cbn [negb batchLoop tempBlobs trace];
      [|split; reflexivity].
    unfold pollRef, emit.
    destruct (cancelRef env _); split; reflexivity.
Qed.

Lemma batches_partition_witness :
  concat (map (currentImgs sevenImages (settingsWith 2 50 line "" None) normal
                           [])
              (batchIndices sevenImages (settingsWith 2 50 line "" None)
                            normal []))
  = targets sevenImages (settingsWith 2 50 line "" None) normal [].
Proof.
  destruct (@batches_partition offline sevenImages
              (settingsWith 2 50 line "" None) normal []) as (_ & H & _).
  destruct H as (H & _); [reflexivity|exact H].
Defined.

End PartitionProofs.

(** ** The width of a sheet *)

Module WidthProofs.
Import Js Types Dom Utils App Scenarios Observations Rendering CellProofs
       GridProofs Runs.

Lemma inject_Z_nonneg (z : Z) : 0 <= z -> (0 <= inject_Z z)%Q.
Proof. intros H. change 0%Q with (inject_Z 0). now rewrite <- Zle_Qle. Qed.

Lemma floor_bound (default : Z) (q : Q) (m : Z) :
  (0 <= q)%Q -> (q <= inject_Z m)%Q -> m < 2 ^ 31 ->
  0 <= dimension default (Num q) <= m.
Proof.
  intros H0 H1 Hm.
  assert (Hlt : (q < inject_Z (2 ^ 32))%Q).
  { eapply Qle_lt_trans; [exact H1|]. rewrite <- Zlt_Qlt. lia. }
  unfold dimension. rewrite (unsignedLong_floor H0 Hlt).
  assert (L : 0 <= Qfloor q <= m).
  { split.
    - apply Qfloor_resp_le in H0. exact H0.
    - apply Qfloor_resp_le in H1. now rewrite Qfloor_Z in H1. }
  destruct (Z.leb_spec (Qfloor q) 2147483647); lia.
Qed.

(** The cells are 1500 wide unless that makes the sheet wider than the
    largest canvas; then they are as wide as the columns allow. *)
Lemma sheetWidth_bounded (settings : Settings) :
  0 <= Types.cols settings <= 8092 ->
  (0 <= gap settings <= 100)%Q ->
  0 <= sheetWidth settings <= MAX_CANVAS_DIMENSION.
Proof.
  intros Hc [G0 G1]. unfold sheetWidth, canvasW, cellW, MAX_CANVAS_DIMENSION.
  assert (C : 1 <= cols settings <= 8092).
  { unfold cols. destruct (Z.eqb_spec (Types.cols settings) 0); lia. }
  set (c := cols settings) in *. set (g := gap settings) in *.
  destruct (Z.gtb_spec (c * 1500) 8192) as [Hbig|Hsmall].
  - assert (Hne : ~ (inject_Z c == 0)%Q).
    { intros E. assert (0 < inject_Z c)%Q by (apply inject_Z_pos; lia).
      rewrite E in H. exact (Qlt_irrefl _ H). }
    cbn [ofZ Js.sub Js.mul Js.div Js.add lift2 Js.floor].
    rewrite (Qeq_bool_false Hne). cbn [Js.floor Js.mul Js.add lift2].
    set (X := ((inject_Z 8192 - g * inject_Z c) / inject_Z c)%Q).
    pose proof (Qfloor_le X) as F1. pose proof (Qlt_floor X) as F2.
    assert (Pc : (0 < inject_Z c)%Q) by (apply inject_Z_pos; lia).
    assert (EX : (X * inject_Z c == inject_Z 8192 - g * inject_Z c)%Q)
      by (unfold X; field; exact Hne).
    assert (M1 : (inject_Z (Qfloor X) * inject_Z c <= X * inject_Z c)%Q)
      by (apply Qmult_le_compat_r; [exact F1|apply Qlt_le_weak, Pc]).
    assert (M2 : (X * inject_Z c
                  <= inject_Z (Qfloor X + 1) * inject_Z c)%Q)
      by (apply Qmult_le_compat_r;
          [apply Qlt_le_weak, F2|apply Qlt_le_weak, Pc]).
    rewrite inject_Z_plus in M2. change (inject_Z 1) with 1%Q in M2.
    assert (E1 : ((inject_Z (Qfloor X) + 1) * inject_Z c
                  == inject_Z (Qfloor X) * inject_Z c + inject_Z c)%Q) by ring.
    assert (E2 : (inject_Z c * inject_Z (Qfloor X)
                  == inject_Z (Qfloor X) * inject_Z c)%Q) by ring.
    assert (E3 : (inject_Z (c - 1) * g == g * inject_Z c - g)%Q).
    { rewrite (inject_Z_pred c). ring. }
    assert (C1 : (inject_Z c <= inject_Z 8092)%Q) by (rewrite <- Zle_Qle; lia).
    change (inject_Z 8092) with 8092%Q in C1.
    change (inject_Z 8192) with 8192%Q in *.
    rewrite E1 in M2. clearbody X.
    remember (inject_Z (Qfloor X) * inject_Z c)%Q as A eqn:EA.
    remember (g * inject_Z c)%Q as B eqn:EB.
    remember (X * inject_Z c)%Q as D eqn:ED.
    remember (inject_Z c) as ic eqn:Eic.
    apply floor_bound; [| |lia].
    + rewrite E2, E3. lra.
    + rewrite E2, E3. change (inject_Z 8192) with 8192%Q. lra.
  - cbn [ofZ Js.mul Js.add lift2].
    assert (Hc5 : c = 1 \/ c = 2 \/ c = 3 \/ c = 4 \/ c = 5) by lia.
    apply floor_bound; [| |lia];
      destruct Hc5 as [->|[->|[->|[->| ->]]]];
      repeat match goal with
             | |- context [inject_Z ?a] =>
                 let v := eval vm_compute in (inject_Z a) in
                 change (inject_Z a) with v
             end;
      lra.
Qed.

Section Run.
Variable env : Env.
Variable images : list ImageItem.
Variable settings : Settings.
Variable opType : OpType.
Variable arr : list Z.
Hypothesis some_images : images <> [].
Hypothesis canvas_mounted : canvasRef env = true.
Hypothesis parsed :
  parseMaskIndices (arrayLimit env) (maskIndices settings) = Some arr.

Lemma encoded_width sheet mime q answer :
  In (Encode sheet mime q answer)
     (trace (runGeneration env images settings opType)) ->
  canvasWidth sheet = sheetWidth settings.
Proof.
  intros H.
  apply (@TraceFacts.runGeneration_encodes env images settings opType arr
            some_images canvas_mounted parsed) in H.
  destruct H as (_ & _ & b & _ & ->). reflexivity.
Qed.

End Run.

(** X12. The width of the sheets. Every sheet of a run that reaches the encoder
    has the same width, the one the column count, the cell width and the
    gap give; and with a gap in the range of its slider (0 to 100) and a
    column count up to 8092 that width never exceeds the largest canvas
    dimension, 8192. *)
Theorem sheets_share_width (env : Env) (images : list ImageItem)
        (settings : Settings) (opType : OpType) :
  images <> [] -> canvasRef env = true ->
  (forall sheet mime q answer,
      In (Encode sheet mime q answer)
         (trace (runGeneration env images settings opType)) ->
      canvasWidth sheet = sheetWidth settings)
  /\ (0 <= Types.cols settings <= 8092 ->
      (0 <= gap settings <= 100)%Q ->
      0 <= sheetWidth settings <= MAX_CANVAS_DIMENSION).
Proof.
  intros Hi Hc. split.
  - intros sheet mime q answer Hin.
    destruct (parseMaskIndices (arrayLimit env) (maskIndices settings))
      as [arr|] eqn:P.
    + now apply (@encoded_width env images settings opType arr Hi Hc P
                   sheet mime q answer).
    + rewrite (@TraceFacts.runGeneration_thrown env images settings opType
                 Hi P) in Hin.
      now destruct (@TraceFacts.initEvents_encodes _ _ _ _ Hin).
  - apply sheetWidth_bounded.
Qed.

Lemma sheets_share_width_witness :
  0 <= sheetWidth DEFAULT_SETTINGS <= MAX_CANVAS_DIMENSION.
Proof.
  destruct (@sheets_share_width offline fourImages DEFAULT_SETTINGS normal)
    as [_ H]; [discriminate|reflexivity|].
  apply H; [cbn; lia|cbn; split; discriminate].
Defined.

End WidthProofs.

(** ** Runs that come to the same *)

Module SameRunProofs.
Import Js Types Dom Utils App Scenarios Observations Runs.

Section DrawExt.
Variable env : Env.
Variables rows cols : Z.
Variables w h gap : jsnum.
Variables globalOffset startNum : Z.
Variable isCancelled : Trace -> bool.
Variable forceHideNums : bool.
Variables m1 m2 : list Z.
Variables s1 s2 : Settings.
Variables a1 a2 : bool.

Hypothesis same_number : forall n x y,
  drawNumber s1 forceHideNums n x y w h = drawNumber s2 forceHideNums n x y w h.
Hypothesis same_mask : forall st n x y,
  drawMask s1 st a1 m1 n x y w h = drawMask s2 st a2 m2 n x y w h.
Hypothesis same_sticker : stickerImgUrl s1 = stickerImgUrl s2.
Hypothesis same_overlay : overlayImgUrl s1 = overlayImgUrl s2.
Hypothesis same_overlay_draw : forall o cw ch,
  drawOverlay s1 o cw ch = drawOverlay s2 o cw ch.

Lemma drawCells_ext st imgs : forall i tr,
  drawCells env cols w h gap globalOffset startNum m1 s1 a1 isCancelled
            forceHideNums st i imgs tr
  = drawCells env cols w h gap globalOffset startNum m2 s2 a2 isCancelled
              forceHideNums st i imgs tr.
Proof.
  induction imgs as [|src rest IH]; intros i tr; [reflexivity|].
  cbn [drawCells]. unfold poll. cbv beta iota zeta.
  destruct (isCancelled tr); [reflexivity|].
  destruct (loadImg env src 2 _) as [img tr1].
  destruct (isCancelled tr1); [reflexivity|].
  rewrite same_number, same_mask. apply IH.
Qed.

Lemma drawAsync_ext imgs tr :
  drawAsync env rows cols w h gap globalOffset startNum m1 s1 a1 isCancelled
            forceHideNums imgs tr
  = drawAsync env rows cols w h gap globalOffset startNum m2 s2 a2
              isCancelled forceHideNums imgs tr.
Proof.
  unfold drawAsync, poll. cbv beta iota zeta.
  destruct (isCancelled tr); [reflexivity|].
  rewrite same_sticker, same_overlay.
  destruct (loadResource env (stickerImgUrl s2) _) as [st tr1].
  destruct (loadResource env (overlayImgUrl s2) tr1) as [ov tr2].
  rewrite drawCells_ext.
  destruct (drawCells _ _ _ _ _ _ _ _ _ _ _ _ _ _ _ _) as [[|] tr3];
    [|reflexivity].
  now rewrite same_overlay_draw.
Qed.

End DrawExt.

Section RunExt.
Variable env : Env.
Variables images1 images2 : list ImageItem.
Variables settings1 settings2 : Settings.
Variables op1 op2 : OpType.
Variables arr1 arr2 : list Z.

Hypothesis same_total :
  totalBatches images1 settings1 op1 arr1
  = totalBatches images2 settings2 op2 arr2.
Hypothesis same_draw : forall b tr,
  drawBatch env images1 settings1 op1 arr1 b tr
  = drawBatch env images2 settings2 op2 arr2 b tr.
Hypothesis same_mime : mimeType settings1 = mimeType settings2.
Hypothesis same_quality : quality settings1 = quality settings2.

Lemma batchLoop_ext n : forall b temp tr,
  batchLoop env images1 settings1 op1 arr1 n b temp tr
  = batchLoop env images2 settings2 op2 arr2 n b temp tr.
Proof.
  induction n as [|n IH]; intros b temp tr; [reflexivity|].
  cbn [batchLoop]. unfold pollRef. cbv beta iota zeta.
  destruct (cancelRef env tr); [reflexivity|].
  rewrite same_total, same_draw, same_mime, same_quality.
  destruct (drawBatch env images2 settings2 op2 arr2 b _) as [flow tr1].
  destruct (cancelRef env tr1); [reflexivity|].
  destruct (toBlob env _ _ _ _); try reflexivity; now rewrite IH.
Qed.

End RunExt.

Lemma afterParse_ext env images1 images2 settings1 settings2 op1 op2
      arr1 arr2 tr :
  totalBatches images1 settings1 op1 arr1
  = totalBatches images2 settings2 op2 arr2 ->
  (forall b tr,
      drawBatch env images1 settings1 op1 arr1 b tr
      = drawBatch env images2 settings2 op2 arr2 b tr) ->
  mimeType settings1 = mimeType settings2 ->
  quality settings1 = quality settings2 ->
  afterParse env images1 settings1 op1 arr1 tr
  = afterParse env images2 settings2 op2 arr2 tr.
Proof.
  intros Ht Hd Hm Hq.
  pose proof (@batchLoop_ext env images1 images2 settings1 settings2
                op1 op2 arr1 arr2 Ht Hd Hm Hq) as B.
  unfold afterParse.
  destruct (canvasRef env); [|reflexivity]. cbn [negb].
  rewrite Ht, B. reflexivity.
Qed.

Lemma drawMask_off settings st m n x y w h :
  drawMask settings st false m n x y w h = [].
Proof. reflexivity. Qed.

Lemma drawMask_none settings st a n x y w h :
  drawMask settings st a [] n x y w h = [].
Proof. unfold drawMask. cbn. now rewrite andb_false_r. Qed.

(** X13. The two buttons that generate without repacking. "Apply" always
    draws the marks, "normal" only when the mask field is not empty; but an
    empty field names no cell, so the two runs are the same run, event for
    event, whatever the settings and the browser. *)
Theorem apply_is_normal (env : Env) (images : list ImageItem)
        (settings : Settings) :
  runGeneration env images settings apply
  = runGeneration env images settings normal.
Proof.
  unfold runGeneration. destruct images as [|img rest]; [reflexivity|].
  destruct (parseMaskIndices (arrayLimit env) (maskIndices settings))
    as [arr|] eqn:P; [|reflexivity].
  apply afterParse_ext; try reflexivity.
  intros b tr. unfold drawBatch.
  change (currentImgs (img :: rest) settings apply arr)
    with (currentImgs (img :: rest) settings normal arr).
  apply drawAsync_ext; try reflexivity.
  intros st n x y. unfold applyMask.
  destruct (maskIndices settings) as [|c s]; [|reflexivity].
  cbn in P. injection P as <-.
  now rewrite !drawMask_none.
Qed.

Lemma filterIndexed_map (A B : Type) (f : A -> B) (p : Z -> bool) l :
  forall i,
    filterIndexed (fun _ j => p j) i (map f l)
    = map f (filterIndexed (fun _ j => p j) i l).
Proof.
  induction l as [|x l IH]; intros i; [reflexivity|].
  cbn [map filterIndexed]. destruct (p i); cbn [map]; now rewrite IH.
Qed.

Lemma targets_repack images settings arr :
  targets images settings repack arr
  = targets (keptImages images settings arr) (withMaskIndices [] settings)
            normal [].
Proof.
  unfold targets, keptImages, startNum.
  apply (filterIndexed_map url
           (fun j => negb (includes (startNumber settings + j) arr))).
Qed.

(** X14. Repacking. Once the mask field is parsed, a repack run is the
    normal run over the images the pre-pass keeps, with the mask field
    emptied: the same events, the same sheets and the same blobs. No mark
    is drawn on a repacked sheet. (When the pre-pass keeps no image the two
    differ: the repack run publishes an empty result, the normal run asks
    for images.) *)
Theorem repack_is_normal_on_kept (env : Env) (images : list ImageItem)
        (settings : Settings) (arr : list Z) :
  parseMaskIndices (arrayLimit env) (maskIndices settings) = Some arr ->
  keptImages images settings arr <> [] ->
  runGeneration env images settings repack
  = runGeneration env (keptImages images settings arr)
                  (withMaskIndices [] settings) normal.
Proof.
  intros P Hk.
  assert (Ht : totalBatches images settings repack arr
               = totalBatches (keptImages images settings arr)
                              (withMaskIndices [] settings) normal []).
  { unfold totalBatches. now rewrite targets_repack. }
  unfold runGeneration.
  destruct images as [|img rest]; [contradiction Hk; reflexivity|].
  destruct (keptImages (img :: rest) settings arr) as [|k ks] eqn:K;
    [contradiction Hk; reflexivity|].
  rewrite P. change (maskIndices (withMaskIndices [] settings)) with (@nil N).
  change (parseMaskIndices (arrayLimit env) []) with (Some (@nil Z)).
  rewrite <- K in *.
  apply afterParse_ext; try reflexivity; try exact Ht.
  intros b tr. unfold drawBatch, currentImgs.
  rewrite targets_repack.
  apply drawAsync_ext; reflexivity.
Qed.

Lemma repack_is_normal_on_kept_witness :
  runGeneration offline sevenImages (settingsWith 3 50 line "2,5-6" None)
                repack
  = runGeneration offline
                  (keptImages sevenImages
                              (settingsWith 3 50 line "2,5-6" None)
                              [2; 5; 6])
                  (withMaskIndices [] (settingsWith 3 50 line "2,5-6" None))
                  normal.
Proof.
  apply repack_is_normal_on_kept; [reflexivity|]. vm_compute. discriminate.
Defined.

End SameRunProofs.

(** ** What a run shows while it works *)

Module ProgressProofs.
Import Js Types Dom Utils App Scenarios Observations Rendering Runs.

Lemma drawn_silent (evs : Trace) :
  forallb drawKind evs = true ->
  filter isLoadingText evs = [] /\ filter isLoadingFlag evs = [].
Proof.
  induction evs as [|e evs IH]; [split; reflexivity|].
  cbn [forallb]. intros H. apply andb_true_iff in H as [He Hs].
  destruct (IH Hs) as [I1 I2]. cbn [filter].
  destruct e; try discriminate; cbn; auto.
Qed.

Section Loop.
Variable env : Env.
Variable images : list ImageItem.
Variable settings : Settings.
Variable opType : OpType.
Variable arr : list Z.

Local Abbreviation total := (totalBatches images settings opType arr).
Local Abbreviation announce :=
  (fun b => SetLoadingText (Generating (b + 1) total)).

Lemma batchLoop_progress n : forall b temp tr,
  exists m evs,
    snd (batchLoop env images settings opType arr n b temp tr) = tr ++ evs
    /\ (m <= n)%nat
    /\ filter isLoadingText evs = map announce (zseq b m)
    /\ filter isLoadingFlag evs = [].
Proof.
  induction n as [|n IH]; intros b temp tr.
  - exists O, []. cbn. rewrite app_nil_r. repeat split; lia.
  - rewrite TraceFacts.batchLoop_S.
    destruct (cancelRef env tr).
    { exists O, [Poll BatchStart true]. repeat split; lia. }
    destruct (TraceFacts.drawBatch_spec env images settings opType arr b
                (tr ++ startEvents images settings opType arr b))
      as (flow & evsd & E & K & _).
    rewrite E. cbn [snd]. cbv zeta.
    destruct (drawn_silent evsd K) as [S1 S2].
    destruct (cancelRef env _).
    { exists 1%nat,
        (startEvents images settings opType arr b ++ evsd
         ++ [Poll BeforeEncode true]).
      split; [now rewrite <- !app_assoc|]. split; [lia|].
      rewrite !filter_app, S1, S2. split; [|reflexivity].
      cbn. f_equal. f_equal. f_equal. lia. }
    assert (Z1 : zseq b 1 = [b]) by (cbn; f_equal; lia).
    set (trd := (tr ++ startEvents images settings opType arr b) ++ evsd) in *.
    set (sheet := surfaceOf (trd ++ [Poll BeforeEncode false])) in *.
    destruct (toBlob env _ sheet _ _) as [blob| |e] eqn:A.
    + destruct (IH (b + 1) (temp ++ blobOf (Produced blob))
                   (trd ++ encodeEvents settings sheet (Produced blob)))
        as (m & evs & E2 & L & T & F).
      exists (S m), (startEvents images settings opType arr b ++ evsd
                     ++ encodeEvents settings sheet (Produced blob) ++ evs).
      split; [rewrite E2; unfold trd; now rewrite <- !app_assoc|].
      split; [lia|].
      rewrite !filter_app, S1, S2, T, F.
      rewrite RepackProofs.zseq_cons. split; reflexivity.
    + destruct (IH (b + 1) (temp ++ blobOf Null)
                   (trd ++ encodeEvents settings sheet Null))
        as (m & evs & E2 & L & T & F).
      exists (S m), (startEvents images settings opType arr b ++ evsd
                     ++ encodeEvents settings sheet Null ++ evs).
      split; [rewrite E2; unfold trd; now rewrite <- !app_assoc|].
      split; [lia|].
      rewrite !filter_app, S1, S2, T, F.
      rewrite RepackProofs.zseq_cons. split; reflexivity.
    + exists 1%nat,
        (startEvents images settings opType arr b ++ evsd
         ++ [Poll BeforeEncode false;
             Encode sheet (mimeType settings) (quality settings) (Throws e)]).
      split; [unfold trd; now rewrite <- !app_assoc|]. split; [lia|].
      rewrite !filter_app, S1, S2, Z1. split; reflexivity.
Qed.

End Loop.

(** X15. What a run shows. Once the mask field is parsed, the loading
    indicator goes on once, at the start, and off once, at the end,
    however the run ends after that. The text beside it says "preparing",
    then announces the batches one by one, "1 of T", "2 of T" and so on in
    order, where T is the number of batches, and it never announces more
    than T. When the parse of the mask field throws, the indicator goes on
    and is left on, and the text stays at "preparing". *)
Theorem runGeneration_progress_shown (env : Env) (images : list ImageItem)
        (settings : Settings) (opType : OpType) :
  images <> [] ->
  let out := runGeneration env images settings opType in
  let parse := parseMaskIndices (arrayLimit env) (maskIndices settings) in
  (forall arr,
      parse = Some arr ->
      let total := totalBatches images settings opType arr in
      filter isLoadingFlag (trace out)
      = [SetIsLoading true; SetIsLoading false]
      /\ exists m,
           (m <= Z.to_nat total)%nat
           /\ filter isLoadingText (trace out)
              = SetLoadingText Preparing
                :: map (fun b => SetLoadingText (Generating (b + 1) total))
                       (zseq 0 m))
  /\ (parse = None ->
      filter isLoadingFlag (trace out) = [SetIsLoading true]
      /\ filter isLoadingText (trace out) = [SetLoadingText Preparing]).
Proof.
  intros Hi out parse. unfold out, parse, runGeneration.
  destruct images as [|img rest]; [contradiction|].
  split; [|intros ->; split; reflexivity].
  intros arr ->. cbv zeta.
  set (total := totalBatches (img :: rest) settings opType arr).
  unfold afterParse.
  destruct (canvasRef env); cbn [negb].
  2:{ split; [reflexivity|]. exists O. split; [lia|reflexivity]. }
  destruct (batchLoop_progress env (img :: rest) settings opType arr
              (Z.to_nat total) 0 []
              [ SetGeneratedBlobs []; SetIsLoading true;
                SetLoadingText Preparing; Wait (Timer 50) ])
    as (m & evs & E & L & T & F).
  fold total.
  destruct (batchLoop env (img :: rest) settings opType arr (Z.to_nat total)
                      0 [] _) as [[c temp] tr].
  cbn [snd] in E. subst tr. cbn [trace].
  assert (C : exists closing,
             (match c with
              | Normal =>
                  let '(cancelled, tr) :=
                    pollRef env BeforePublish
                            ([ SetGeneratedBlobs []; SetIsLoading true;
                               SetLoadingText Preparing; Wait (Timer 50) ]
                             ++ evs) in
                  if cancelled then tr
                  else emit [SetGeneratedBlobs temp; ScrollToResult] tr
              | Thrown e =>
                  let '(cancelled, tr) :=
                    pollRef env InCatch
                            ([ SetGeneratedBlobs []; SetIsLoading true;
                               SetLoadingText Preparing; Wait (Timer 50) ]
                             ++ evs) in
                  if cancelled then tr
                  else emit [Alert (GenerationInterrupted e)] tr
              end)
             = ([ SetGeneratedBlobs []; SetIsLoading true;
                  SetLoadingText Preparing; Wait (Timer 50) ] ++ evs)
               ++ closing
             /\ filter isLoadingText closing = []
             /\ filter isLoadingFlag closing = []).
  { unfold pollRef, emit. destruct c as [|e]; destruct (cancelRef env _);
      eexists; (split; [rewrite <- ?app_assoc; reflexivity|split; reflexivity]). }
  destruct C as (closing & -> & C1 & C2).
  unfold emit. rewrite !filter_app, C1, C2, T, F. cbn.
  split; [reflexivity|]. exists m. split; [exact L|].
  now rewrite !app_nil_r.
Qed.

Lemma runGeneration_progress_shown_witness :
  filter isLoadingFlag
         (trace (runGeneration offline fourImages DEFAULT_SETTINGS normal))
  = [SetIsLoading true; SetIsLoading false]
  /\ filter isLoadingFlag
            (trace (runGeneration offline fourImages
                                  (settingsWith 3 50 line "1-4294967296" None)
                                  normal))
     = [SetIsLoading true].
Proof.
  destruct (@runGeneration_progress_shown offline fourImages DEFAULT_SETTINGS
              normal) as [H _]; [discriminate|].
  destruct (H [] eq_refl) as [F _].
  destruct (@runGeneration_progress_shown
              offline fourImages (settingsWith 3 50 line "1-4294967296" None)
              normal) as [_ T]; [discriminate|].
  destruct (T MaskGrammarProofs.parseMaskIndices_too_long) as [T1 _].
  split; [exact F|exact T1].
Defined.

End ProgressProofs.

(** ** Downloads *)

Module DownloadProofs.
Import Js Types Dom App Scenarios Downloads Delivery.

Lemma downloadParts_spec n blobs : forall i,
  Z.of_nat (length blobs) = n - i ->
  downloadsOf (downloadParts n i blobs)
  = map (fun p => (OfBlob (snd p), PartName (fst p + 1) (extOf (snd p))))
        (List.combine (zseq i (length blobs)) blobs)
  /\ Z.of_nat (length (filter isPause (downloadParts n i blobs)))
     = Z.max 0 (Z.of_nat (length blobs) - 1)
  /\ Forall (fun e => match e with
                      | Downloads.SetIsLoading _ | Downloads.Alert _ => False
                      | _ => True
                      end) (downloadParts n i blobs).
Proof.
  induction blobs as [|blob rest IH]; intros i Hn.
  - cbn. repeat split; constructor.
  - cbn [length] in Hn. destruct (IH (i + 1)) as (D & W & F); [lia|].
    cbn [downloadParts length]. rewrite RepackProofs.zseq_cons.
    cbn [List.combine map fst snd]. unfold downloadsOf in *.
    split; [|split].
    + cbn [flat_map app]. rewrite flat_map_app, D.
      destruct (i <? n - 1); reflexivity.
    + assert (P : length (filter isPause
                            (if i <? n - 1 then [Wait 1500] else []))
                  = if i <? n - 1 then 1%nat else O)
        by (destruct (i <? n - 1); reflexivity).
      cbn [app filter isPause]. rewrite filter_app, length_app, P.
      rewrite Nat2Z.inj_add, W.
      destruct (Z.ltb_spec i (n - 1)); lia.
    + constructor; [exact I|]. constructor; [exact I|].
      apply Forall_app. split; [destruct (i <? n - 1); repeat constructor|].
      exact F.
Qed.

(** X16. Downloading the parts. Once the user has confirmed, every blob is
    handed to the browser, in order, under the name of its rank (from 1)
    and with the extension that fits its type; the browser is given 1.5
    seconds between two files and none after the last; and the loading
    indicator goes on before the first file and off after the last. Without
    the confirmation, or with no blob, nothing happens. *)
Theorem handleDownload_parts (desk : Desk) (images : list ImageItem)
        (settings : Settings) (blobs : list Blob) :
  blobs <> [] ->
  let evs := handleDownload desk images settings blobs parts in
  (confirmed desk = true ->
   downloadsOf evs
   = map (fun p => (OfBlob (snd p), PartName (fst p + 1) (extOf (snd p))))
         (List.combine (zseq 0 (length blobs)) blobs)
   /\ length (filter isPause evs) = (length blobs - 1)%nat
   /\ (exists middle,
          evs = [Downloads.SetIsLoading true] ++ middle
                ++ [Downloads.SetIsLoading false]
          /\ Forall (fun e => match e with
                              | Downloads.SetIsLoading _
                              | Downloads.Alert _ => False
                              | _ => True
                              end) middle))
  /\ (confirmed desk = false -> evs = [])
  /\ handleDownload desk images settings [] parts = [].
Proof.
  intros Hne evs. split; [|split].
  - intros Hc.
    destruct (@downloadParts_spec (Z.of_nat (length blobs)) blobs 0)
      as (D & W & F); [lia|].
    assert (E : evs = [Downloads.SetIsLoading true]
                      ++ downloadParts (Z.of_nat (length blobs)) 0 blobs
                      ++ [Downloads.SetIsLoading false]).
    { unfold evs, handleDownload. destruct blobs; [contradiction|].
      now rewrite Hc. }
    rewrite E. split; [|split].
    + unfold downloadsOf in *. rewrite !flat_map_app, D. cbn.
      now rewrite app_nil_r.
    + rewrite !filter_app, !length_app. cbn [filter isPause length]. lia.
    + eexists. split; [reflexivity|exact F].
  - intros Hc. unfold evs, handleDownload. destruct blobs; [reflexivity|].
    now rewrite Hc.
  - reflexivity.
Qed.

Lemma handleDownload_parts_witness :
  length (filter isPause
            (handleDownload desk [] DEFAULT_SETTINGS
                            [jpegBlob 0; jpegBlob 1; jpegBlob 2] parts))
  = 2%nat.
Proof.
  destruct (@handleDownload_parts desk [] DEFAULT_SETTINGS
              [jpegBlob 0; jpegBlob 1; jpegBlob 2])
    as (H & _); [discriminate|].
  destruct (H eq_refl) as (_ & P & _). exact P.
Defined.

(** *** The combined image *)

Lemma drawStack_tiled bitmaps : forall y,
  tiled y (drawStack y bitmaps)
        (fold_left (fun sum b => sum + height b) bitmaps y)
  /\ map (fun p => fst (fst p)) (drawStack y bitmaps) = bitmaps.
Proof.
  induction bitmaps as [|bmp rest IH]; intros y; [split; reflexivity|].
  cbn [drawStack tiled fold_left map fst].
  destruct (IH (y + height bmp)) as [T M]. repeat split; [exact T|].
  now rewrite M.
Qed.

Lemma allBitmaps_length desk blobs : forall bitmaps,
  allBitmaps desk blobs = Some bitmaps ->
  length bitmaps = length blobs
  /\ map (createImageBitmap desk) blobs = map Some bitmaps.
Proof.
  induction blobs as [|b rest IH]; intros bitmaps; cbn [allBitmaps].
  - intros [= <-]. split; reflexivity.
  - destruct (createImageBitmap desk b) as [bmp|] eqn:E; [|discriminate].
    destruct (allBitmaps desk rest) as [bmps|]; [|discriminate].
    intros [= <-]. destruct (IH bmps eq_refl) as [L M].
    cbn. rewrite E, M, L. split; reflexivity.
Qed.

(** X17. The combined image. When a combined image is downloaded there were at
    most 100 images in the list, every blob was decoded, and the canvas
    holds the bitmaps in order, stacked from the top without a gap or an
    overlap: it is as wide as the first bitmap and as high as all of them
    together, and its area is within the limit, 50,000,000 pixels or
    16,777,216 on a phone or a tablet. *)
Theorem handleDownload_combine (desk : Desk) (images : list ImageItem)
        (settings : Settings) (blobs : list Blob)
        (cvs : Canvas) (mime : Mime) (quality : Q) (blob : Blob)
        (name : FileName) :
  In (DownloadBlob (OfCanvas cvs mime quality blob) name)
     (handleDownload desk images settings blobs combine) ->
  (length images <= 100)%nat
  /\ canvasWidth cvs * canvasHeight cvs <= pixelLimit desk
  /\ exists first rest,
       allBitmaps desk blobs = Some (first :: rest)
       /\ length (first :: rest) = length blobs
       /\ map (fun p => fst (fst p)) (drawn cvs) = first :: rest
       /\ tiled 0 (drawn cvs) (canvasHeight cvs)
       /\ canvasWidth cvs = width first.
Proof.
  unfold handleDownload. destruct blobs as [|b0 bs]; [intros []|].
  fold (pixelLimit desk).
  destruct (Z.ltb_spec 100 (Z.of_nat (length images))) as [Hm|Hm].
  { cbn [In]. intros [H|[]]. discriminate. }
  destruct (allBitmaps desk (b0 :: bs)) as [[|first rest]|] eqn:A;
    try (cbn [In app]; intros H;
         repeat (destruct H as [H|H]; try discriminate); contradiction).
  cbv zeta.
  destruct (pixelLimit desk <? _) eqn:Hp.
  { cbn [In app]. intros H.
    repeat (destruct H as [H|H]; try discriminate). contradiction. }
  apply Z.ltb_ge in Hp.
  destruct (Downloads.toBlob desk _ _ _) as [blob'| |e];
    cbn [In app]; intros H;
    repeat (destruct H as [H|H]; try discriminate); try contradiction.
  injection H as <- _ _ _ _.
  cbn [canvasWidth canvasHeight drawn].
  destruct (drawStack_tiled (first :: rest) 0) as [T M].
  destruct (allBitmaps_length desk (b0 :: bs) A) as [L _].
  split; [lia|]. split; [exact Hp|].
  exists first, rest.
  split; [reflexivity|]. split; [exact L|]. split; [exact M|].
  split; [exact T|reflexivity].
Qed.

Lemma handleDownload_combine_witness :
  let cvs := {| canvasWidth := 100; canvasHeight := 80;
                drawn := [ ({| width := 100; height := 40 |}, 0, 0);
                           ({| width := 100; height := 40 |}, 0, 40) ] |} in
  tiled 0 (drawn cvs) (canvasHeight cvs)
  /\ canvasWidth cvs * canvasHeight cvs <= pixelLimit desk.
Proof.
  intros cvs.
  destruct (@handleDownload_combine desk fourImages DEFAULT_SETTINGS
              [jpegBlob 0; jpegBlob 1] cvs ImageJpeg (50 / 100)%Q
              (jpegBlob 9) (CombinedName 7 jpg))
    as (_ & P & first & rest & _ & _ & _ & T & _).
  - cbn. right. right. left. reflexivity.
  - split; assumption.
Defined.

End DownloadProofs.

(** ** The names of the files and the types of the blobs *)

Module FormatProofs.
Import Js Types Dom App Scenarios Downloads Delivery.

Section Typed.
Variable env : Env.
Variable images : list ImageItem.
Variable settings : Settings.
Variable opType : OpType.
Variable arr : list Z.
Hypothesis honest_encoder : honest env.

Local Abbreviation typed :=
  (fun blob : Blob => blobType blob = mimeType settings).

Lemma batchLoop_types n : forall b temp tr,
  Forall typed temp ->
  Forall typed (snd (fst (batchLoop env images settings opType arr n b temp tr))).
Proof.
  induction n as [|n IH]; intros b temp tr Ht; [exact Ht|].
  rewrite TraceFacts.batchLoop_S.
  destruct (cancelRef env tr); [exact Ht|]. cbv zeta.
  destruct (cancelRef env _); [exact Ht|].
  destruct (Dom.toBlob env _ _ _ _) as [blob| |e] eqn:A.
  - apply IH. apply Forall_app. split; [exact Ht|].
    constructor; [|constructor]. exact (honest_encoder _ _ _ _ A).
  - apply IH. cbn. now rewrite app_nil_r.
  - exact Ht.
Qed.

End Typed.

Lemma runGeneration_types env images settings opType :
  honest env ->
  Forall (fun blob => blobType blob = mimeType settings)
         (tempBlobs (runGeneration env images settings opType)).
Proof.
  intros Hh.
  unfold runGeneration. destruct images as [|img rest]; [constructor|].
  destruct (Utils.parseMaskIndices (arrayLimit env) (maskIndices settings))
    as [arr|]; [|constructor].
  pose proof (@batchLoop_types env (img :: rest) settings opType arr Hh
                (Z.to_nat (totalBatches (img :: rest) settings opType arr))
                0 []
                [ SetGeneratedBlobs []; Dom.SetIsLoading true;
                  Dom.SetLoadingText Preparing; Dom.Wait (Timer 50) ]
                (Forall_nil _)) as H.
  unfold afterParse.
  destruct (canvasRef env); [|constructor]. cbn [negb].
  destruct (batchLoop env (img :: rest) settings opType arr _ _ _ _)
    as [[c temp] tr].
  exact H.
Qed.

Lemma zipEntries_spec ext blobs : forall i,
  map snd (zipEntries ext i blobs) = blobs
  /\ map fst (zipEntries ext i blobs)
     = map (fun k => PartName (k + 1) ext) (zseq i (length blobs)).
Proof.
  induction blobs as [|b rest IH]; intros i; [split; reflexivity|].
  cbn [zipEntries map fst snd length]. rewrite RepackProofs.zseq_cons.
  destruct (IH (i + 1)) as [E1 E2]. cbn [map]. now rewrite E1, E2.
Qed.

(** X18. The archive. With an encoder that gives the type it is asked for, a
    quality setting of at most 100, and the settings left as they were for
    the run, the archive holds every blob of the run, in order, each under
    the name of its rank (from 1) and with the extension that fits its
    type: [png] for a quality of 100 and [jpg] below. *)
Theorem handleDownload_zip_names (env : Env) (desk : Desk)
        (images : list ImageItem) (settings : Settings) (opType : OpType)
        (entries : list (FileName * Blob)) (name : FileName) :
  honest env ->
  qualityVal settings <= 100 ->
  let blobs := tempBlobs (runGeneration env images settings opType) in
  In (DownloadBlob (OfZip entries) name)
     (handleDownload desk images settings blobs zip) ->
  map snd entries = blobs
  /\ map fst entries
     = map (fun p => PartName (fst p + 1) (extOf (snd p)))
           (List.combine (zseq 0 (length blobs)) blobs)
  /\ name = ZipName (now desk).
Proof.
  intros Hh Hq blobs.
  pose proof (@runGeneration_types env images settings opType Hh) as Ty.
  fold blobs in Ty. unfold handleDownload.
  destruct blobs as [|b0 bs] eqn:Eb; [intros []|].
  destruct (generateAsync desk);
    cbn [In app]; intros H;
    repeat (destruct H as [H|H]; try discriminate); try contradiction.
  injection H as <- <-.
  destruct (zipEntries_spec (if qualityVal settings =? 100 then png else jpg)
                            (b0 :: bs) 0) as [E1 E2].
  split; [exact E1|]. split; [|reflexivity].
  etransitivity; [exact E2|].
  assert (G : forall (l : list Blob) i,
             Forall (fun blob => blobType blob = mimeType settings) l ->
             map (fun k => PartName (k + 1)
                                    (if qualityVal settings =? 100
                                     then png else jpg))
                 (zseq i (length l))
             = map (fun p => PartName (fst p + 1) (extOf (snd p)))
                   (List.combine (zseq i (length l)) l)).
  { induction l as [|x l IH]; intros i Hl; [reflexivity|].
    inversion Hl as [|? ? Hx Hl']; subst.
    cbn [length]. rewrite RepackProofs.zseq_cons.
    cbn [List.combine map fst snd]. rewrite (IH (i + 1) Hl'). f_equal.
    f_equal. unfold extOf. rewrite Hx. unfold mimeType, isPng, qVal.
    destruct (Z.eqb_spec (qualityVal settings) 100) as [->|Hne];
      [reflexivity|].
    destruct (Z.ltb_spec (qualityVal settings) 10).
    - reflexivity.
    - destruct (Z.gtb_spec (qualityVal settings) 100); [lia|].
      destruct (Z.eqb_spec (qualityVal settings) 100); [contradiction|].
      reflexivity. }
  now apply G.
Qed.

Lemma handleDownload_zip_names_witness :
  let blobs := tempBlobs (runGeneration studio fourImages DEFAULT_SETTINGS
                                        normal) in
  map snd (zipEntries jpg 0 blobs) = blobs.
Proof.
  intros blobs.
  destruct (@handleDownload_zip_names studio desk fourImages DEFAULT_SETTINGS
              normal (zipEntries jpg 0 blobs) (ZipName 7))
    as (H & _).
  - intros k sheet mime q blob. cbn. now intros [= <-].
  - cbn. lia.
  - vm_compute. right. right. left. reflexivity.
  - exact H.
Defined.

End FormatProofs.

(** ** Previews *)

Module PreviewProofs.
Import Js Types Dom Utils App Scenarios Observations Rendering Previews
       CellProofs GridProofs WidthProofs.

(** *** The quality preview *)

(** *** The overlay preview *)

Section Uncancelled.
Variable env : Env.
Variables rows cols : Z.
Variables w h gap : jsnum.
Variables globalOffset startNum : Z.
Variable maskIndices : list Z.
Variable settings : Settings.
Variable applyMask : bool.
Variable forceHideNums : bool.

Lemma drawCells_uncancelled st imgs : forall i tr,
  exists evs,
    drawCells env cols w h gap globalOffset startNum maskIndices settings
              applyMask (fun _ => false) forceHideNums st i imgs tr
    = (Completed, tr ++ evs)
    /\ (forall s, fold_left paint evs s
                  = paintAll (renderCells env cols w h gap globalOffset
                                          startNum maskIndices settings
                                          applyMask forceHideNums st i imgs)
                             s)
    /\ countOf isRelease evs = length imgs.
Proof.
  induction imgs as [|src rest IH]; intros i tr.
  - exists []. cbn. rewrite app_nil_r. repeat split.
    intros s. now rewrite TraceFacts.paintAll_nil.
  - cbn [drawCells poll]. cbv beta iota zeta.
    set (tr1 := if Z.rem i 10 =? 0 then emit [Wait (Timer 0)] _ else _).
    rewrite AcquireProofs.loadImg_trace. cbv beta iota zeta.
    match goal with
    | |- context [drawCells _ _ _ _ _ _ _ _ _ _ _ _ _ (i + 1) rest ?t] =>
        destruct (IH (i + 1) t) as (evs & E & P & C); rewrite E;
        assert (Et : t = tr ++ acquireEvents env i src
                         ++ paintEvents env cols w h gap globalOffset
                                        startNum maskIndices settings
                                        applyMask forceHideNums st i src)
    end.
    { unfold draw, emit, acquireEvents, paintEvents, yieldEvents, tr1, emit.
      fold (settled env src 2).
      destruct (Z.rem i 10 =? 0); cbn [app];
        rewrite <- ?app_assoc; cbn [app]; reflexivity. }
    rewrite Et.
    destruct (TraceFacts.acquireEvents_facts env i src) as (_ & _ & A & _).
    destruct (TraceFacts.paintEvents_facts env cols w h gap globalOffset
                startNum maskIndices settings applyMask forceHideNums st i
                src) as (_ & _ & _ & _ & Pn).
    eexists. split; [rewrite <- !app_assoc; reflexivity|]. split.
    + intros s. rewrite !fold_left_app, A, Pn, P.
      cbn [renderCells]. apply TraceFacts.paintAll_app.
    + rewrite !AcquireProofs.countOf_app, C.
      unfold acquireEvents, paintEvents, yieldEvents.
      rewrite !AcquireProofs.countOf_app.
      destruct (AcquireProofs.loadEvents_budget env src 2) as (_ & _ & R & _).
      rewrite R, !AcquireProofs.countOf_canvas by reflexivity.
      destruct (Z.rem i 10 =? 0); cbn; lia.
Qed.

Lemma drawAsync_uncancelled imgs :
  exists tr,
    drawAsync env rows cols w h gap globalOffset startNum maskIndices
              settings applyMask (fun _ => false) forceHideNums imgs []
    = (Completed, tr)
    /\ surfaceOf tr
       = renderSheet env rows cols w h gap globalOffset startNum maskIndices
                     settings applyMask forceHideNums imgs
    /\ countOf isRelease tr = length imgs.
Proof.
  unfold drawAsync, poll, emit, draw. cbv beta iota zeta.
  rewrite (TraceFacts.loadResource_trace env (stickerImgUrl settings)).
  rewrite (TraceFacts.loadResource_trace env (overlayImgUrl settings)).
  cbv beta iota zeta.
  match goal with
  | |- context [drawCells _ _ _ _ _ _ _ _ _ _ _ _ ?st 0 imgs ?t] =>
      destruct (drawCells_uncancelled st imgs 0 t) as (evs & E & P & C);
      rewrite E;
      assert (Et : t = headerEvents env rows cols w h gap settings)
        by (unfold headerEvents; cbn [app]; now rewrite <- ?app_assoc)
  end.
  rewrite Et in *. eexists. split; [reflexivity|].
  destruct (TraceFacts.headerEvents_facts env rows cols w h gap settings)
    as (_ & _ & Hh & _).
  split.
  - unfold surfaceOf. rewrite !fold_left_app, Hh, P.
    rewrite TraceFacts.paint_canvas by apply TraceFacts.drawOverlay_no_resize.
    unfold renderSheet, paintAll. cbn [canvasWidth canvasHeight painted].
    now rewrite <- !app_assoc.
  - rewrite !AcquireProofs.countOf_app, C.
    rewrite AcquireProofs.countOf_canvas by reflexivity.
    unfold headerEvents. rewrite !AcquireProofs.countOf_app.
    rewrite AcquireProofs.countOf_canvas by reflexivity.
    unfold resourceEvents, loadResource.
    destruct (stickerImgUrl settings) as [u|];
      destruct (overlayImgUrl settings) as [v|];
      try destruct (JsString.truthy u); try destruct (JsString.truthy v);
      cbn; lia.
Qed.

End Uncancelled.

Lemma padLoop_spec first rest fuel : forall p,
  (9 - length p <= fuel)%nat ->
  padLoop fuel p (first :: rest) = p ++ repeat (url first) (9 - length p).
Proof.
  induction fuel as [|fuel IH]; intros p Hf.
  - replace (9 - length p)%nat with O by lia. cbn. now rewrite app_nil_r.
  - cbn [padLoop]. destruct (Z.ltb_spec (Z.of_nat (length p)) 9) as [Hl|Hl].
    + rewrite IH by (rewrite length_app; cbn [length]; lia).
      rewrite length_app. cbn [length].
      replace (9 - length p)%nat with (S (9 - (length p + 1)))%nat by lia.
      cbn [repeat]. now rewrite <- app_assoc.
    + replace (9 - length p)%nat with O by lia. cbn. now rewrite app_nil_r.
Qed.

Lemma previewImgs_spec first rest :
  previewImgs (first :: rest)
  = map url (firstn 9 (first :: rest))
    ++ repeat (url first) (9 - length (first :: rest))
  /\ length (previewImgs (first :: rest)) = 9%nat.
Proof.
  assert (E : slice (first :: rest) 0 9 = firstn 9 (first :: rest)).
  { unfold slice. cbn [Z.ltb Z.compare].
    set (len := Z.of_nat (length (first :: rest))).
    replace (Z.min 0 len) with 0 by (unfold len; lia).
    cbn [Z.to_nat skipn]. rewrite Z.sub_0_r.
    destruct (Z.le_gt_cases 9 len).
    - now replace (Z.min 9 len) with 9 by lia.
    - replace (Z.min 9 len) with len by lia. unfold len.
      rewrite Nat2Z.id. rewrite !firstn_all2; try reflexivity; lia. }
  unfold previewImgs. rewrite E.
  assert (L : length (map url (firstn 9 (first :: rest)))
              = Nat.min 9 (length (first :: rest)))
    by now rewrite length_map, length_firstn.
  rewrite padLoop_spec by lia. rewrite L. split.
  - f_equal. f_equal. lia.
  - rewrite length_app, repeat_length, L. lia.
Qed.

Lemma renderCells_pictures env cols w h gap globalOffset startNum settings
      st imgs : forall i,
  renderCells env cols w h gap globalOffset startNum [] settings false true
              st i imgs
  = Delivery.pictures env cols w h gap i imgs.
Proof.
  unfold Delivery.pictures.
  induction imgs as [|src rest IH]; intros i; [reflexivity|].
  cbn [renderCells length]. rewrite RepackProofs.zseq_cons.
  cbn [List.combine flat_map fst snd]. rewrite IH. f_equal.
  unfold cellCmds, drawNumber, drawMask.
  rewrite andb_false_r. cbn [andb negb]. now rewrite !app_nil_r.
Qed.

(** X20. The overlay preview. With at least one image and an overlay set, the
    preview is a sheet of exactly nine cells, three by three: the first
    nine images, or all of them followed by copies of the first when there
    are fewer. The draw is never cancelled, so it runs to its end and
    releases nine image elements; and the sheet shows the white
    background, the nine pictures and the overlay over the whole canvas,
    with no number and no mark on any cell, whatever the settings say. *)
Theorem previewOverlay_sheet (env : Env) (first : ImageItem)
        (rest : list ImageItem) (settings : Settings) :
  truthyUrl (overlayImgUrl settings) = true ->
  let images := first :: rest in
  let w := Num 200 in
  let h := Js.floor (double (w / double (getRatio settings)))%js in
  let gap := Js.floor (Num (Types.gap settings) / Num 5)%js in
  previewImgs images
  = map url (firstn 9 images) ++ repeat (url first) (9 - length images)
  /\ length (previewImgs images) = 9%nat
  /\ exists tr answer,
       previewOverlay env images settings = Drawn Completed tr answer
       /\ countOf isRelease tr = 9%nat
       /\ surfaceOf tr
          = {| canvasWidth := canvasW 3 w gap;
               canvasHeight := canvasH 3 h gap;
               painted :=
                 [ FillStyle "#FFFFFF";
                   FillRect (Num 0) (Num 0) (ofZ (canvasW 3 w gap))
                            (ofZ (canvasH 3 h gap)) ]
                 ++ Delivery.pictures env 3 w h gap 0 (previewImgs images)
                 ++ drawOverlay settings
                      (fst (loadResource env (overlayImgUrl settings) []))
                      (canvasW 3 w gap) (canvasH 3 h gap) |}.
Proof.
  intros Ho images w h gap.
  destruct (previewImgs_spec first rest) as [Ei El].
  split; [exact Ei|]. split; [exact El|].
  destruct (drawAsync_uncancelled env 3 3 w h gap 0 1 [] settings false true
              (previewImgs images)) as (tr & E & S & C).
  exists tr, (toBlob env 0 (surfaceOf tr) ImageJpeg (Some (8 # 10))).
  split; [|split].
  - unfold previewOverlay. cbn [images]. rewrite Ho. cbn [negb].
    fold images w h gap. now rewrite E.
  - rewrite C. exact El.
  - rewrite S. unfold renderSheet. now rewrite renderCells_pictures.
Qed.

Lemma previewOverlay_sheet_witness :
  let settings :=
    {| aspectRatio := "0.75"; customW := Num 1000; customH := Num 1500;
       Types.gap := 0; showNum := true; startNumber := 1; fontSize := 350;
       fontWeight := "bold"; fontColor := "#FFFFFF"; enableStroke := true;
       fontStrokeColor := "#000000"; fontShadowColor := "#000000";
       enableShadow := false; fontFamily := "sans-serif";
       fontPos := "bottom-center"; Types.cols := 3; groupRows := 3;
       overlayImgUrl := Some (ofAscii "blob:overlay");
       overlayMode := "source-over"; overlayOpacity := 1; qualityVal := 50;
       maskMode := line; maskIndices := ""; maskColor := "#FF3B30";
       maskWidth := 10; lineStyle := cross; stickerImgUrl := None;
       stickerSize := 50; stickerX := 50; stickerY := 50 |} in
  length (previewImgs fourImages) = 9%nat.
Proof.
  intros settings.
  destruct (@previewOverlay_sheet offline (imageItem "a")
              (map imageItem ["b"; "c"; "d"]) settings) as (_ & H & _);
    [reflexivity|exact H].
Defined.

End PreviewProofs.

(** ** The preview of the mark *)

Module MarkPreviewProofs.
Import Js Types Dom Utils App Scenarios MarkPreview Shown.

Lemma sameNum_refl a : sameNum a a.
Proof. destruct a; cbn; [reflexivity|exact I|exact I]. Qed.

Lemma sameNum_origin a b : sameNum (a - b)%js (Num 0 + a - b)%js.
Proof.
  destruct a as [p| |], b as [q| |]; cbn; try exact I. ring.
Qed.

Lemma jsstring_eqb_refl (s : jsstring) : JsString.eqb s s = true.
Proof.
  induction s as [|c s IH]; [reflexivity|].
  cbn. now rewrite N.eqb_refl, IH.
Qed.

Lemma jsstring_eqb_true (a : jsstring) : forall b,
  JsString.eqb a b = true -> a = b.
Proof.
  induction a as [|x a IH]; intros [|y b] H; try discriminate; [reflexivity|].
  cbn in H. apply andb_true_iff in H. destruct H as [H1 H2].
  apply N.eqb_eq in H1. apply IH in H2. now subst.
Qed.

Lemma differs_false u last : differs u last = false -> last = Some u.
Proof.
  destruct last as [l|]; cbn; [|discriminate].
  intros H. apply negb_false_iff in H. apply jsstring_eqb_true in H.
  now subst.
Qed.

(** The background: the cache gives the image a load would give. *)
Lemma prepareBackground_coherent env images refs :
  coherent env refs ->
  fst (prepareBackground env images refs) = backgroundOf env images
  /\ coherent env (snd (prepareBackground env images refs)).
Proof.
  intros [Cb Cs]. unfold prepareBackground, backgroundOf.
  destruct images as [|first rest].
  - cbn. split; [reflexivity|]. split; [discriminate|exact Cs].
  - destruct (JsString.truthy (url first)).
    + destruct (differs (url first) (lastBgUrlRef refs)) eqn:D.
      * cbn. split; [reflexivity|]. split; [|exact Cs].
        intros u E. now injection E as <-.
      * cbn. split; [|split; assumption].
        apply Cb. now apply differs_false.
    + cbn. split; [reflexivity|]. split; [discriminate|exact Cs].
Qed.

(** The sticker the preview draws, whatever the cache holds. *)
Lemma drawSticker_coherent env settings refs :
  coherent env refs ->
  fst (drawSticker env settings refs)
  = fst (drawSticker env settings noRefs)
  /\ coherent env (snd (drawSticker env settings refs)).
Proof.
  intros [Cb Cs]. unfold drawSticker.
  destruct (maskMode settings); [now split|].
  destruct (stickerImgUrl settings) as [u|]; [|now split].
  destruct (JsString.truthy u); [|now split].
  assert (K : coherent env
                {| bgImageRef := bgImageRef refs;
                   lastBgUrlRef := lastBgUrlRef refs;
                   stickerImageRef := Some (resource env u);
                   lastStickerUrlRef := Some u |}).
  { split; [exact Cb|]. intros v E. now injection E as <-. }
  cbn [differs noRefs lastStickerUrlRef].
  destruct (differs u (lastStickerUrlRef refs)) eqn:D.
  - destruct (complete (resource env u) && (naturalWidth (resource env u) >? 0));
      now split.
  - apply differs_false in D. rewrite (Cs _ D).
    destruct (complete (resource env u) && (naturalWidth (resource env u) >? 0));
      (split; [reflexivity|now split]).
Qed.

(** X21. The cache of the mark preview. The preview remembers the last
    background and the last sticker it loaded; as long as what it remembers
    is what the remembered URLs load, a render paints exactly what it
    would paint with nothing remembered, and leaves a cache of which the
    same is true. *)
Theorem render_cache (env : Env)
        (smallStickerCanvasRef linePreviewCanvasRef : option Canvas)
        (images : list ImageItem) (settings : Settings) (refs : Refs) :
  coherent env refs ->
  fst (render env smallStickerCanvasRef linePreviewCanvasRef images settings
              refs)
  = fst (render env smallStickerCanvasRef linePreviewCanvasRef images
                settings noRefs)
  /\ coherent env
       (snd (render env smallStickerCanvasRef linePreviewCanvasRef images
                    settings refs)).
Proof.
  intros C. unfold render.
  destruct (match maskMode settings with
            | line => linePreviewCanvasRef
            | image => smallStickerCanvasRef
            end) as [canvas|]; [|now split].
  assert (C0 : coherent env noRefs) by (split; discriminate).
  destruct (prepareBackground_coherent images C) as [B1 B2].
  destruct (prepareBackground_coherent images C0) as [B3 B4].
  destruct (prepareBackground env images refs) as [bg r1].
  destruct (prepareBackground env images noRefs) as [bg0 r0].
  cbn [fst snd] in B1, B2, B3, B4.
  destruct (drawSticker_coherent settings B2) as [S1 S2].
  destruct (drawSticker_coherent settings B4) as [S3 S4].
  destruct (drawSticker env settings r1) as [st r2].
  destruct (drawSticker env settings r0) as [st0 r3].
  cbn [fst snd] in *. split; [|exact S2].
  now rewrite B1, B3, S1, S3.
Qed.

Lemma render_cache_witness :
  let refs :=
    {| bgImageRef := Some photoBitmap;
       lastBgUrlRef := Some (ofAscii "a");
       stickerImageRef := None; lastStickerUrlRef := None |} in
  let canvas :=
    Some {| canvasWidth := 300; canvasHeight := 300; painted := [] |} in
  fst (render (browser None jpegAnswer) None canvas fourImages
              DEFAULT_SETTINGS refs)
  = fst (render (browser None jpegAnswer) None canvas fourImages
                DEFAULT_SETTINGS noRefs).
Proof.
  intros refs canvas.
  apply (@render_cache (browser None jpegAnswer) None canvas fourImages
           DEFAULT_SETTINGS refs).
  split; intros u E; [injection E as <-; reflexivity|discriminate].
Defined.

Lemma line_same settings maskIndices n :
  maskMode settings = line ->
  includes n maskIndices = true ->
  Forall2 sameCall (drawLine settings)
          (drawMask (drawSettings settings) None true maskIndices n
                    (Num 0) (Num 0) (Num 300) (Num 300)).
Proof.
  intros M I. unfold drawLine, drawMask. rewrite M, I. cbn [andb].
  cbn [maskColor maskWidth lineStyle drawSettings].
  destruct (lineStyle settings); cbn [map app];
    repeat (constructor; [cbn; try reflexivity; try apply sameNum_refl|]);
    try constructor.
Qed.

Lemma sticker_same env settings maskIndices n u :
  maskMode settings = image ->
  stickerImgUrl settings = Some u -> JsString.truthy u = true ->
  includes n maskIndices = true ->
  Forall2 sameCall (fst (drawSticker env settings noRefs))
          (drawMask (drawSettings settings) (Some (resource env u)) true
                    maskIndices n (Num 0) (Num 0) (Num 300) (Num 300)).
Proof.
  intros M U T I. unfold drawSticker, drawMask. rewrite M, U, T, I.
  cbn [andb differs noRefs lastStickerUrlRef].
  cbn [stickerSize stickerX stickerY drawSettings].
  destruct (complete (resource env u) && (naturalWidth (resource env u) >? 0));
    cbn [fst]; [|constructor].
  constructor; [|constructor].
  cbn [sameCall]. split; [reflexivity|].
  split; [apply sameNum_origin|]. split; [apply sameNum_origin|].
  split; apply sameNum_refl.
Qed.

(** X22. What the mark preview shows. A render resizes its canvas to 300 by
    300 if need be, clears it, and paints the first image (or the "no
    image" tile) and then the mark. In line mode, and in sticker mode with a
    sticker chosen, the mark is call for call the one a run draws on a
    targeted cell of 300 by 300 at the origin of a sheet: the same sticker
    at the same place and size, or the same strokes in the same colour and
    width. In sticker mode with no sticker chosen the preview shows no
    mark, while a run strokes the line. *)
Theorem render_shows_the_mark (env : Env)
        (smallStickerCanvasRef linePreviewCanvasRef : option Canvas)
        (images : list ImageItem) (settings : Settings) (refs : Refs)
        (canvas : Canvas) (maskIndices : list Z) (n : Z) :
  coherent env refs ->
  match maskMode settings with
  | image => smallStickerCanvasRef
  | line => linePreviewCanvasRef
  end = Some canvas ->
  includes n maskIndices = true ->
  let sticker :=
    fst (loadResource env (stickerImgUrl (drawSettings settings)) []) in
  let exported :=
    drawMask (drawSettings settings) sticker true maskIndices n
             (Num 0) (Num 0) (Num 300) (Num 300) in
  exists mark,
    fst (render env smallStickerCanvasRef linePreviewCanvasRef images
                settings refs)
    = Some {| canvasWidth := 300; canvasHeight := 300;
              painted :=
                (if (canvasWidth canvas =? 300) && (canvasHeight canvas =? 300)
                 then painted canvas else [])
                ++ [Ctx (ClearRect (Num 0) (Num 0) (Num 300) (Num 300))]
                ++ drawBackground (backgroundOf env images)
                ++ mark |}
    /\ (maskMode settings = line
        \/ Previews.truthyUrl (stickerImgUrl settings) = true ->
        Forall2 sameCall mark exported)
    /\ (maskMode settings = image ->
        Previews.truthyUrl (stickerImgUrl settings) = false ->
        mark = [] /\ exported <> []).
Proof.
  intros C Hc I sticker exported.
  destruct (prepareBackground_coherent images C) as [B1 B2].
  exists (fst (drawSticker env settings noRefs) ++ drawLine settings).
  split; [|split].
  - unfold render. rewrite Hc.
    destruct (prepareBackground env images refs) as [bg r1].
    cbn [fst snd] in B1, B2.
    destruct (drawSticker_coherent settings B2) as [S1 _].
    destruct (drawSticker env settings r1) as [st r2].
    cbn [fst] in *. rewrite B1, S1. f_equal. f_equal. f_equal.
    now destruct (canvasWidth canvas =? 300), (canvasHeight canvas =? 300).
  - intros Hm. unfold exported, sticker.
    destruct (maskMode settings) eqn:M.
    + assert (E : fst (drawSticker env settings noRefs) = [])
        by (unfold drawSticker; now rewrite M).
      rewrite E. cbn [app].
      assert (L : stickerImgUrl (drawSettings settings) = None)
        by (cbn; now rewrite M).
      rewrite L. now apply line_same.
    + destruct Hm as [Hm|Hm]; [discriminate|].
      assert (E : drawLine settings = [])
        by (unfold drawLine; now rewrite M).
      rewrite E, app_nil_r.
      destruct (stickerImgUrl settings) as [u|] eqn:U; [|discriminate].
      cbn in Hm.
      assert (L : stickerImgUrl (drawSettings settings) = Some u)
        by (cbn; now rewrite M, U).
      rewrite L. unfold loadResource. rewrite Hm. cbn [fst].
      now apply sticker_same.
  - intros M Hu. split.
    + assert (E : drawLine settings = [])
        by (unfold drawLine; now rewrite M).
      rewrite E, app_nil_r. unfold drawSticker. rewrite M.
      destruct (stickerImgUrl settings) as [u|]; [|reflexivity].
      cbn in Hu. now rewrite Hu.
    + unfold exported, sticker.
      assert (L : fst (loadResource env (stickerImgUrl (drawSettings settings))
                                    []) = None).
      { cbn [stickerImgUrl drawSettings]. rewrite M. unfold loadResource.
        destruct (stickerImgUrl settings) as [u|]; [|reflexivity].
        cbn in Hu. now rewrite Hu. }
      rewrite L. unfold drawMask. rewrite I. cbn [andb]. discriminate.
Qed.

Lemma render_shows_the_mark_witness :
  let canvas := {| canvasWidth := 0; canvasHeight := 0; painted := [] |} in
  exists mark,
    fst (render (browser None jpegAnswer) None (Some canvas) fourImages
                DEFAULT_SETTINGS noRefs)
    = Some {| canvasWidth := 300; canvasHeight := 300;
              painted :=
                [Ctx (ClearRect (Num 0) (Num 0) (Num 300) (Num 300))]
                ++ drawBackground
                     (backgroundOf (browser None jpegAnswer) fourImages)
                ++ mark |}
    /\ length mark = 9%nat.
Proof.
  intros canvas.
  destruct (@render_shows_the_mark (browser None jpegAnswer) None
              (Some canvas) fourImages DEFAULT_SETTINGS noRefs canvas
              [2] 2) as (mark & E & S & _);
    [split; discriminate|reflexivity|reflexivity|].
  exists mark. split; [exact E|].
  specialize (S (or_introl eq_refl)).
  apply Forall2_length in S. rewrite S. reflexivity.
Defined.

End MarkPreviewProofs.
